(** * Neural-CPU-PL-0: the PL/0 virtual machine and its computation providers

    A shallow embedding of the interpreter of [pl0_cpu_sim.js] ([PL0CPU]),
    of the binary arithmetic provider of [neural_alu.js] ([NeuralALU]), of
    the unary math provider of [neural_math_narx.js] ([NeuralMathNARX]) and
    of the network of [narx.js] ([NARX]), followed by the properties of the
    specification that concern them.

    Conventions of the embedding.
    - Registers, memory cells and stack values are JavaScript numbers that
      hold integers; they are idealised as [Z].  JavaScript numbers that hold
      fractions (normalised values, weights, mixing factors) are idealised as
      exact rationals [Q]; IEEE rounding, NaN and the infinities are not
      represented.  Scale factors are assumed non-zero and the memory
      non-empty wherever a statement depends on it (JavaScript yields NaN
      there).
    - The transcendental functions of JavaScript's [Math] object are a
      parameter, the class [MathLib].
    - An instruction line is taken after tokenisation ([trim], [split],
      [toUpperCase], the register and bracket token patterns, [parseInt]):
      the type [instr] holds the mnemonic and its operand tokens.  Lines
      whose operand tokens do not match those patterns are not represented.
    - A thrown [Error] is the constructor [Throw] of [res].
    - Each executed instruction is labelled with the memory cells it touches
      and the provider calls it makes ([event]); the labels are not data of
      the source, they serve the statements about what a run reads, writes
      and calls. *)

From Stdlib Require Import ZArith QArith Qround Qminmax Qabs Lia Lqa Ascii.
From stdpp Require Import gmap strings list pretty.

Local Open Scope Z_scope.

(** ** JavaScript numbers *)

(** [Math.floor], [Math.round] (halves go up) and [Math.trunc]. *)
Definition Math_floor (x : Q) : Z := Qfloor x.

Definition Math_round (x : Q) : Z := Qfloor (x + (1 # 2))%Q.

Definition Math_trunc (x : Q) : Z :=
  if Qle_bool 0 x then Qfloor x else Qceiling x.

(** [Math.floor(a / b)] on two integers: the quotient is taken in the
    rationals, then floored. *)
Definition floor_div (a b : Z) : Z := Math_floor (inject_Z a / inject_Z b)%Q.

(** The remainder operator [%] of JavaScript takes the sign of the dividend. *)
Definition js_rem (a m : Z) : Z := Z.rem a m.

(** [Math.PI], the double nearest to pi, and the doubles that the decimal
    literals [1.3] and [1e-6] denote. *)
Definition Math_PI : Q := 884279719003555 # 281474976710656.

Definition lit_1_3 : Q := 5854679515581645 # 4503599627370496.

Definition lit_1e_6 : Q := 4722366482869645 # 4722366482869645213696.

(** The functions of [Math] that the repository calls on fractions.  They
    respect the equality of fractions. *)
Class MathLib := {
  Math_sin : Q -> Q;
  Math_cos : Q -> Q;
  Math_tan : Q -> Q;
  Math_tanh : Q -> Q;
  Math_sinh : Q -> Q;
  Math_cosh : Q -> Q;
  Math_log : Q -> Q;
  Math_log10 : Q -> Q;
  Math_exp : Q -> Q;
  Math_sqrt : Q -> Q;
  Math_sin_proper :: Proper (Qeq ==> Qeq) Math_sin;
  Math_cos_proper :: Proper (Qeq ==> Qeq) Math_cos;
  Math_tan_proper :: Proper (Qeq ==> Qeq) Math_tan;
  Math_tanh_proper :: Proper (Qeq ==> Qeq) Math_tanh;
  Math_sinh_proper :: Proper (Qeq ==> Qeq) Math_sinh;
  Math_cosh_proper :: Proper (Qeq ==> Qeq) Math_cosh;
  Math_log_proper :: Proper (Qeq ==> Qeq) Math_log;
  Math_log10_proper :: Proper (Qeq ==> Qeq) Math_log10;
  Math_exp_proper :: Proper (Qeq ==> Qeq) Math_exp;
  Math_sqrt_proper :: Proper (Qeq ==> Qeq) Math_sqrt
}.

(** A stand-in for [Math] made of rational functions, on which the
    embedding can be evaluated.  It is used for examples only: every
    statement below is about an arbitrary [MathLib]. *)
Definition rationalExp (x : Q) : Q :=
  if Qle_bool x 0 then (1 / (1 - x))%Q else (1 + x)%Q.

Definition rationalMath : MathLib.
Proof.
  refine {| Math_sin := fun x => (x - x * x * x / 6)%Q;
            Math_cos := fun x => (1 - x * x / 2)%Q;
            Math_tan := fun x => (x + x * x * x / 3)%Q;
            Math_tanh := fun x => (x / (1 + Qabs x))%Q;
            Math_sinh := fun x => (x + x * x * x / 6)%Q;
            Math_cosh := fun x => (1 + x * x / 2)%Q;
            Math_log := fun x => (x - 1)%Q;
            Math_log10 := fun x => ((x - 1) * (10 # 23))%Q;
            Math_exp := rationalExp;
            Math_sqrt := fun x => ((x + 1) / 2)%Q |};
    try solve_proper.
  intros x y E. unfold rationalExp.
  rewrite (Qleb_comp x y E 0 0 (Qeq_refl 0))%Q.
  destruct (Qle_bool y 0); rewrite E; reflexivity.
Defined.

(** ** Errors *)

Inductive error :=
  | RegisterOutOfRange (idx : nat)
  | DataStackOverflow
  | DataStackUnderflow
  | DivisionByZero
  | UnknownLabel (label : string)
  | NoCompiledProgram (programName : string)
  | UnknownInstruction (op : string)
  | ExceededMaxSteps (maxSteps : nat)
  | MLPInputDim (got : nat)
  | LinearNetInputDim (got : nat)
  | NARXCombinedLength (got : nat)
  | NARXUnsupportedOp
  | TypeError.

Inductive res (A : Type) :=
  | Ok (a : A)
  | Throw (e : error).
Arguments Ok {A} a.
Arguments Throw {A} e.

#[global] Instance res_ret : MRet res := fun _ a => Ok a.

#[global] Instance res_bind : MBind res := fun _ _ k r =>
  match r with
  | Ok a => k a
  | Throw e => Throw e
  end.

(** Reading a property of [undefined] throws a [TypeError]. *)
Definition defined {A} (o : option A) : res A :=
  match o with
  | Some a => Ok a
  | None => Throw TypeError
  end.

(** ** Helpers shared by the three files *)

(** [clamp(x, lo, hi) = Math.max(lo, Math.min(hi, x))], on fractions and on
    integers. *)
Definition clamp (x lo hi : Q) : Q := Qmax lo (Qmin hi x).

Definition clampZ (x lo hi : Z) : Z := Z.max lo (Z.min hi x).

Definition fxToFloat (xFx : Z) (fxScale : Q) : Q := (inject_Z xFx / fxScale)%Q.

Definition MAX_FX : Z := 0x7fffffff.

Definition floatToFx (x : Q) (fxScale : Q) : Z :=
  let v := Math_round (x * fxScale)%Q in
  clampZ v (- MAX_FX) MAX_FX.

(** JavaScript arrays used as stacks: [push] appends, [pop] removes the last
    element. *)
Definition array_push {A} (l : list A) (x : A) : list A := l ++ [x].

Definition array_pop {A} (l : list A) : option (A * list A) :=
  match last l with
  | Some x => Some (x, removelast l)
  | None => None
  end.

(** [h.pop(); h.unshift(x)]. *)
Definition shift_in {A} (h : list A) (x : A) : list A := x :: removelast h.

(** ** [narx.js]: the NARX network *)

Module Narx.
Section WithMath.
Context `{MathLib}.

Record NARX := {
  inputLag : nat;
  outputLag : nat;
  hiddenUnits : nat;
  learningRate : Q;
  inputSize : nat;
  weightsInputHidden : list (list Q);
  biasHidden : list Q;
  weightsHiddenOutput : list Q;
  biasOutput : Q
}.

(** [activation(x) = 1 / (1 + Math.exp(-x))]. *)
Definition activation (x : Q) : Q := (1 / (1 + Math_exp (- x)))%Q.

Record forwardResult := {
  hidden : list Q;
  output : Q;
  netOutput : Q
}.

(** [forward(combined)].  The arrays are read by index, as the two loops
    do; in a network built by the constructor every index read exists. *)
Definition forward (net : NARX) (combined : list Q) : res forwardResult :=
  if negb (length combined =? inputSize net)%nat
  then Throw (NARXCombinedLength (length combined))
  else
    let hidden :=
      map (fun h =>
             let wRow := nth h (weightsInputHidden net) [] in
             let sum :=
               fold_left (fun sum k => (sum + nth k wRow 0 * nth k combined 0)%Q)
                         (seq 0 (inputSize net)) (nth h (biasHidden net) 0%Q) in
             activation sum)
          (seq 0 (hiddenUnits net)) in
    let netOutput :=
      fold_left (fun acc h =>
                   (acc + nth h (weightsHiddenOutput net) 0 * nth h hidden 0)%Q)
                (seq 0 (hiddenUnits net)) (biasOutput net) in
    Ok {| hidden := hidden; output := activation netOutput;
          netOutput := netOutput |}.
End WithMath.
End Narx.

(** The operation tags of the two provider contracts. *)
Inductive ALUOp := ADD | SUB | MUL | DIV.

Inductive MathOp :=
  FSIN | FCOS | FTAN | FTANH | FSINH | FCOSH | FLN | FLOG10 | FEXP | FSQRT.

#[global] Instance ALUOp_eq_dec : EqDecision ALUOp.
Proof. solve_decision. Defined.

#[global] Instance MathOp_eq_dec : EqDecision MathOp.
Proof. solve_decision. Defined.

Definition ALUOp_index (op : ALUOp) : nat :=
  match op with ADD => 0 | SUB => 1 | MUL => 2 | DIV => 3 end.

Definition ALUOp_at (n : nat) : ALUOp :=
  match n with 0 => ADD | 1 => SUB | 2 => MUL | _ => DIV end%nat.

#[global] Instance ALUOp_countable : Countable ALUOp.
Proof. apply (inj_countable' ALUOp_index ALUOp_at). by intros []. Defined.

Definition MathOp_index (op : MathOp) : nat :=
  match op with
  | FSIN => 0 | FCOS => 1 | FTAN => 2 | FTANH => 3 | FSINH => 4
  | FCOSH => 5 | FLN => 6 | FLOG10 => 7 | FEXP => 8 | FSQRT => 9
  end.

Definition MathOp_at (n : nat) : MathOp :=
  match n with
  | 0 => FSIN | 1 => FCOS | 2 => FTAN | 3 => FTANH | 4 => FSINH
  | 5 => FCOSH | 6 => FLN | 7 => FLOG10 | 8 => FEXP | _ => FSQRT
  end%nat.

#[global] Instance MathOp_countable : Countable MathOp.
Proof. apply (inj_countable' MathOp_index MathOp_at). by intros []. Defined.

(** [x > y] on fractions. *)
Definition Qgtb (x y : Q) : bool := negb (Qle_bool x y).

(** ** [neural_alu.js]: the binary arithmetic provider *)

Module NeuralAlu.
Section WithMath.
Context `{MathLib}.

(** [a], [b] already normalised into [-1, 1]. *)
Definition featuresMLP (a b scale : Q) : list Q :=
  let mulNorm := clamp (a * b * scale) (-1) 1 in
  [a; b; mulNorm; Qabs a; Qabs b]%Q.

Definition featuresLinear (aInt bInt : Z) (scale : Q) : list Q :=
  let a := clamp (inject_Z aInt / scale) (-1) 1 in
  let b := clamp (inject_Z bInt / scale) (-1) 1 in
  let sum := clamp (inject_Z (aInt + bInt) / scale) (-1) 1 in
  let diff := clamp (inject_Z (aInt - bInt) / scale) (-1) 1 in
  let mul := clamp (inject_Z (aInt * bInt) / scale) (-1) 1 in
  let div := if bInt =? 0 then 0%Q
             else clamp ((inject_Z aInt / inject_Z bInt) / scale) (-1) 1 in
  let absB := clamp (inject_Z (Z.abs bInt) / scale) 0 1 in
  [a; b; sum; diff; mul; div; absB]%Q.

Record MLP := {
  mlp_hidden : nat;
  mlp_inputDim : nat;
  outputActivation : string;
  W1 : list (list Q);
  b1 : list Q;
  W2 : list Q;
  b2 : Q
}.

(** [MLP.predict(x) = forward(x).y]. *)
Definition MLP_predict (net : MLP) (x : list Q) : res Q :=
  if negb (length x =? mlp_inputDim net)%nat
  then Throw (MLPInputDim (length x))
  else
    let h :=
      map (fun i =>
             let z :=
               fold_left (fun z j => (z + nth j (nth i (W1 net) []) 0 * nth j x 0)%Q)
                         (seq 0 (mlp_inputDim net)) (nth i (b1 net) 0%Q) in
             Math_tanh z)
          (seq 0 (mlp_hidden net)) in
    let yRaw :=
      fold_left (fun yRaw i => (yRaw + nth i (W2 net) 0 * nth i h 0)%Q)
                (seq 0 (mlp_hidden net)) (b2 net) in
    Ok (if String.eqb (outputActivation net) "linear" then yRaw
        else Math_tanh yRaw).

Record LinearNet := {
  lin_inputDim : nat;
  w : list Q;
  b : Q
}.

Definition LinearNet_predict (net : LinearNet) (x : list Q) : res Q :=
  if negb (length x =? lin_inputDim net)%nat
  then Throw (LinearNetInputDim (length x))
  else
    Ok (fold_left (fun y i => (y + nth i (w net) 0 * nth i x 0)%Q)
                  (seq 0 (lin_inputDim net)) (b net)).

(** The constructor builds four [LinearNet]s or four [MLP]s. *)
Inductive Net :=
  | NetMLP (net : MLP)
  | NetLinear (net : LinearNet).

Definition predict (net : Net) (x : list Q) : res Q :=
  match net with
  | NetMLP n => MLP_predict n x
  | NetLinear n => LinearNet_predict n x
  end.

Record NeuralALU := {
  hidden : nat;
  scale : Q;
  architecture : string;
  mix : Q;
  safetyFallback : bool;
  fallbackAbsError : Q;
  divDecode : string;
  addNet : Net;
  subNet : Net;
  mulNet : Net;
  divNet : Net
}.

Definition _encInt (alu : NeuralALU) (x : Z) : Q :=
  clamp (inject_Z x / scale alu) (-1) 1.

Definition _decodeInt (alu : NeuralALU) (y : Q) (op : ALUOp) : Z :=
  let yy := (clamp y (-1) 1 * scale alu)%Q in
  match op with
  | DIV =>
      if String.eqb (divDecode alu) "trunc" then Math_trunc yy
      else if String.eqb (divDecode alu) "round" then Math_round yy
      else Math_floor yy
  | _ => Math_round yy
  end.

Record detail := {
  result : Z;
  exact : Z;
  pred : Z;
  mixed : Z;
  usedFallback : bool
}.

(** The exact reference of [computeDetailed]. *)
Definition exactOf (op : ALUOp) (aInt bInt : Z) : Z :=
  match op with
  | ADD => aInt + bInt
  | SUB => aInt - bInt
  | MUL => aInt * bInt
  | DIV => if bInt =? 0 then 0 else floor_div aInt bInt
  end.

Definition computeDetailed (alu : NeuralALU) (op : ALUOp) (aInt bInt : Z)
  : res detail :=
  (* Exact reference *)
  let exact := exactOf op aInt bInt in
  (* Neural prediction *)
  let a := _encInt alu aInt in
  let b := _encInt alu bInt in
  let x := if String.eqb (architecture alu) "linear"
           then featuresLinear aInt bInt (scale alu)
           else featuresMLP a b (scale alu) in
  y ← match op with
      | ADD => predict (addNet alu) x
      | SUB => predict (subNet alu) x
      | MUL => predict (mulNet alu) x
      | DIV => predict (divNet alu) x
      end;
  let pred := _decodeInt alu y op in
  (* Mix neural with exact *)
  let mixed :=
    Math_round (inject_Z exact * (1 - mix alu) + inject_Z pred * mix alu)%Q in
  let fallback :=
    safetyFallback alu
    && Qgtb (inject_Z (Z.abs (mixed - exact))) (fallbackAbsError alu) in
  Ok {| result := if fallback then exact else mixed;
        exact := exact; pred := pred; mixed := mixed;
        usedFallback := fallback |}.

Definition compute (alu : NeuralALU) (op : ALUOp) (aInt bInt : Z) : res Z :=
  d ← computeDetailed alu op aInt bInt; Ok (result d).

(** [new NeuralALU({architecture: 'linear', ...})] with the analytic
    initialisation that the constructor applies by default. *)
Definition analyticNet (k : nat) : Net :=
  NetLinear {| lin_inputDim := 7;
               w := <[k := 1%Q]> (replicate 7 0%Q);
               b := 0 |}.

Definition newLinearALU (scale mix : Q) (safetyFallback : bool)
    (fallbackAbsError : Q) (divDecode : string) : NeuralALU :=
  {| hidden := 32; scale := scale; architecture := "linear"; mix := mix;
     safetyFallback := safetyFallback; fallbackAbsError := fallbackAbsError;
     divDecode := divDecode;
     addNet := analyticNet 2; subNet := analyticNet 3;
     mulNet := analyticNet 4; divNet := analyticNet 5 |}.
End WithMath.
End NeuralAlu.

(** ** [neural_math_narx.js]: the unary math provider *)

Module NeuralMathNarx.
Section WithMath.
Context `{MathLib}.

Record opSpec := { inLo : Q; inHi : Q; outLo : Q; outHi : Q }.

Definition DEFAULT_OP_SPECS (op : MathOp) : opSpec :=
  match op with
  | FSIN | FCOS =>
      {| inLo := - Math_PI; inHi := Math_PI; outLo := -1; outHi := 1 |}
  | FTAN => {| inLo := - lit_1_3; inHi := lit_1_3; outLo := -8; outHi := 8 |}
  | FTANH => {| inLo := -3; inHi := 3; outLo := -1; outHi := 1 |}
  | FSINH => {| inLo := -3; inHi := 3; outLo := -8; outHi := 8 |}
  | FCOSH => {| inLo := -3; inHi := 3; outLo := 0; outHi := 10 |}
  | FLN | FLOG10 =>
      {| inLo := lit_1e_6; inHi := 256; outLo := -16; outHi := 16 |}
  | FEXP => {| inLo := -8; inHi := 8; outLo := 0; outHi := 256 |}
  | FSQRT => {| inLo := 0; inHi := 256; outLo := 0; outHi := 16 |}
  end%Q.

Definition all_ops : list MathOp :=
  [FSIN; FCOS; FTAN; FTANH; FSINH; FCOSH; FLN; FLOG10; FEXP; FSQRT].

Definition encodeNormFromRange (x lo hi : Q) : Q :=
  if negb (Qgtb hi lo) then 1 # 2
  else clamp ((x - lo) / (hi - lo)) 0 1.

Definition decodeNormToRange (u lo hi : Q) : Q :=
  let uu := clamp u 0 1 in
  (lo + uu * (hi - lo))%Q.

(** The deterministic reference of this file (the input is clamped into
    the range of [DEFAULT_OP_SPECS] first). *)
Definition refMathFx (op : MathOp) (xFx : Z) (scale : Q) : Z :=
  let spec := DEFAULT_OP_SPECS op in
  let x0 := fxToFloat xFx scale in
  let x := clamp x0 (inLo spec) (inHi spec) in
  match op with
  | FSIN => floatToFx (Math_sin x) scale
  | FCOS => floatToFx (Math_cos x) scale
  | FTAN => floatToFx (clamp (Math_tan x) (-8) 8) scale
  | FTANH => floatToFx (Math_tanh x) scale
  | FSINH => floatToFx (clamp (Math_sinh x) (-8) 8) scale
  | FCOSH => floatToFx (clamp (Math_cosh x) 0 10) scale
  | FLN =>
      if Qle_bool x 0 then floatToFx (outLo (DEFAULT_OP_SPECS FLN)) scale
      else floatToFx (clamp (Math_log x) (-16) 16) scale
  | FLOG10 =>
      if Qle_bool x 0 then floatToFx (outLo (DEFAULT_OP_SPECS FLOG10)) scale
      else floatToFx (clamp (Math_log10 x) (-16) 16) scale
  | FEXP => floatToFx (clamp (Math_exp x) 0 256) scale
  | FSQRT =>
      let y := if Qle_bool x 0 then 0%Q else Math_sqrt x in
      floatToFx (clamp y 0 16) scale
  end.

(** The per-op lag histories, [this.state[op]]. *)
Record opState := { inHist : list Q; outHist : list Q }.

Record mathStats := {
  enabled : bool;
  calls : gmap MathOp Z;
  fallbacks : gmap MathOp Z;
  absErrorSum : gmap MathOp Q
}.

Record NeuralMathNARX := {
  scale : Q;
  inputLag : nat;
  outputLag : nat;
  hiddenUnits : nat;
  mix : Q;
  safetyFallback : bool;
  fallbackAbsError : Q;
  opSpecs : gmap MathOp opSpec;
  ops : list MathOp;
  nets : gmap MathOp Narx.NARX;
  state : gmap MathOp opState;
  stats : mathStats
}.

Definition set_state (p : NeuralMathNARX) (st : gmap MathOp opState)
    (ss : mathStats) : NeuralMathNARX :=
  {| scale := scale p; inputLag := inputLag p; outputLag := outputLag p;
     hiddenUnits := hiddenUnits p; mix := mix p;
     safetyFallback := safetyFallback p;
     fallbackAbsError := fallbackAbsError p; opSpecs := opSpecs p;
     ops := ops p; nets := nets p; state := st; stats := ss |}.

Record detail := {
  result : Z;
  pred : Z;
  exact : Z;
  usedFallback : bool;
  outNorm : Q;
  exactNorm : Q;
  predNorm : Q
}.

(** [x || 0] on a counter that may be missing. *)
Definition or0 {A} (zero : A) (o : option A) : A := default zero o.

(** [computeDetailed(op, xFx)]: the result and the provider after the
    call (histories and statistics are updated in place).  When [forward]
    throws, which a provider built by the constructor never does, the source
    has already shifted the input history; the embedding reports the error
    alone. *)
Definition computeDetailed (p : NeuralMathNARX) (op : MathOp) (xFx : Z)
  : res (detail * NeuralMathNARX) :=
  match nets p !! op with
  | None => Throw NARXUnsupportedOp
  | Some net =>
      spec ← defined (opSpecs p !! op);
      s ← defined (state p !! op);
      let x := fxToFloat xFx (scale p) in
      let inNorm := encodeNormFromRange x (inLo spec) (inHi spec) in
      (* shift the current input into the input history *)
      let inHist' := shift_in (inHist s) inNorm in
      let combined := inHist' ++ outHist s in
      fw ← Narx.forward net combined;
      let ySig := Narx.output fw in
      let exactFx := refMathFx op xFx (scale p) in
      let exact := fxToFloat exactFx (scale p) in
      let exactNorm := encodeNormFromRange exact (outLo spec) (outHi spec) in
      let mixedNorm :=
        clamp (exactNorm * (1 - mix p) + ySig * mix p) 0 1 in
      let absErr := Qabs (ySig - exactNorm) in
      let usedFallback :=
        safetyFallback p && Qgtb absErr (fallbackAbsError p) in
      let outNorm := if usedFallback then exactNorm else mixedNorm in
      (* update the output history *)
      let outHist' := shift_in (outHist s) (clamp outNorm 0 1) in
      let resultFloat := decodeNormToRange outNorm (outLo spec) (outHi spec) in
      let predFloat := decodeNormToRange ySig (outLo spec) (outHi spec) in
      let result := floatToFx resultFloat (scale p) in
      let pred := floatToFx predFloat (scale p) in
      let st := stats p in
      let stats' :=
        {| enabled := enabled st;
           calls := <[op := or0 0 (calls st !! op) + 1]> (calls st);
           fallbacks :=
             if usedFallback
             then <[op := or0 0 (fallbacks st !! op) + 1]> (fallbacks st)
             else fallbacks st;
           absErrorSum :=
             <[op := (or0 0%Q (absErrorSum st !! op) + absErr)%Q]>
               (absErrorSum st) |} in
      let state' :=
        <[op := {| inHist := inHist'; outHist := outHist' |}]> (state p) in
      Ok ({| result := result; pred := pred; exact := exactFx;
             usedFallback := usedFallback; outNorm := outNorm;
             exactNorm := exactNorm; predNorm := ySig |},
          set_state p state' stats')
  end.

Definition compute (p : NeuralMathNARX) (op : MathOp) (xFx : Z)
  : res (Z * NeuralMathNARX) :=
  '(d, p') ← computeDetailed p op xFx; Ok (result d, p').

(** [new NeuralMathNARX(options)].  The constructor creates one network
    per op with random weights; here the networks are an argument.  The
    lag histories start filled with zeros. *)
Definition new_NeuralMathNARX (scale : Q) (inputLag outputLag hiddenUnits : nat)
    (mix : Q) (safetyFallback : bool) (fallbackAbsError : Q)
    (ops : list MathOp) (net : MathOp -> Narx.NARX) : NeuralMathNARX :=
  let zeros : gmap MathOp Z := list_to_map ((fun op => (op, 0)) <$> ops) in
  {| scale := scale; inputLag := inputLag; outputLag := outputLag;
     hiddenUnits := hiddenUnits; mix := mix;
     safetyFallback := safetyFallback;
     fallbackAbsError := fallbackAbsError;
     opSpecs := list_to_map ((fun op => (op, DEFAULT_OP_SPECS op)) <$> all_ops);
     ops := ops;
     nets := list_to_map ((fun op => (op, net op)) <$> ops);
     state :=
       list_to_map
         ((fun op => (op, {| inHist := replicate inputLag 0%Q;
                             outHist := replicate outputLag 0%Q |})) <$> ops);
     stats := {| enabled := true; calls := zeros; fallbacks := zeros;
                 absErrorSum := list_to_map ((fun op => (op, 0%Q)) <$> ops) |} |}.

(** The loop of [reset] over [this.ops]: both histories of the op are
    filled with zeros in place ([fill] keeps their lengths); an op without
    a state throws. *)
Fixpoint resetOps (ops : list MathOp) (st : gmap MathOp opState)
  : res (gmap MathOp opState) :=
  match ops with
  | [] => Ok st
  | op :: rest =>
      s ← defined (st !! op);
      resetOps rest
        (<[op := {| inHist := replicate (length (inHist s)) 0%Q;
                    outHist := replicate (length (outHist s)) 0%Q |}]> st)
  end.

(** [reset()]. *)
Definition reset (p : NeuralMathNARX) : res NeuralMathNARX :=
  st ← resetOps (ops p) (state p);
  Ok (set_state p st (stats p)).
End WithMath.
End NeuralMathNarx.

(** A provider with one op and the shortest histories,
    [new NeuralMathNARX({inputLag: 1, outputLag: 1, hiddenUnits: 1,
    safetyFallback: false, ops: ['FSIN']})], whose network has the weights
    below: the hidden unit reads the previous output only. *)
Definition statefulNet : Narx.NARX :=
  {| Narx.inputLag := 1; Narx.outputLag := 1; Narx.hiddenUnits := 1;
     Narx.learningRate := 1 # 100; Narx.inputSize := 2;
     Narx.weightsInputHidden := [[0; 4]%Q]; Narx.biasHidden := [0%Q];
     Narx.weightsHiddenOutput := [8%Q]; Narx.biasOutput := (-4)%Q |}.

Definition statefulProvider : NeuralMathNarx.NeuralMathNARX :=
  NeuralMathNarx.new_NeuralMathNARX 65536 1 1 1 1 false (1 # 1000) [FSIN]
    (fun _ => statefulNet).

(** ** [pl0_cpu_sim.js]: the virtual machine *)

Module Pl0CpuSim.
Section WithMath.
Context `{MathLib}.

(** The deterministic reference for the unary math ops. *)
Definition refMathFx (op : MathOp) (xFx : Z) (fxScale : Q) : Z :=
  let x0 := fxToFloat xFx fxScale in
  let x := x0 in
  match op with
  | FSIN => floatToFx (Math_sin (clamp x (- Math_PI) Math_PI)) fxScale
  | FCOS => floatToFx (Math_cos (clamp x (- Math_PI) Math_PI)) fxScale
  | FTAN =>
      let x := clamp x (- lit_1_3) lit_1_3 in
      let t := Math_tan x in
      floatToFx (clamp t (-8) 8) fxScale
  | FTANH => floatToFx (Math_tanh (clamp x (-3) 3)) fxScale
  | FSINH => floatToFx (clamp (Math_sinh (clamp x (-3) 3)) (-8) 8) fxScale
  | FCOSH => floatToFx (clamp (Math_cosh (clamp x (-3) 3)) 0 10) fxScale
  | FLN =>
      if Qle_bool x 0 then floatToFx (-16) fxScale
      else
        let x := clamp x lit_1e_6 256 in
        floatToFx (clamp (Math_log x) (-16) 16) fxScale
  | FLOG10 =>
      if Qle_bool x 0 then floatToFx (-16) fxScale
      else
        let x := clamp x lit_1e_6 256 in
        floatToFx (clamp (Math_log10 x) (-16) 16) fxScale
  | FEXP =>
      let x := clamp x (-8) 8 in
      floatToFx (clamp (Math_exp x) 0 256) fxScale
  | FSQRT =>
      let x := clamp x 0 256 in
      let y := if Qle_bool x 0 then 0%Q else Math_sqrt x in
      floatToFx (clamp y 0 16) fxScale
  end.

(** *** Instructions *)

(** A bracketed operand token: [[r1]] or [[30]]. *)
Inductive addrToken :=
  | BracketReg (idx : nat)
  | BracketImm (addr : Z).

(** The second operand of [LOAD]: [#imm] or a bracketed token. *)
Inductive valToken :=
  | Hash (imm : Z)
  | Bracket (t : addrToken).

(** A line of the instruction text.  Register operands are the index
    written after [r], not yet checked against the register count. *)
Inductive instr :=
  | Blank
  | Label (name : string)
  | LOAD (regTok : nat) (valTok : valToken)
  | STORE (regTok : nat) (addrTok : addrToken)
  | PEEK (regTok : nat) (addrTok : addrToken)
  | POKE (regTok : nat) (addrTok : addrToken)
  | PUSH (regTok : nat)
  | POP (regTok : nat)
  | Arith (op : ALUOp) (rxTok ryTok : nat)
  | FMath (op : MathOp) (regTok : nat)
  | JMP (label : string)
  | JZ (rxTok : nat) (label : string)
  | JNZ (rxTok : nat) (label : string)
  | CALL (label : string)
  | PL0CALL (programName : string)
  | RET
  | HALT
  | Unknown (op : string).

(** *** Machine state *)

(** An entry of the call stack: a bare return index ([CALL]) or a context
    frame ([PL0CALL]). *)
Inductive callEntry :=
  | RetAddr (top : nat)
  | Frame (instructions : list instr) (labelMap : gmap string nat)
          (returnPointer : nat).

(** A configured binary provider: an object with [computeDetailed] (the
    [NeuralALU] of the repository) or one that offers [compute] only. *)
Inductive aluProvider :=
  | Detailed (alu : NeuralAlu.NeuralALU)
  | ComputeOnly (compute : ALUOp -> Z -> Z -> Z).

(** A configured unary provider, likewise. *)
Inductive mathProvider :=
  | DetailedMath (p : NeuralMathNarx.NeuralMathNARX)
  | ComputeOnlyMath (compute : MathOp -> Z -> Z).

Record aluStats := {
  enabled : bool;
  ops : gmap ALUOp Z;
  fallbacks : gmap ALUOp Z;
  absErrorSum : gmap ALUOp Z
}.

Record PL0CPU := {
  numRegs : nat;
  regs : list Z;
  memory : list Z;
  instructions : list instr;
  pointer : nat;
  running : bool;
  labelMap : gmap string nat;
  callStack : list callEntry;
  dataStack : list Z;
  dataStackMax : nat;
  fxScale : Q;
  neuralALU : option aluProvider;
  neuralMath : option mathProvider;
  trackNeuralStats : bool;
  neuralStats : aluStats
}.

(** [this.neuralMathStats] is the [stats] object of the provider itself. *)
Definition neuralMathStats (s : PL0CPU) : option NeuralMathNarx.mathStats :=
  match neuralMath s with
  | Some (DetailedMath p) => Some (NeuralMathNarx.stats p)
  | _ => None
  end.

Definition set_regs (s : PL0CPU) (v : list Z) : PL0CPU :=
  {| numRegs := numRegs s; regs := v; memory := memory s;
     instructions := instructions s; pointer := pointer s;
     running := running s; labelMap := labelMap s;
     callStack := callStack s; dataStack := dataStack s;
     dataStackMax := dataStackMax s; fxScale := fxScale s;
     neuralALU := neuralALU s; neuralMath := neuralMath s;
     trackNeuralStats := trackNeuralStats s;
     neuralStats := neuralStats s |}.

Definition set_memory (s : PL0CPU) (v : list Z) : PL0CPU :=
  {| numRegs := numRegs s; regs := regs s; memory := v;
     instructions := instructions s; pointer := pointer s;
     running := running s; labelMap := labelMap s;
     callStack := callStack s; dataStack := dataStack s;
     dataStackMax := dataStackMax s; fxScale := fxScale s;
     neuralALU := neuralALU s; neuralMath := neuralMath s;
     trackNeuralStats := trackNeuralStats s;
     neuralStats := neuralStats s |}.

Definition set_pointer (s : PL0CPU) (v : nat) : PL0CPU :=
  {| numRegs := numRegs s; regs := regs s; memory := memory s;
     instructions := instructions s; pointer := v; running := running s;
     labelMap := labelMap s; callStack := callStack s;
     dataStack := dataStack s; dataStackMax := dataStackMax s;
     fxScale := fxScale s; neuralALU := neuralALU s;
     neuralMath := neuralMath s; trackNeuralStats := trackNeuralStats s;
     neuralStats := neuralStats s |}.

Definition set_running (s : PL0CPU) (v : bool) : PL0CPU :=
  {| numRegs := numRegs s; regs := regs s; memory := memory s;
     instructions := instructions s; pointer := pointer s; running := v;
     labelMap := labelMap s; callStack := callStack s;
     dataStack := dataStack s; dataStackMax := dataStackMax s;
     fxScale := fxScale s; neuralALU := neuralALU s;
     neuralMath := neuralMath s; trackNeuralStats := trackNeuralStats s;
     neuralStats := neuralStats s |}.

Definition set_labelMap (s : PL0CPU) (v : gmap string nat) : PL0CPU :=
  {| numRegs := numRegs s; regs := regs s; memory := memory s;
     instructions := instructions s; pointer := pointer s;
     running := running s; labelMap := v; callStack := callStack s;
     dataStack := dataStack s; dataStackMax := dataStackMax s;
     fxScale := fxScale s; neuralALU := neuralALU s;
     neuralMath := neuralMath s; trackNeuralStats := trackNeuralStats s;
     neuralStats := neuralStats s |}.

Definition set_instructions (s : PL0CPU) (v : list instr) : PL0CPU :=
  {| numRegs := numRegs s; regs := regs s; memory := memory s;
     instructions := v; pointer := pointer s; running := running s;
     labelMap := labelMap s; callStack := callStack s;
     dataStack := dataStack s; dataStackMax := dataStackMax s;
     fxScale := fxScale s; neuralALU := neuralALU s;
     neuralMath := neuralMath s; trackNeuralStats := trackNeuralStats s;
     neuralStats := neuralStats s |}.

Definition set_callStack (s : PL0CPU) (v : list callEntry) : PL0CPU :=
  {| numRegs := numRegs s; regs := regs s; memory := memory s;
     instructions := instructions s; pointer := pointer s;
     running := running s; labelMap := labelMap s; callStack := v;
     dataStack := dataStack s; dataStackMax := dataStackMax s;
     fxScale := fxScale s; neuralALU := neuralALU s;
     neuralMath := neuralMath s; trackNeuralStats := trackNeuralStats s;
     neuralStats := neuralStats s |}.

Definition set_dataStack (s : PL0CPU) (v : list Z) : PL0CPU :=
  {| numRegs := numRegs s; regs := regs s; memory := memory s;
     instructions := instructions s; pointer := pointer s;
     running := running s; labelMap := labelMap s;
     callStack := callStack s; dataStack := v;
     dataStackMax := dataStackMax s; fxScale := fxScale s;
     neuralALU := neuralALU s; neuralMath := neuralMath s;
     trackNeuralStats := trackNeuralStats s;
     neuralStats := neuralStats s |}.

Definition set_neuralMath (s : PL0CPU) (v : option mathProvider) : PL0CPU :=
  {| numRegs := numRegs s; regs := regs s; memory := memory s;
     instructions := instructions s; pointer := pointer s;
     running := running s; labelMap := labelMap s;
     callStack := callStack s; dataStack := dataStack s;
     dataStackMax := dataStackMax s; fxScale := fxScale s;
     neuralALU := neuralALU s; neuralMath := v;
     trackNeuralStats := trackNeuralStats s;
     neuralStats := neuralStats s |}.

Definition set_neuralStats (s : PL0CPU) (v : aluStats) : PL0CPU :=
  {| numRegs := numRegs s; regs := regs s; memory := memory s;
     instructions := instructions s; pointer := pointer s;
     running := running s; labelMap := labelMap s;
     callStack := callStack s; dataStack := dataStack s;
     dataStackMax := dataStackMax s; fxScale := fxScale s;
     neuralALU := neuralALU s; neuralMath := neuralMath s;
     trackNeuralStats := trackNeuralStats s; neuralStats := v |}.

Definition zeroStats : gmap ALUOp Z :=
  <[ADD := 0]> (<[SUB := 0]> (<[MUL := 0]> (<[DIV := 0]> ∅))).

(** [new PL0CPU(numRegs, memorySize, dataStackSize, options)]. *)
Definition new_PL0CPU (numRegs memorySize dataStackSize : nat)
    (fxScale : Q) (neuralALU : option aluProvider)
    (neuralMath : option mathProvider) : PL0CPU :=
  {| numRegs := numRegs;
     regs := replicate numRegs 0;
     memory := replicate memorySize 0;
     instructions := [];
     pointer := 0;
     running := false;
     labelMap := ∅;
     callStack := [];
     dataStack := [];
     dataStackMax := dataStackSize;
     fxScale := fxScale;
     neuralALU := neuralALU;
     neuralMath := neuralMath;
     trackNeuralStats := bool_decide (is_Some neuralALU)
                         || bool_decide (is_Some neuralMath);
     neuralStats := {| enabled := bool_decide (is_Some neuralALU);
                       ops := zeroStats; fallbacks := zeroStats;
                       absErrorSum := zeroStats |} |}.

Definition addInstructions (s : PL0CPU) (lines : list instr) : PL0CPU :=
  set_instructions s (instructions s ++ lines).

(** [buildLabelMap]: a later label of the same name replaces an earlier
    one. *)
Fixpoint labelsFrom (i : nat) (lines : list instr) (m : gmap string nat)
  : gmap string nat :=
  match lines with
  | [] => m
  | Label name :: rest => labelsFrom (S i) rest (<[name := i]> m)
  | _ :: rest => labelsFrom (S i) rest m
  end.

Definition buildLabelMap (s : PL0CPU) : PL0CPU :=
  set_labelMap s (labelsFrom 0 (instructions s) ∅).

Definition _parseReg (s : PL0CPU) (idx : nat) : res nat :=
  if (numRegs s <=? idx)%nat then Throw (RegisterOutOfRange idx) else Ok idx.

(** The result of [_parseAddrBracket]. *)
Inductive addrSpec :=
  | ModeReg (reg : nat)
  | ModeImm (addr : Z).

Definition _parseAddrBracket (s : PL0CPU) (token : addrToken) : res addrSpec :=
  match token with
  | BracketReg idx => r ← _parseReg s idx; Ok (ModeReg r)
  | BracketImm addr => Ok (ModeImm addr)
  end.

(** [this.regs[r]], for an index that [_parseReg] has accepted. *)
Definition getReg (s : PL0CPU) (r : nat) : Z := default 0 (regs s !! r).

Definition setReg (s : PL0CPU) (r : nat) (v : Z) : PL0CPU :=
  set_regs s (<[r := v]> (regs s)).

(** [_loadAddr]: the address is brought into the memory range with
    [((addr % m) + m) % m]. *)
Definition _loadAddr (s : PL0CPU) (spec : addrSpec) : Z :=
  let addr := match spec with
              | ModeReg reg => getReg s reg
              | ModeImm addr => addr
              end in
  let m := Z.of_nat (length (memory s)) in
  js_rem (js_rem addr m + m) m.

(** [this.memory[a] ?? 0] and [this.memory[a] = v]. *)
Definition readMem (s : PL0CPU) (a : Z) : Z :=
  default 0 (memory s !! Z.to_nat a).

Definition writeMem (s : PL0CPU) (a : Z) (v : Z) : PL0CPU :=
  set_memory s (<[Z.to_nat a := v]> (memory s)).

Definition advance (s : PL0CPU) : PL0CPU := set_pointer s (S (pointer s)).

(** What an executed instruction does outside the machine state proper:
    the memory cells it reads or writes and the provider calls it makes,
    in order.  These labels are not data of the source; they let the
    statements below speak about which cells and which providers an
    execution touches. *)
Inductive event :=
  | MemRead (a : Z)
  | MemWrite (a : Z)
  | ALUCall (op : ALUOp) (a b : Z)
  | MathCall (op : MathOp) (x : Z).

(** The exact path of the four arithmetic instructions. *)
Definition native (op : ALUOp) (a b : Z) : Z :=
  match op with
  | ADD => a + b
  | SUB => a - b
  | MUL => a * b
  | DIV => floor_div a b
  end.

(** [if (this.trackNeuralStats) { ... }] after a [computeDetailed] call:
    one more op, the absolute error of the prediction, one more fallback
    if there was one. *)
Definition trackDetailed (s : PL0CPU) (op : ALUOp) (d : NeuralAlu.detail)
  : PL0CPU :=
  if trackNeuralStats s then
    let st := neuralStats s in
    set_neuralStats s
      {| enabled := enabled st;
         ops := alter (Z.add 1) op (ops st);
         fallbacks := if NeuralAlu.usedFallback d
                      then alter (Z.add 1) op (fallbacks st)
                      else fallbacks st;
         absErrorSum :=
           alter (Z.add (Z.abs (NeuralAlu.pred d - NeuralAlu.exact d)))
                 op (absErrorSum st) |}
  else s.

(** The same after a plain [compute] call: one more op. *)
Definition trackCompute (s : PL0CPU) (op : ALUOp) : PL0CPU :=
  if trackNeuralStats s then
    let st := neuralStats s in
    set_neuralStats s
      {| enabled := enabled st; ops := alter (Z.add 1) op (ops st);
         fallbacks := fallbacks st; absErrorSum := absErrorSum st |}
  else s.

(** The body shared by the [ADD], [SUB], [MUL] and [DIV] cases after the
    operands are parsed (and, for [DIV], after the zero check). *)
Definition arith (s : PL0CPU) (op : ALUOp) (rX rY : nat)
  : res (PL0CPU * list event) :=
  let a := getReg s rX in
  let b := getReg s rY in
  match neuralALU s with
  | Some (Detailed alu) =>
      d ← NeuralAlu.computeDetailed alu op a b;
      let s1 := setReg s rX (NeuralAlu.result d) in
      Ok (advance (trackDetailed s1 op d), [ALUCall op a b])
  | Some (ComputeOnly compute) =>
      let s1 := setReg s rX (compute op a b) in
      Ok (advance (trackCompute s1 op), [ALUCall op a b])
  | None => Ok (advance (setReg s rX (native op a b)), [])
  end.

(** [programName.endsWith(',')] and [programName.slice(0, -1)]. *)
Definition stripComma (name : string) : string :=
  let cs := String.list_ascii_of_string name in
  match last cs with
  | Some ","%char => String.string_of_list_ascii (removelast cs)
  | _ => name
  end.

(** One case of the [switch] of [execute], for the line at the pointer. *)
Definition dispatch (PL0Programs : gmap string (list instr)) (s : PL0CPU)
    (line : instr) : res (PL0CPU * list event) :=
  match line with
  | Blank => Ok (advance s, [])
  | Label _ => Ok (advance s, [])
  | LOAD regTok valTok =>
      rX ← _parseReg s regTok;
      match valTok with
      | Hash imm => Ok (advance (setReg s rX imm), [])
      | Bracket tok =>
          spec ← _parseAddrBracket s tok;
          let a := _loadAddr s spec in
          Ok (advance (setReg s rX (readMem s a)), [MemRead a])
      end
  | STORE regTok addrTok =>
      rX ← _parseReg s regTok;
      spec ← _parseAddrBracket s addrTok;
      let a := _loadAddr s spec in
      Ok (advance (writeMem s a (getReg s rX)), [MemWrite a])
  | PEEK regTok addrTok =>
      rX ← _parseReg s regTok;
      spec ← _parseAddrBracket s addrTok;
      let a := _loadAddr s spec in
      Ok (advance (setReg s rX (readMem s a)), [MemRead a])
  | POKE regTok addrTok =>
      rX ← _parseReg s regTok;
      spec ← _parseAddrBracket s addrTok;
      let a := _loadAddr s spec in
      Ok (advance (writeMem s a (getReg s rX)), [MemWrite a])
  | PUSH regTok =>
      rX ← _parseReg s regTok;
      if (dataStackMax s <=? length (dataStack s))%nat
      then Throw DataStackOverflow
      else Ok (advance (set_dataStack s (array_push (dataStack s) (getReg s rX))),
               [])
  | POP regTok =>
      rX ← _parseReg s regTok;
      match array_pop (dataStack s) with
      | None => Throw DataStackUnderflow
      | Some (v, rest) => Ok (advance (setReg (set_dataStack s rest) rX v), [])
      end
  | Arith DIV rxTok ryTok =>
      rX ← _parseReg s rxTok;
      rY ← _parseReg s ryTok;
      if getReg s rY =? 0 then Throw DivisionByZero
      else arith s DIV rX rY
  | Arith op rxTok ryTok =>
      rX ← _parseReg s rxTok;
      rY ← _parseReg s ryTok;
      arith s op rX rY
  | FMath opName regTok =>
      rX ← _parseReg s regTok;
      match neuralMath s with
      | Some (DetailedMath p) =>
          '(d, p') ← NeuralMathNarx.computeDetailed p opName (getReg s rX);
          Ok (advance (setReg (set_neuralMath s (Some (DetailedMath p'))) rX
                              (NeuralMathNarx.result d)),
              [MathCall opName (getReg s rX)])
      | Some (ComputeOnlyMath compute) =>
          Ok (advance (setReg s rX (compute opName (getReg s rX))),
              [MathCall opName (getReg s rX)])
      | None =>
          Ok (advance (setReg s rX (refMathFx opName (getReg s rX) (fxScale s))),
              [])
      end
  | JMP label =>
      match labelMap s !! label with
      | None => Throw (UnknownLabel label)
      | Some target => Ok (set_pointer s target, [])
      end
  | JZ rxTok label =>
      rX ← _parseReg s rxTok;
      match labelMap s !! label with
      | None => Throw (UnknownLabel label)
      | Some target =>
          Ok (set_pointer s (if getReg s rX =? 0 then target
                             else S (pointer s)), [])
      end
  | JNZ rxTok label =>
      rX ← _parseReg s rxTok;
      match labelMap s !! label with
      | None => Throw (UnknownLabel label)
      | Some target =>
          Ok (set_pointer s (if negb (getReg s rX =? 0) then target
                             else S (pointer s)), [])
      end
  | CALL label =>
      match labelMap s !! label with
      | None => Throw (UnknownLabel label)
      | Some target =>
          Ok (set_pointer
                (set_callStack s (array_push (callStack s)
                                             (RetAddr (S (pointer s)))))
                target, [])
      end
  | PL0CALL programName =>
      let programName := stripComma programName in
      match PL0Programs !! programName with
      | None => Throw (NoCompiledProgram programName)
      | Some newInstrs =>
          (* Save current context *)
          let saved := Frame (instructions s) (labelMap s) (S (pointer s)) in
          let s1 := set_callStack s (array_push (callStack s) saved) in
          (* Switch to callee *)
          let s2 := set_instructions s1 newInstrs in
          let s3 := buildLabelMap s2 in
          Ok (set_pointer s3 0, [])
      end
  | RET =>
      match array_pop (callStack s) with
      | None => Ok (set_running s false, [])
      | Some (RetAddr top, rest) =>
          Ok (set_pointer (set_callStack s rest) top, [])
      | Some (Frame instrs lm returnPointer, rest) =>
          Ok (set_pointer
                (set_labelMap (set_instructions (set_callStack s rest) instrs) lm)
                returnPointer, [])
      end
  | HALT => Ok (advance (set_running s false), [])
  | Unknown op => Throw (UnknownInstruction op)
  end.

(** The body of the [while] loop of [execute] after the step check: fetch
    the line at the pointer and dispatch on it. *)
Definition step (PL0Programs : gmap string (list instr)) (s : PL0CPU)
  : res (PL0CPU * list event) :=
  line ← defined (instructions s !! pointer s);
  dispatch PL0Programs s line.

(** How [execute] ends: the machine as it is left, the labels of the
    instructions executed, the final value of the counter [steps], and the
    error thrown, if any. *)
Record run := {
  final : PL0CPU;
  events : list event;
  steps : nat;
  thrown : option error
}.

(** The [while] loop of [execute].  [steps] is the counter before the
    test [steps++ > maxSteps]. *)
Fixpoint loop (fuel : nat) (PL0Programs : gmap string (list instr))
    (maxSteps steps : nat) (s : PL0CPU) (tr : list event) : option run :=
  if running s && (pointer s <? length (instructions s))%nat then
    if (maxSteps <? steps)%nat then
      Some {| final := s; events := tr; steps := S steps;
              thrown := Some (ExceededMaxSteps maxSteps) |}
    else
      match fuel with
      | O => None
      | S fuel' =>
          match step PL0Programs s with
          | Throw e =>
              Some {| final := s; events := tr; steps := S steps;
                      thrown := Some e |}
          | Ok (s', evs) =>
              loop fuel' PL0Programs maxSteps (S steps) s' (tr ++ evs)
          end
      end
  else Some {| final := s; events := tr; steps := steps; thrown := None |}.

(** [execute(maxSteps)].  The loop body runs at most [maxSteps + 1] times
    before the test throws, so [maxSteps + 2] units of fuel are enough (see
    [execute_total]). *)
Definition execute (PL0Programs : gmap string (list instr)) (s : PL0CPU)
    (maxSteps : nat) : option run :=
  let s := buildLabelMap s in
  let s := set_pointer s 0 in
  let s := set_running s true in
  loop (maxSteps + 2) PL0Programs maxSteps 0 s [].

(** [n] consecutive passes through the loop body, for statements about a
    stretch of straight-line code: the machine after them, or the first
    error. *)
Fixpoint stepN (PL0Programs : gmap string (list instr)) (n : nat)
    (s : PL0CPU) : res PL0CPU :=
  match n with
  | O => Ok s
  | S n' => '(s', _) ← step PL0Programs s; stepN PL0Programs n' s'
  end.

(** The lines [code] sit in the active sequence from index [p] on. *)
Definition codeAt (s : PL0CPU) (p : nat) (code : list instr) : Prop :=
  forall i line, code !! i = Some line ->
                 instructions s !! (p + i)%nat = Some line.
End WithMath.
End Pl0CpuSim.

Import Pl0CpuSim.

(** ** [neural_cpu_ga.js]: the reference CPU of the genetic trainer *)

(** The part of the file that defines the ground truth the networks are
    trained against: a small register machine on bytes, its runner and the
    encodings of bytes, states and instructions.  The register file is a
    JavaScript array indexed by whatever the instruction names; it is a
    finite map here, absent keys reading as [undefined], which every reader
    in the source turns into 0 by [& 0xff].  Integers are idealised as [Z],
    on which [x & 0xff] is [Z.land x 255]. *)
Module NeuralCpuGa.

Inductive Opcode :=
  | ADD | SUB | ADDI | AND | OR | XOR | LD | ST | BEQ | JMP
  | FSIN | FCOS | FTAN | FTANH | FSINH | FCOSH | FLN | FLOG10 | FEXP | FSQRT
  | HALT.

(** The table [OPCODES] and its inverse on the numbers it holds. *)
Definition OPCODES (op : Opcode) : Z :=
  match op with
  | ADD => 0 | SUB => 1 | ADDI => 2 | AND => 3 | OR => 4 | XOR => 5
  | LD => 6 | ST => 7 | BEQ => 8 | JMP => 9
  | FSIN => 10 | FCOS => 11 | FTAN => 12 | FTANH => 13 | FSINH => 14
  | FCOSH => 15 | FLN => 16 | FLOG10 => 17 | FEXP => 18 | FSQRT => 19
  | HALT => 20
  end.

Definition opcodeOf (n : Z) : option Opcode :=
  match n with
  | 0 => Some ADD | 1 => Some SUB | 2 => Some ADDI | 3 => Some AND
  | 4 => Some OR | 5 => Some XOR | 6 => Some LD | 7 => Some ST
  | 8 => Some BEQ | 9 => Some JMP
  | 10 => Some FSIN | 11 => Some FCOS | 12 => Some FTAN | 13 => Some FTANH
  | 14 => Some FSINH | 15 => Some FCOSH | 16 => Some FLN | 17 => Some FLOG10
  | 18 => Some FEXP | 19 => Some FSQRT
  | 20 => Some HALT
  | _ => None
  end.

Definition NUM_REGS : nat := 4.
Definition MEM_SIZE : Z := 16.
Definition NUM_OPCODES : nat := 21.
Definition REG_BITS : nat := NUM_REGS.

(** The double that the literal [0.1] denotes. *)
Definition lit_0_1 : Q := 3602879701896397 # 36028797018963968.

Record instr := { opcode : Z; rd : Z; rs1 : Z; rs2 : Z; imm : Z }.

Record state := { pc : Z; regs : gmap Z Z; halted : bool }.

Definition makeInitialState : state :=
  {| pc := 0; regs := {[0 := 0; 1 := 0; 2 := 0; 3 := 0]}; halted := false |}.

Definition u8 (x : Z) : Z := Z.land x 255.

(** [R(i)] inside [refStepCPU]: register 0 reads as 0. *)
Definition R (regs : gmap Z Z) (i : Z) : Z :=
  if i =? 0 then 0 else Z.land (default 0 (regs !! i)) 255.

(** [if (rd !== 0) regs[rd] = v]. *)
Definition writeRd (regs : gmap Z Z) (rd : Z) (v : Z) : gmap Z Z :=
  if rd =? 0 then regs else <[rd := v]> regs.

Section WithMath.
Context `{MathLib}.

(** The byte that each of the unary ops computes from the byte [b]. *)
Definition encodedOf (op : Opcode) (b : Z) : Z :=
  let byte := inject_Z b in
  match op with
  | FSIN =>
      let angle := (byte / 255 * 2 * Math_PI - Math_PI)%Q in
      let s := Math_sin angle in
      Math_round ((s + 1) / 2 * 255)
  | FCOS =>
      let angle := (byte / 255 * 2 * Math_PI - Math_PI)%Q in
      let c := Math_cos angle in
      Math_round ((c + 1) / 2 * 255)
  | FTAN =>
      let eps := lit_0_1 in
      let maxAngle := (Math_PI / 2 - eps)%Q in
      let angle := (byte / 255 * (2 * maxAngle) - maxAngle)%Q in
      let y := Math_tan angle in
      let scale := Math_tan maxAngle in
      let yNorm := ((y / scale + 1) / 2)%Q in
      Math_round (Qmax 0 (Qmin 1 yNorm) * 255)
  | FTANH =>
      let x := (byte / 255 * 6 - 3)%Q in
      let y := Math_tanh x in
      Math_round ((y + 1) / 2 * 255)
  | FSINH =>
      let x := (byte / 255 * 4 - 2)%Q in
      let y := Math_sinh x in
      let scale := Math_sinh 2 in
      let yNorm := ((y / scale + 1) / 2)%Q in
      Math_round (Qmax 0 (Qmin 1 yNorm) * 255)
  | FCOSH =>
      let x := (byte / 255 * 4 - 2)%Q in
      let y := Math_cosh x in
      let yNorm := ((y - 1) / (Math_cosh 2 - 1))%Q in
      Math_round (Qmax 0 (Qmin 1 yNorm) * 255)
  | FLN =>
      let x := (1 + byte)%Q in
      let yNorm := (Math_log x / Math_log 256)%Q in
      Math_round (yNorm * 255)
  | FLOG10 =>
      let x := (1 + byte)%Q in
      let yNorm := (Math_log10 x / Math_log10 256)%Q in
      Math_round (yNorm * 255)
  | FEXP =>
      let x := (byte / 255 * Math_log 256)%Q in
      let y := (Math_exp x - 1)%Q in
      Math_round (Qmax 0 (Qmin 255 y))
  | FSQRT =>
      let xNorm := (byte / 255)%Q in
      let yNorm := Math_sqrt (Qmax 0 xNorm) in
      Math_round (yNorm * 255)
  | _ => 0
  end.

(** [refStepCPU(state, memory, instr)]: the state and the memory after the
    call (both are updated in place). *)
Definition refStepCPU (st : state) (memory : gmap Z Z) (i : instr)
  : state * gmap Z Z :=
  if halted st then (st, memory)
  else
    let pcNext := Z.land (pc st + 1) 255 in
    let regs := regs st in
    let next regs' := {| pc := pcNext; regs := regs'; halted := false |} in
    match opcodeOf (opcode i) with
    | Some ADD =>
        (next (writeRd regs (rd i) (u8 (R regs (rs1 i) + R regs (rs2 i)))),
         memory)
    | Some SUB =>
        (next (writeRd regs (rd i) (u8 (R regs (rs1 i) - R regs (rs2 i)))),
         memory)
    | Some ADDI =>
        (next (writeRd regs (rd i) (u8 (R regs (rs1 i) + imm i))), memory)
    | Some AND =>
        (next (writeRd regs (rd i)
                 (u8 (Z.land (R regs (rs1 i)) (R regs (rs2 i))))), memory)
    | Some OR =>
        (next (writeRd regs (rd i)
                 (u8 (Z.lor (R regs (rs1 i)) (R regs (rs2 i))))), memory)
    | Some XOR =>
        (next (writeRd regs (rd i)
                 (u8 (Z.lxor (R regs (rs1 i)) (R regs (rs2 i))))), memory)
    | Some LD =>
        let addr := u8 (R regs (rs1 i) + imm i) in
        let regs' :=
          if rd i =? 0 then regs
          else match memory !! js_rem addr MEM_SIZE with
               | Some v => <[rd i := v]> regs
               | None => delete (rd i) regs
               end in
        (next regs', memory)
    | Some ST =>
        let addr := u8 (R regs (rs1 i) + imm i) in
        (next regs, <[js_rem addr MEM_SIZE := R regs (rd i)]> memory)
    | Some BEQ =>
        let pcNext :=
          if R regs (rs1 i) =? R regs (rs2 i) then u8 (pc st + imm i)
          else pcNext in
        ({| pc := pcNext; regs := regs; halted := false |}, memory)
    | Some JMP =>
        ({| pc := u8 (imm i); regs := regs; halted := false |}, memory)
    | Some HALT => ({| pc := pcNext; regs := regs; halted := true |}, memory)
    | Some op =>
        (next (writeRd regs (rd i) (u8 (encodedOf op (R regs (rs1 i))))),
         memory)
    | None => ({| pc := pcNext; regs := regs; halted := true |}, memory)
    end.

Record runResult := { final : state; finalMemory : gmap Z Z; steps : nat }.

(** The [while] loop of [runRefProgram]; [budget] is [maxSteps - steps].
    The line at [pc] exists whenever the loop condition holds and [pc] is
    not negative. *)
Fixpoint runLoop (budget : nat) (program : list instr) (st : state)
    (memory : gmap Z Z) (steps : nat) : runResult :=
  if negb (halted st) && (pc st <? Z.of_nat (length program)) then
    match budget, program !! Z.to_nat (pc st) with
    | S budget', Some i =>
        let '(st', memory') := refStepCPU st memory i in
        runLoop budget' program st' memory' (S steps)
    | _, _ => {| final := st; finalMemory := memory; steps := steps |}
    end
  else {| final := st; finalMemory := memory; steps := steps |}.

(** [new Array(MEM_SIZE).fill(0)]. *)
Definition zeroMemory : gmap Z Z :=
  list_to_map ((fun a => (a, 0)) <$> seqZ 0 MEM_SIZE).

Definition runRefProgram (program : list instr) (maxSteps : nat) : runResult :=
  runLoop maxSteps program makeInitialState zeroMemory 0.
End WithMath.

(** *** Encoding and decoding *)

Definition encodeByte (x : Z) : Q := (inject_Z (Z.land x 255) / 255)%Q.

Definition decodeByte (x : Q) : Z :=
  let v := Math_round (Qmax 0 (Qmin 1 x) * 255) in
  Z.land v 255.

(** A cell of an array passed to [encodeByte]: [undefined & 0xff] is 0. *)
Definition cell (m : gmap Z Z) (i : Z) : Z := default 0 (m !! i).

Definition encodeState (st : state) (memory : gmap Z Z) : list Q :=
  [encodeByte (pc st)]
  ++ ((fun i => encodeByte (cell (regs st) i)) <$> seqZ 0 (Z.of_nat NUM_REGS))
  ++ ((fun i => encodeByte (cell memory i)) <$> seqZ 0 4)
  ++ [if halted st then 1%Q else 0%Q].

Record decoded := {
  d_pc : Z;
  d_regs : list Z;
  d_memHead : list Z;
  d_halted : bool
}.

(** [decodeByte(vec[idx])]; past the end of [vec] the source computes on
    [undefined], which gives 0. *)
Definition decodeAt (vec : list Q) (idx : nat) : Z :=
  match vec !! idx with
  | Some x => decodeByte x
  | None => 0
  end.

Definition decodeState (vec : list Q) : decoded :=
  {| d_pc := decodeAt vec 0;
     d_regs := (fun i => decodeAt vec (1 + i)) <$> seq 0 NUM_REGS;
     d_memHead := (fun i => decodeAt vec (1 + NUM_REGS + i)) <$> seq 0 4;
     d_halted := match vec !! (1 + NUM_REGS + 4)%nat with
                 | Some x => Qgtb x (1 # 2)
                 | None => false
                 end |}.

(** [x | 0]: the conversion to a signed 32-bit integer. *)
Definition toInt32 (x : Z) : Z := (x + 2 ^ 31) mod 2 ^ 32 - 2 ^ 31.

Definition oneHot (n : nat) (k : Z) : list Q :=
  (fun j => if Z.of_nat j =? k then 1%Q else 0%Q) <$> seq 0 n.

Definition encodeInstruction (i : instr) : list Q :=
  oneHot NUM_OPCODES (opcode i)
  ++ oneHot REG_BITS (rd i)
  ++ oneHot REG_BITS (rs1 i)
  ++ oneHot REG_BITS (rs2 i)
  ++ [(inject_Z (toInt32 (imm i) + 128) / 255)%Q].
End NeuralCpuGa.

(** ** [neural_alu.js]: a training step of [LinearNet] *)

Module NeuralAluTraining.

(** [a[i] = v] on an array of numbers.  An index past the end extends the
    array; the holes that this leaves read as 0, like every missing
    entry. *)
Definition array_set (l : list Q) (i : nat) (v : Q) : list Q :=
  if (i <? length l)%nat then <[i := v]> l
  else l ++ replicate (i - length l) 0%Q ++ [v].

(** [LinearNet.trainOne(x, target, lr)]: the loss returned and the
    network after the step. *)
Definition trainOne (net : NeuralAlu.LinearNet) (x : list Q) (target lr : Q)
  : res (Q * NeuralAlu.LinearNet) :=
  y ← NeuralAlu.LinearNet_predict net x;
  let err := (y - target)%Q in
  (* loss = err^2 *)
  let g := (2 * err)%Q in
  let w :=
    fold_left (fun w i => array_set w i (nth i w 0 - lr * g * nth i x 0)%Q)
              (seq 0 (NeuralAlu.lin_inputDim net)) (NeuralAlu.w net) in
  Ok ((err * err)%Q,
      {| NeuralAlu.lin_inputDim := NeuralAlu.lin_inputDim net;
         NeuralAlu.w := w;
         NeuralAlu.b := (NeuralAlu.b net - lr * g)%Q |}).
End NeuralAluTraining.

(** ** [pl0_cpu_sim.js]: the PL/0 compiler *)

(** [PL0Parser] and [compilePL0], on the token array that [tokenize]
    returns.  Conventions: an emitted line is represented by the [instr] it
    is tokenised to by [execute]; [fxScale], address and literal values are
    integers, as their decimal text is what the machine parses back;
    identifiers are ASCII and are not names of [Object.prototype] (the
    tables [intrinsics] and [consts] are plain objects); the [raw] text of
    a literal is not kept.  The parser recurses and loops without a bound;
    the embedding gives every call and every loop iteration one unit of
    [fuel], and [OutOfFuel] stands for a computation that needs more. *)
Module Pl0Compiler.

Inductive token :=
  | TNumber (value : Z)
  | TFloat (value : Q)
  | TKeyword (value : string)
  | TIdent (value : string)
  | TSymbol (value : string)
  | TEOF.

(** [token.type]. *)
Definition tokenType (t : token) : string :=
  match t with
  | TNumber _ => "number"
  | TFloat _ => "float"
  | TKeyword _ => "keyword"
  | TIdent _ => "ident"
  | TSymbol _ => "symbol"
  | TEOF => "EOF"
  end.

(** [token.value === s] for a string [s]: the value of a literal is a
    number, never a string. *)
Definition valueIs (t : token) (s : string) : bool :=
  match t with
  | TKeyword v | TIdent v | TSymbol v => String.eqb v s
  | TEOF => String.eqb EmptyString s
  | TNumber _ | TFloat _ => false
  end.

Definition isIdent (t : token) : bool :=
  match t with TIdent _ => true | _ => false end.

(** The ASTs that the parser returns beside the code. *)
Inductive expr :=
  | ENum (value : Z) (fixed : bool)
  | EVar (name : string)
  | EConst (name : string) (value : Z)
  | EBinop (op : string) (left right : expr)
  | EIntrinsic (name : string) (arg : expr)
  | EFx (arg : expr)
  | EInt (arg : expr).

#[warnings="-register-all"]
Inductive stmt :=
  | SNoop
  | SCall (ident : string)
  | SAssign (ident : string) (e : expr)
  | SPush (ident : string)
  | SPop (ident : string)
  | SPeek (dest addr : string)
  | SPoke (addr val : string)
  | SIf (condition : expr) (thenPart : stmt)
  | SWhile (condition : expr) (body : stmt)
  | SCompound (statements : list stmt).

Record varDecl := { vd_ident : string; vd_addr : Z }.

Record block := { varDecls : list varDecl; statement : stmt }.

Record program := { name : string; body : block }.

Record PL0Parser := {
  tokens : list token;
  pos : nat;
  varTable : gmap string Z;
  nextVarAddr : Z;
  labelCounter : nat;
  tempAddr : Z;
  fxScale : Z
}.

(** [new PL0Parser(tokens, { fxScale })]. *)
Definition new_PL0Parser (tokens : list token) (fxScale : Z) : PL0Parser :=
  {| tokens := tokens; pos := 0; varTable := ∅; nextVarAddr := 0;
     labelCounter := 100; tempAddr := 254; fxScale := fxScale |}.

Definition set_pos (p : PL0Parser) (v : nat) : PL0Parser :=
  {| tokens := tokens p; pos := v; varTable := varTable p;
     nextVarAddr := nextVarAddr p; labelCounter := labelCounter p;
     tempAddr := tempAddr p; fxScale := fxScale p |}.

Definition set_labelCounter (p : PL0Parser) (v : nat) : PL0Parser :=
  {| tokens := tokens p; pos := pos p; varTable := varTable p;
     nextVarAddr := nextVarAddr p; labelCounter := v;
     tempAddr := tempAddr p; fxScale := fxScale p |}.

Definition set_tempAddr (p : PL0Parser) (v : Z) : PL0Parser :=
  {| tokens := tokens p; pos := pos p; varTable := varTable p;
     nextVarAddr := nextVarAddr p; labelCounter := labelCounter p;
     tempAddr := v; fxScale := fxScale p |}.

Definition set_nextVarAddr (p : PL0Parser) (v : Z) : PL0Parser :=
  {| tokens := tokens p; pos := pos p; varTable := varTable p;
     nextVarAddr := v; labelCounter := labelCounter p;
     tempAddr := tempAddr p; fxScale := fxScale p |}.

Definition set_vars (p : PL0Parser) (t : gmap string Z) (next : Z)
  : PL0Parser :=
  {| tokens := tokens p; pos := pos p; varTable := t; nextVarAddr := next;
     labelCounter := labelCounter p; tempAddr := tempAddr p;
     fxScale := fxScale p |}.

(** The doubles [Math.PI * 2] and [Math.E]. *)
Definition Math_TAU : Q := 884279719003555 # 140737488355328.
Definition Math_E : Q := 6121026514868073 # 2251799813685248.

(** [this.consts] and [this.intrinsics], on lower-cased names. *)
Definition consts (nameLower : string) : option Q :=
  if String.eqb nameLower "pi" then Some Math_PI
  else if String.eqb nameLower "tau" then Some Math_TAU
  else if String.eqb nameLower "e" then Some Math_E
  else None.

Definition intrinsics (nameLower : string) : option MathOp :=
  if String.eqb nameLower "sin" then Some FSIN
  else if String.eqb nameLower "cos" then Some FCOS
  else if String.eqb nameLower "tan" then Some FTAN
  else if String.eqb nameLower "tanh" then Some FTANH
  else if String.eqb nameLower "sinh" then Some FSINH
  else if String.eqb nameLower "cosh" then Some FCOSH
  else if String.eqb nameLower "ln" then Some FLN
  else if String.eqb nameLower "log" then Some FLOG10
  else if String.eqb nameLower "log10" then Some FLOG10
  else if String.eqb nameLower "exp" then Some FEXP
  else if String.eqb nameLower "sqrt" then Some FSQRT
  else None.

(** [toLowerCase] on ASCII. *)
Definition lowerAscii (c : ascii) : ascii :=
  let n := nat_of_ascii c in
  if ((65 <=? n) && (n <=? 90))%nat then ascii_of_nat (n + 32) else c.

Fixpoint toLowerCase (s : string) : string :=
  match s with
  | EmptyString => EmptyString
  | String c rest => String (lowerAscii c) (toLowerCase rest)
  end.

(** *** The parser monad *)

Inductive parseError :=
  | Expected (expected : string) (got : token) (pos : nat)
  | AlreadyDeclared (ident : string)
  | UnknownVariable (name : string)
  | UnknownIntrinsic (name : string)
  | UnexpectedFactor (tk : token).

Inductive outcome (A : Type) :=
  | Parsed (a : A) (p : PL0Parser)
  | Failed (e : parseError)
  | OutOfFuel.
Arguments Parsed {A} a p.
Arguments Failed {A} e.
Arguments OutOfFuel {A}.

(** A method of the parser: it reads and updates the parser object, and
    returns or throws. *)
Definition parser (A : Type) : Type := PL0Parser -> outcome A.

#[global] Instance parser_ret : MRet parser := fun _ a p => Parsed a p.

#[global] Instance parser_bind : MBind parser := fun _ _ k m p =>
  match m p with
  | Parsed a p' => k a p'
  | Failed e => Failed e
  | OutOfFuel => OutOfFuel
  end.

Definition throw {A} (e : parseError) : parser A := fun _ => Failed e.

Definition outOfFuel {A} : parser A := fun _ => OutOfFuel.

(** A step that reads the parser object. *)
Definition reading {A} (k : PL0Parser -> parser A) : parser A :=
  fun p => k p p.

(** [currentToken()]: [this.tokens[this.pos] || { type: 'EOF', value: '' }]. *)
Definition currentToken (p : PL0Parser) : token :=
  default TEOF (tokens p !! pos p).

Definition peekToken : parser token := fun p => Parsed (currentToken p) p.

(** [this.tokens[this.pos + 1] || { type: 'EOF', value: '' }]. *)
Definition nextToken : parser token := fun p =>
  Parsed (default TEOF (tokens p !! S (pos p))) p.

Definition eat (expected : string) : parser token := fun p =>
  let token := currentToken p in
  if valueIs token expected || String.eqb (tokenType token) expected
  then Parsed token (set_pos p (S (pos p)))
  else Failed (Expected expected token (pos p)).

Definition newLabel : parser string := fun p =>
  let label := "label_" +:+ pretty (labelCounter p) in
  Parsed label (set_labelCounter p (S (labelCounter p))).

Definition newTemp : parser Z := fun p =>
  let t := tempAddr p in
  Parsed t (set_tempAddr p (tempAddr p - 1)).

Definition declareVar (ident : string) : parser Z := fun p =>
  match varTable p !! ident with
  | Some _ => Failed (AlreadyDeclared ident)
  | None =>
      let addr := nextVarAddr p in
      Parsed addr (set_vars p (<[ident := addr]> (varTable p))
                            (nextVarAddr p + 1))
  end.

Definition getVarAddr (ident : string) : parser Z := fun p =>
  match varTable p !! ident with
  | None => Failed (UnknownVariable ident)
  | Some addr => Parsed addr p
  end.

(** The identifier text of a token ([idToken.value] after [eat('ident')]
    has accepted it; a keyword whose text is 'ident' is accepted too). *)
Definition identOf (t : token) : string :=
  match t with
  | TKeyword v | TIdent v | TSymbol v => v
  | _ => EmptyString
  end.

(** *** Expressions *)

(** The code of a binary operator: left operand to a temporary, right
    operand in [r0], left operand back in [r1]. *)
Definition binopCode (op : ALUOp) (commutes : bool) (tempAddr : Z)
    (leftCode rightCode : list instr) : list instr :=
  let storeLeft := STORE 0 (BracketImm tempAddr) in
  let loadLeftIntoR1 := LOAD 1 (Bracket (BracketImm tempAddr)) in
  if commutes
  then leftCode ++ [storeLeft] ++ rightCode ++ [loadLeftIntoR1; Arith op 0 1]
  else leftCode ++ [storeLeft] ++ rightCode
       ++ [loadLeftIntoR1; Arith op 1 0;
           STORE 1 (BracketImm tempAddr);
           LOAD 0 (Bracket (BracketImm tempAddr))].

Fixpoint parseExpression (fuel : nat) : parser (expr * list instr) :=
  match fuel with
  | O => outOfFuel
  | S fuel =>
      '(leftAST, leftCode) ← parseTerm fuel;
      expressionLoop fuel leftAST leftCode
  end

with expressionLoop (fuel : nat) (leftAST : expr) (leftCode : list instr)
  : parser (expr * list instr) :=
  fun p =>
    if valueIs (currentToken p) "+" || valueIs (currentToken p) "-" then
      match fuel with
      | O => OutOfFuel
      | S fuel =>
          let opToken := if valueIs (currentToken p) "+" then "+" else "-" in
          (_ ← eat opToken;
           '(rightAST, rightCode) ← parseTerm fuel;
           let binAST := EBinop opToken leftAST rightAST in
           tempAddr ← newTemp;
           let code :=
             if String.eqb opToken "+"
             then binopCode ADD true tempAddr leftCode rightCode
             else binopCode SUB false tempAddr leftCode rightCode in
           expressionLoop fuel binAST code) p
      end
    else Parsed (leftAST, leftCode) p

with parseTerm (fuel : nat) : parser (expr * list instr) :=
  match fuel with
  | O => outOfFuel
  | S fuel =>
      '(leftAST, leftCode) ← parseFactor fuel;
      termLoop fuel leftAST leftCode
  end

with termLoop (fuel : nat) (leftAST : expr) (leftCode : list instr)
  : parser (expr * list instr) :=
  fun p =>
    if valueIs (currentToken p) "*" || valueIs (currentToken p) "/" then
      match fuel with
      | O => OutOfFuel
      | S fuel =>
          let opToken := if valueIs (currentToken p) "*" then "*" else "/" in
          (_ ← eat opToken;
           '(rightAST, rightCode) ← parseFactor fuel;
           let binAST := EBinop opToken leftAST rightAST in
           tempAddr ← newTemp;
           let code :=
             if String.eqb opToken "*"
             then binopCode MUL true tempAddr leftCode rightCode
             else binopCode DIV false tempAddr leftCode rightCode in
           termLoop fuel binAST code) p
      end
    else Parsed (leftAST, leftCode) p

with parseFactor (fuel : nat) : parser (expr * list instr) :=
  match fuel with
  | O => outOfFuel
  | S fuel =>
      fun p =>
        let tk := currentToken p in
        match tk with
        | TNumber value =>
            (_ ← eat "number";
             mret (ENum value false, [LOAD 0 (Hash value)])) p
        | TFloat value =>
            (_ ← eat "float";
             let scaled := floatToFx value (inject_Z (fxScale p)) in
             mret (ENum scaled true, [LOAD 0 (Hash scaled)])) p
        | TIdent name =>
            (* a variable, a constant, or an intrinsic call *)
            let nameLower := toLowerCase name in
            let next := default TEOF (tokens p !! S (pos p)) in
            if valueIs next "(" then
              (_ ← eat "ident";
               _ ← eat "(";
               '(exprAST, exprCode) ← parseExpression fuel;
               _ ← eat ")";
               match intrinsics nameLower with
               | Some op =>
                   mret (EIntrinsic name exprAST, exprCode ++ [FMath op 0])
               | None =>
                   if String.eqb nameLower "fx" || String.eqb nameLower "tofx"
                   then
                     tempAddr ← newTemp;
                     mret (EFx exprAST,
                           exprCode
                           ++ [STORE 0 (BracketImm tempAddr);
                               LOAD 0 (Hash (fxScale p));
                               LOAD 1 (Bracket (BracketImm tempAddr));
                               Arith MUL 0 1])
                   else if String.eqb nameLower "int"
                           || String.eqb nameLower "fromfx"
                           || String.eqb nameLower "unfx"
                   then
                     mret (EInt exprAST,
                           exprCode
                           ++ [LOAD 1 (Hash (fxScale p)); Arith DIV 0 1])
                   else throw (UnknownIntrinsic name)
               end) p
            else
              (_ ← eat "ident";
               reading (fun p' =>
                 match varTable p' !! name with
                 | Some _ =>
                     addr ← getVarAddr name;
                     mret (EVar name, [LOAD 0 (Bracket (BracketImm addr))])
                 | None =>
                     match consts nameLower with
                     | Some c =>
                         let scaled := floatToFx c (inject_Z (fxScale p')) in
                         mret (EConst nameLower scaled, [LOAD 0 (Hash scaled)])
                     | None => throw (UnknownVariable name)
                     end
                 end)) p
        | _ =>
            if valueIs tk "(" then
              (_ ← eat "(";
               '(exprAST, exprCode) ← parseExpression fuel;
               _ ← eat ")";
               mret (exprAST, exprCode)) p
            else Failed (UnexpectedFactor tk)
        end
  end.

(** *** Statements *)

Definition parseCallStatement : parser (stmt * list instr) :=
  _ ← eat "call";
  idToken ← peekToken;
  _ ← eat "ident";
  _ ← eat ";";
  mret (SCall (identOf idToken), [PL0CALL (identOf idToken)]).

Definition parseAssignment (fuel : nat) : parser (stmt * list instr) :=
  idToken ← peekToken;
  _ ← eat "ident";
  _ ← eat ":=";
  '(exprAST, exprCode) ← parseExpression fuel;
  _ ← eat ";";
  addr ← getVarAddr (identOf idToken);
  mret (SAssign (identOf idToken) exprAST,
        exprCode ++ [STORE 0 (BracketImm addr)]).

Definition parsePushStatement : parser (stmt * list instr) :=
  _ ← eat "push";
  idToken ← peekToken;
  _ ← eat "ident";
  _ ← eat ";";
  addr ← getVarAddr (identOf idToken);
  mret (SPush (identOf idToken),
        [LOAD 0 (Bracket (BracketImm addr)); PUSH 0]).

Definition parsePopStatement : parser (stmt * list instr) :=
  _ ← eat "pop";
  idToken ← peekToken;
  _ ← eat "ident";
  _ ← eat ";";
  addr ← getVarAddr (identOf idToken);
  mret (SPop (identOf idToken), [POP 0; STORE 0 (BracketImm addr)]).

Definition parsePeekStatement : parser (stmt * list instr) :=
  _ ← eat "peek";
  _ ← eat "(";
  destToken ← peekToken;
  _ ← eat "ident";
  _ ← eat ",";
  addrToken ← peekToken;
  _ ← eat "ident";
  _ ← eat ")";
  _ ← eat ";";
  destAddr ← getVarAddr (identOf destToken);
  addrVarAddr ← getVarAddr (identOf addrToken);
  mret (SPeek (identOf destToken) (identOf addrToken),
        [LOAD 0 (Bracket (BracketImm addrVarAddr));
         PEEK 1 (BracketReg 0);
         STORE 1 (BracketImm destAddr)]).

Definition parsePokeStatement : parser (stmt * list instr) :=
  _ ← eat "poke";
  _ ← eat "(";
  addrToken ← peekToken;
  _ ← eat "ident";
  _ ← eat ",";
  valToken ← peekToken;
  _ ← eat "ident";
  _ ← eat ")";
  _ ← eat ";";
  addrVarAddr ← getVarAddr (identOf addrToken);
  valAddr ← getVarAddr (identOf valToken);
  mret (SPoke (identOf addrToken) (identOf valToken),
        [LOAD 0 (Bracket (BracketImm addrVarAddr));
         LOAD 1 (Bracket (BracketImm valAddr));
         POKE 1 (BracketReg 0)]).

Fixpoint parseStatement (fuel : nat) : parser (stmt * list instr) :=
  match fuel with
  | O => outOfFuel
  | S fuel =>
      fun p =>
        let tk := currentToken p in
        if valueIs tk "call" then parseCallStatement p
        else if valueIs tk "if" then parseIfStatement fuel p
        else if valueIs tk "while" then parseWhileStatement fuel p
        else if valueIs tk "begin" then parseCompoundStatement fuel p
        else if valueIs tk "push" then parsePushStatement p
        else if valueIs tk "pop" then parsePopStatement p
        else if valueIs tk "peek" then parsePeekStatement p
        else if valueIs tk "poke" then parsePokeStatement p
        else if isIdent tk then parseAssignment fuel p
        else Parsed (SNoop, []) p
  end

with parseIfStatement (fuel : nat) : parser (stmt * list instr) :=
  match fuel with
  | O => outOfFuel
  | S fuel =>
      _ ← eat "if";
      '(condAST, condCode) ← parseExpression fuel;
      _ ← eat "then";
      '(thenAST, thenCode) ← parseStatement fuel;
      skipLabel ← newLabel;
      mret (SIf condAST thenAST,
            condCode ++ [JZ 0 skipLabel] ++ thenCode ++ [Label skipLabel])
  end

with parseWhileStatement (fuel : nat) : parser (stmt * list instr) :=
  match fuel with
  | O => outOfFuel
  | S fuel =>
      _ ← eat "while";
      startLabel ← newLabel;
      exitLabel ← newLabel;
      '(condAST, condCode) ← parseExpression fuel;
      _ ← eat "do";
      '(bodyAST, bodyCode) ← parseStatement fuel;
      mret (SWhile condAST bodyAST,
            [Label startLabel] ++ condCode ++ [JZ 0 exitLabel] ++ bodyCode
            ++ [JMP startLabel; Label exitLabel])
  end

with parseCompoundStatement (fuel : nat) : parser (stmt * list instr) :=
  match fuel with
  | O => outOfFuel
  | S fuel =>
      _ ← eat "begin";
      '(stmts, codeAll) ← compoundLoop fuel [] [];
      _ ← eat "end";
      mret (SCompound stmts, codeAll)
  end

with compoundLoop (fuel : nat) (stmts : list stmt) (codeAll : list instr)
  : parser (list stmt * list instr) :=
  fun p =>
    if negb (valueIs (currentToken p) "end") then
      match fuel with
      | O => OutOfFuel
      | S fuel =>
          ('(stmtAST, stmtCode) ← parseStatement fuel;
           reading (fun p' =>
             if valueIs (currentToken p') ";"
             then _ ← eat ";";
                  compoundLoop fuel (stmts ++ [stmtAST]) (codeAll ++ stmtCode)
             else compoundLoop fuel (stmts ++ [stmtAST]) (codeAll ++ stmtCode)))
            p
      end
    else Parsed (stmts, codeAll) p.

(** *** Declarations, blocks, programs *)

(** The loop of [parseVarDecl]. *)
Fixpoint varDeclLoop (fuel : nat) (decls : list varDecl)
  : parser (list varDecl) :=
  match fuel with
  | O => outOfFuel
  | S fuel =>
      idToken ← peekToken;
      _ ← eat "ident";
      addr ← declareVar (identOf idToken);
      let decls :=
        decls ++ [{| vd_ident := identOf idToken; vd_addr := addr |}] in
      reading (fun p =>
        if valueIs (currentToken p) ","
        then _ ← eat ","; varDeclLoop fuel decls
        else mret decls)
  end.

Definition parseVarDecl (fuel : nat) : parser (list varDecl * list instr) :=
  _ ← eat "var";
  decls ← varDeclLoop fuel [];
  _ ← eat ";";
  mret (decls, []).

Definition parseBlock (fuel : nat) : parser (block * list instr) :=
  '(varDecls, codeVars) ←
    reading (fun p => if valueIs (currentToken p) "var"
                      then parseVarDecl fuel
                      else mret ([], []));
  '(stmtAST, stmtCode) ← parseStatement fuel;
  mret ({| varDecls := varDecls; statement := stmtAST |},
        codeVars ++ stmtCode).

Definition parseProgram (fuel : nat) : parser (program * list instr) :=
  _ ← eat "program";
  progNameToken ← peekToken;
  _ ← eat "ident";
  _ ← eat ";";
  '(blockAST, blockCode) ← parseBlock fuel;
  _ ← eat ".";
  mret ({| name := identOf progNameToken; body := blockAST |}, blockCode).

(** [compilePL0], after [tokenize]: the code returned and the global
    [PL0Programs] after the call. *)
Definition compilePL0 (fuel : nat) (PL0Programs : gmap string (list instr))
    (tokens : list token) (baseAddr : Z) (fxScale : Z)
  : outcome (list instr * gmap string (list instr)) :=
  let parser := new_PL0Parser tokens fxScale in
  let parser := if negb (baseAddr =? 0) then set_nextVarAddr parser baseAddr
                else parser in
  match parseProgram fuel parser with
  | Parsed (ast, code) p =>
      let code := code ++ [RET] in
      Parsed (code, <[name ast := code]> PL0Programs) p
  | Failed e => Failed e
  | OutOfFuel => OutOfFuel
  end.
End Pl0Compiler.

(** * Vocabulary of the statements *)

(** The integer that an address token denotes before it is wrapped. *)
Definition operand (s : PL0CPU) (tok : addrToken) : Z :=
  match tok with
  | BracketReg r => getReg s r
  | BracketImm addr => addr
  end.

Definition tokenOk (s : PL0CPU) (tok : addrToken) : Prop :=
  match tok with
  | BracketReg r => (r < numRegs s)%nat
  | BracketImm _ => True
  end.

(** An event stays inside a memory of [m] cells. *)
Definition inMemory (m : Z) (ev : event) : Prop :=
  match ev with
  | MemRead a | MemWrite a => 0 <= a < m
  | _ => True
  end.

(** A provider call for [DIV] carries a non-zero divisor. *)
Definition divisorNonZero (ev : event) : Prop :=
  match ev with
  | ALUCall DIV _ b => b <> 0
  | _ => True
  end.

(** A provider as the constructor shapes it: four [LinearNet]s over the 7
    linear features when the architecture is ['linear'], four [MLP]s over
    the 5 features otherwise. *)
Definition netShaped (linear : bool) (net : NeuralAlu.Net) : Prop :=
  match net with
  | NeuralAlu.NetLinear n => linear = true /\ NeuralAlu.lin_inputDim n = 7%nat
  | NeuralAlu.NetMLP n => linear = false /\ NeuralAlu.mlp_inputDim n = 5%nat
  end.

Definition aluShaped (alu : NeuralAlu.NeuralALU) : Prop :=
  let linear := String.eqb (NeuralAlu.architecture alu) "linear" in
  netShaped linear (NeuralAlu.addNet alu)
  /\ netShaped linear (NeuralAlu.subNet alu)
  /\ netShaped linear (NeuralAlu.mulNet alu)
  /\ netShaped linear (NeuralAlu.divNet alu).

(** The blended value as the specification words it:
    [exact * (1 - mix) + prediction * mix], not rounded. *)
Definition unroundedBlend (alu : NeuralAlu.NeuralALU) (d : NeuralAlu.detail) : Q :=
  (inject_Z (NeuralAlu.exact d) * (1 - NeuralAlu.mix alu)
   + inject_Z (NeuralAlu.pred d) * NeuralAlu.mix alu)%Q.

(** The result of the stand-alone provider as a function of the network
    output [y] (mix 1: the exact value [e] drops out). *)
Definition resultOf (e y : Q) : Z :=
  floatToFx (NeuralMathNarx.decodeNormToRange (clamp (e * (1 - 1) + y * 1) 0 1) (-1) 1) 65536.

(** ** Runs, registers and statistics *)

(** The register file after the values [vs] are written to the registers
    [ps], in order. *)
Definition writeRegs (rs : list Z) (ps : list nat) (vs : list Z) : list Z :=
  foldl (fun rs '(p, v) => <[p := v]> rs) rs (zip ps vs).

(** The number of calls of the binary provider for [op] in a trace. *)
Fixpoint callsOf (op : ALUOp) (tr : list event) : Z :=
  match tr with
  | [] => 0
  | ALUCall op' _ _ :: rest =>
      (if decide (op' = op) then 1 else 0) + callsOf op rest
  | _ :: rest => callsOf op rest
  end.

(** The counters of one operation in [neuralStats]: [n] operations, [f]
    fallbacks. *)
Definition counted (s : PL0CPU) (op : ALUOp) (n f : Z) : Prop :=
  ops (neuralStats s) !! op = Some n
  /\ fallbacks (neuralStats s) !! op = Some f.

(** ** The unary provider over several calls *)

(** A provider as the constructor leaves it and as calls keep it: the ops
    of [ops] are those with a network, each has a range and histories of the
    two lag lengths, and its network reads [inputLag + outputLag] values. *)
Definition constructed (p : NeuralMathNarx.NeuralMathNARX) : Prop :=
  (0 < NeuralMathNarx.inputLag p)%nat /\ (0 < NeuralMathNarx.outputLag p)%nat
  /\ (forall op, is_Some (NeuralMathNarx.nets p !! op)
                 <-> op ∈ NeuralMathNarx.ops p)
  /\ forall op, op ∈ NeuralMathNarx.ops p ->
       exists net spec s,
         NeuralMathNarx.nets p !! op = Some net
         /\ NeuralMathNarx.opSpecs p !! op = Some spec
         /\ NeuralMathNarx.state p !! op = Some s
         /\ length (NeuralMathNarx.inHist s) = NeuralMathNarx.inputLag p
         /\ length (NeuralMathNarx.outHist s) = NeuralMathNarx.outputLag p
         /\ Narx.inputSize net
            = (NeuralMathNarx.inputLag p + NeuralMathNarx.outputLag p)%nat.

(** Two providers that differ in their histories and statistics only. *)
Definition sameNetworks (p q : NeuralMathNarx.NeuralMathNARX) : Prop :=
  (NeuralMathNarx.scale p, NeuralMathNarx.inputLag p,
   NeuralMathNarx.outputLag p, NeuralMathNarx.mix p,
   NeuralMathNarx.safetyFallback p, NeuralMathNarx.fallbackAbsError p,
   NeuralMathNarx.opSpecs p, NeuralMathNarx.ops p, NeuralMathNarx.nets p)
  = (NeuralMathNarx.scale q, NeuralMathNarx.inputLag q,
     NeuralMathNarx.outputLag q, NeuralMathNarx.mix q,
     NeuralMathNarx.safetyFallback q, NeuralMathNarx.fallbackAbsError q,
     NeuralMathNarx.opSpecs q, NeuralMathNarx.ops q, NeuralMathNarx.nets q).

(** A history state with both arrays zero-filled. *)
Definition zeroed (s : NeuralMathNarx.opState) : NeuralMathNarx.opState :=
  {| NeuralMathNarx.inHist :=
       replicate (length (NeuralMathNarx.inHist s)) 0%Q;
     NeuralMathNarx.outHist :=
       replicate (length (NeuralMathNarx.outHist s)) 0%Q |}.

(** [compute] called for each [(op, x)] of [calls] in turn on the same
    provider object. *)
Fixpoint computeAll `{MathLib} (p : NeuralMathNarx.NeuralMathNARX)
    (calls : list (MathOp * Z))
  : res (list Z * NeuralMathNarx.NeuralMathNARX) :=
  match calls with
  | [] => Ok ([], p)
  | (op, x) :: rest =>
      '(r, p1) ← NeuralMathNarx.compute p op x;
      '(rs, p2) ← computeAll p1 rest;
      Ok (r :: rs, p2)
  end.

(** The result [r] of the call [c] lies in the output range of its op. *)
Definition inOutputRange (scale : Q) (c : MathOp * Z) (r : Z) : Prop :=
  floatToFx (NeuralMathNarx.outLo (NeuralMathNarx.DEFAULT_OP_SPECS c.1)) scale
  <= r
  <= floatToFx (NeuralMathNarx.outHi (NeuralMathNarx.DEFAULT_OP_SPECS c.1)) scale.

(** ** The reference CPU: bytes *)

(** Every value held by [m] is a byte. *)
Definition bytes (m : gmap Z Z) : Prop :=
  forall i v, m !! i = Some v -> 0 <= v < 256.

(** The state of the reference CPU as a run keeps it: the program counter
    and all registers and memory cells hold bytes, register 0 holds 0, and
    the memory has its 16 cells. *)
Definition refInvariant (st : NeuralCpuGa.state) (memory : gmap Z Z) : Prop :=
  0 <= NeuralCpuGa.pc st < 256
  /\ bytes (NeuralCpuGa.regs st)
  /\ bytes memory
  /\ NeuralCpuGa.regs st !! 0 = Some 0
  /\ forall a, is_Some (memory !! a) <-> 0 <= a < NeuralCpuGa.MEM_SIZE.

(** An instruction whose fields are in the ranges the trainer draws them
    from: an opcode of the table, three register numbers, a 32-bit
    immediate. *)
Definition inTable (i : NeuralCpuGa.instr) : Prop :=
  0 <= NeuralCpuGa.opcode i < 21
  /\ 0 <= NeuralCpuGa.rd i < 4
  /\ 0 <= NeuralCpuGa.rs1 i < 4
  /\ 0 <= NeuralCpuGa.rs2 i < 4
  /\ - 2 ^ 31 <= NeuralCpuGa.imm i < 2 ^ 31.

(** ** Training *)

(** The sum of the squares of the entries of [x]. *)
Definition sumSquares (x : list Q) : Q :=
  foldr (fun v acc => (v * v + acc)%Q) 0%Q x.

(** The sum of [f] over the indices [l]. *)
Definition sumOver (f : nat -> Q) (l : list nat) : Q :=
  foldr (fun i acc => (f i + acc)%Q) 0%Q l.
(** ** Compiled code on the machine *)

(** The value of an expression AST: variables are read from the cells
    [cell] at their addresses, [fx] and [int] use the scale of the parser,
    the intrinsics the reference of the machine with the machine's scale;
    a division by zero has no value. *)
Fixpoint evalExpr `{MathLib} (vars : gmap string Z) (scale : Z) (cpuScale : Q)
    (cell : Z -> Z) (e : Pl0Compiler.expr) : option Z :=
  match e with
  | Pl0Compiler.ENum value _ => Some value
  | Pl0Compiler.EVar name => addr ← vars !! name; Some (cell addr)
  | Pl0Compiler.EConst _ value => Some value
  | Pl0Compiler.EBinop op l r =>
      a ← evalExpr vars scale cpuScale cell l;
      b ← evalExpr vars scale cpuScale cell r;
      if String.eqb op "+" then Some (a + b)
      else if String.eqb op "-" then Some (a - b)
      else if String.eqb op "*" then Some (a * b)
      else if String.eqb op "/"
           then (if b =? 0 then None else Some (floor_div a b))
           else None
  | Pl0Compiler.EIntrinsic name arg =>
      op ← Pl0Compiler.intrinsics (Pl0Compiler.toLowerCase name);
      x ← evalExpr vars scale cpuScale cell arg;
      Some (refMathFx op x cpuScale)
  | Pl0Compiler.EFx arg =>
      x ← evalExpr vars scale cpuScale cell arg;
      Some (scale * x)
  | Pl0Compiler.EInt arg =>
      x ← evalExpr vars scale cpuScale cell arg;
      if scale =? 0 then None else Some (floor_div x scale)
  end.

(** A machine without providers and with at least the two registers that
    compiled code uses. *)
Definition exactMachine (s : PL0CPU) : Prop :=
  neuralALU s = None /\ neuralMath s = None
  /\ (2 <= numRegs s)%nat /\ length (regs s) = numRegs s.

(** What a stretch of compiled code leaves alone. *)
Definition sameFrame (s s' : PL0CPU) : Prop :=
  exactMachine s'
  /\ length (memory s') = length (memory s)
  /\ (instructions s', labelMap s', callStack s', dataStack s', fxScale s',
      running s')
     = (instructions s, labelMap s, callStack s, dataStack s, fxScale s,
        running s).

(** [code] computes [ast] into [r0] with temporaries in [(lo, hi]]: on an
    exact machine whose memory holds the cells up to [hi] and whose
    variables lie in [[0, lo]], running [code] leaves the value of [ast] in
    [r0], moves the pointer past the code and changes no cell outside
    [(lo, hi]]. *)
Definition computes `{MathLib} (PL0Programs : gmap string (list instr))
    (vars : gmap string Z) (scale : Z) (hi lo : Z)
    (ast : Pl0Compiler.expr) (code : list instr) : Prop :=
  forall s v,
    exactMachine s ->
    hi < Z.of_nat (length (memory s)) -> -1 <= lo ->
    (forall name a, vars !! name = Some a -> 0 <= a <= lo) ->
    codeAt s (pointer s) code ->
    evalExpr vars scale (fxScale s) (readMem s) ast = Some v ->
    exists s',
      stepN PL0Programs (length code) s = Ok s'
      /\ getReg s' 0 = v
      /\ pointer s' = (pointer s + length code)%nat
      /\ (forall a, 0 <= a -> a <= lo \/ hi < a -> readMem s' a = readMem s a)
      /\ sameFrame s s'.

(** What parsing an expression leaves alone in the parser. *)
Definition sameTables (p p' : Pl0Compiler.PL0Parser) : Prop :=
  (Pl0Compiler.tokens p', Pl0Compiler.varTable p', Pl0Compiler.nextVarAddr p',
   Pl0Compiler.labelCounter p', Pl0Compiler.fxScale p')
  = (Pl0Compiler.tokens p, Pl0Compiler.varTable p, Pl0Compiler.nextVarAddr p,
     Pl0Compiler.labelCounter p, Pl0Compiler.fxScale p).

(** The label names that the lines of [code] declare, in order. *)
Definition declares (code : list instr) : list string :=
  omap (fun line => match line with Label name => Some name | _ => None end)
       code.

(** The code of an expression: it computes the AST and declares no
    label. *)
Definition exprCode `{MathLib} (PL0Programs : gmap string (list instr))
    (vars : gmap string Z) (scale : Z) (hi lo : Z)
    (ast : Pl0Compiler.expr) (code : list instr) : Prop :=
  computes PL0Programs vars scale hi lo ast code /\ declares code = [].

(** The operator text of the AST that each arithmetic instruction
    implements. *)
Definition opText (op : ALUOp) : string :=
  match op with ADD => "+" | SUB => "-" | MUL => "*" | DIV => "/" end.

(** What a successful parse of an expression guarantees: the tables of
    the parser are as before, the temporaries only went down, and the code
    computes the AST using the temporaries in between. *)
Definition exprGood `{MathLib} (PL0Programs : gmap string (list instr))
    (p p' : Pl0Compiler.PL0Parser) (hi : Z) (ast : Pl0Compiler.expr)
    (code : list instr) : Prop :=
  sameTables p p' /\ Pl0Compiler.tempAddr p' <= Pl0Compiler.tempAddr p
  /\ exprCode PL0Programs (Pl0Compiler.varTable p) (Pl0Compiler.fxScale p) hi
              (Pl0Compiler.tempAddr p') ast code.

(** ** The meaning of PL/0 statements *)

(** The data of a running PL/0 program: the memory cells and the data
    stack. *)
Record store := { cells : Z -> Z; stack : list Z }.

Definition setCell (st : store) (a v : Z) : store :=
  {| cells := fun a' => if decide (a' = a) then v else cells st a';
     stack := stack st |}.

Definition setStack (st : store) (l : list Z) : store :=
  {| cells := cells st; stack := l |}.

(** The statements of a sequence, one after the other. *)
Definition execAll (exec : Pl0Compiler.stmt -> store -> option store)
    (l : list Pl0Compiler.stmt) (st : store) : option store :=
  foldl (fun acc s => st' ← acc; exec s st') (Some st) l.

(** A compiled program as a statement may call it: its variables, the
    scale of its parser and its statement. *)
Record procedure := {
  procVars : gmap string Z;
  procScale : Z;
  procBody : Pl0Compiler.stmt
}.

(** The effect of a statement on the store, for a memory of [memSize]
    cells and a data stack of [stackMax] values.  [peek] and [poke] reduce
    the address modulo the memory size; the cells in [(lo, hi]] are the
    scratch cells of the compiler, and what a [peek] finds there is not
    defined.  [call] runs the statement of the program of that name in
    [procs], on the same store.  Not defined: a read of an undeclared
    variable, a division by zero, a push on a full stack, a pop from an
    empty one, and a call of a program that is not in [procs].  A loop
    takes one unit of [fuel] per iteration, a call one per nesting. *)
Fixpoint execStmt `{MathLib} (procs : gmap string procedure) (cpuScale : Q)
    (memSize : Z) (stackMax : nat) (hi lo : Z) (fuel : nat)
    (vars : gmap string Z) (scale : Z)
    (s : Pl0Compiler.stmt) (st : store) : option store :=
  match fuel with
  | O => None
  | S fuel =>
      match s with
      | Pl0Compiler.SNoop => Some st
      | Pl0Compiler.SCall name =>
          proc ← procs !! stripComma name;
          execStmt procs cpuScale memSize stackMax hi lo fuel
                   (procVars proc) (procScale proc) (procBody proc) st
      | Pl0Compiler.SAssign x e =>
          addr ← vars !! x;
          v ← evalExpr vars scale cpuScale (cells st) e;
          Some (setCell st addr v)
      | Pl0Compiler.SPush x =>
          addr ← vars !! x;
          if (stackMax <=? length (stack st))%nat then None
          else Some (setStack st (stack st ++ [cells st addr]))
      | Pl0Compiler.SPop x =>
          addr ← vars !! x;
          '(v, rest) ← array_pop (stack st);
          Some (setCell (setStack st rest) addr v)
      | Pl0Compiler.SPeek dest a =>
          destAddr ← vars !! dest;
          aAddr ← vars !! a;
          let target := cells st aAddr mod memSize in
          if (lo <? target) && (target <=? hi) then None
          else Some (setCell st destAddr (cells st target))
      | Pl0Compiler.SPoke a val =>
          aAddr ← vars !! a;
          valAddr ← vars !! val;
          let target := cells st aAddr mod memSize in
          Some (setCell st target (cells st valAddr))
      | Pl0Compiler.SIf c t =>
          v ← evalExpr vars scale cpuScale (cells st) c;
          if v =? 0 then Some st
          else execStmt procs cpuScale memSize stackMax hi lo fuel vars scale
                        t st
      | Pl0Compiler.SWhile c b =>
          v ← evalExpr vars scale cpuScale (cells st) c;
          if v =? 0 then Some st
          else
            st' ← execStmt procs cpuScale memSize stackMax hi lo fuel vars
                           scale b st;
            execStmt procs cpuScale memSize stackMax hi lo fuel vars scale
                     (Pl0Compiler.SWhile c b) st'
      | Pl0Compiler.SCompound l =>
          execAll (execStmt procs cpuScale memSize stackMax hi lo fuel vars
                            scale) l st
      end
  end.

(** The machine holds the store: the same data stack, and the same
    content in every cell that is not a scratch cell. *)
Definition models (memSize hi lo : Z) (s : PL0CPU) (st : store) : Prop :=
  dataStack s = stack st
  /\ forall a, 0 <= a < memSize -> a <= lo \/ hi < a ->
               readMem s a = cells st a.

(** What compiled statements leave alone. *)
Definition sameCode (s s' : PL0CPU) : Prop :=
  exactMachine s'
  /\ length (memory s') = length (memory s)
  /\ (instructions s', labelMap s', callStack s', Pl0CpuSim.fxScale s',
      running s', dataStackMax s')
     = (instructions s, labelMap s, callStack s, Pl0CpuSim.fxScale s,
        running s, dataStackMax s).

(** Every label declared in [code], placed at [base], is mapped to its
    line. *)
Definition labelsAt (s : PL0CPU) (base : nat) (code : list instr) : Prop :=
  forall i name, code !! i = Some (Label name) ->
                 labelMap s !! name = Some (base + i)%nat.

(** [code] carries out [sem]: on an exact machine that holds a store and
    has the code and its labels at the pointer, whenever [sem] is defined
    the machine runs to the end of the code and holds the resulting
    store. *)
Definition simulates (PL0Programs : gmap string (list instr))
    `{MathLib} (vars : gmap string Z) (hi lo : Z)
    (sem : Q -> Z -> nat -> store -> option store) (code : list instr)
  : Prop :=
  forall s st st',
    exactMachine s ->
    hi < Z.of_nat (length (memory s)) -> -1 <= lo -> lo <= hi ->
    (forall name a, vars !! name = Some a -> 0 <= a <= lo) ->
    models (Z.of_nat (length (memory s))) hi lo s st ->
    codeAt s (pointer s) code -> labelsAt s (pointer s) code ->
    sem (Pl0CpuSim.fxScale s) (Z.of_nat (length (memory s))) (dataStackMax s)
        st = Some st' ->
    exists n s',
      stepN PL0Programs n s = Ok s'
      /\ pointer s' = (pointer s + length code)%nat
      /\ models (Z.of_nat (length (memory s))) hi lo s' st'
      /\ sameCode s s'.

(** The code of a statement and of a sequence of statements carries
    them out, for every fuel below [N]. *)
Definition runs (PL0Programs : gmap string (list instr)) `{MathLib}
    (procs : gmap string procedure)
    (vars : gmap string Z) (scale : Z) (hi lo : Z) (N : nat)
    (ast : Pl0Compiler.stmt) (code : list instr) : Prop :=
  forall fuel, (fuel < N)%nat ->
    simulates PL0Programs vars hi lo
      (fun cpuScale memSize stackMax =>
         execStmt procs cpuScale memSize stackMax hi lo fuel vars scale ast)
      code.

Definition runsAll (PL0Programs : gmap string (list instr)) `{MathLib}
    (procs : gmap string procedure)
    (vars : gmap string Z) (scale : Z) (hi lo : Z) (N : nat)
    (l : list Pl0Compiler.stmt) (code : list instr) : Prop :=
  forall fuel, (fuel < N)%nat ->
    simulates PL0Programs vars hi lo
      (fun cpuScale memSize stackMax =>
         execAll (execStmt procs cpuScale memSize stackMax hi lo fuel vars
                           scale) l)
      code.

(** The programs that statements may call are in the registry of the
    machine, compiled: the registered code is the code of the body
    followed by [RET], its labels are distinct, its variables lie below
    the scratch cells, and it carries out the body for every fuel below
    [N]. *)
Definition linked (PL0Programs : gmap string (list instr)) `{MathLib}
    (procs : gmap string procedure) (hi lo : Z) (N : nat) : Prop :=
  forall name proc,
    procs !! name = Some proc ->
    exists code,
      PL0Programs !! name = Some (code ++ [RET])
      /\ NoDup (declares code)
      /\ (forall x a, procVars proc !! x = Some a -> 0 <= a <= lo)
      /\ runs PL0Programs procs (procVars proc) (procScale proc) hi lo N
              (procBody proc) code.

(** The name of the [k]-th label of the parser. *)
Definition labelName (k : nat) : string := "label_" +:+ pretty k.

(** The labels declared in [code] are distinct labels of the parser with
    numbers from [lc] up to [lc'], excluded. *)
Definition labelsWithin (lc lc' : nat) (code : list instr) : Prop :=
  exists ks : list nat,
    declares code = labelName <$> ks
    /\ NoDup ks /\ forall k, k ∈ ks -> (lc <= k < lc')%nat.

(** What parsing a statement leaves alone in the parser. *)
Definition sameVars (p p' : Pl0Compiler.PL0Parser) : Prop :=
  (Pl0Compiler.tokens p', Pl0Compiler.varTable p', Pl0Compiler.nextVarAddr p',
   Pl0Compiler.fxScale p')
  = (Pl0Compiler.tokens p, Pl0Compiler.varTable p, Pl0Compiler.nextVarAddr p,
     Pl0Compiler.fxScale p).

(** From [p] to [p']: the same variables, temporaries further down and
    labels further up. *)
Definition later (p p' : Pl0Compiler.PL0Parser) : Prop :=
  sameVars p p'
  /\ Pl0Compiler.tempAddr p' <= Pl0Compiler.tempAddr p
  /\ (Pl0Compiler.labelCounter p <= Pl0Compiler.labelCounter p')%nat.

(** What a successful parse of a statement guarantees: the variables are
    as before, temporaries went down and labels up, the labels of the code
    are new, and the code carries out the statement with any scratch
    cells that include the temporaries used, as far as the programs it
    calls are carried out by their code. *)
Definition stmtGood `{MathLib} (PL0Programs : gmap string (list instr))
    (p p' : Pl0Compiler.PL0Parser) (ast : Pl0Compiler.stmt)
    (code : list instr) : Prop :=
  later p p'
  /\ labelsWithin (Pl0Compiler.labelCounter p) (Pl0Compiler.labelCounter p')
                  code
  /\ forall procs hi lo N,
       Pl0Compiler.tempAddr p <= hi -> lo <= Pl0Compiler.tempAddr p' ->
       linked PL0Programs procs hi lo N ->
       runs PL0Programs procs (Pl0Compiler.varTable p) (Pl0Compiler.fxScale p)
            hi lo (S N) ast code.

(** The same for the statements parsed so far in a compound statement. *)
Definition seqGood `{MathLib} (PL0Programs : gmap string (list instr))
    (p p' : Pl0Compiler.PL0Parser) (l : list Pl0Compiler.stmt)
    (code : list instr) : Prop :=
  later p p'
  /\ labelsWithin (Pl0Compiler.labelCounter p) (Pl0Compiler.labelCounter p')
                  code
  /\ forall procs hi lo N,
       Pl0Compiler.tempAddr p <= hi -> lo <= Pl0Compiler.tempAddr p' ->
       linked PL0Programs procs hi lo N ->
       runsAll PL0Programs procs (Pl0Compiler.varTable p)
               (Pl0Compiler.fxScale p) hi lo (S N) l code.

(** The parser that [compilePL0] starts from. *)
Definition startParser (tokens : list Pl0Compiler.token) (baseAddr : Z)
    (fxScale : Z) : Pl0Compiler.PL0Parser :=
  let parser := Pl0Compiler.new_PL0Parser tokens fxScale in
  if negb (baseAddr =? 0) then Pl0Compiler.set_nextVarAddr parser baseAddr
  else parser.

(** The variables declared so far have their cells between [base] and the
    next free address. *)
Definition varsBelow (base : Z) (p : Pl0Compiler.PL0Parser) : Prop :=
  base <= Pl0Compiler.nextVarAddr p
  /\ forall name a, Pl0Compiler.varTable p !! name = Some a ->
                    base <= a < Pl0Compiler.nextVarAddr p.

(** What parsing declarations leaves alone in the parser. *)
Definition sameCounters (p p' : Pl0Compiler.PL0Parser) : Prop :=
  (Pl0Compiler.tempAddr p', Pl0Compiler.labelCounter p',
   Pl0Compiler.fxScale p')
  = (Pl0Compiler.tempAddr p, Pl0Compiler.labelCounter p,
     Pl0Compiler.fxScale p).

(** The store that a machine holds. *)
Definition storeOf (s : PL0CPU) : store :=
  {| cells := readMem s; stack := dataStack s |}.

(** The programs of [procs] are what the registry holds: each one is the
    statement and the variables of a program that the parser accepts, the
    registry has its code followed by [RET] under the same name, and its
    variables and temporaries lie on either side of [lo]. *)
Definition compiledAs (PL0Programs : gmap string (list instr))
    (procs : gmap string procedure) (lo : Z) : Prop :=
  forall name proc,
    procs !! name = Some proc ->
    exists fuel tokens baseAddr ast blockCode p,
      Pl0Compiler.parseProgram fuel
        (startParser tokens baseAddr (procScale proc))
      = Pl0Compiler.Parsed (ast, blockCode) p
      /\ PL0Programs !! name = Some (blockCode ++ [RET])
      /\ procVars proc = Pl0Compiler.varTable p
      /\ procBody proc = Pl0Compiler.statement (Pl0Compiler.body ast)
      /\ 0 <= baseAddr
      /\ Pl0Compiler.nextVarAddr p <= lo + 1
      /\ lo <= Pl0Compiler.tempAddr p.

(** ** What a program takes from the parser *)

(** The temporaries of an expression: one for each binary operator and
    one for each [fx]. *)
Fixpoint tempsOf (e : Pl0Compiler.expr) : Z :=
  match e with
  | Pl0Compiler.ENum _ _ | Pl0Compiler.EVar _ | Pl0Compiler.EConst _ _ => 0
  | Pl0Compiler.EBinop _ l r => tempsOf l + tempsOf r + 1
  | Pl0Compiler.EIntrinsic _ arg => tempsOf arg
  | Pl0Compiler.EFx arg => tempsOf arg + 1
  | Pl0Compiler.EInt arg => tempsOf arg
  end.

(** The temporaries and the labels of a statement: those of its
    expressions, one label for each [if] and two for each [while]. *)
Fixpoint tempsOfStmt (s : Pl0Compiler.stmt) : Z :=
  match s with
  | Pl0Compiler.SAssign _ e => tempsOf e
  | Pl0Compiler.SIf c t => tempsOf c + tempsOfStmt t
  | Pl0Compiler.SWhile c b => tempsOf c + tempsOfStmt b
  | Pl0Compiler.SCompound l =>
      (fix go (l : list Pl0Compiler.stmt) : Z :=
         match l with
         | [] => 0
         | x :: rest => tempsOfStmt x + go rest
         end) l
  | _ => 0
  end.

Fixpoint labelsOfStmt (s : Pl0Compiler.stmt) : nat :=
  match s with
  | Pl0Compiler.SIf _ t => S (labelsOfStmt t)
  | Pl0Compiler.SWhile _ b => S (S (labelsOfStmt b))
  | Pl0Compiler.SCompound l =>
      (fix go (l : list Pl0Compiler.stmt) : nat :=
         match l with
         | [] => 0%nat
         | x :: rest => (labelsOfStmt x + go rest)%nat
         end) l
  | _ => 0%nat
  end.

Definition tempsAll (l : list Pl0Compiler.stmt) : Z :=
  foldr (fun s acc => tempsOfStmt s + acc) 0 l.

Definition labelsAll (l : list Pl0Compiler.stmt) : nat :=
  foldr (fun s acc => (labelsOfStmt s + acc)%nat) 0%nat l.

(** A token at which [parseStatement] returns an empty statement without
    moving, and which does not end a compound statement either: neither an
    identifier, nor [end] or [;], nor the first word of a statement. *)
Definition stuck (tk : Pl0Compiler.token) : bool :=
  negb (Pl0Compiler.isIdent tk)
  && forallb (fun s => negb (Pl0Compiler.valueIs tk s))
       ["end"; ";"; "call"; "if"; "while"; "begin"; "push"; "pop"; "peek";
        "poke"].

(** The tokens that a parser has not read yet. *)
Definition remaining (p : Pl0Compiler.PL0Parser) : nat :=
  length (Pl0Compiler.tokens p) - Pl0Compiler.pos p.
(** * Concrete configurations *)

(** A machine as the runner builds it ([new PL0CPU(4, 256, 256, ...)]), with
    the given lines loaded and the registers preset. *)
Definition machine (code : list instr) (rs : list Z)
    (alu : option aluProvider) : PL0CPU :=
  set_regs (addInstructions (new_PL0CPU 4 256 256 65536 alu None) code) rs.

(** The provider the runner builds for [--neural --mix=0.25]: linear
    architecture with the analytic weights, scale 65536, safety fallback on
    with threshold 2. *)
Definition aluQuarter : NeuralAlu.NeuralALU :=
  NeuralAlu.newLinearALU 65536 (1 # 4) true 2 "floor".

(** The runner's default provider ([--neural]): mix 1, fallback on. *)
Definition aluDefault : NeuralAlu.NeuralALU :=
  NeuralAlu.newLinearALU 65536 1 true 2 "floor".

Definition saturatedMul : NeuralAlu.detail :=
  {| NeuralAlu.result := 1000000; NeuralAlu.exact := 1000000;
     NeuralAlu.pred := 65536; NeuralAlu.mixed := 65536;
     NeuralAlu.usedFallback := true |}.

(** A caller and a callee that both declare the label [L]. *)
Definition callerCode : list instr := [Label "L"; PL0CALL "callee"; HALT].
Definition calleeCode : list instr := [LOAD 0 (Hash 1); Label "L"; RET].
Definition registry : gmap string (list instr) := {["callee" := calleeCode]}.

(** The caller stands at its [PL0CALL], its label table built. *)
Definition callerAtCall : PL0CPU :=
  set_running (set_pointer (buildLabelMap (machine callerCode [0; 0; 0; 0] None)) 1)
              true.

(** A store through the address literal [-1]. *)
Definition storeAtMinusOne : PL0CPU :=
  machine [STORE 0 (BracketImm (-1))] [7; 0; 0; 0] None.

(** Two pushes followed by two pops, and the machine between them. *)
Definition pushPop : PL0CPU :=
  machine [PUSH 0; PUSH 1; POP 2; POP 3] [5; 6; 0; 0] None.

Definition pushPopMid : PL0CPU :=
  set_pointer (set_dataStack pushPop [5; 6]) 2.

(** A division by a register that holds 0, with a provider configured. *)
Definition divByZero : PL0CPU :=
  machine [Arith DIV 0 1] [7; 0; 0; 0] (Some (Detailed aluDefault)).

(** A call to a local subroutine, a branch on [r0], a store and a load
    through congruent addresses, an addition and a saturating product
    served by a provider, and a math instruction. *)
Definition callAtF : PL0CPU :=
  buildLabelMap (machine [CALL "f"; HALT; Label "f"; RET] [0; 0; 0; 0] None).

Definition branchOnZero : PL0CPU :=
  buildLabelMap (machine [JZ 0 "end"; HALT; Label "end"] [0; 0; 0; 0] None).

Definition storeLoad : PL0CPU :=
  machine [STORE 0 (BracketImm (-1)); LOAD 1 (Bracket (BracketImm 255))]
          [7; 0; 0; 0] None.

Definition addWithProvider : PL0CPU :=
  machine [Arith ADD 0 1] [2; 3; 0; 0] (Some (Detailed aluDefault)).

Definition mulWithQuarter : PL0CPU :=
  machine [Arith MUL 0 1] [5; 13109; 0; 0] (Some (Detailed aluQuarter)).

Definition expOfOne : PL0CPU := machine [FMath FEXP 0] [65536; 0; 0; 0] None.

(** A provider for [FSQRT] alone with mix 0,
    [new NeuralMathNARX({inputLag: 1, outputLag: 1, hiddenUnits: 1, mix: 0,
    ops: ['FSQRT']})]. *)
Definition sqrtProvider : NeuralMathNarx.NeuralMathNARX :=
  NeuralMathNarx.new_NeuralMathNARX 65536 1 1 1 0 true (1 # 1000) [FSQRT]
    (fun _ => statefulNet).

(** [ADDI r1, r2, -5] of the reference CPU. *)
Definition addiInstr : NeuralCpuGa.instr :=
  {| NeuralCpuGa.opcode := 2; NeuralCpuGa.rd := 1; NeuralCpuGa.rs1 := 2;
     NeuralCpuGa.rs2 := 0; NeuralCpuGa.imm := -5 |}.

(** A [LinearNet] over two inputs with all weights 0. *)
Definition zeroLinear : NeuralAlu.LinearNet :=
  {| NeuralAlu.lin_inputDim := 2; NeuralAlu.w := [0; 0]%Q;
     NeuralAlu.b := 0%Q |}.

Section CompilerSamples.
Import Pl0Compiler.

(** The parser at the expression [7 - 2 * b], with [b] at address 1. *)
Definition exprParser : PL0Parser :=
  set_vars (new_PL0Parser [TNumber 7; TSymbol "-"; TNumber 2; TSymbol "*";
                           TIdent "b"; TSymbol ";"; TEOF] 65536)
           {[ "a" := 0; "b" := 1 ]} 2.

(** The parser at the assignment [a := 7 - 2 * b;]. *)
Definition assignParser : PL0Parser :=
  set_vars (new_PL0Parser [TIdent "a"; TSymbol ":="; TNumber 7; TSymbol "-";
                           TNumber 2; TSymbol "*"; TIdent "b"; TSymbol ";";
                           TEOF] 65536)
           {[ "a" := 0; "b" := 1 ]} 2.

(** The code of [7 - 2 * b]. *)
Definition exprLines : list instr :=
  [LOAD 0 (Hash 7); STORE 0 (BracketImm 253); LOAD 0 (Hash 2);
   STORE 0 (BracketImm 254); LOAD 0 (Bracket (BracketImm 1));
   LOAD 1 (Bracket (BracketImm 254)); Arith MUL 0 1;
   LOAD 1 (Bracket (BracketImm 253)); Arith SUB 1 0;
   STORE 1 (BracketImm 253); LOAD 0 (Bracket (BracketImm 253))].

(** A machine loaded with [code], with 3 in the cell of [b]. *)
Definition loaded (code : list instr) : PL0CPU :=
  writeMem (machine code [0; 0; 0; 0] None) 1 3.
End CompilerSamples.

Section CompilerPrograms.
Import Pl0Compiler.

(** The tokens of
    [program fact; var n, f;
     begin n := 5; f := 1;
       while n do begin f := f * n; n := n - 1; end
     end.] *)
Definition factTokens : list token :=
  [TKeyword "program"; TIdent "fact"; TSymbol ";";
   TKeyword "var"; TIdent "n"; TSymbol ","; TIdent "f"; TSymbol ";";
   TKeyword "begin";
   TIdent "n"; TSymbol ":="; TNumber 5; TSymbol ";";
   TIdent "f"; TSymbol ":="; TNumber 1; TSymbol ";";
   TKeyword "while"; TIdent "n"; TKeyword "do";
   TKeyword "begin";
   TIdent "f"; TSymbol ":="; TIdent "f"; TSymbol "*"; TIdent "n"; TSymbol ";";
   TIdent "n"; TSymbol ":="; TIdent "n"; TSymbol "-"; TNumber 1; TSymbol ";";
   TKeyword "end";
   TKeyword "end"; TSymbol "."].

Definition factAst : program :=
  {| name := "fact";
     body :=
       {| varDecls := [{| vd_ident := "n"; vd_addr := 0 |};
                       {| vd_ident := "f"; vd_addr := 1 |}];
          statement :=
            SCompound
              [SAssign "n" (ENum 5 false); SAssign "f" (ENum 1 false);
               SWhile (EVar "n")
                 (SCompound
                    [SAssign "f" (EBinop "*" (EVar "f") (EVar "n"));
                     SAssign "n" (EBinop "-" (EVar "n") (ENum 1 false))])]
       |} |}.

Definition factLines : list instr :=
  [LOAD 0 (Hash 5); STORE 0 (BracketImm 0);
   LOAD 0 (Hash 1); STORE 0 (BracketImm 1);
   Label "label_100"; LOAD 0 (Bracket (BracketImm 0));
   JZ 0 "label_101"; LOAD 0 (Bracket (BracketImm 1));
   STORE 0 (BracketImm 254); LOAD 0 (Bracket (BracketImm 0));
   LOAD 1 (Bracket (BracketImm 254)); Arith MUL 0 1;
   STORE 0 (BracketImm 1); LOAD 0 (Bracket (BracketImm 0));
   STORE 0 (BracketImm 253); LOAD 0 (Hash 1);
   LOAD 1 (Bracket (BracketImm 253)); Arith SUB 1 0;
   STORE 1 (BracketImm 253); LOAD 0 (Bracket (BracketImm 253));
   STORE 0 (BracketImm 0); JMP "label_100";
   Label "label_101"].

(** The parser after [factTokens]. *)
Definition factParser : PL0Parser :=
  {| tokens := factTokens; pos := 36;
     varTable := <["f" := 1]> (<["n" := 0]> ∅); nextVarAddr := 2;
     labelCounter := 102; tempAddr := 252; fxScale := 65536 |}.

(** A machine loaded with the compiled program. *)
Definition factMachine : PL0CPU :=
  machine (factLines ++ [RET]) [0; 0; 0; 0] None.

(** The tokens of
    [program twice; var x; begin pop x; x := x + x; push x; end.] and of
    [program main; var a;
     begin a := 21; push a; call twice; pop a; end.] *)
Definition twiceTokens : list token :=
  [TKeyword "program"; TIdent "twice"; TSymbol ";";
   TKeyword "var"; TIdent "x"; TSymbol ";";
   TKeyword "begin";
   TKeyword "pop"; TIdent "x"; TSymbol ";";
   TIdent "x"; TSymbol ":="; TIdent "x"; TSymbol "+"; TIdent "x"; TSymbol ";";
   TKeyword "push"; TIdent "x"; TSymbol ";";
   TKeyword "end"; TSymbol "."].

Definition mainTokens : list token :=
  [TKeyword "program"; TIdent "main"; TSymbol ";";
   TKeyword "var"; TIdent "a"; TSymbol ";";
   TKeyword "begin";
   TIdent "a"; TSymbol ":="; TNumber 21; TSymbol ";";
   TKeyword "push"; TIdent "a"; TSymbol ";";
   TKeyword "call"; TIdent "twice"; TSymbol ";";
   TKeyword "pop"; TIdent "a"; TSymbol ";";
   TKeyword "end"; TSymbol "."].

Definition twiceLines : list instr :=
  [POP 0; STORE 0 (BracketImm 0); LOAD 0 (Bracket (BracketImm 0));
   STORE 0 (BracketImm 254); LOAD 0 (Bracket (BracketImm 0));
   LOAD 1 (Bracket (BracketImm 254)); Arith ADD 0 1;
   STORE 0 (BracketImm 0); LOAD 0 (Bracket (BracketImm 0)); PUSH 0].

Definition mainLines : list instr :=
  [LOAD 0 (Hash 21); STORE 0 (BracketImm 10);
   LOAD 0 (Bracket (BracketImm 10)); PUSH 0; PL0CALL "twice"; POP 0;
   STORE 0 (BracketImm 10)].

(** The registry after [compilePL0] of [twice] at 0 and of [main] at 10,
    and the two programs as [call] sees them. *)
Definition twoPrograms : gmap string (list instr) :=
  <["main" := mainLines ++ [RET]]> (<["twice" := twiceLines ++ [RET]]> ∅).

Definition twoProcedures : gmap string procedure :=
  <["main" :=
      {| procVars := <["a" := 10]> ∅; procScale := 65536;
         procBody := SCompound [SAssign "a" (ENum 21 false); SPush "a";
                                SCall "twice"; SPop "a"] |}]>
    (<["twice" :=
         {| procVars := <["x" := 0]> ∅; procScale := 65536;
            procBody := SCompound
                          [SPop "x";
                           SAssign "x" (EBinop "+" (EVar "x") (EVar "x"));
                           SPush "x"] |}]> ∅).

(** The machine of [main]: a call of the program, then [HALT]. *)
Definition callMachine : PL0CPU :=
  machine [PL0CALL "main"; HALT] [0; 0; 0; 0] None.

(** The parser at a [begin] that nothing follows. *)
Definition unclosedParser : PL0Parser :=
  new_PL0Parser [TKeyword "begin"] 65536.
End CompilerPrograms.

(** * Properties *)

(** ** Arithmetic of the embedding *)

Lemma floor_div_Zdiv (a b : Z) : b <> 0 -> floor_div a b = a / b.
Proof.
  intros Hb. unfold floor_div, Math_floor, Qdiv, Qinv, Qmult, inject_Z.
  destruct b as [|p|p]; [congruence| |]; cbn [Qnum Qden Qfloor].
  - by rewrite Z.mul_1_r, Pos.mul_1_l.
  - rewrite Pos.mul_1_l.
    change (Z.neg p) with (- Z.pos p).
    rewrite <- (Z.div_opp_opp a (- Z.pos p)) by lia.
    f_equal; lia.
Qed.

(** The floor of the rational quotient: [q <= a / b < q + 1]. *)
Lemma floor_div_bounds (a b : Z) :
  (inject_Z (floor_div a b) <= inject_Z a / inject_Z b
   < inject_Z (floor_div a b) + 1)%Q.
Proof.
  unfold floor_div, Math_floor. split.
  - apply Qfloor_le.
  - rewrite <- (inject_Z_plus _ 1). apply Qlt_floor.
Qed.

(** ** The fixed-point codec *)

Lemma Math_round_bounds (x : Q) :
  (inject_Z (Math_round x) <= x + (1 # 2) /\ x + (1 # 2) < inject_Z (Math_round x) + 1)%Q.
Proof.
  unfold Math_round. split.
  - apply Qfloor_le.
  - rewrite <- (inject_Z_plus _ 1). apply Qlt_floor.
Qed.

Lemma clampZ_inside (v lo hi : Z) : lo <= v <= hi -> clampZ v lo hi = v.
Proof. unfold clampZ. lia. Qed.




#[global] Instance clamp_proper : Proper (Qeq ==> Qeq ==> Qeq ==> Qeq) clamp.
Proof.
  intros x y Exy lo lo' Elo hi hi' Ehi. unfold clamp.
  apply Q.max_compat; [done|]. by apply Q.min_compat.
Qed.

#[global] Instance floatToFx_proper : Proper (Qeq ==> Qeq ==> eq) floatToFx.
Proof.
  intros x y Exy s t Est. unfold floatToFx, Math_round.
  by rewrite Exy, Est.
Qed.

(** ** The machine, one instruction at a time *)

(** Case analysis along the [match]es and binds of a goal. *)
Ltac res_cases :=
  first
    [ progress cbn [mbind res_bind]
    | case_match; try done
    | match goal with
      | |- context [mbind _ ?r] => destruct r as [?|?] eqn:?; try done
      end ].

Section Machine.
Context `{MathLib}.
Variable PL0Programs : gmap string (list instr).

Lemma _parseReg_ok (s : PL0CPU) (r : nat) :
  (r < numRegs s)%nat -> _parseReg s r = Ok r.
Proof.
  intros Hr. unfold _parseReg.
  destruct (Nat.leb_spec (numRegs s) r); [lia | done].
Qed.

Lemma getReg_lookup (s : PL0CPU) (r : nat) (v : Z) :
  regs s !! r = Some v -> getReg s r = v.
Proof. intros E. unfold getReg. by rewrite E. Qed.

Lemma step_fetch (s : PL0CPU) (line : instr) :
  instructions s !! pointer s = Some line ->
  step PL0Programs s = dispatch PL0Programs s line.
Proof. intros E. unfold step. by rewrite E. Qed.


Lemma array_pop_push {A} (l : list A) (x : A) :
  array_pop (array_push l x) = Some (x, l).
Proof.
  unfold array_pop, array_push.
  by rewrite last_snoc, removelast_last.
Qed.


Lemma array_pop_nil {A} : array_pop (@nil A) = None.
Proof. reflexivity. Qed.

Lemma codeAt_cons (s : PL0CPU) (p : nat) (line : instr) (code : list instr) :
  codeAt s p (line :: code) ->
  instructions s !! p = Some line /\ codeAt s (S p) code.
Proof.
  intros Hc. split.
  - rewrite <- (Nat.add_0_r p). by apply Hc.
  - intros i l Hl. replace (S p + i)%nat with (p + S i)%nat by lia.
    by apply Hc.
Qed.

(** A successful [PUSH] appends one value and moves to the next line. *)
Lemma step_push (s s' : PL0CPU) (r : nat) (evs : list event) :
  instructions s !! pointer s = Some (PUSH r) ->
  step PL0Programs s = Ok (s', evs) ->
  dataStack s' = dataStack s ++ [getReg s r]
  /\ pointer s' = S (pointer s)
  /\ instructions s' = instructions s
  /\ numRegs s' = numRegs s.
Proof.
  intros Hfetch. rewrite (step_fetch _ _ Hfetch). cbn [dispatch].
  unfold _parseReg. destruct (numRegs s <=? r)%nat; [done|].
  cbn [mbind res_bind].
  destruct (dataStackMax s <=? length (dataStack s))%nat; [done|].
  by intros [= <- <-].
Qed.

(** A [POP] on a stack that ends with [v] removes it. *)
Lemma step_pop (s : PL0CPU) (r : nat) (base : list Z) (v : Z) :
  instructions s !! pointer s = Some (POP r) ->
  (r < numRegs s)%nat ->
  dataStack s = base ++ [v] ->
  exists s',
    step PL0Programs s = Ok (s', [])
    /\ dataStack s' = base
    /\ pointer s' = S (pointer s)
    /\ instructions s' = instructions s
    /\ numRegs s' = numRegs s.
Proof.
  intros Hfetch Hr Hstack. rewrite (step_fetch _ _ Hfetch). cbn [dispatch].
  rewrite _parseReg_ok by done. cbn [mbind res_bind].
  rewrite Hstack. change (base ++ [v]) with (array_push base v).
  rewrite array_pop_push. by eexists.
Qed.

Lemma push_phase (rs : list nat) : forall (s mid : PL0CPU),
  codeAt s (pointer s) (PUSH <$> rs) ->
  stepN PL0Programs (length rs) s = Ok mid ->
  exists vs,
    dataStack mid = dataStack s ++ vs
    /\ length vs = length rs
    /\ pointer mid = (pointer s + length rs)%nat
    /\ instructions mid = instructions s
    /\ numRegs mid = numRegs s.
Proof.
  induction rs as [|r rs IH]; intros s mid Hcode Hrun.
  - injection Hrun as <-. exists []. rewrite app_nil_r.
    cbn. repeat split; lia.
  - apply codeAt_cons in Hcode as [Hfetch Hrest].
    cbn [length stepN] in Hrun.
    destruct (step PL0Programs s) as [[s1 evs]|] eqn:Hstep; [|done].
    cbn [mbind res_bind] in Hrun.
    destruct (step_push _ _ _ _ Hfetch Hstep) as (Hds & Hp & Hi & Hn).
    destruct (IH s1 mid) as (vs & E1 & E2 & E3 & E4 & E5); [|done|].
    { unfold codeAt. rewrite Hp, Hi. exact Hrest. }
    exists (getReg s r :: vs). rewrite E1, Hds, <- app_assoc.
    cbn [length]. repeat split; [by f_equal|lia|congruence|congruence].
Qed.

Lemma pop_phase (rs : list nat) : forall (s : PL0CPU) (base vs : list Z),
  codeAt s (pointer s) (POP <$> rs) ->
  Forall (fun r => (r < numRegs s)%nat) rs ->
  dataStack s = base ++ vs ->
  length vs = length rs ->
  exists s',
    stepN PL0Programs (length rs) s = Ok s'
    /\ dataStack s' = base
    /\ pointer s' = (pointer s + length rs)%nat
    /\ instructions s' = instructions s.
Proof.
  induction rs as [|r rs IH]; intros s base vs Hcode Hregs Hstack Hlen.
  - destruct vs; [|done]. rewrite app_nil_r in Hstack.
    exists s. cbn. repeat split; [done|lia].
  - apply codeAt_cons in Hcode as [Hfetch Hrest].
    apply Forall_cons in Hregs as [Hr Hregs].
    destruct vs as [|v vs' _] using rev_ind; [done|].
    rewrite length_app in Hlen. cbn [length] in Hlen.
    rewrite app_assoc in Hstack.
    destruct (step_pop s r _ v Hfetch Hr Hstack)
      as (s1 & Hstep & Hds & Hp & Hi & Hn).
    destruct (IH s1 base vs') as (s' & E1 & E2 & E3 & E4); [| |done|lia|].
    { unfold codeAt. rewrite Hp, Hi. exact Hrest. }
    { by rewrite Hn. }
    exists s'. cbn [length stepN]. rewrite Hstep. cbn [mbind res_bind].
    repeat split; [done|done|lia|congruence].
Qed.

(** C6. [PUSH] on a full data stack throws 'Data stack overflow', [POP]
    on an empty one throws 'Data stack underflow', and N pushes that
    succeed followed by N pops leave the data stack as it was. *)
Theorem stack_discipline :
  (forall s r,
     instructions s !! pointer s = Some (PUSH r) ->
     (r < numRegs s)%nat ->
     (dataStackMax s <= length (dataStack s))%nat ->
     step PL0Programs s = Throw DataStackOverflow)
  /\ (forall s r,
        instructions s !! pointer s = Some (POP r) ->
        (r < numRegs s)%nat ->
        dataStack s = [] ->
        step PL0Programs s = Throw DataStackUnderflow)
  /\ (forall (N : nat) (pushed popped : list nat) (s mid : PL0CPU),
        length pushed = N -> length popped = N ->
        codeAt s (pointer s) ((PUSH <$> pushed) ++ (POP <$> popped)) ->
        Forall (fun r => (r < numRegs s)%nat) popped ->
        stepN PL0Programs N s = Ok mid ->
        exists s',
          stepN PL0Programs N mid = Ok s'
          /\ dataStack s' = dataStack s
          /\ pointer s' = (pointer s + 2 * N)%nat).
Proof.
  split; [|split].
  - intros s r Hfetch Hr Hfull. rewrite (step_fetch _ _ Hfetch).
    cbn [dispatch]. rewrite _parseReg_ok by done. cbn [mbind res_bind].
    destruct (Nat.leb_spec (dataStackMax s) (length (dataStack s))); [done|lia].
  - intros s r Hfetch Hr Hempty. rewrite (step_fetch _ _ Hfetch).
    cbn [dispatch]. rewrite _parseReg_ok by done. cbn [mbind res_bind].
    by rewrite Hempty.
  - intros N pushed popped s mid <- Hlen Hcode Hregs Hpush.
    destruct (push_phase pushed s mid) as (vs & E1 & E2 & E3 & E4 & E5);
      [|done|].
    { intros i line Hl. apply Hcode. by apply lookup_app_l_Some. }
    destruct (pop_phase popped mid (dataStack s) vs)
      as (s' & F1 & F2 & F3 & F4); [| |done|lia|].
    { intros i line Hl. rewrite E3, E4, <- Nat.add_assoc. apply Hcode.
      rewrite lookup_app_r; rewrite length_fmap; [|lia].
      by replace (length pushed + i - length pushed)%nat with i by lia. }
    { by rewrite E5. }
    exists s'. rewrite <- Hlen in *. repeat split; [done|done|lia].
Qed.

(** *** Invariants of a whole run *)

Lemma loop_invariant (Inv : PL0CPU -> Prop) (Pev : event -> Prop) :
  (forall s s' evs,
     Inv s -> step PL0Programs s = Ok (s', evs) -> Inv s' /\ Forall Pev evs) ->
  forall fuel maxSteps n s tr r,
    Inv s -> Forall Pev tr ->
    loop fuel PL0Programs maxSteps n s tr = Some r ->
    Inv (final r) /\ Forall Pev (events r).
Proof.
  intros Hstep fuel. induction fuel as [|fuel IH];
    intros maxSteps n s tr r Hs Htr; cbn [loop];
    destruct (running s && (pointer s <? length (instructions s))%nat);
    try (destruct (maxSteps <? n)%nat);
    try (intros [= <-]; by cbn).
  destruct (step PL0Programs s) as [[s' evs]|e] eqn:E.
  - destruct (Hstep _ _ _ Hs E) as [Hs' Hevs].
    apply IH; [done|]. by apply Forall_app.
  - intros [= <-]; by cbn.
Qed.

(** Fuel [maxSteps + 2] never runs out: [execute] always returns. *)
Lemma loop_total (fuel maxSteps n : nat) : forall s tr,
  (maxSteps + 2 <= fuel + n)%nat ->
  exists r, loop fuel PL0Programs maxSteps n s tr = Some r.
Proof.
  revert n. induction fuel as [|fuel IH]; intros n s tr Hfuel; cbn [loop];
    destruct (running s && (pointer s <? length (instructions s))%nat);
    try (by eexists);
    destruct (Nat.ltb_spec maxSteps n); try (by eexists); [lia|].
  destruct (step PL0Programs s) as [[s' evs]|e]; [|by eexists].
  apply IH. lia.
Qed.

Lemma execute_total (s : PL0CPU) (maxSteps : nat) :
  exists r, execute PL0Programs s maxSteps = Some r.
Proof. apply loop_total. lia. Qed.

(** *** Memory addressing *)

Lemma js_rem_wrap (addr m : Z) :
  0 < m -> js_rem (js_rem addr m + m) m = addr mod m.
Proof.
  intros Hm. unfold js_rem.
  pose proof (Z.rem_bound_abs addr m ltac:(lia)) as Hb.
  pose proof (Z.quot_rem' addr m) as Hqr.
  rewrite Z.rem_mod_nonneg by lia.
  replace (Z.rem addr m + m) with (Z.rem addr m + 1 * m) by lia.
  rewrite Z_mod_plus_full.
  assert (E : addr = Z.rem addr m + (addr ÷ m) * m) by lia.
  rewrite E at 2. symmetry. apply Z_mod_plus_full.
Qed.

(** The effective address of a token: [_parseAddrBracket], then
    [_loadAddr]. *)
Lemma effective_address (s : PL0CPU) (tok : addrToken) :
  0 < Z.of_nat (length (memory s)) -> tokenOk s tok ->
  exists spec,
    _parseAddrBracket s tok = Ok spec
    /\ _loadAddr s spec = operand s tok mod Z.of_nat (length (memory s)).
Proof.
  intros Hm Hok. destruct tok as [r|addr]; cbn in *.
  - rewrite _parseReg_ok by done. eexists. split; [done|].
    unfold _loadAddr. by apply js_rem_wrap.
  - eexists. split; [done|]. unfold _loadAddr. by apply js_rem_wrap.
Qed.

Lemma _loadAddr_range (s : PL0CPU) (spec : addrSpec) :
  0 < Z.of_nat (length (memory s)) ->
  0 <= _loadAddr s spec < Z.of_nat (length (memory s)).
Proof.
  intros Hm. unfold _loadAddr. rewrite js_rem_wrap by done.
  by apply Z.mod_pos_bound.
Qed.

(** No instruction changes the size of the memory, and the cells an
    instruction reads or writes lie inside it. *)
Lemma step_memory (s s' : PL0CPU) (evs : list event) :
  step PL0Programs s = Ok (s', evs) ->
  length (memory s') = length (memory s)
  /\ (0 < Z.of_nat (length (memory s)) ->
      Forall (inMemory (Z.of_nat (length (memory s)))) evs).
Proof.
  unfold step. destruct (instructions s !! pointer s) as [line|]; [|done].
  cbn [defined mbind res_bind].
  destruct line; cbn [dispatch];
    unfold _parseAddrBracket, _parseReg, arith, trackDetailed, trackCompute;
    repeat res_cases;
    intros Heq; simplify_eq; cbn;
    rewrite ?length_insert; (split; [done|]); intros Hm;
    repeat constructor; by apply _loadAddr_range.
Qed.


(** *** Division and the binary provider *)

Lemma step_divisor (s s' : PL0CPU) (evs : list event) :
  step PL0Programs s = Ok (s', evs) -> Forall divisorNonZero evs.
Proof.
  unfold step. destruct (instructions s !! pointer s) as [line|]; [|done].
  cbn [defined mbind res_bind].
  destruct line; cbn [dispatch];
    unfold _parseAddrBracket, _parseReg, arith, trackDetailed, trackCompute;
    repeat res_cases;
    intros Heq; simplify_eq; repeat constructor; cbn; lia.
Qed.

(** C9. [DIV] on a zero divisor throws 'Division by zero' whatever
    provider is configured, and no provider call is made; in a whole run
    every [DIV] call that reaches a provider has a non-zero divisor, so the
    exact value the provider computes for it is the floored quotient, never
    the 0 of its zero guard. *)
Theorem div_zero_before_provider :
  (forall s rX rY,
     instructions s !! pointer s = Some (Arith DIV rX rY) ->
     (rX < numRegs s)%nat -> (rY < numRegs s)%nat ->
     regs s !! rY = Some 0 ->
     step PL0Programs s = Throw DivisionByZero
     /\ forall fuel maxSteps n tr,
          running s = true -> (n <= maxSteps)%nat ->
          loop (S fuel) PL0Programs maxSteps n s tr
          = Some {| final := s; events := tr; steps := S n;
                    thrown := Some DivisionByZero |})
  /\ (forall s maxSteps r,
        execute PL0Programs s maxSteps = Some r ->
        Forall divisorNonZero (events r))
  /\ (forall alu a b d,
        divisorNonZero (ALUCall DIV a b) ->
        NeuralAlu.computeDetailed alu DIV a b = Ok d ->
        NeuralAlu.exact d = floor_div a b).
Proof.
  split; [|split].
  - intros s rX rY Hfetch HrX HrY Hzero.
    assert (Hstep : step PL0Programs s = Throw DivisionByZero).
    { rewrite (step_fetch _ _ Hfetch). cbn [dispatch].
      rewrite !_parseReg_ok by done. cbn [mbind res_bind].
      by rewrite (getReg_lookup _ _ _ Hzero). }
    split; [done|]. intros fuel maxSteps n tr Hrun Hn.
    cbn [loop]. rewrite Hrun, Hstep.
    apply lookup_lt_Some in Hfetch.
    destruct (Nat.ltb_spec (pointer s) (length (instructions s))); [|lia].
    by destruct (Nat.ltb_spec maxSteps n); [lia|].
  - intros s maxSteps r Hrun. unfold execute in Hrun.
    apply (loop_invariant (fun _ => True) divisorNonZero) in Hrun;
      [by destruct Hrun| |done|constructor].
    intros t t' evs _ Hstep. split; [done|]. by eapply step_divisor.
  - intros alu a b d Hb. cbn in Hb. unfold NeuralAlu.computeDetailed.
    destruct (NeuralAlu.predict _ _) as [y|]; [|done].
    cbn [mbind res_bind]. intros [= <-]. cbn.
    by destruct (Z.eqb_spec b 0).
Qed.

Lemma Qgtb_lt (x y : Q) : Qgtb x y = true <-> (y < x)%Q.
Proof.
  unfold Qgtb. rewrite negb_true_iff, <- not_true_iff_false, Qle_bool_iff.
  split; [apply Qnot_le_lt | apply Qlt_not_le].
Qed.

(** What [computeDetailed] returns when the network accepts its input. *)
Lemma computeDetailed_fields (alu : NeuralAlu.NeuralALU) (op : ALUOp)
    (a b : Z) (d : NeuralAlu.detail) :
  NeuralAlu.computeDetailed alu op a b = Ok d ->
  NeuralAlu.exact d = NeuralAlu.exactOf op a b
  /\ NeuralAlu.mixed d
     = Math_round (inject_Z (NeuralAlu.exact d) * (1 - NeuralAlu.mix alu)
                   + inject_Z (NeuralAlu.pred d) * NeuralAlu.mix alu)%Q
  /\ NeuralAlu.usedFallback d
     = NeuralAlu.safetyFallback alu
       && Qgtb (inject_Z (Z.abs (NeuralAlu.mixed d - NeuralAlu.exact d)))
               (NeuralAlu.fallbackAbsError alu)
  /\ NeuralAlu.result d
     = if NeuralAlu.usedFallback d then NeuralAlu.exact d
       else NeuralAlu.mixed d.
Proof.
  unfold NeuralAlu.computeDetailed.
  destruct (match op with ADD => _ | _ => _ end) as [y|]; [|done].
  cbn [mbind res_bind]. by intros [= <-].
Qed.

(** A provider shaped by the constructor accepts every input. *)
Lemma computeDetailed_total (alu : NeuralAlu.NeuralALU) (op : ALUOp) (a b : Z) :
  aluShaped alu -> exists d, NeuralAlu.computeDetailed alu op a b = Ok d.
Proof.
  unfold aluShaped, NeuralAlu.computeDetailed.
  intros (Hadd & Hsub & Hmul & Hdiv).
  destruct op;
    [destruct (NeuralAlu.addNet alu) as [n|n], Hadd as [-> Hdim]
    |destruct (NeuralAlu.subNet alu) as [n|n], Hsub as [-> Hdim]
    |destruct (NeuralAlu.mulNet alu) as [n|n], Hmul as [-> Hdim]
    |destruct (NeuralAlu.divNet alu) as [n|n], Hdiv as [-> Hdim]];
    cbn [NeuralAlu.predict];
    unfold NeuralAlu.MLP_predict, NeuralAlu.LinearNet_predict;
    rewrite Hdim; cbn [length NeuralAlu.featuresMLP NeuralAlu.featuresLinear
                       Nat.eqb negb mbind res_bind];
    by eexists.
Qed.


(** *** The deterministic math reference *)

(** C7. At scale 65536 and with no unary provider, [FCOS] of 0 is 65536,
    the encoding of 1.0, and [FLN] of 65536 is 0 (given that the cosine of
    the [Math] library is 1 at 0 and its logarithm 0 at 1); [FLN] and
    [FLOG10] of an input whose decoded value is at most 0 are the encoding
    of -16, which is -1048576. *)
Theorem refmath_reference_values :
  (Math_cos 0 == 1)%Q -> (Math_log 1 == 0)%Q ->
  (refMathFx FCOS 0 65536 = 65536
   /\ floatToFx 1 65536 = 65536
   /\ refMathFx FLN 65536 65536 = 0)
  /\ (forall xFx,
        (fxToFloat xFx 65536 <= 0)%Q ->
        refMathFx FLN xFx 65536 = floatToFx (-16) 65536
        /\ refMathFx FLOG10 xFx 65536 = floatToFx (-16) 65536
        /\ floatToFx (-16) 65536 = -1048576)
  /\ (forall s rX op x,
        neuralMath s = None -> fxScale s = 65536%Q ->
        instructions s !! pointer s = Some (FMath op rX) ->
        (rX < numRegs s)%nat -> regs s !! rX = Some x ->
        step PL0Programs s
        = Ok (advance (setReg s rX (refMathFx op x 65536)), [])).
Proof.
  intros Hcos Hlog. split; [split; [|split]|split].
  - unfold refMathFx.
    assert (E : (clamp (fxToFloat 0 65536) (- Math_PI) Math_PI == 0)%Q)
      by (by vm_compute).
    by rewrite E, Hcos.
  - reflexivity.
  - unfold refMathFx.
    change (Qle_bool (fxToFloat 65536 65536) 0) with false. cbv iota zeta.
    assert (E : (clamp (fxToFloat 65536 65536) lit_1e_6 256 == 1)%Q)
      by (by vm_compute).
    by rewrite E, Hlog.
  - intros xFx Hx. apply Qle_bool_iff in Hx. unfold refMathFx.
    by rewrite Hx.
  - intros s rX op x Hnone Hscale Hfetch HrX Hx.
    rewrite (step_fetch _ _ Hfetch). cbn [dispatch].
    rewrite _parseReg_ok by done. cbn [mbind res_bind].
    by rewrite Hnone, (getReg_lookup _ _ _ Hx), Hscale.
Qed.

(** *** The step limit *)

(** The counter never passes [maxSteps + 2]. *)
Lemma loop_steps_bound (fuel maxSteps : nat) : forall n s tr r,
  (n <= maxSteps + 1)%nat ->
  loop fuel PL0Programs maxSteps n s tr = Some r ->
  (steps r <= maxSteps + 2)%nat.
Proof.
  induction fuel as [|fuel IH]; intros n s tr r Hn; cbn [loop];
    destruct (running s && (pointer s <? length (instructions s))%nat);
    try (intros [= <-]; cbn; lia);
    destruct (Nat.ltb_spec maxSteps n);
    try (intros [= <-]; cbn; lia); try done.
  destruct (step PL0Programs s) as [[s' evs]|e].
  - apply IH. lia.
  - intros [= <-]; cbn; lia.
Qed.

(** Straight-line code of [LOAD r0, #1] lines: from line [k] with the
    counter at [k], the loop runs to the end of the code when the code has
    at most [maxSteps + 1] lines. *)
Lemma loop_straight_line (N maxSteps fuel : nat) : forall k s tr,
  instructions s = replicate N (LOAD 0 (Hash 1)) ->
  running s = true -> (0 < numRegs s)%nat ->
  pointer s = k -> (k <= N)%nat -> (N <= S maxSteps)%nat ->
  (N - k < fuel)%nat ->
  exists r,
    loop fuel PL0Programs maxSteps k s tr = Some r
    /\ steps r = N /\ thrown r = None /\ events r = tr
    /\ pointer (final r) = N.
Proof.
  induction fuel as [|fuel IH]; intros k s tr Hcode Hrun Hregs Hp Hk HN Hfuel;
    [lia|].
  cbn [loop]. rewrite Hrun, Hcode, length_replicate, Hp. cbn [andb].
  destruct (Nat.ltb_spec k N) as [Hlt|Hge].
  - destruct (Nat.ltb_spec maxSteps k); [lia|].
    assert (Hstep : step PL0Programs s = Ok (advance (setReg s 0 1), [])).
    { unfold step. rewrite Hcode, Hp, lookup_replicate_2 by done.
      cbn [defined mbind res_bind dispatch].
      by rewrite _parseReg_ok by done. }
    rewrite Hstep, app_nil_r. apply IH; cbn; try done; lia.
  - eexists. split; [done|]. cbn. repeat split; lia.
Qed.

(** C8, the code at the failing inputs.  The counter of [execute] never
    passes [maxSteps + 2], so at most [maxSteps + 1] instructions are
    executed; and that many are: for every [maxSteps], a program of
    [maxSteps + 1] instructions is executed to its end by
    [execute(maxSteps)] and nothing is thrown.  The test
    [steps++ > maxSteps] compares the count of the instructions already
    executed, so the limit is passed by one. *)
Theorem execute_runs_one_past_maxSteps (maxSteps : nat) :
  (forall s r,
     execute PL0Programs s maxSteps = Some r ->
     (steps r <= maxSteps + 2)%nat)
  /\ exists r,
       execute PL0Programs
         (addInstructions (new_PL0CPU 4 256 256 65536 None None)
                          (replicate (S maxSteps) (LOAD 0 (Hash 1))))
         maxSteps = Some r
       /\ steps r = S maxSteps
       /\ thrown r = None
       /\ pointer (final r) = S maxSteps.
Proof.
  split.
  { intros s r. apply loop_steps_bound. lia. }
  unfold execute.
  destruct (loop_straight_line (S maxSteps) maxSteps (maxSteps + 2) 0
              (set_running
                 (set_pointer
                    (buildLabelMap
                       (addInstructions (new_PL0CPU 4 256 256 65536 None None)
                          (replicate (S maxSteps) (LOAD 0 (Hash 1))))) 0) true)
              []) as (r & E & ? & ? & ? & ?);
    try done; try (cbn; lia).
  by exists r.
Qed.

End Machine.


(** ** The unary NARX provider *)

Section NarxProvider.
Context `{MathLib}.
Import NeuralMathNarx.

#[local] Instance activation_proper : Proper (Qeq ==> Qeq) Narx.activation.
Proof. intros x y E. unfold Narx.activation. by rewrite E. Qed.

#[local] Instance decodeNormToRange_proper :
  Proper (Qeq ==> Qeq ==> Qeq ==> Qeq) decodeNormToRange.
Proof.
  intros u u' Eu lo lo' Elo hi hi' Ehi. unfold decodeNormToRange.
  by rewrite Eu, Elo, Ehi.
Qed.

Lemma clamp_inside (x lo hi : Q) : (lo <= x <= hi)%Q -> (clamp x lo hi == x)%Q.
Proof.
  intros [Hlo Hhi]. unfold clamp.
  rewrite (Q.min_r hi x) by done. by apply Q.max_r.
Qed.

(** The sigmoid at 0 and from 2 on, given the exponential at 0 and up
    to -2. *)
Lemma activation_0 (x : Q) :
  (Math_exp 0 == 1)%Q -> (x == 0)%Q -> (Narx.activation x == 1 # 2)%Q.
Proof.
  intros Hexp Hx. unfold Narx.activation.
  assert (E : (- x == 0)%Q) by (rewrite Hx; reflexivity).
  by rewrite E, Hexp.
Qed.

Lemma activation_high (x : Q) :
  (forall y, (y <= -2)%Q -> (0 <= Math_exp y <= 1 # 3)%Q) ->
  (2 <= x)%Q -> (3 # 4 <= Narx.activation x <= 1)%Q.
Proof.
  intros Hexp Hx. unfold Narx.activation.
  destruct (Hexp (- x)%Q) as [H0 H1]; [lra|].
  set (e := Math_exp (- x)) in *.
  assert (Hpos : (0 < 1 + e)%Q) by lra.
  split.
  - apply Qle_shift_div_l; [done|]. lra.
  - apply Qle_shift_div_r; [done|]. lra.
Qed.

Lemma resultOf_half (e y : Q) : (y == 1 # 2)%Q -> resultOf e y = 0.
Proof.
  intros Hy. unfold resultOf.
  assert (E : (clamp (e * (1 - 1) + y * 1) 0 1 == 1 # 2)%Q).
  { rewrite Hy. assert (E : (e * (1 - 1) + (1 # 2) * 1 == 1 # 2)%Q) by ring.
    by rewrite E. }
  by rewrite E.
Qed.

Lemma floatToFx_mono_low (x : Q) (n : Z) :
  (inject_Z n <= x * 65536)%Q -> n <= MAX_FX -> n <= floatToFx x 65536.
Proof.
  intros Hx Hn. unfold floatToFx, clampZ, Math_round.
  assert (n <= Qfloor (x * 65536 + (1 # 2))); [|lia].
  rewrite <- (Qfloor_Z n). apply Qfloor_resp_le. lra.
Qed.

Lemma resultOf_high (e y : Q) : (3 # 4 <= y <= 1)%Q -> 32768 <= resultOf e y.
Proof.
  intros Hy. unfold resultOf.
  assert (E : (clamp (e * (1 - 1) + y * 1) 0 1 == y)%Q).
  { assert (E : (e * (1 - 1) + y * 1 == y)%Q) by ring.
    rewrite E. apply clamp_inside. lra. }
  rewrite E. apply floatToFx_mono_low; [|done].
  unfold decodeNormToRange. rewrite (clamp_inside y 0 1) by lra.
  change (inject_Z 32768) with (32768 # 1)%Q. lra.
Qed.

(** One call of [computeDetailed] for [FSIN] at input 0 on a provider
    configured like [statefulProvider], whatever its histories
    [[a]] and [[prev]] are. *)
Lemma stateful_call (p : NeuralMathNARX) (a prev : Q) :
  nets p !! FSIN = Some statefulNet ->
  opSpecs p !! FSIN = Some (DEFAULT_OP_SPECS FSIN) ->
  state p !! FSIN = Some {| inHist := [a]; outHist := [prev] |} ->
  safetyFallback p = false -> mix p = 1%Q -> scale p = 65536%Q ->
  exists d p' e inNorm,
    let y := Narx.activation
               (-4 + 8 * Narx.activation (0 + 0 * inNorm + 4 * prev))%Q in
    computeDetailed p FSIN 0 = Ok (d, p')
    /\ result d = resultOf e y
    /\ state p' !! FSIN
       = Some {| inHist := [inNorm];
                 outHist := [clamp (clamp (e * (1 - 1) + y * 1) 0 1) 0 1] |}
    /\ nets p' = nets p /\ opSpecs p' = opSpecs p
    /\ safetyFallback p' = false /\ mix p' = 1%Q /\ scale p' = 65536%Q.
Proof.
  intros Hnet Hspec Hstate Hsafe Hmix Hscale.
  unfold computeDetailed. rewrite Hnet, Hspec, Hstate, Hsafe, Hmix, Hscale.
  cbn [defined mbind res_bind inHist outHist shift_in removelast app andb].
  unfold Narx.forward.
  cbn [length Narx.inputSize statefulNet Nat.eqb negb Narx.hiddenUnits seq
       map fold_left nth Narx.weightsInputHidden Narx.biasHidden
       Narx.weightsHiddenOutput Narx.biasOutput mbind res_bind Narx.output].
  eexists _, _,
    (encodeNormFromRange (fxToFloat (refMathFx FSIN 0 65536) 65536) (-1) 1),
    (encodeNormFromRange (fxToFloat 0 65536) (- Math_PI) Math_PI).
  split; [reflexivity|].
  cbn [result state set_state nets opSpecs safetyFallback mix scale].
  rewrite lookup_insert_eq. unfold resultOf.
  cbn [outLo outHi inLo inHi DEFAULT_OP_SPECS shift_in removelast].
  repeat split; assumption || reflexivity.
Qed.

(** C10. Every [computeDetailed] call of the NARX provider that returns
    shifts the current normalised input into the input history of the op
    and the normalised output into its output history; and the result is
    not a function of the op and the input alone: on the provider
    [statefulProvider], two calls in a row with the same op and the same
    input return 0 and then at least 32768 (given that the exponential of
    the [Math] library is 1 at 0 and lies in [0, 1/3] up to -2, as the
    real one does). *)
Theorem narx_provider_is_stateful :
  (Math_exp 0 == 1)%Q ->
  (forall y, (y <= -2)%Q -> (0 <= Math_exp y <= 1 # 3)%Q) ->
  (forall p op xFx d p',
     computeDetailed p op xFx = Ok (d, p') ->
     exists s spec,
       state p !! op = Some s /\ opSpecs p !! op = Some spec
       /\ state p' !! op
          = Some {| inHist :=
                      shift_in (inHist s)
                        (encodeNormFromRange (fxToFloat xFx (scale p))
                                             (inLo spec) (inHi spec));
                    outHist := shift_in (outHist s) (clamp (outNorm d) 0 1) |})
  /\ exists r1 p1 r2 p2,
       compute statefulProvider FSIN 0 = Ok (r1, p1)
       /\ compute p1 FSIN 0 = Ok (r2, p2)
       /\ r1 = 0 /\ 32768 <= r2.
Proof.
  intros Hexp0 Hexp. split.
  - intros p op xFx d p'. unfold computeDetailed.
    destruct (nets p !! op) as [net|]; [|done].
    destruct (opSpecs p !! op) as [spec|]; [|done].
    destruct (state p !! op) as [s|]; [|done].
    cbn [defined mbind res_bind].
    destruct (Narx.forward _ _) as [fw|]; [|done].
    cbn [mbind res_bind]. intros [= <- <-].
    exists s, spec. repeat split. cbn. by rewrite lookup_insert_eq.
  - assert (Hn0 : nets statefulProvider !! FSIN = Some statefulNet)
      by (vm_compute; reflexivity).
    assert (Hs0 : opSpecs statefulProvider !! FSIN = Some (DEFAULT_OP_SPECS FSIN))
      by (vm_compute; reflexivity).
    assert (Hst0 : state statefulProvider !! FSIN
                   = Some {| inHist := [0%Q]; outHist := [0%Q] |})
      by (vm_compute; reflexivity).
    destruct (stateful_call statefulProvider 0 0 Hn0 Hs0 Hst0
                eq_refl eq_refl eq_refl)
      as (d1 & p1 & e1 & in1 & Hcall1 & Hres1 & Hstate1 & Hn1 & Hs1 & Hf1 & Hm1 & Hc1).
    rewrite <- Hn1 in Hn0. rewrite <- Hs1 in Hs0.
    destruct (stateful_call p1 _ _ Hn0 Hs0 Hstate1 Hf1 Hm1 Hc1)
      as (d2 & p2 & e2 & in2 & Hcall2 & Hres2 & _).
    exists (result d1), p1, (result d2), p2.
    unfold compute. rewrite Hcall1, Hcall2. cbn [mbind res_bind].
    split; [reflexivity|]. split; [reflexivity|].
    set (y1 := Narx.activation (-4 + 8 * Narx.activation (0 + 0 * in1 + 4 * 0))%Q) in *.
    assert (Hy1 : (y1 == 1 # 2)%Q).
    { apply activation_0; [done|].
      rewrite (activation_0 (0 + 0 * in1 + 4 * 0)%Q) by (done || ring).
      reflexivity. }
    set (prev := clamp (clamp (e1 * (1 - 1) + y1 * 1) 0 1) 0 1) in *.
    assert (Hprev : (prev == 1 # 2)%Q).
    { unfold prev. rewrite Hy1.
      assert (E : (e1 * (1 - 1) + (1 # 2) * 1 == 1 # 2)%Q) by ring.
      by rewrite E. }
    assert (Hh : (3 # 4 <= Narx.activation (0 + 0 * in2 + 4 * prev) <= 1)%Q).
    { apply activation_high; [done|]. rewrite Hprev. lra. }
    split.
    + rewrite Hres1. by apply resultOf_half.
    + rewrite Hres2. apply resultOf_high.
      apply activation_high; [done|]. lra.
Qed.

End NarxProvider.

(** ** The binary provider on a concrete configuration *)


(** ** The statements at concrete inputs *)

(** The rational stand-in meets what the statements ask of [Math]. *)
Lemma rationalExp_low (y : Q) :
  (y <= -2)%Q -> (0 <= rationalExp y <= 1 # 3)%Q.
Proof.
  intros Hy. unfold rationalExp.
  assert (E : Qle_bool y 0 = true) by (apply Qle_bool_iff; lra).
  rewrite E. assert (Hpos : (0 < 1 - y)%Q) by lra. split.
  - apply Qle_shift_div_l; [done|]. lra.
  - apply Qle_shift_div_r; [done|]. lra.
Qed.




Lemma stack_discipline_witness :
  stepN (H := rationalMath) ∅ 2 pushPop = Ok pushPopMid
  /\ exists s',
       stepN (H := rationalMath) ∅ 2 pushPopMid = Ok s'
       /\ dataStack s' = dataStack pushPop
       /\ pointer s' = (pointer pushPop + 2 * 2)%nat.
Proof.
  assert (Hmid : stepN (H := rationalMath) ∅ 2 pushPop = Ok pushPopMid)
    by (vm_compute; reflexivity).
  split; [exact Hmid|].
  refine (proj2 (proj2 (stack_discipline (H := rationalMath) ∅))
            2%nat [0; 1]%nat [2; 3]%nat pushPop pushPopMid eq_refl eq_refl _ _ Hmid).
  - intros [|[|[|[|i]]]] line Hl; by inversion Hl.
  - repeat constructor; cbn; lia.
Defined.

Lemma refmath_reference_values_witness :
  refMathFx (H := rationalMath) FCOS 0 65536 = 65536
  /\ refMathFx (H := rationalMath) FLN 65536 65536 = 0.
Proof.
  destruct (proj1 (refmath_reference_values (H := rationalMath) ∅
                     ltac:(vm_compute; reflexivity)
                     ltac:(vm_compute; reflexivity)))
    as (Hcos & _ & Hln).
  exact (conj Hcos Hln).
Defined.

Lemma div_zero_before_provider_witness :
  step (H := rationalMath) ∅ divByZero = Throw DivisionByZero.
Proof.
  refine (proj1 (proj1 (div_zero_before_provider (H := rationalMath) ∅)
                   divByZero 0%nat 1%nat _ _ _ _));
    first [reflexivity | cbn; lia].
Defined.

Lemma narx_provider_is_stateful_witness :
  exists r1 p1 r2 p2,
    NeuralMathNarx.compute (H := rationalMath) statefulProvider FSIN 0 = Ok (r1, p1)
    /\ NeuralMathNarx.compute (H := rationalMath) p1 FSIN 0 = Ok (r2, p2)
    /\ r1 = 0 /\ 32768 <= r2.
Proof.
  refine (proj2 (narx_provider_is_stateful (H := rationalMath) _ rationalExp_low)).
  vm_compute; reflexivity.
Defined.

(** ** Whole runs *)

(** The caller of [callerCode] runs through its call and halts: the callee
    has set [r0], the caller's own code and label table are back, the call
    stack is empty again and the pointer stands after [HALT]. *)
Example call_and_return_run :
  exists r,
    execute (H := rationalMath) registry (machine callerCode [0; 0; 0; 0] None) 100
    = Some r
    /\ thrown r = None
    /\ steps r = 6%nat
    /\ regs (final r) = [1; 0; 0; 0]
    /\ instructions (final r) = callerCode
    /\ labelMap (final r) = {["L" := 0%nat]}
    /\ callStack (final r) = []
    /\ (pointer (final r), running (final r)) = (3%nat, false).
Proof.
  eexists. split; [vm_compute; reflexivity|].
  repeat split; vm_compute; reflexivity.
Qed.

(** An endless loop under [maxSteps = 3]: four passes through the loop body
    are made before the fifth fetch throws. *)
Example endless_loop_run :
  exists r,
    execute (H := rationalMath) ∅
            (machine [Label "again"; JMP "again"] [0; 0; 0; 0] None) 3
    = Some r
    /\ thrown r = Some (ExceededMaxSteps 3)
    /\ steps r = 5%nat.
Proof. eexists. split; [vm_compute; reflexivity|]. by split. Qed.

(** * Further properties of the code *)

(** ** Rounding, clamping and the codec *)

Lemma Math_round_Z (n : Z) : Math_round (inject_Z n) = n.
Proof.
  unfold Math_round, Qfloor, Qplus, inject_Z. cbn [Qnum Qden].
  change (Z.pos (1 * 2)) with 2. symmetry.
  apply Z.div_unique with (r := 1); lia.
Qed.

Lemma Math_round_eq (x : Q) (n : Z) : (x == inject_Z n)%Q -> Math_round x = n.
Proof. intros E. unfold Math_round. rewrite E. apply Math_round_Z. Qed.

Lemma Math_round_mono (x y : Q) : (x <= y)%Q -> Math_round x <= Math_round y.
Proof. intros Hxy. unfold Math_round. apply Qfloor_resp_le. lra. Qed.

Lemma clamp_lower (x lo hi : Q) : (lo <= clamp x lo hi)%Q.
Proof. unfold clamp. apply Q.le_max_l. Qed.

Lemma clamp_bounds (x lo hi : Q) :
  (lo <= hi)%Q -> (lo <= clamp x lo hi <= hi)%Q.
Proof.
  intros Hle. split; [apply clamp_lower|]. unfold clamp.
  apply Q.max_lub; [done|apply Q.le_min_l].
Qed.

Lemma clamp_below (x lo hi : Q) :
  (x <= lo)%Q -> (lo <= hi)%Q -> (clamp x lo hi == lo)%Q.
Proof.
  intros Hx Hle. unfold clamp. apply Q.max_l.
  eapply Qle_trans; [apply Q.le_min_r|done].
Qed.

Lemma clamp_above (x lo hi : Q) :
  (hi <= x)%Q -> (lo <= hi)%Q -> (clamp x lo hi == hi)%Q.
Proof.
  intros Hx Hle. unfold clamp. rewrite (Q.min_l hi x) by done.
  by apply Q.max_r.
Qed.

Lemma Qle_bool_false (x y : Q) : (y < x)%Q -> Qle_bool x y = false.
Proof.
  intros Hlt. destruct (Qle_bool x y) eqn:E; [|done].
  apply Qle_bool_iff in E. lra.
Qed.

Lemma floatToFx_mono (x y s : Q) :
  (0 <= s)%Q -> (x <= y)%Q -> floatToFx x s <= floatToFx y s.
Proof.
  intros Hs Hxy. unfold floatToFx, clampZ.
  assert (Math_round (x * s) <= Math_round (y * s)); [|lia].
  apply Math_round_mono. by apply Qmult_le_compat_r.
Qed.

Lemma floatToFx_range (x s : Q) : - MAX_FX <= floatToFx x s <= MAX_FX.
Proof. unfold floatToFx, clampZ, MAX_FX. lia. Qed.


Lemma floatToFx_fxToFloat (n : Z) (s : Q) :
  (~ s == 0)%Q -> - MAX_FX <= n <= MAX_FX -> floatToFx (fxToFloat n s) s = n.
Proof.
  intros Hs Hn. unfold floatToFx, fxToFloat.
  rewrite (Math_round_eq _ n) by (field; done).
  by apply clampZ_inside.
Qed.

(** ** The label table *)

(** The table built over [lines], whose first line has index [i], on top
    of the table [m]. *)
Lemma labelsFrom_lookup (lines : list instr) :
  forall (i : nat) (m : gmap string nat) (name : string),
  (forall k, labelsFrom i lines m !! name = Some k ->
     (exists j, k = (i + j)%nat /\ lines !! j = Some (Label name)
                /\ forall j', (j < j')%nat -> lines !! j' <> Some (Label name))
     \/ (m !! name = Some k /\ forall j, lines !! j <> Some (Label name)))
  /\ (labelsFrom i lines m !! name = None ->
      m !! name = None /\ forall j, lines !! j <> Some (Label name)).
Proof.
  induction lines as [|line lines IH]; intros i m name.
  - cbn. split; [intros k Hk; right|intros Hn]; by split.
  - assert (Hother : line <> Label name ->
             (forall k, labelsFrom (S i) lines m !! name = Some k ->
                (exists j, k = (i + j)%nat /\ (line :: lines) !! j = Some (Label name)
                   /\ forall j', (j < j')%nat ->
                                 (line :: lines) !! j' <> Some (Label name))
                \/ (m !! name = Some k
                    /\ forall j, (line :: lines) !! j <> Some (Label name)))
             /\ (labelsFrom (S i) lines m !! name = None ->
                 m !! name = None
                 /\ forall j, (line :: lines) !! j <> Some (Label name))).
    { intros Hline. destruct (IH (S i) m name) as [IHs IHn]. split.
      - intros k Hk. destruct (IHs k Hk) as [(j & -> & Hj & Hlast)|[Hm Hno]].
        + left. exists (S j). split; [lia|]. split; [done|].
          intros [|j'] Hlt; [lia|]. cbn. apply Hlast. lia.
        + right. split; [done|]. intros [|j]; cbn; [congruence|apply Hno].
      - intros Hn. destruct (IHn Hn) as [Hm Hno]. split; [done|].
        intros [|j]; cbn; [congruence|apply Hno]. }
    destruct line as [|declared| | | | | | | | | | | | | | | |];
      try (cbn [labelsFrom]; by apply Hother).
    cbn [labelsFrom]. destruct (decide (declared = name)) as [->|Hne].
    + destruct (IH (S i) (<[name := i]> m) name) as [IHs IHn]. split.
      * intros k Hk. left.
        destruct (IHs k Hk) as [(j & -> & Hj & Hlast)|[Hm Hno]].
        -- exists (S j). split; [lia|]. split; [done|].
           intros [|j'] Hlt; [lia|]. cbn. apply Hlast. lia.
        -- rewrite lookup_insert_eq in Hm. injection Hm as <-.
           exists 0%nat. split; [lia|]. split; [done|].
           intros [|j'] Hlt; [lia|]. cbn. apply Hno.
      * intros Hn. destruct (IHn Hn) as [Hm _].
        by rewrite lookup_insert_eq in Hm.
    + destruct (IH (S i) (<[declared := i]> m) name) as [IHs IHn].
      assert (Hline : Label declared <> Label name) by congruence.
      split.
      * intros k Hk. destruct (IHs k Hk) as [(j & -> & Hj & Hlast)|[Hm Hno]].
        -- left. exists (S j). split; [lia|]. split; [done|].
           intros [|j'] Hlt; [lia|]. cbn. apply Hlast. lia.
        -- right. rewrite lookup_insert_ne in Hm by done. split; [done|].
           intros [|j]; cbn; [congruence|apply Hno].
      * intros Hn. destruct (IHn Hn) as [Hm Hno].
        rewrite lookup_insert_ne in Hm by done. split; [done|].
        intros [|j]; cbn; [congruence|apply Hno].
Qed.


(** ** More of the machine *)

Section MachineMore.
Context `{MathLib}.
Variable PL0Programs : gmap string (list instr).

(** *** Intra-program call and return, branches *)



(** *** Straight-line stretches *)

Lemma stepN_add (n k : nat) : forall s,
  stepN PL0Programs (n + k) s
  = s' ← stepN PL0Programs n s; stepN PL0Programs k s'.
Proof.
  induction n as [|n IH]; intros s; [done|].
  cbn [Nat.add stepN]. destruct (step PL0Programs s) as [[s1 evs]|e]; [|done].
  cbn [mbind res_bind]. apply IH.
Qed.

Lemma codeAt_app (s : PL0CPU) (p : nat) (c1 c2 : list instr) :
  codeAt s p (c1 ++ c2) -> codeAt s p c1 /\ codeAt s (p + length c1) c2.
Proof.
  intros Hc. split; intros i line Hl.
  - apply Hc. by apply lookup_app_l_Some.
  - rewrite <- Nat.add_assoc. apply Hc. rewrite lookup_app_r by lia.
    by replace (length c1 + i - length c1)%nat with i by lia.
Qed.


Lemma pushes_run (rs : list nat) : forall (s : PL0CPU),
  codeAt s (pointer s) (PUSH <$> rs) ->
  Forall (fun r => (r < numRegs s)%nat) rs ->
  (length (dataStack s) + length rs <= dataStackMax s)%nat ->
  exists s',
    stepN PL0Programs (length rs) s = Ok s'
    /\ dataStack s' = dataStack s ++ (getReg s <$> rs)
    /\ pointer s' = (pointer s + length rs)%nat
    /\ (instructions s', regs s', memory s', numRegs s', callStack s')
       = (instructions s, regs s, memory s, numRegs s, callStack s).
Proof.
  induction rs as [|r rs IH]; intros s Hcode Hregs Hcap.
  - exists s. cbn. rewrite app_nil_r. repeat split; lia.
  - apply codeAt_cons in Hcode as [Hfetch Hrest].
    apply Forall_cons in Hregs as [Hr Hregs]. cbn [length] in Hcap.
    assert (Hstep : step PL0Programs s
                    = Ok (advance (set_dataStack s
                                     (array_push (dataStack s) (getReg s r))), [])).
    { rewrite (step_fetch _ _ _ Hfetch). cbn [dispatch].
      rewrite _parseReg_ok by done. cbn [mbind res_bind].
      destruct (Nat.leb_spec (dataStackMax s) (length (dataStack s))); [lia|done]. }
    destruct (IH (advance (set_dataStack s (array_push (dataStack s) (getReg s r)))))
      as (s' & E1 & E2 & E3 & E4); [done|done| |].
    { cbn. unfold array_push. rewrite length_app. cbn. lia. }
    exists s'. cbn [length stepN]. rewrite Hstep. cbn [mbind res_bind].
    split; [done|]. split.
    { rewrite E2. cbn. unfold array_push. by rewrite <- app_assoc. }
    split; [rewrite E3; cbn; lia|]. by rewrite E4.
Qed.

Lemma pops_run (ps : list nat) : forall (s : PL0CPU) (base vs : list Z),
  codeAt s (pointer s) (POP <$> ps) ->
  Forall (fun r => (r < numRegs s)%nat) ps ->
  dataStack s = base ++ vs -> length vs = length ps ->
  exists s',
    stepN PL0Programs (length ps) s = Ok s'
    /\ dataStack s' = base
    /\ regs s' = writeRegs (regs s) ps (reverse vs)
    /\ pointer s' = (pointer s + length ps)%nat
    /\ (instructions s', memory s', numRegs s', callStack s')
       = (instructions s, memory s, numRegs s, callStack s).
Proof.
  induction ps as [|p ps IH]; intros s base vs Hcode Hregs Hstack Hlen.
  - destruct vs; [|done]. rewrite app_nil_r in Hstack.
    exists s. cbn. repeat split; [done|lia].
  - apply codeAt_cons in Hcode as [Hfetch Hrest].
    apply Forall_cons in Hregs as [Hr Hregs].
    destruct vs as [|v vs' _] using rev_ind; [done|].
    rewrite length_app in Hlen. cbn [length] in Hlen.
    rewrite app_assoc in Hstack.
    assert (Hstep : step PL0Programs s
                    = Ok (advance (setReg (set_dataStack s (base ++ vs')) p v), [])).
    { rewrite (step_fetch _ _ _ Hfetch). cbn [dispatch].
      rewrite _parseReg_ok by done. cbn [mbind res_bind].
      rewrite Hstack. change ((base ++ vs') ++ [v]) with (array_push (base ++ vs') v).
      by rewrite array_pop_push. }
    destruct (IH (advance (setReg (set_dataStack s (base ++ vs')) p v)) base vs')
      as (s' & E1 & E2 & E3 & E4 & E5); [done|done|done|lia|].
    exists s'. cbn [length stepN]. rewrite Hstep. cbn [mbind res_bind].
    split; [done|]. split; [done|]. split.
    { rewrite E3. cbn. by rewrite reverse_snoc. }
    split; [rewrite E4; cbn; lia|]. by rewrite E5.
Qed.

(** X5. [n] pushes followed by [n] pops, the stack having room for the
    pushes: the popped registers receive the pushed values in reverse order
    (last in, first out; a later pop into the same register overwrites an
    earlier one), and the data stack and the memory end as they began. *)
Theorem push_pop_lifo (pushed popped : list nat) (s : PL0CPU) :
  length pushed = length popped ->
  codeAt s (pointer s) ((PUSH <$> pushed) ++ (POP <$> popped)) ->
  Forall (fun r => (r < numRegs s)%nat) (pushed ++ popped) ->
  (length (dataStack s) + length pushed <= dataStackMax s)%nat ->
  exists s',
    stepN PL0Programs (length pushed + length popped) s = Ok s'
    /\ regs s' = writeRegs (regs s) popped (reverse (getReg s <$> pushed))
    /\ dataStack s' = dataStack s
    /\ memory s' = memory s
    /\ pointer s' = (pointer s + length pushed + length popped)%nat.
Proof.
  intros Hlen Hcode Hregs Hcap.
  apply codeAt_app in Hcode as [Hc1 Hc2]. rewrite length_fmap in Hc2.
  apply Forall_app in Hregs as [Hr1 Hr2].
  destruct (pushes_run pushed s Hc1 Hr1 Hcap) as (s1 & E1 & E2 & E3 & E4).
  injection E4 as Ei Er Em En Ec.
  destruct (pops_run popped s1 (dataStack s) (getReg s <$> pushed))
    as (s' & F1 & F2 & F3 & F4 & F5).
  { unfold codeAt. rewrite E3, Ei. exact Hc2. }
  { by rewrite En. }
  { done. }
  { by rewrite length_fmap. }
  injection F5 as Fi Fm Fn Fc.
  exists s'. rewrite stepN_add, E1. cbn [mbind res_bind].
  split; [done|]. split; [by rewrite F3, Er|]. split; [done|].
  split; [congruence|lia].
Qed.

(** *** Invariants of a whole run, continued *)

Lemma loop_trace_invariant (Inv : PL0CPU -> list event -> Prop) :
  (forall s tr s' evs,
     Inv s tr -> step PL0Programs s = Ok (s', evs) -> Inv s' (tr ++ evs)) ->
  forall fuel maxSteps n s tr r,
    Inv s tr ->
    loop fuel PL0Programs maxSteps n s tr = Some r ->
    Inv (final r) (events r).
Proof.
  intros Hstep fuel. induction fuel as [|fuel IH];
    intros maxSteps n s tr r Hs; cbn [loop];
    destruct (running s && (pointer s <? length (instructions s))%nat);
    try (destruct (maxSteps <? n)%nat);
    try (intros [= <-]; by cbn).
  destruct (step PL0Programs s) as [[s' evs]|e] eqn:E.
  - apply IH. by eapply Hstep.
  - intros [= <-]. by cbn.
Qed.

Lemma execute_trace_invariant (Inv : PL0CPU -> list event -> Prop)
    (s : PL0CPU) (maxSteps : nat) :
  (forall s tr s' evs,
     Inv s tr -> step PL0Programs s = Ok (s', evs) -> Inv s' (tr ++ evs)) ->
  Inv (set_running (set_pointer (buildLabelMap s) 0) true) [] ->
  exists r, execute PL0Programs s maxSteps = Some r
            /\ Inv (final r) (events r).
Proof.
  intros Hstep Hs. destruct (execute_total PL0Programs s maxSteps) as [r Hr].
  exists r. split; [done|].
  by eapply (loop_trace_invariant Inv Hstep _ _ _ _ _ _ Hs).
Qed.

Lemma step_config (s s' : PL0CPU) (evs : list event) :
  step PL0Programs s = Ok (s', evs) ->
  length (regs s') = length (regs s)
  /\ (numRegs s', dataStackMax s', fxScale s', neuralALU s', trackNeuralStats s')
     = (numRegs s, dataStackMax s, fxScale s, neuralALU s, trackNeuralStats s).
Proof.
  unfold step. destruct (instructions s !! pointer s) as [line|]; [|done].
  cbn [defined mbind res_bind].
  destruct line; cbn [dispatch];
    unfold _parseAddrBracket, _parseReg, arith, trackDetailed, trackCompute;
    repeat res_cases;
    intros Heq; simplify_eq; cbn;
    rewrite ?length_insert; (split; [done|congruence]).
Qed.

Lemma step_stack_bound (s s' : PL0CPU) (evs : list event) :
  step PL0Programs s = Ok (s', evs) ->
  (length (dataStack s) <= dataStackMax s)%nat ->
  (length (dataStack s') <= dataStackMax s)%nat.
Proof.
  unfold step. destruct (instructions s !! pointer s) as [line|]; [|done].
  cbn [defined mbind res_bind].
  destruct line; cbn [dispatch];
    unfold _parseAddrBracket, _parseReg, arith, trackDetailed, trackCompute;
    repeat res_cases;
    intros Heq Hd; simplify_eq; cbn; try done.
  - repeat match goal with
           | E : (_ <=? _)%nat = false |- _ => apply Nat.leb_gt in E
           end.
    unfold array_push. rewrite length_app. cbn. lia.
  - unfold array_pop in *. repeat case_match; simplify_eq.
    rewrite removelast_firstn_len, length_take. lia.
Qed.

(** X6. Whatever the program does, a run keeps the register file at
    [numRegs] cells and the data stack within [dataStackMax] values, and
    leaves the three configuration values alone; the run itself always
    ends. *)
Theorem run_keeps_machine_shape (s : PL0CPU) (maxSteps : nat) :
  length (regs s) = numRegs s ->
  (length (dataStack s) <= dataStackMax s)%nat ->
  exists r,
    execute PL0Programs s maxSteps = Some r
    /\ length (regs (final r)) = numRegs s
    /\ (length (dataStack (final r)) <= dataStackMax s)%nat
    /\ (numRegs (final r), dataStackMax (final r), fxScale (final r))
       = (numRegs s, dataStackMax s, fxScale s).
Proof.
  intros Hregs Hstack.
  destruct (execute_trace_invariant
              (fun t _ => length (regs t) = numRegs s
                          /\ (length (dataStack t) <= dataStackMax t)%nat
                          /\ (numRegs t, dataStackMax t, fxScale t)
                             = (numRegs s, dataStackMax s, fxScale s))
              s maxSteps) as (r & Hr & H1 & H2 & H3).
  - intros t tr t' evs (I1 & I2 & I3) Hstep.
    destruct (step_config _ _ _ Hstep) as (S1 & S3).
    pose proof (step_stack_bound _ _ _ Hstep I2) as S2.
    injection S3 as -> -> -> _ _. by rewrite S1.
  - done.
  - exists r. injection H3 as E1 E2 E3. rewrite E2 in H2.
    by rewrite E1, E2, E3.
Qed.

Lemma callsOf_app (op : ALUOp) (tr1 tr2 : list event) :
  callsOf op (tr1 ++ tr2) = callsOf op tr1 + callsOf op tr2.
Proof.
  induction tr1 as [|[] tr1 IH]; cbn [callsOf app]; lia.
Qed.

Lemma step_counts (s s' : PL0CPU) (evs : list event) (op : ALUOp) (n f : Z) :
  step PL0Programs s = Ok (s', evs) ->
  trackNeuralStats s = true ->
  counted s op n f ->
  exists f', counted s' op (n + callsOf op evs) f'
             /\ f <= f' <= f + callsOf op evs.
Proof.
  unfold step. destruct (instructions s !! pointer s) as [line|]; [|done].
  cbn [defined mbind res_bind].
  destruct line; cbn [dispatch];
    unfold _parseAddrBracket, _parseReg, arith, trackDetailed, trackCompute;
    repeat res_cases;
    intros Heq Ht [Hn Hf]; simplify_eq; try (cbn in *; congruence);
    unfold counted; cbn [callsOf];
    try (exists f; cbn; rewrite Z.add_0_r; split; [done|lia]);
    cbn;
    match goal with
    | |- context [decide (?o = op)] =>
        destruct (decide (o = op)) as [Heq|Hne]; [subst op|]
    end;
    rewrite ?lookup_alter_eq, ?lookup_alter_ne, ?Hn, ?Hf by done; cbn;
    rewrite ?Z.add_0_r;
    first [ exists (1 + f); split; [split; [f_equal; lia|done]|lia]
          | exists f; split; [split; [f_equal; lia|done]|lia] ].
Qed.

(** X7. On a machine that tracks statistics and starts with the zeroed
    counters of the constructor, after any run [neuralStats.ops] holds for
    each operation exactly the number of calls made to the binary provider
    for it, and [neuralStats.fallbacks] a number between 0 and that. *)
Theorem stats_count_provider_calls (s : PL0CPU) (maxSteps : nat) :
  trackNeuralStats s = true ->
  ops (neuralStats s) = zeroStats ->
  fallbacks (neuralStats s) = zeroStats ->
  exists r,
    execute PL0Programs s maxSteps = Some r
    /\ forall op, exists f,
         counted (final r) op (callsOf op (events r)) f
         /\ 0 <= f <= callsOf op (events r).
Proof.
  intros Ht Hops Hfb.
  destruct (execute_trace_invariant
              (fun t tr => trackNeuralStats t = true
                           /\ forall op, exists f,
                                counted t op (callsOf op tr) f
                                /\ 0 <= f <= callsOf op tr)
              s maxSteps) as (r & Hr & _ & Hinv).
  - intros t tr t' evs [It Ic] Hstep. split.
    + destruct (step_config _ _ _ Hstep) as (_ & S3).
      injection S3 as _ _ _ _ ->. done.
    + intros op. destruct (Ic op) as (f & Hc & Hf).
      destruct (step_counts _ _ _ op _ _ Hstep It Hc) as (f' & Hc' & Hf').
      exists f'. rewrite callsOf_app. split; [done|lia].
  - split; [done|]. intros op. exists 0. unfold counted. cbn.
    rewrite Hops, Hfb. split; [|done]. by destruct op.
  - by exists r.
Qed.

(** *** The deterministic math reference and the output ranges *)

End MachineMore.

(** ** The binary provider *)

Section BinaryProvider.
Context `{MathLib}.
Import NeuralAlu.

(** The value that the analytic net for feature [k] reads off the seven
    features. *)
Lemma analyticNet_predict (k : nat) (x : list Q) :
  length x = 7%nat -> (k < 7)%nat ->
  exists y, predict (analyticNet k) x = Ok y /\ (y == nth k x 0)%Q.
Proof.
  intros Hlen Hk.
  do 8 (destruct x as [|? x]; try done).
  eexists. split; [reflexivity|].
  do 7 (destruct k as [|k]; [cbn [fold_left seq nth NeuralAlu.w NeuralAlu.b
                                   NeuralAlu.lin_inputDim insert list_insert
                                   replicate]; ring|]).
  lia.
Qed.

Lemma scaled_back (e : Z) (scale : Q) :
  (0 < scale)%Q -> (Qabs (inject_Z e) <= scale)%Q ->
  Math_round (clamp (clamp (inject_Z e / scale) (-1) 1) (-1) 1 * scale) = e.
Proof.
  intros Hs He. apply Math_round_eq.
  apply Qabs_Qle_condition in He as [He1 He2].
  assert (Hin : (-1 <= inject_Z e / scale <= 1)%Q).
  { split; [apply Qle_shift_div_l|apply Qle_shift_div_r]; try done; lra. }
  rewrite (clamp_inside (inject_Z e / scale)) by done.
  rewrite clamp_inside by done. field. lra.
Qed.

Lemma blend_same (e : Z) (mix : Q) :
  Math_round (inject_Z e * (1 - mix) + inject_Z e * mix) = e.
Proof. apply Math_round_eq. ring. Qed.

Lemma analytic_detail (alu : NeuralALU) (op : ALUOp) (a b : Z) (k : nat) :
  architecture alu = "linear" ->
  match op with
  | ADD => addNet alu | SUB => subNet alu | MUL => mulNet alu
  | DIV => divNet alu
  end = analyticNet k ->
  (k < 7)%nat ->
  _decodeInt alu (nth k (featuresLinear a b (scale alu)) 0%Q) op
  = exactOf op a b ->
  (forall y y', (y == y')%Q -> _decodeInt alu y op = _decodeInt alu y' op) ->
  exists d,
    computeDetailed alu op a b = Ok d
    /\ pred d = exactOf op a b
    /\ mixed d = exactOf op a b
    /\ result d = exactOf op a b
    /\ exact d = exactOf op a b.
Proof.
  intros Harch Hnet Hk Hdec Hproper.
  destruct (analyticNet_predict k (featuresLinear a b (scale alu)))
    as (y & Hy & Ey); [done|done|].
  unfold computeDetailed. rewrite Harch. cbn [String.eqb Ascii.eqb Bool.eqb].
  cbn match.
  assert (Hp : match op with
               | ADD => predict (addNet alu) (featuresLinear a b (scale alu))
               | SUB => predict (subNet alu) (featuresLinear a b (scale alu))
               | MUL => predict (mulNet alu) (featuresLinear a b (scale alu))
               | DIV => predict (divNet alu) (featuresLinear a b (scale alu))
               end = Ok y).
  { destruct op; by rewrite Hnet. }
  rewrite Hp. cbn [mbind res_bind].
  rewrite (Hproper _ _ Ey), Hdec, blend_same.
  eexists. split; [reflexivity|]. cbn.
  repeat split; try done. by destruct (_ && _).
Qed.

(** X8. The linear provider with the analytic weights of the constructor
    is exact for [ADD], [SUB] and [MUL] whenever the exact result lies
    within the scale: prediction, blend and result all equal the exact
    value, for every mix and every fallback setting. *)
Theorem analytic_linear_alu_exact (scale mix T : Q) (sf : bool) (dd : string)
    (op : ALUOp) (a b : Z) :
  (0 < scale)%Q -> op <> DIV ->
  (Qabs (inject_Z (exactOf op a b)) <= scale)%Q ->
  exists d,
    computeDetailed (newLinearALU scale mix sf T dd) op a b = Ok d
    /\ pred d = exactOf op a b
    /\ mixed d = exactOf op a b
    /\ result d = exactOf op a b
    /\ exact d = exactOf op a b.
Proof.
  intros Hs Hop He.
  assert (Hproper : forall y y', (y == y')%Q ->
            _decodeInt (newLinearALU scale mix sf T dd) y op
            = _decodeInt (newLinearALU scale mix sf T dd) y' op).
  { intros y y' E. unfold _decodeInt. destruct op; try done;
      unfold Math_round; by rewrite E. }
  destruct op; [| | |done].
  - apply (analytic_detail _ ADD a b 2); [done|done|lia| |done].
    apply (scaled_back (a + b)); done.
  - apply (analytic_detail _ SUB a b 3); [done|done|lia| |done].
    apply (scaled_back (a - b)); done.
  - apply (analytic_detail _ MUL a b 4); [done|done|lia| |done].
    apply (scaled_back (a * b)); done.
Qed.


(** *** The safety fallback and the mix *)

Lemma fallback_bound (alu : NeuralALU) (op : ALUOp) (a b : Z) (d : detail) :
  computeDetailed alu op a b = Ok d ->
  safetyFallback alu = true ->
  (inject_Z (Z.abs (result d - exactOf op a b))
   <= Qmax 0 (fallbackAbsError alu))%Q.
Proof.
  intros Hd Hsafe.
  destruct (computeDetailed_fields _ _ _ _ _ Hd) as (He & _ & Hf & Hr).
  rewrite Hsafe in Hf. cbn [andb] in Hf. rewrite <- He, Hr, Hf.
  destruct (Qgtb _ _) eqn:E.
  - rewrite Z.sub_diag. apply Q.le_max_l.
  - eapply Qle_trans; [|apply Q.le_max_r].
    apply Qle_bool_iff. unfold Qgtb in E. by apply negb_false_iff in E.
Qed.


End BinaryProvider.

(** ** The unary provider *)

Section MathProvider.
Context `{MathLib}.
Import NeuralMathNarx.

Lemma shift_in_length {A} (h : list A) (x : A) :
  (0 < length h)%nat -> length (shift_in h x) = length h.
Proof.
  intros Hh. unfold shift_in. cbn [length].
  rewrite removelast_firstn_len, length_take. lia.
Qed.

Lemma lookup_tabulated {V} (f : MathOp -> V) (l : list MathOp) (op : MathOp) :
  (list_to_map ((fun op => (op, f op)) <$> l) : gmap MathOp V) !! op
  = if decide (op ∈ l) then Some (f op) else None.
Proof.
  destruct (decide (op ∈ l)) as [Hin|Hout].
  - destruct ((list_to_map ((fun op => (op, f op)) <$> l) : gmap MathOp V)
                !! op) as [v|] eqn:E.
    + apply elem_of_list_to_map_2 in E. apply list_elem_of_fmap in E.
      by destruct E as (op' & [= -> ->] & _).
    + apply not_elem_of_list_to_map_2 in E. destruct E.
      rewrite <- list_fmap_compose. apply list_elem_of_fmap. by exists op.
  - apply not_elem_of_list_to_map_1. rewrite <- list_fmap_compose.
    intros Hin. apply list_elem_of_fmap in Hin.
    by destruct Hin as (op' & -> & ?).
Qed.

Lemma constructed_new (scale : Q) (inputLag outputLag hiddenUnits : nat)
    (mix : Q) (sf : bool) (T : Q) (ops : list MathOp)
    (net : MathOp -> Narx.NARX) :
  (0 < inputLag)%nat -> (0 < outputLag)%nat ->
  (forall op, Narx.inputSize (net op) = (inputLag + outputLag)%nat) ->
  constructed (new_NeuralMathNARX scale inputLag outputLag hiddenUnits mix sf
                                  T ops net).
Proof.
  intros Hi Ho Hnet. split; [done|]. split; [done|]. split.
  - intros op. cbn [nets new_NeuralMathNARX NeuralMathNarx.ops].
    rewrite lookup_tabulated. case_decide; split; done.
  - intros op Hop. exists (net op), (DEFAULT_OP_SPECS op),
      {| inHist := replicate inputLag 0%Q; outHist := replicate outputLag 0%Q |}.
    cbn [nets opSpecs state new_NeuralMathNARX NeuralMathNarx.inputLag
         NeuralMathNarx.outputLag NeuralMathNarx.ops inHist outHist] in *.
    rewrite !lookup_tabulated, !length_replicate.
    rewrite !decide_True by done.
    rewrite decide_True by (unfold all_ops; destruct op; set_solver).
    repeat split; try done; by rewrite decide_True.
Qed.


Lemma forward_accepts (net : Narx.NARX) (combined : list Q) :
  length combined = Narx.inputSize net ->
  exists fw, Narx.forward net combined = Ok fw.
Proof.
  intros Hlen. unfold Narx.forward. rewrite Hlen, Nat.eqb_refl. by eexists.
Qed.

Lemma call_constructed (p : NeuralMathNARX) (op : MathOp) (x : Z) :
  constructed p ->
  (op ∈ ops p ->
   exists d p',
     computeDetailed p op x = Ok (d, p')
     /\ constructed p' /\ sameNetworks p p'
     /\ exact d = refMathFx op x (scale p)
     /\ outNorm d = (if usedFallback d then exactNorm d
                     else clamp (exactNorm d * (1 - mix p)
                                 + predNorm d * mix p) 0 1)
     /\ forall spec, opSpecs p !! op = Some spec ->
          exactNorm d
          = encodeNormFromRange (fxToFloat (exact d) (scale p))
                                (outLo spec) (outHi spec)
          /\ result d
             = floatToFx (decodeNormToRange (outNorm d) (outLo spec)
                                            (outHi spec)) (scale p)
          /\ pred d
             = floatToFx (decodeNormToRange (predNorm d) (outLo spec)
                                            (outHi spec)) (scale p))
  /\ (op ∉ ops p -> computeDetailed p op x = Throw NARXUnsupportedOp).
Proof.
  intros (Hi & Ho & Hnets & Hops). split.
  - intros Hop.
    destruct (Hops op Hop) as (net & spec & s & Hn & Hsp & Hs & Hli & Hlo & Hsz).
    unfold computeDetailed. rewrite Hn, Hsp, Hs. cbn [defined mbind res_bind].
    destruct (forward_accepts net
                (shift_in (inHist s)
                   (encodeNormFromRange (fxToFloat x (scale p)) (inLo spec)
                      (inHi spec)) ++ outHist s)) as [fw Hfw].
    { rewrite length_app, shift_in_length by lia. lia. }
    rewrite Hfw. cbn [mbind res_bind].
    eexists _, _. split; [reflexivity|].
    split; [|split; [done|split; [done|split; [done|]]]].
    + split; [done|]. split; [done|]. split; [done|].
      intros op' Hop'. cbn [nets opSpecs state set_state inputLag outputLag ops]
        in *.
      destruct (decide (op' = op)) as [->|Hne].
      * eexists net, spec, _. rewrite lookup_insert_eq.
        repeat split; try done; cbn [inHist outHist];
          rewrite shift_in_length; lia.
      * destruct (Hops op' Hop') as (net' & spec' & s' & ? & ? & ? & ? & ? & ?).
        exists net', spec', s'. by rewrite lookup_insert_ne.
    + intros spec' [= <-]. done.
  - intros Hop. unfold computeDetailed.
    destruct (nets p !! op) as [net|] eqn:E; [|done].
    destruct Hop. apply Hnets. by eexists.
Qed.

(** *** The normalisation of a range *)

Lemma decodeNormToRange_bounds (u lo hi : Q) :
  (lo <= hi)%Q -> (lo <= decodeNormToRange u lo hi <= hi)%Q.
Proof.
  intros Hle. unfold decodeNormToRange.
  destruct (clamp_bounds u 0 1) as [H0 H1]; [lra|].
  set (uu := clamp u 0 1) in *.
  assert (0 <= uu * (hi - lo))%Q by (apply Qmult_le_0_compat; lra).
  assert (uu * (hi - lo) <= 1 * (hi - lo))%Q
    by (apply Qmult_le_compat_r; lra).
  lra.
Qed.


(** *** Calls on a constructed provider *)

Lemma default_range (op : MathOp) :
  (outLo (DEFAULT_OP_SPECS op) < outHi (DEFAULT_OP_SPECS op))%Q.
Proof. by destruct op. Qed.

Lemma computeAll_constructed (scale : Q) (calls : list (MathOp * Z)) :
  (0 <= scale)%Q ->
  forall p,
    constructed p -> NeuralMathNarx.scale p = scale ->
    (forall op, op ∈ ops p -> opSpecs p !! op = Some (DEFAULT_OP_SPECS op)) ->
    Forall (fun c => c.1 ∈ ops p) calls ->
    exists rs p',
      computeAll p calls = Ok (rs, p')
      /\ Forall2 (inOutputRange scale) calls rs
      /\ constructed p' /\ sameNetworks p p'.
Proof.
  intros Hs. induction calls as [|[op x] calls IH];
    intros p Hp Hscale Hspecs Hcalls.
  - exists [], p. split; [done|]. split; [constructor|]. by split.
  - apply Forall_cons in Hcalls as [Hop Hcalls]. cbn [fst] in Hop.
    destruct (call_constructed p op x Hp) as [Hcall _].
    destruct (Hcall Hop) as (d & p1 & Hd & Hp1 & Hsame & _ & _ & Hfields).
    destruct (Hfields _ (Hspecs op Hop)) as (_ & Hres & _).
    injection Hsame as Es Ei Eo Em Ef Et Esp Eops En.
    destruct (IH p1) as (rs & p2 & Hrs & Hrange & Hp2 & Hsame2).
    { done. } { congruence. }
    { intros op' Hop'. rewrite <- Esp. apply Hspecs. by rewrite Eops. }
    { by rewrite <- Eops. }
    exists (result d :: rs), p2. cbn [computeAll]. unfold compute.
    rewrite Hd. cbn [mbind res_bind]. rewrite Hrs. cbn [mbind res_bind].
    split; [done|]. split; [|split; [done|]].
    + constructor; [|done]. unfold inOutputRange. cbn [fst].
      rewrite Hres, Hscale.
      destruct (decodeNormToRange_bounds (outNorm d)
                  (outLo (DEFAULT_OP_SPECS op)) (outHi (DEFAULT_OP_SPECS op)))
        as [Hlo Hhi]; [pose proof (default_range op); lra|].
      split; by apply floatToFx_mono.
    + unfold sameNetworks in *. injection Hsame2 as ?????????. congruence.
Qed.


(** *** The reference behind the fallback *)

Lemma refMathFx_range (op : MathOp) (x : Z) (s : Q) :
  - MAX_FX <= refMathFx op x s <= MAX_FX.
Proof.
  unfold refMathFx. destruct op; try apply floatToFx_range;
    destruct (Qle_bool _ _); apply floatToFx_range.
Qed.

Lemma decoded_in_range (L U N : Z) (y : Q) :
  L <= 0 <= U -> 1 <= N -> (inject_Z L <= y <= inject_Z U)%Q ->
  (inject_Z L
   <= fxToFloat (floatToFx y (inject_Z N)) (inject_Z N)
   <= inject_Z U)%Q.
Proof.
  intros HLU HN [Hy1 Hy2].
  assert (HNq : (0 < inject_Z N)%Q) by (rewrite <- (Zlt_Qlt 0); lia).
  assert (Hint : forall k, k * N <= MAX_FX -> - MAX_FX <= k * N ->
            floatToFx (inject_Z k) (inject_Z N) = k * N).
  { intros k H1 H2. unfold floatToFx.
    rewrite (Math_round_eq _ (k * N)) by (by rewrite inject_Z_mult).
    by apply clampZ_inside. }
  assert (Hlow : L * N <= floatToFx y (inject_Z N)).
  { destruct (Z.le_gt_cases (- MAX_FX) (L * N)) as [Hb|Hb].
    - rewrite <- (Hint L) by (unfold MAX_FX in *; nia).
      apply floatToFx_mono; lra.
    - pose proof (floatToFx_range y (inject_Z N)). lia. }
  assert (Hup : floatToFx y (inject_Z N) <= U * N).
  { destruct (Z.le_gt_cases (U * N) MAX_FX) as [Hb|Hb].
    - rewrite <- (Hint U) by (unfold MAX_FX in *; nia).
      apply floatToFx_mono; lra.
    - pose proof (floatToFx_range y (inject_Z N)). lia. }
  unfold fxToFloat.
  split; [apply Qle_shift_div_l|apply Qle_shift_div_r]; try done;
    rewrite <- inject_Z_mult, <- Zle_Qle; done.
Qed.

Lemma reference_in_range (op : MathOp) (x N : Z) :
  1 <= N -> op ∉ [FSIN; FCOS; FTANH] ->
  (outLo (DEFAULT_OP_SPECS op)
   <= fxToFloat (refMathFx op x (inject_Z N)) (inject_Z N)
   <= outHi (DEFAULT_OP_SPECS op))%Q.
Proof.
  intros HN Hop. unfold refMathFx.
  destruct op; try (destruct Hop; set_solver);
    cbn [DEFAULT_OP_SPECS outLo outHi inLo inHi];
    try destruct (Qle_bool (clamp _ lit_1e_6 256) 0);
    first [ apply (decoded_in_range (-8) 8)
          | apply (decoded_in_range 0 10)
          | apply (decoded_in_range (-16) 16)
          | apply (decoded_in_range 0 256)
          | apply (decoded_in_range 0 16) ];
    try lia; try (apply clamp_bounds; done); done.
Qed.


(** *** [reset] *)

Lemma zeroed_zeroed (s : opState) : zeroed (zeroed s) = zeroed s.
Proof. unfold zeroed. cbn. by rewrite !length_replicate. Qed.

Lemma resetOps_spec (l : list MathOp) : forall st,
  (forall op, op ∈ l -> is_Some (st !! op)) ->
  exists st',
    resetOps l st = Ok st'
    /\ forall op, st' !! op
                  = if decide (op ∈ l) then zeroed <$> st !! op else st !! op.
Proof.
  induction l as [|o l IH]; intros st Hst.
  - exists st. split; [done|]. intros op. by rewrite decide_False by set_solver.
  - destruct (Hst o) as [s Hs]; [set_solver|].
    cbn [resetOps]. rewrite Hs. cbn [defined mbind res_bind].
    fold (zeroed s).
    destruct (IH (<[o := zeroed s]> st)) as (st' & Hr & Hl).
    { intros op Hop. destruct (decide (op = o)) as [->|Hne].
      - rewrite lookup_insert_eq. by eexists.
      - rewrite lookup_insert_ne by done. apply Hst. set_solver. }
    exists st'. split; [done|]. intros op. rewrite Hl.
    destruct (decide (op = o)) as [->|Hne].
    + rewrite lookup_insert_eq, Hs.
      rewrite (decide_True (P := o ∈ o :: l)) by constructor. cbn.
      rewrite zeroed_zeroed. by case_decide.
    + rewrite lookup_insert_ne by done.
      destruct (decide (op ∈ l)).
      * by rewrite (decide_True (P := op ∈ o :: l)) by (by constructor).
      * rewrite (decide_False (P := op ∈ o :: l)); [done|].
        by intros [?|?]%elem_of_cons.
Qed.

Lemma reset_constructed (p : NeuralMathNARX) :
  constructed p ->
  exists p',
    reset p = Ok p'
    /\ constructed p' /\ sameNetworks p p' /\ stats p' = stats p
    /\ forall op, op ∈ ops p ->
         state p' !! op
         = Some {| inHist := replicate (inputLag p) 0%Q;
                   outHist := replicate (outputLag p) 0%Q |}.
Proof.
  intros (Hi & Ho & Hnets & Hops).
  destruct (resetOps_spec (ops p) (state p)) as (st' & Hr & Hl).
  { intros op Hop. destruct (Hops op Hop) as (_ & _ & s & _ & _ & Hs & _).
    by eexists. }
  assert (Hz : forall op, op ∈ ops p ->
            st' !! op = Some {| inHist := replicate (inputLag p) 0%Q;
                                outHist := replicate (outputLag p) 0%Q |}).
  { intros op Hop.
    destruct (Hops op Hop) as (_ & _ & s & _ & _ & Hs & Hli & Hlo & _).
    rewrite Hl, decide_True, Hs by done. cbn. unfold zeroed.
    by rewrite Hli, Hlo. }
  exists (set_state p st' (stats p)). unfold reset. rewrite Hr.
  split; [done|]. split; [|done].
  split; [done|]. split; [done|]. split; [done|].
  intros op Hop.
  destruct (Hops op Hop) as (net & spec & s & Hn & Hsp & Hs & Hli & Hlo & Hsz).
  exists net, spec, {| inHist := replicate (inputLag p) 0%Q;
                       outHist := replicate (outputLag p) 0%Q |}.
  cbn [nets opSpecs state set_state inputLag outputLag].
  rewrite (Hz op Hop). cbn [inHist outHist].
  by rewrite !length_replicate.
Qed.

(** X16. [reset] succeeds on a constructed provider, keeps networks,
    ranges and statistics, and erases the histories: after it, a call
    returns the same detail on two providers with the same networks,
    whatever either had been called with before. *)
Theorem reset_forgets_history (p q : NeuralMathNARX) :
  constructed p -> constructed q -> sameNetworks p q ->
  exists p' q',
    reset p = Ok p' /\ reset q = Ok q'
    /\ sameNetworks p p' /\ stats p' = stats p
    /\ forall op x, op ∈ ops p ->
         exists d p1 q1,
           computeDetailed p' op x = Ok (d, p1)
           /\ computeDetailed q' op x = Ok (d, q1).
Proof.
  intros Hp Hq Hsame.
  destruct (reset_constructed p Hp) as (p' & Hrp & Hp' & Hsp & Hst & Hzp).
  destruct (reset_constructed q Hq) as (q' & Hrq & Hq' & Hsq & _ & Hzq).
  exists p', q'. split; [done|]. split; [done|]. split; [done|].
  split; [done|]. intros op x Hop.
  injection Hsame as Es Ei Eo Em Ef Et Esp Eops En.
  injection Hsp as Es1 Ei1 Eo1 Em1 Ef1 Et1 Esp1 Eops1 En1.
  injection Hsq as Es2 Ei2 Eo2 Em2 Ef2 Et2 Esp2 Eops2 En2.
  destruct (call_constructed p' op x Hp') as [Hcall _].
  assert (Hop' : op ∈ ops p') by (by rewrite <- Eops1).
  destruct (Hcall Hop') as (d & p1 & Hd & _).
  exists d, p1.
  assert (Hq1 : exists q1, computeDetailed q' op x = Ok (d, q1));
    [|destruct Hq1 as [q1 ?]; by exists q1].
  revert Hd. unfold computeDetailed.
  rewrite <- En1, <- En2, <- Esp1, <- Esp2, <- Es1, <- Es2, <- Em1, <- Em2,
    <- Ef1, <- Ef2, <- Et1, <- Et2, <- En, <- Esp, <- Es, <- Em, <- Ef, <- Et.
  rewrite (Hzp op Hop), (Hzq op) by congruence. rewrite <- Ei, <- Eo.
  destruct (nets p !! op) as [net|]; [|done].
  destruct (opSpecs p !! op) as [spec|]; [|done].
  cbn [defined mbind res_bind inHist outHist].
  destruct (Narx.forward _ _) as [fw|]; [|done].
  cbn [mbind res_bind]. intros [= <- _]. by eexists.
Qed.

(** *** The two references *)

Lemma lit_1e_6_pos : (0 < lit_1e_6)%Q.
Proof. done. Qed.

(** X17. The reference of [pl0_cpu_sim.js] and the reference of
    [neural_math_narx.js] agree on every op and input, except [FLN] and
    [FLOG10] on an input whose decoded value is at most 0: there the
    machine's reference returns the encoding of -16, and the provider's
    the clamped logarithm of the lower end 1e-6 of its input range. *)
Theorem references_agree (op : MathOp) (x : Z) (s : Q) :
  ((op ∈ [FLN; FLOG10] -> (0 < fxToFloat x s)%Q) ->
   Pl0CpuSim.refMathFx op x s = NeuralMathNarx.refMathFx op x s)
  /\ ((fxToFloat x s <= 0)%Q ->
      Pl0CpuSim.refMathFx FLN x s = floatToFx (-16) s
      /\ NeuralMathNarx.refMathFx FLN x s
         = floatToFx (clamp (Math_log lit_1e_6) (-16) 16) s
      /\ Pl0CpuSim.refMathFx FLOG10 x s = floatToFx (-16) s
      /\ NeuralMathNarx.refMathFx FLOG10 x s
         = floatToFx (clamp (Math_log10 lit_1e_6) (-16) 16) s).
Proof.
  pose proof lit_1e_6_pos as Hpos.
  assert (Hfalse : Qle_bool (clamp (fxToFloat x s) lit_1e_6 256) 0 = false).
  { apply Qle_bool_false. pose proof (clamp_lower (fxToFloat x s) lit_1e_6 256).
    lra. }
  split.
  - intros Hop. unfold Pl0CpuSim.refMathFx, NeuralMathNarx.refMathFx.
    destruct op; try reflexivity;
      cbn [DEFAULT_OP_SPECS inLo inHi outLo outHi];
      rewrite Hfalse, Qle_bool_false; try done; apply Hop;
      solve [repeat constructor].
  - intros Hx. unfold Pl0CpuSim.refMathFx, NeuralMathNarx.refMathFx.
    cbn [DEFAULT_OP_SPECS inLo inHi outLo outHi].
    rewrite Hfalse, (proj2 (Qle_bool_iff _ _) Hx).
    assert (E : (clamp (fxToFloat x s) lit_1e_6 256 == lit_1e_6)%Q).
    { apply clamp_below; [lra|done]. }
    repeat split; by rewrite E.
Qed.

End MathProvider.

(** ** The reference CPU of the genetic trainer *)

Section ReferenceCpu.
Context `{MathLib}.
Import NeuralCpuGa.

Lemma u8_mod (x : Z) : u8 x = x mod 256.
Proof. unfold u8. apply (Z.land_ones x 8). lia. Qed.

Lemma u8_range (x : Z) : 0 <= u8 x < 256.
Proof. rewrite u8_mod. by apply Z.mod_pos_bound. Qed.

Lemma R_range (regs : gmap Z Z) (i : Z) : 0 <= R regs i < 256.
Proof. unfold R. destruct (i =? 0); [lia|]. apply u8_range. Qed.

(** *** Bytes and their encoding *)

Lemma decodeByte_range (x : Q) : 0 <= decodeByte x < 256.
Proof. unfold decodeByte. apply u8_range. Qed.

Lemma decodeByte_encodeByte (x : Z) : decodeByte (encodeByte x) = x mod 256.
Proof.
  unfold decodeByte, encodeByte. fold (u8 x).
  pose proof (u8_range x) as Hb. rewrite <- u8_mod.
  assert (Hq : (0 <= inject_Z (u8 x) / 255 <= 1)%Q).
  { split; [apply Qle_shift_div_l|apply Qle_shift_div_r]; try done.
    - rewrite Qmult_0_l. rewrite <- (Zle_Qle 0). lia.
    - rewrite Qmult_1_l. rewrite <- (Zle_Qle _ 255). lia. }
  rewrite (Math_round_eq _ (u8 x)).
  - fold (u8 (u8 x)). rewrite !u8_mod. rewrite Z.mod_mod by lia. done.
  - rewrite Q.min_r by lra. rewrite Q.max_r by lra. field.
Qed.

(** X19. Decoding the encoding of a byte gives the byte back (of any
    integer, its low eight bits), every decoded value is a byte, and
    decoding the encoding of a state gives back the program counter, the
    four registers and the first four memory cells, each reduced to its
    low eight bits, and the halted flag. *)
Theorem byte_codec_roundtrip (st : state) (memory : gmap Z Z) (x : Z) (q : Q) :
  decodeByte (encodeByte x) = x mod 256
  /\ 0 <= decodeByte q < 256
  /\ decodeState (encodeState st memory)
     = {| d_pc := pc st mod 256;
          d_regs := (fun i => cell (regs st) i mod 256) <$> [0; 1; 2; 3];
          d_memHead := (fun i => cell memory i mod 256) <$> [0; 1; 2; 3];
          d_halted := halted st |}.
Proof.
  split; [apply decodeByte_encodeByte|]. split; [apply decodeByte_range|].
  unfold decodeState, encodeState, decodeAt.
  change (seqZ 0 (Z.of_nat NUM_REGS)) with [0; 1; 2; 3].
  change (seqZ 0 4) with [0; 1; 2; 3].
  cbn. rewrite !decodeByte_encodeByte. by destruct (halted st).
Qed.

(** *** Runs *)

Lemma bytes_insert (m : gmap Z Z) (k v : Z) :
  bytes m -> 0 <= v < 256 -> bytes (<[k := v]> m).
Proof.
  intros Hm Hv i w. destruct (decide (i = k)) as [->|Hne].
  - rewrite lookup_insert_eq. by intros [= <-].
  - rewrite lookup_insert_ne by done. apply Hm.
Qed.

Lemma bytes_writeRd (regs : gmap Z Z) (rd v : Z) :
  bytes regs -> 0 <= v < 256 -> bytes (writeRd regs rd v).
Proof.
  intros Hm Hv. unfold writeRd. destruct (rd =? 0); [done|].
  by apply bytes_insert.
Qed.

Lemma writeRd_zero (regs : gmap Z Z) (rd v : Z) :
  regs !! 0 = Some 0 -> writeRd regs rd v !! 0 = Some 0.
Proof.
  intros H0. unfold writeRd. destruct (Z.eqb_spec rd 0); [done|].
  by rewrite lookup_insert_ne.
Qed.

Lemma refStepCPU_invariant (st : state) (memory : gmap Z Z) (i : instr) :
  refInvariant st memory ->
  refInvariant (refStepCPU st memory i).1 (refStepCPU st memory i).2.
Proof.
  intros (Hpc & Hregs & Hmem & Hzero & Hdom). unfold refStepCPU.
  destruct (halted st); [done|].
  assert (Hnext : 0 <= Z.land (pc st + 1) 255 < 256) by apply u8_range.
  destruct (opcodeOf (opcode i)) as [[]|]; cbn [fst snd pc regs];
    try (split; [first [exact Hnext | apply u8_range]|];
         split; [by apply bytes_writeRd, u8_range|];
         split; [done|]; split; [by apply writeRd_zero|done]);
    try (split; [first [exact Hnext | apply u8_range]|]; done).
  - (* LD *)
    split; [exact Hnext|]. split; [|split; [done|split; [|done]]].
    + destruct (rd i =? 0); [done|].
      destruct (memory !! _) as [v|] eqn:E.
      * apply bytes_insert; [done|]. by eapply Hmem.
      * intros k w Hk. cbn [regs] in Hk.
        apply lookup_delete_Some in Hk as [_ Hk].
        by eapply Hregs.
    + destruct (Z.eqb_spec (rd i) 0); [done|].
      destruct (memory !! _); cbn [regs];
        [by rewrite lookup_insert_ne|by rewrite lookup_delete_ne].
  - (* ST *)
    split; [exact Hnext|]. split; [done|].
    set (a := js_rem (u8 (R (regs st) (rs1 i) + imm i)) MEM_SIZE).
    assert (Ha : 0 <= a < MEM_SIZE).
    { unfold a, js_rem, MEM_SIZE.
      pose proof (u8_range (R (regs st) (rs1 i) + imm i)).
      rewrite Z.rem_mod_nonneg by lia. by apply Z.mod_pos_bound. }
    split; [apply bytes_insert; [done|apply R_range]|]. split; [done|].
    intros b. destruct (decide (b = a)) as [->|Hne].
    + rewrite lookup_insert_eq. split; [done|by eexists].
    + rewrite lookup_insert_ne by done. apply Hdom.
  - (* BEQ *)
    split; [|done]. destruct (_ =? _); [apply u8_range|exact Hnext].
Qed.

Lemma runLoop_spec (program : list instr) (budget : nat) :
  forall st memory n,
    refInvariant st memory ->
    let r := runLoop budget program st memory n in
    (n <= steps r <= n + budget)%nat
    /\ refInvariant (final r) (finalMemory r)
    /\ (steps r = (n + budget)%nat
        \/ halted (final r) = true
        \/ Z.of_nat (length program) <= pc (final r)).
Proof.
  induction budget as [|budget IH]; intros st memory n Hinv; cbn [runLoop].
  - destruct (negb (halted st) && (pc st <? Z.of_nat (length program)))
      eqn:E; cbn; (split; [lia|]); (split; [done|]); [left; lia|].
    apply andb_false_iff in E as [E|E].
    + right. left. by apply negb_false_iff.
    + right. right. by apply Z.ltb_ge.
  - destruct (negb (halted st) && (pc st <? Z.of_nat (length program)))
      eqn:E.
    + apply andb_true_iff in E as [_ E]. apply Z.ltb_lt in E.
      destruct Hinv as (Hpc & Hinv).
      destruct (lookup_lt_is_Some_2 program (Z.to_nat (pc st))) as [i Hi];
        [lia|].
      rewrite Hi.
      pose proof (refStepCPU_invariant st memory i (conj Hpc Hinv)) as Hstep.
      destruct (refStepCPU st memory i) as [st' memory'].
      destruct (IH st' memory' (S n) Hstep) as (H1 & H2 & H3).
      split; [lia|]. split; [done|].
      destruct H3 as [H3|H3]; [left; lia|by right].
    + cbn. split; [lia|]. split; [done|].
      apply andb_false_iff in E as [E|E].
      * right. left. by apply negb_false_iff.
      * right. right. by apply Z.ltb_ge.
Qed.

Lemma zeroMemory_lookup (a : Z) :
  zeroMemory !! a = if decide (0 <= a < MEM_SIZE) then Some 0 else None.
Proof.
  unfold zeroMemory. case_decide as Ha.
  - destruct (list_to_map _ !! a) as [v|] eqn:E.
    + apply elem_of_list_to_map_2, list_elem_of_fmap in E.
      by destruct E as (b & [= -> ->] & _).
    + apply not_elem_of_list_to_map_2 in E. destruct E.
      rewrite <- list_fmap_compose. apply list_elem_of_fmap. exists a.
      split; [done|]. apply elem_of_seqZ. lia.
  - apply not_elem_of_list_to_map_1. rewrite <- list_fmap_compose.
    intros Hin. apply list_elem_of_fmap in Hin as (b & -> & Hb).
    apply elem_of_seqZ in Hb. cbn in Ha. lia.
Qed.

(** X20. [runRefProgram] executes at most [maxSteps] instructions and
    never throws; it stops because the budget is used up, the machine has
    halted or the program counter has left the program.  Throughout, the
    program counter, the registers and the memory cells hold bytes,
    register 0 holds 0 and the memory keeps its 16 cells. *)
Theorem run_ref_program_bounded (program : list instr) (maxSteps : nat) :
  let r := runRefProgram program maxSteps in
  (steps r <= maxSteps)%nat
  /\ (steps r = maxSteps
      \/ halted (final r) = true
      \/ Z.of_nat (length program) <= pc (final r))
  /\ refInvariant (final r) (finalMemory r).
Proof.
  destruct (runLoop_spec program maxSteps makeInitialState zeroMemory 0)
    as (H1 & H2 & H3).
  - split; [done|]. split; [|split; [|split; [done|]]].
    + intros i v Hi. unfold makeInitialState in Hi. cbn [regs] in Hi.
      repeat (apply lookup_insert_Some in Hi as [[_ <-]|[_ Hi]]; [lia|]).
      apply lookup_singleton_Some in Hi as [_ <-]. lia.
    + intros a v Ha. rewrite zeroMemory_lookup in Ha.
      case_decide; [|done]. injection Ha as <-. lia.
    + intros a. rewrite zeroMemory_lookup.
      case_decide; split; intros Hx; try done; try (by eexists);
        by destruct Hx.
  - unfold runRefProgram. split; [lia|]. split; [|done].
    destruct H3 as [H3|H3]; [by left|by right].
Qed.

(** *** One step *)

Lemma u8_R (regs : gmap Z Z) (i : Z) : u8 (R regs i) = R regs i.
Proof.
  pose proof (R_range regs i). rewrite u8_mod. by apply Z.mod_small.
Qed.

Lemma writeRd_lookup (regs : gmap Z Z) (rd v : Z) :
  (rd <> 0 -> writeRd regs rd v !! rd = Some v)
  /\ (rd = 0 -> writeRd regs rd v = regs).
Proof.
  unfold writeRd. destruct (Z.eqb_spec rd 0); split; try done.
  intros _. by rewrite lookup_insert_eq.
Qed.

(** X21. One step of the reference CPU from a state that has not halted.
    The six arithmetic and logic instructions advance the program counter
    modulo 256, leave the memory alone and store in [rd] the sum or the
    difference of their byte operands modulo 256 (so 0 - 1 is 255), or
    their bitwise combination; a destination 0 drops the write, and
    register 0 reads as 0 whatever it holds.  [HALT] and every number that
    is not an opcode halt the machine without touching registers or
    memory, and a halted machine no longer moves. *)
Theorem ref_step_byte_arithmetic (st : state) (memory : gmap Z Z) (i : instr)
    (op : Opcode) :
  let a := R (regs st) (rs1 i) in
  let b := R (regs st) (rs2 i) in
  let st' := (refStepCPU st memory i).1 in
  let memory' := (refStepCPU st memory i).2 in
  (halted st = false -> opcodeOf (opcode i) = Some op ->
   op ∈ [ADD; SUB; ADDI; AND; OR; XOR] ->
   memory' = memory /\ pc st' = (pc st + 1) mod 256 /\ halted st' = false
   /\ (rd i = 0 -> regs st' = regs st)
   /\ (rd i <> 0 ->
       regs st' !! rd i
       = Some match op with
              | ADD => (a + b) mod 256
              | SUB => (a - b) mod 256
              | ADDI => (a + imm i) mod 256
              | AND => Z.land a b
              | OR => Z.lor a b
              | _ => Z.lxor a b
              end))
  /\ (halted st = false ->
      opcodeOf (opcode i) = Some HALT \/ opcodeOf (opcode i) = None ->
      halted st' = true /\ regs st' = regs st /\ memory' = memory)
  /\ (halted st = true -> st' = st /\ memory' = memory)
  /\ R (regs st') 0 = 0.
Proof.
  intros a b st' memory'. unfold st', memory', refStepCPU.
  split; [|split; [|split]].
  - intros -> -> Hop. cbn [fst snd].
    assert (Hand : u8 (Z.land a b) = Z.land a b).
    { unfold u8, a, b. rewrite <- Z.land_assoc.
      fold (u8 (R (regs st) (rs2 i))). by rewrite u8_R. }
    assert (Hor : u8 (Z.lor a b) = Z.lor a b).
    { unfold u8. rewrite Z.land_lor_distr_l. fold (u8 a) (u8 b).
      unfold a, b. by rewrite !u8_R. }
    assert (Hxor : u8 (Z.lxor a b) = Z.lxor a b).
    { transitivity (Z.lxor (u8 a) (u8 b)).
      - unfold u8. apply Z.bits_inj'. intros n _.
        rewrite Z.land_spec, !Z.lxor_spec, !Z.land_spec.
        by destruct (Z.testbit a n), (Z.testbit b n), (Z.testbit 255 n).
      - unfold a, b. by rewrite !u8_R. }
    destruct op; try (exfalso; revert Hop; clear;
                      intros Hin;
                      repeat (apply elem_of_cons in Hin as [Hin|Hin];
                              [discriminate|]);
                      by apply elem_of_nil in Hin);
      cbn [fst snd pc regs halted];
      (split; [done|]); (split; [apply u8_mod|]); (split; [done|]);
      (split; [apply writeRd_lookup|]);
      intros Hrd; rewrite (proj1 (writeRd_lookup _ _ _) Hrd);
      fold a b; rewrite ?Hand, ?Hor, ?Hxor, ?u8_mod; done.
  - intros -> [-> | ->]; done.
  - by intros ->.
  - done.
Qed.

(** *** The encoding of an instruction *)

Lemma oneHot_length (n : nat) (k : Z) : length (oneHot n k) = n.
Proof. unfold oneHot. by rewrite length_fmap, length_seq. Qed.

Lemma oneHot_inj (n : nat) (k k' : Z) :
  0 <= k < Z.of_nat n -> Forall2 Qeq (oneHot n k) (oneHot n k') -> k = k'.
Proof.
  intros Hk Heq.
  assert (Hl : forall m, oneHot n m !! Z.to_nat k
                         = Some (if k =? m then 1%Q else 0%Q)).
  { intros m. unfold oneHot. rewrite list_lookup_fmap, lookup_seq_lt by lia.
    cbn. by rewrite Z2Nat.id by lia. }
  pose proof (Forall2_lookup_lr _ _ _ _ _ _ Heq (Hl k) (Hl k')) as E.
  rewrite Z.eqb_refl in E. destruct (Z.eqb_spec k k'); [done|].
  by destruct (Q_apart_0_1 E).
Qed.

(** X22. The encoding of an instruction has 34 components, and on
    instructions whose fields are in range it is injective: two of them
    with componentwise equal encodings are the same instruction. *)
Theorem encodeInstruction_injective (i j : instr) :
  inTable i -> inTable j ->
  length (encodeInstruction i) = 34%nat
  /\ (Forall2 Qeq (encodeInstruction i) (encodeInstruction j) -> i = j).
Proof.
  intros (Ho & Hd & H1 & H2 & Hi) (Ho' & Hd' & H1' & H2' & Hi').
  split.
  { unfold encodeInstruction. by rewrite !length_app, !oneHot_length. }
  unfold encodeInstruction. intros Heq.
  apply Forall2_app_inv in Heq as [Eo Heq]; [|by rewrite !oneHot_length].
  apply Forall2_app_inv in Heq as [Ed Heq]; [|by rewrite !oneHot_length].
  apply Forall2_app_inv in Heq as [E1 Heq]; [|by rewrite !oneHot_length].
  apply Forall2_app_inv in Heq as [E2 Heq]; [|by rewrite !oneHot_length].
  apply Forall2_cons in Heq as [Ei _].
  apply oneHot_inj in Eo, Ed, E1, E2; try done.
  assert (Eimm : imm i = imm j).
  { unfold toInt32 in Ei.
    rewrite !Z.mod_small in Ei by lia.
    unfold Qeq, Qdiv, Qmult, Qinv, inject_Z in Ei. cbn in Ei. lia. }
  destruct i, j. cbn in *. congruence.
Qed.
End ReferenceCpu.

(** *** A training step of [LinearNet] *)

Section LinearTraining.
Import NeuralAlu NeuralAluTraining.

Lemma nth_array_set (l : list Q) (i j : nat) (v : Q) :
  nth j (array_set l i v) 0%Q = if decide (j = i) then v else nth j l 0%Q.
Proof.
  unfold array_set. destruct (Nat.ltb_spec i (length l)) as [Hi|Hi].
  - case_decide as E.
    + subst. rewrite nth_lookup, list_lookup_insert_eq by done. done.
    + rewrite !nth_lookup, list_lookup_insert_ne by done. done.
  - case_decide as E.
    + subst. rewrite !app_assoc, app_nth2; rewrite length_app, length_replicate;
        [|lia]. by replace (i - (length l + (i - length l)))%nat with 0%nat by lia.
    + destruct (Nat.lt_ge_cases j (length l)) as [Hj|Hj].
      * by rewrite app_nth1.
      * rewrite app_nth2 by done. rewrite (nth_overflow l) by done.
        destruct (Nat.lt_ge_cases (j - length l) (i - length l)) as [Hk|Hk].
        -- rewrite app_nth1 by (by rewrite length_replicate).
           rewrite nth_lookup, lookup_replicate_2 by done. done.
        -- rewrite app_nth2 by (by rewrite length_replicate).
           rewrite length_replicate.
           destruct (j - length l - (i - length l))%nat as [|[|k]] eqn:Ek;
             [lia|done|done].
Qed.

(** The weights after the loop of [trainOne]. *)
Lemma nth_trained (x : list Q) (c : Q) (n : nat) : forall (a : nat) (w : list Q) (j : nat),
  nth j (fold_left (fun w i => array_set w i (nth i w 0 - c * nth i x 0)%Q)
                   (seq a n) w) 0%Q
  = if decide (a <= j < a + n)%nat then (nth j w 0 - c * nth j x 0)%Q
    else nth j w 0%Q.
Proof.
  induction n as [|n IH]; intros a w j; cbn [seq fold_left].
  { rewrite decide_False by lia. done. }
  rewrite IH. rewrite !nth_array_set.
  destruct (decide (j = a)) as [->|Hne].
  - rewrite decide_False by lia. by rewrite decide_True by lia.
  - destruct (decide (S a <= j < S a + n)%nat).
    + by rewrite decide_True by lia.
    + by rewrite decide_False by lia.
Qed.

Lemma fold_sumOver (f : nat -> Q) (l : list nat) : forall a : Q,
  (fold_left (fun y i => (y + f i)%Q) l a == a + sumOver f l)%Q.
Proof.
  induction l as [|i l IH]; intros a; cbn [fold_left sumOver foldr].
  - ring.
  - rewrite IH. unfold sumOver. ring.
Qed.

Lemma sumOver_step (f g h : nat -> Q) (c : Q) (l : list nat) :
  (forall i, i ∈ l -> (f i == g i - c * h i)%Q) ->
  (sumOver f l == sumOver g l - c * sumOver h l)%Q.
Proof.
  induction l as [|i l IH]; intros Hf; cbn [sumOver foldr]; [ring|].
  fold (sumOver f l) (sumOver g l) (sumOver h l).
  specialize (IH (fun j Hj => Hf j (list_elem_of_further _ _ _ Hj))).
  pose proof (Hf i (list_elem_of_here _ _)) as Hi. rewrite IH, Hi. ring.
Qed.

Lemma sumOver_shift (f : nat -> Q) (n : nat) : forall a,
  sumOver f (seq (S a) n) = sumOver (fun i => f (S i)) (seq a n).
Proof.
  induction n as [|n IH]; intros a; cbn [seq sumOver foldr]; [done|].
  fold (sumOver f (seq (S (S a)) n)).
  fold (sumOver (fun i => f (S i)) (seq (S a) n)). by rewrite IH.
Qed.

Lemma sumOver_squares (x : list Q) :
  sumOver (fun i => nth i x 0 * nth i x 0)%Q (seq 0 (length x)) = sumSquares x.
Proof.
  induction x as [|v x IH]; [done|].
  cbn [length seq sumOver foldr sumSquares].
  fold (sumOver (fun i => nth i (v :: x) 0 * nth i (v :: x) 0)%Q
                (seq 1 (length x))).
  fold (sumSquares x). rewrite sumOver_shift. cbn [nth]. by rewrite IH.
Qed.

Lemma sumSquares_nonneg (x : list Q) : (0 <= sumSquares x)%Q.
Proof.
  induction x as [|v x IH]; cbn [sumSquares foldr]; [done|].
  fold (sumSquares x). nra.
Qed.

End LinearTraining.

(** ** The PL/0 compiler *)

Section CompiledCode.
Context `{MathLib}.
Variable PL0Programs : gmap string (list instr).
Import Pl0Compiler.

(** *** Single instructions of compiled code *)

Lemma stepN_cons (s s1 : PL0CPU) (line : instr) (rest : list instr)
    (evs : list event) :
  codeAt s (pointer s) (line :: rest) ->
  (instructions s !! pointer s = Some line ->
   step PL0Programs s = Ok (s1, evs)) ->
  instructions s1 = instructions s -> pointer s1 = S (pointer s) ->
  stepN PL0Programs (length (line :: rest)) s
  = stepN PL0Programs (length rest) s1
  /\ codeAt s1 (pointer s1) rest.
Proof.
  intros Hcode Hstep Hi Hp. apply codeAt_cons in Hcode as [Hfetch Hrest].
  cbn [length stepN]. rewrite (Hstep Hfetch). cbn [mbind res_bind].
  split; [done|]. unfold codeAt. by rewrite Hi, Hp.
Qed.

Lemma step_load_imm (s : PL0CPU) (r : nat) (v : Z) :
  (r < numRegs s)%nat ->
  instructions s !! pointer s = Some (LOAD r (Hash v)) ->
  step PL0Programs s = Ok (advance (setReg s r v), []).
Proof.
  intros Hr Hfetch. rewrite (step_fetch _ _ _ Hfetch). cbn [dispatch].
  by rewrite _parseReg_ok.
Qed.

Lemma imm_address (s : PL0CPU) (a : Z) :
  0 <= a < Z.of_nat (length (memory s)) -> _loadAddr s (ModeImm a) = a.
Proof.
  intros Ha. unfold _loadAddr. rewrite js_rem_wrap by lia.
  by apply Z.mod_small.
Qed.

Lemma step_load_cell (s : PL0CPU) (r : nat) (a : Z) :
  (r < numRegs s)%nat -> 0 <= a < Z.of_nat (length (memory s)) ->
  instructions s !! pointer s = Some (LOAD r (Bracket (BracketImm a))) ->
  step PL0Programs s = Ok (advance (setReg s r (readMem s a)), [MemRead a]).
Proof.
  intros Hr Ha Hfetch. rewrite (step_fetch _ _ _ Hfetch). cbn [dispatch].
  rewrite _parseReg_ok by done. cbn [mbind res_bind _parseAddrBracket].
  by rewrite imm_address.
Qed.

Lemma step_store_cell (s : PL0CPU) (r : nat) (a : Z) :
  (r < numRegs s)%nat -> 0 <= a < Z.of_nat (length (memory s)) ->
  instructions s !! pointer s = Some (STORE r (BracketImm a)) ->
  step PL0Programs s
  = Ok (advance (writeMem s a (getReg s r)), [MemWrite a]).
Proof.
  intros Hr Ha Hfetch. rewrite (step_fetch _ _ _ Hfetch). cbn [dispatch].
  rewrite _parseReg_ok by done. cbn [mbind res_bind _parseAddrBracket].
  by rewrite imm_address.
Qed.

Lemma step_arith_exact (s : PL0CPU) (op : ALUOp) (rX rY : nat) :
  neuralALU s = None -> (rX < numRegs s)%nat -> (rY < numRegs s)%nat ->
  (op = DIV -> getReg s rY <> 0) ->
  instructions s !! pointer s = Some (Arith op rX rY) ->
  step PL0Programs s
  = Ok (advance (setReg s rX (native op (getReg s rX) (getReg s rY))), []).
Proof.
  intros Halu HrX HrY Hdiv Hfetch. rewrite (step_fetch _ _ _ Hfetch).
  destruct op; cbn [dispatch]; rewrite !_parseReg_ok by done;
    cbn [mbind res_bind];
    try rewrite (proj2 (Z.eqb_neq _ _) (Hdiv eq_refl));
    unfold arith; by rewrite Halu.
Qed.

Lemma step_fmath_exact (s : PL0CPU) (op : MathOp) (r : nat) :
  neuralMath s = None -> (r < numRegs s)%nat ->
  instructions s !! pointer s = Some (FMath op r) ->
  step PL0Programs s
  = Ok (advance (setReg s r (refMathFx op (getReg s r)
                                      (Pl0CpuSim.fxScale s))), []).
Proof.
  intros Hmath Hr Hfetch. rewrite (step_fetch _ _ _ Hfetch). cbn [dispatch].
  rewrite _parseReg_ok by done. cbn [mbind res_bind]. by rewrite Hmath.
Qed.

(** Registers and cells after a register or a cell is written. *)
Lemma getReg_setReg (s : PL0CPU) (r r' : nat) (v : Z) :
  (r < length (regs s))%nat ->
  getReg (advance (setReg s r v)) r' = if decide (r = r') then v else getReg s r'.
Proof.
  intros Hr. unfold getReg. cbn. case_decide as E.
  - subst. by rewrite list_lookup_insert_eq.
  - by rewrite list_lookup_insert_ne.
Qed.

Lemma readMem_writeMem (s : PL0CPU) (a a' v : Z) :
  0 <= a < Z.of_nat (length (memory s)) -> 0 <= a' ->
  readMem (advance (writeMem s a v)) a'
  = if decide (a = a') then v else readMem s a'.
Proof.
  intros Ha Ha'. unfold readMem. cbn. case_decide as E.
  - subst. by rewrite list_lookup_insert_eq by lia.
  - by rewrite list_lookup_insert_ne by lia.
Qed.

Lemma exactMachine_setReg (s : PL0CPU) (r : nat) (v : Z) :
  exactMachine s -> exactMachine (advance (setReg s r v)).
Proof.
  intros (? & ? & ? & ?). repeat split; try done. cbn.
  by rewrite length_insert.
Qed.

Lemma exactMachine_writeMem (s : PL0CPU) (a v : Z) :
  exactMachine s -> exactMachine (advance (writeMem s a v)).
Proof. by intros (? & ? & ? & ?). Qed.

Lemma sameFrame_refl (s : PL0CPU) : exactMachine s -> sameFrame s s.
Proof. by intros Hs. Qed.

Lemma sameFrame_trans (s1 s2 s3 : PL0CPU) :
  sameFrame s1 s2 -> sameFrame s2 s3 -> sameFrame s1 s3.
Proof.
  intros (_ & Hm1 & Hf1) (Hs3 & Hm2 & Hf2).
  split; [done|]. split; congruence.
Qed.

Lemma sameFrame_fields (s s' : PL0CPU) :
  sameFrame s s' ->
  exactMachine s' /\ length (memory s') = length (memory s)
  /\ instructions s' = instructions s
  /\ Pl0CpuSim.fxScale s' = Pl0CpuSim.fxScale s.
Proof.
  intros (Hs & Hm & E). split; [done|]. split; [done|].
  split; [exact (f_equal (fun t => t.1.1.1.1.1) E)
         |exact (f_equal (fun t => t.1.2) E)].
Qed.

Lemma sameFrame_setReg (s : PL0CPU) (r : nat) (v : Z) :
  exactMachine s -> sameFrame s (advance (setReg s r v)).
Proof. intros Hs. split; [by apply exactMachine_setReg|done]. Qed.

Lemma sameFrame_writeMem (s : PL0CPU) (a v : Z) :
  exactMachine s -> sameFrame s (advance (writeMem s a v)).
Proof.
  intros Hs. split; [by apply exactMachine_writeMem|]. split; [|done].
  cbn. by rewrite length_insert.
Qed.

(** *** The value of an expression depends on the variables' cells only *)

Lemma evalExpr_ext (vars : gmap string Z) (scale : Z) (cpuScale : Q)
    (cell cell' : Z -> Z) (lo : Z) (e : expr) :
  (forall name a, vars !! name = Some a -> 0 <= a <= lo) ->
  (forall a, 0 <= a <= lo -> cell' a = cell a) ->
  evalExpr vars scale cpuScale cell' e = evalExpr vars scale cpuScale cell e.
Proof.
  intros Hvars Hcell. induction e as [| name | | op l IHl r IHr | name arg IH
                                      | arg IH | arg IH]; cbn [evalExpr];
    rewrite ?IHl, ?IHr, ?IH; try done.
  destruct (vars !! name) as [a|] eqn:E; [|done]. cbn.
  by rewrite Hcell by (by eapply Hvars).
Qed.
End CompiledCode.

Section ExpressionCode.
Context `{MathLib}.
Variable PL0Programs : gmap string (list instr).
Variable vars : gmap string Z.
Variable scale : Z.
Import Pl0Compiler.

Lemma run_app (s s1 : PL0CPU) (c1 c2 : list instr) :
  codeAt s (pointer s) (c1 ++ c2) ->
  stepN PL0Programs (length c1) s = Ok s1 ->
  pointer s1 = (pointer s + length c1)%nat ->
  instructions s1 = instructions s ->
  stepN PL0Programs (length (c1 ++ c2)) s = stepN PL0Programs (length c2) s1
  /\ codeAt s1 (pointer s1) c2.
Proof.
  intros Hcode Hrun Hp Hi. apply codeAt_app in Hcode as [_ Hc2].
  rewrite length_app, stepN_add, Hrun. cbn [mbind res_bind].
  split; [done|]. unfold codeAt. by rewrite Hi, Hp.
Qed.

Lemma computes_mono (hi lo hi' lo' : Z) (ast : expr) (code : list instr) :
  computes PL0Programs vars scale hi lo ast code -> hi <= hi' -> lo' <= lo ->
  computes PL0Programs vars scale hi' lo' ast code.
Proof.
  intros Hc Hhi Hlo s v Hs Hm Hlo' Hvars Hcode Heval.
  destruct (Hc s v Hs) as (s' & R & G & P & M & F); try done; try lia.
  { intros name a Ha. specialize (Hvars name a Ha). lia. }
  exists s'. repeat split; try done; try apply F. intros a Ha Hout.
  apply M; lia.
Qed.

Lemma computes_literal (hi lo v : Z) (ast : expr) :
  (forall cpuScale cell, evalExpr vars scale cpuScale cell ast = Some v) ->
  computes PL0Programs vars scale hi lo ast [LOAD 0 (Hash v)].
Proof.
  intros Hast s w Hs Hm Hlo Hvars Hcode Heval.
  rewrite Hast in Heval. injection Heval as <-.
  pose proof Hs as (_ & _ & Hregs & Hlen).
  destruct (stepN_cons PL0Programs s _ _ _ _ Hcode
              (step_load_imm PL0Programs s 0 v ltac:(lia)))
    as [Hrun _]; [done|done|].
  eexists. split; [rewrite Hrun; reflexivity|].
  split; [by rewrite getReg_setReg by lia|].
  split; [cbn; lia|]. split; [done|]. by apply sameFrame_setReg.
Qed.

Lemma computes_variable (hi lo addr : Z) (name : string) :
  vars !! name = Some addr -> lo <= hi ->
  computes PL0Programs vars scale hi lo (EVar name) [LOAD 0 (Bracket (BracketImm addr))].
Proof.
  intros Hname Hle s w Hs Hm Hlo Hvars Hcode Heval.
  cbn [evalExpr] in Heval. rewrite Hname in Heval. injection Heval as <-.
  pose proof Hs as (_ & _ & Hregs & Hlen).
  pose proof (Hvars name addr Hname) as Haddr.
  destruct (stepN_cons PL0Programs s _ _ _ _ Hcode
              (step_load_cell PL0Programs s 0 addr ltac:(lia) ltac:(lia)))
    as [Hrun _]; [done|done|].
  eexists. split; [rewrite Hrun; reflexivity|].
  split; [by rewrite getReg_setReg by lia|].
  split; [cbn; lia|]. split; [done|]. by apply sameFrame_setReg.
Qed.

(** The code of [op] applied to the value [a] saved at [t] and the value
    in [r0]. *)
Lemma run_binop_tail (s : PL0CPU) (op : ALUOp) (commutes : bool) (t a : Z) :
  exactMachine s -> 0 <= t < Z.of_nat (length (memory s)) ->
  readMem s t = a -> (op = DIV -> getReg s 0 <> 0) ->
  let tail :=
    if commutes
    then [LOAD 1 (Bracket (BracketImm t)); Arith op 0 1]
    else [LOAD 1 (Bracket (BracketImm t)); Arith op 1 0;
          STORE 1 (BracketImm t); LOAD 0 (Bracket (BracketImm t))] in
  (op = DIV -> commutes = false) ->
  codeAt s (pointer s) tail ->
  exists s',
    stepN PL0Programs (length tail) s = Ok s'
    /\ getReg s' 0 = (if commutes then native op (getReg s 0) a
                      else native op a (getReg s 0))
    /\ pointer s' = (pointer s + length tail)%nat
    /\ (forall x, 0 <= x -> x <> t -> readMem s' x = readMem s x)
    /\ sameFrame s s'.
Proof.
  intros Hs Ht Ha Hdiv tail Hcomm Hcode.
  pose proof Hs as (Halu & _ & Hregs & Hlen).
  subst tail. destruct commutes.
  - destruct (stepN_cons PL0Programs s _ _ _ _ Hcode
                (step_load_cell PL0Programs s 1 t ltac:(lia) Ht))
      as [R1 C1]; [done|done|].
    set (s1 := advance (setReg s 1 (readMem s t))) in *.
    assert (Hs1 : exactMachine s1) by (by apply exactMachine_setReg).
    assert (G0 : getReg s1 0 = getReg s 0).
    { unfold s1. by rewrite getReg_setReg by lia. }
    assert (G1 : getReg s1 1 = a).
    { unfold s1. by rewrite getReg_setReg by lia. }
    destruct (stepN_cons PL0Programs s1 _ _ _ _ C1
                (step_arith_exact PL0Programs s1 op 0 1 Halu ltac:(cbn; lia)
                   ltac:(cbn; lia) ltac:(intros E; by specialize (Hcomm E))))
      as [R2 _]; [done|done|].
    eexists. split; [rewrite R1, R2; reflexivity|].
    split; [rewrite getReg_setReg by (cbn; rewrite length_insert; lia);
            rewrite decide_True by done; by rewrite G0, G1|].
    split; [cbn; lia|]. split; [done|].
    eapply sameFrame_trans; [by apply sameFrame_setReg|].
    by apply sameFrame_setReg.
  - destruct (stepN_cons PL0Programs s _ _ _ _ Hcode
                (step_load_cell PL0Programs s 1 t ltac:(lia) Ht))
      as [R1 C1]; [done|done|].
    set (s1 := advance (setReg s 1 (readMem s t))) in *.
    assert (Hs1 : exactMachine s1) by (by apply exactMachine_setReg).
    assert (G0 : getReg s1 0 = getReg s 0).
    { unfold s1. by rewrite getReg_setReg by lia. }
    assert (G1 : getReg s1 1 = a).
    { unfold s1. by rewrite getReg_setReg by lia. }
    destruct (stepN_cons PL0Programs s1 _ _ _ _ C1
                (step_arith_exact PL0Programs s1 op 1 0 Halu ltac:(cbn; lia)
                   ltac:(cbn; lia) ltac:(rewrite G0; exact Hdiv)))
      as [R2 C2]; [done|done|].
    rewrite G0, G1 in R2, C2.
    set (s2 := advance (setReg s1 1 (native op a (getReg s 0)))) in *.
    assert (Hs2 : exactMachine s2) by (by apply exactMachine_setReg).
    assert (Hlen1 : length (regs s1) = numRegs s).
    { unfold s1. cbn. by rewrite length_insert. }
    assert (G2 : getReg s2 1 = native op a (getReg s 0)).
    { unfold s2. by rewrite getReg_setReg by lia. }
    destruct (stepN_cons PL0Programs s2 _ _ _ _ C2
                (step_store_cell PL0Programs s2 1 t ltac:(cbn; lia) Ht))
      as [R3 C3]; [done|done|].
    rewrite G2 in R3, C3.
    set (s3 := advance (writeMem s2 t (native op a (getReg s 0)))) in *.
    assert (Hs3 : exactMachine s3) by (by apply exactMachine_writeMem).
    assert (Hm3 : length (memory s3) = length (memory s)).
    { unfold s3. cbn. by rewrite length_insert. }
    destruct (stepN_cons PL0Programs s3 _ _ _ _ C3
                (step_load_cell PL0Programs s3 0 t ltac:(cbn; lia)
                   ltac:(rewrite Hm3; exact Ht)))
      as [R4 _]; [done|done|].
    eexists. split; [rewrite R1, R2, R3, R4; reflexivity|].
    split.
    { rewrite getReg_setReg by (unfold s3, s2; cbn; rewrite !length_insert; lia).
      rewrite decide_True by done. unfold s3.
      rewrite readMem_writeMem by (cbn; lia). by rewrite decide_True. }
    split; [cbn; lia|]. split.
    { intros x Hx Hne. unfold readMem. cbn.
      by rewrite list_lookup_insert_ne by lia. }
    eapply sameFrame_trans; [by apply sameFrame_setReg|].
    eapply sameFrame_trans; [by apply sameFrame_setReg|].
    eapply sameFrame_trans; [by apply sameFrame_writeMem|].
    by apply sameFrame_setReg.
Qed.

Lemma evalExpr_binop (op : ALUOp) (cpuScale : Q) (cell : Z -> Z)
    (l r : expr) (v : Z) :
  evalExpr vars scale cpuScale cell (EBinop (opText op) l r) = Some v ->
  exists a b,
    evalExpr vars scale cpuScale cell l = Some a
    /\ evalExpr vars scale cpuScale cell r = Some b
    /\ v = native op a b /\ (op = DIV -> b <> 0).
Proof.
  cbn [evalExpr].
  destruct (evalExpr vars scale cpuScale cell l) as [a|]; [|done].
  destruct (evalExpr vars scale cpuScale cell r) as [b|]; [|done].
  cbn. intros Hv. exists a, b. split; [done|]. split; [done|].
  destruct op; cbn in Hv; try (injection Hv as <-; by split).
  destruct (Z.eqb_spec b 0); [done|]. injection Hv as <-. by split.
Qed.

Lemma computes_binop (op : ALUOp) (hi tl t : Z) (l r : expr)
    (lc rc : list instr) :
  computes PL0Programs vars scale hi tl l lc ->
  computes PL0Programs vars scale tl t r rc ->
  t <= tl -> tl <= hi ->
  computes PL0Programs vars scale hi (t - 1) (EBinop (opText op) l r)
    (binopCode op (match op with ADD | MUL => true | _ => false end) t lc rc).
Proof.
  intros Hl Hr Ht Htl s v Hs Hm Hlo Hvars Hcode Heval.
  destruct (evalExpr_binop op _ _ l r v Heval) as (a & b & Ea & Eb & -> & Hdiv).
  set (commutes := match op with ADD | MUL => true | _ => false end) in *.
  set (tail := if commutes
               then [LOAD 1 (Bracket (BracketImm t)); Arith op 0 1]
               else [LOAD 1 (Bracket (BracketImm t)); Arith op 1 0;
                     STORE 1 (BracketImm t); LOAD 0 (Bracket (BracketImm t))]).
  assert (Ecode : binopCode op commutes t lc rc
                  = lc ++ [STORE 0 (BracketImm t)] ++ rc ++ tail).
  { unfold binopCode, tail. by destruct commutes. }
  rewrite Ecode in *. clear Ecode. cbn [app] in Hcode |- *.
  (* the left operand *)
  destruct (Hl s a Hs) as (s1 & R1 & G1 & P1 & M1 & F1); try done; try lia.
  { intros name x Hx. specialize (Hvars name x Hx). lia. }
  { by apply codeAt_app in Hcode as [? _]. }
  destruct (sameFrame_fields _ _ F1) as (Hs1 & Hm1 & Ei1 & Esc1).
  destruct (run_app s s1 _ _ Hcode R1 P1 Ei1) as [Q1 C1].
  cbn [app] in Q1, C1.
  (* saved in the temporary *)
  assert (Ht1 : 0 <= t < Z.of_nat (length (memory s1))) by (rewrite Hm1; lia).
  pose proof Hs1 as (_ & _ & Hregs1 & Hlen1).
  destruct (stepN_cons PL0Programs s1 _ _ _ _ C1
              (step_store_cell PL0Programs s1 0 t ltac:(lia) Ht1))
    as [Q2 C2]; [done|done|].
  rewrite G1 in Q2, C2. set (s2 := advance (writeMem s1 t a)) in *.
  assert (F2 : sameFrame s1 s2) by (by apply sameFrame_writeMem).
  destruct (sameFrame_fields _ _ F2) as (Hs2 & Hm2 & Ei2 & Esc2).
  (* the right operand *)
  assert (Eb2 : evalExpr vars scale (Pl0CpuSim.fxScale s2) (readMem s2) r
                = Some b).
  { rewrite Esc2, Esc1, <- Eb. apply (evalExpr_ext _ _ _ _ _ (t - 1)); [done|].
    intros x Hx. unfold s2. rewrite readMem_writeMem by lia.
    rewrite decide_False by lia. apply M1; lia. }
  destruct (Hr s2 b Hs2) as (s3 & R3 & G3 & P3 & M3 & F3); try done; try lia.
  { intros name x Hx. specialize (Hvars name x Hx). lia. }
  { by apply codeAt_app in C2 as [? _]. }
  destruct (sameFrame_fields _ _ F3) as (Hs3 & Hm3 & Ei3 & Esc3).
  destruct (run_app s2 s3 _ _ C2 R3 P3 Ei3) as [Q3 C3].
  (* the operation *)
  assert (Hsaved : readMem s3 t = a).
  { rewrite M3 by lia. unfold s2. rewrite readMem_writeMem by lia.
    by rewrite decide_True. }
  destruct (run_binop_tail s3 op commutes t a Hs3) as (s4 & R4 & G4 & P4 & M4 & F4).
  { rewrite Hm3, Hm2, Hm1. lia. }
  { done. }
  { rewrite G3. exact Hdiv. }
  { unfold commutes. by intros ->. }
  { exact C3. }
  fold tail in R4, P4.
  exists s4. split; [by rewrite Q1, Q2, Q3|].
  split.
  { rewrite G4, G3. unfold commutes. destruct op; cbn [native]; lia. }
  split.
  { rewrite P4, P3. unfold s2. cbn. rewrite P1, !length_app. cbn [length].
    rewrite length_app. lia. }
  split.
  { intros x Hx Hout. rewrite M4, M3 by lia. unfold s2.
    rewrite readMem_writeMem by lia. rewrite decide_False by lia.
    apply M1; lia. }
  eapply sameFrame_trans; [exact F1|].
  eapply sameFrame_trans; [exact F2|].
  eapply sameFrame_trans; [exact F3|exact F4].
Qed.

Lemma computes_intrinsic (hi lo : Z) (name : string) (op : MathOp)
    (arg : expr) (code : list instr) :
  computes PL0Programs vars scale hi lo arg code ->
  intrinsics (toLowerCase name) = Some op ->
  computes PL0Programs vars scale hi lo (EIntrinsic name arg)
    (code ++ [FMath op 0]).
Proof.
  intros Harg Hop s v Hs Hm Hlo Hvars Hcode Heval.
  cbn [evalExpr] in Heval. rewrite Hop in Heval. cbn in Heval.
  destruct (evalExpr vars scale _ _ arg) as [x|] eqn:Ex; [|done].
  injection Heval as <-.
  destruct (Harg s x Hs) as (s1 & R1 & G1 & P1 & M1 & F1); try done.
  { by apply codeAt_app in Hcode as [? _]. }
  destruct (sameFrame_fields _ _ F1) as (Hs1 & Hm1 & Ei1 & Esc1).
  destruct (run_app s s1 _ _ Hcode R1 P1 Ei1) as [Q1 C1].
  pose proof Hs1 as (_ & Hmath1 & Hregs1 & Hlen1).
  destruct (stepN_cons PL0Programs s1 _ _ _ _ C1
              (step_fmath_exact PL0Programs s1 op 0 Hmath1 ltac:(lia)))
    as [Q2 _]; [done|done|].
  eexists. split; [rewrite Q1, Q2; reflexivity|].
  split; [rewrite getReg_setReg by lia; by rewrite decide_True, G1, Esc1|].
  split; [cbn; rewrite P1, length_app; cbn; lia|].
  split; [done|].
  eapply sameFrame_trans; [exact F1|by apply sameFrame_setReg].
Qed.

Lemma computes_int (hi lo : Z) (arg : expr) (code : list instr) :
  computes PL0Programs vars scale hi lo arg code ->
  computes PL0Programs vars scale hi lo (EInt arg)
    (code ++ [LOAD 1 (Hash scale); Arith DIV 0 1]).
Proof.
  intros Harg s v Hs Hm Hlo Hvars Hcode Heval.
  cbn [evalExpr] in Heval.
  destruct (evalExpr vars scale _ _ arg) as [x|] eqn:Ex; [|done].
  cbn in Heval. destruct (Z.eqb_spec scale 0) as [|Hscale]; [done|].
  injection Heval as <-.
  destruct (Harg s x Hs) as (s1 & R1 & G1 & P1 & M1 & F1); try done.
  { by apply codeAt_app in Hcode as [? _]. }
  destruct (sameFrame_fields _ _ F1) as (Hs1 & Hm1 & Ei1 & Esc1).
  destruct (run_app s s1 _ _ Hcode R1 P1 Ei1) as [Q1 C1].
  pose proof Hs1 as (Halu1 & _ & Hregs1 & Hlen1).
  destruct (stepN_cons PL0Programs s1 _ _ _ _ C1
              (step_load_imm PL0Programs s1 1 scale ltac:(lia)))
    as [Q2 C2]; [done|done|].
  set (s2 := advance (setReg s1 1 scale)) in *.
  assert (G0 : getReg s2 0 = x).
  { unfold s2. rewrite getReg_setReg by lia. by rewrite decide_False. }
  assert (G2 : getReg s2 1 = scale).
  { unfold s2. rewrite getReg_setReg by lia. by rewrite decide_True. }
  destruct (stepN_cons PL0Programs s2 _ _ _ _ C2
              (step_arith_exact PL0Programs s2 DIV 0 1 Halu1 ltac:(cbn; lia)
                 ltac:(cbn; lia) ltac:(intros _; by rewrite G2)))
    as [Q3 _]; [done|done|].
  eexists. split; [rewrite Q1, Q2, Q3; reflexivity|].
  split.
  { rewrite getReg_setReg by (unfold s2; cbn; rewrite length_insert; lia).
    by rewrite decide_True, G0, G2. }
  split; [cbn; rewrite P1, length_app; cbn; lia|].
  split; [done|].
  eapply sameFrame_trans; [exact F1|].
  eapply sameFrame_trans; [by apply sameFrame_setReg|].
  apply sameFrame_setReg. by apply exactMachine_setReg.
Qed.

Lemma computes_fx (hi t : Z) (arg : expr) (code : list instr) :
  computes PL0Programs vars scale hi t arg code -> t <= hi ->
  computes PL0Programs vars scale hi (t - 1) (EFx arg)
    (code ++ [STORE 0 (BracketImm t); LOAD 0 (Hash scale);
              LOAD 1 (Bracket (BracketImm t)); Arith MUL 0 1]).
Proof.
  intros Harg Ht s v Hs Hm Hlo Hvars Hcode Heval.
  cbn [evalExpr] in Heval.
  destruct (evalExpr vars scale _ _ arg) as [x|] eqn:Ex; [|done].
  injection Heval as <-.
  destruct (Harg s x Hs) as (s1 & R1 & G1 & P1 & M1 & F1); try done; try lia.
  { intros name a Ha. specialize (Hvars name a Ha). lia. }
  { by apply codeAt_app in Hcode as [? _]. }
  destruct (sameFrame_fields _ _ F1) as (Hs1 & Hm1 & Ei1 & Esc1).
  destruct (run_app s s1 _ _ Hcode R1 P1 Ei1) as [Q1 C1].
  pose proof Hs1 as (Halu1 & _ & Hregs1 & Hlen1).
  assert (Ht1 : 0 <= t < Z.of_nat (length (memory s1))) by (rewrite Hm1; lia).
  destruct (stepN_cons PL0Programs s1 _ _ _ _ C1
              (step_store_cell PL0Programs s1 0 t ltac:(lia) Ht1))
    as [Q2 C2]; [done|done|].
  rewrite G1 in Q2, C2. set (s2 := advance (writeMem s1 t x)) in *.
  destruct (stepN_cons PL0Programs s2 _ _ _ _ C2
              (step_load_imm PL0Programs s2 0 scale ltac:(cbn; lia)))
    as [Q3 C3]; [done|done|].
  set (s3 := advance (setReg s2 0 scale)) in *.
  assert (Ht3 : 0 <= t < Z.of_nat (length (memory s3))).
  { unfold s3, s2. cbn. by rewrite length_insert. }
  destruct (stepN_cons PL0Programs s3 _ _ _ _ C3
              (step_load_cell PL0Programs s3 1 t ltac:(cbn; lia) Ht3))
    as [Q4 C4]; [done|done|].
  assert (Hcell : readMem s3 t = x).
  { unfold s3, readMem. cbn. by rewrite list_lookup_insert_eq by lia. }
  rewrite Hcell in Q4, C4. set (s4 := advance (setReg s3 1 x)) in *.
  assert (Hlen3 : length (regs s3) = numRegs s1).
  { unfold s3, s2. cbn. by rewrite length_insert. }
  assert (G40 : getReg s4 0 = scale).
  { unfold s4. rewrite getReg_setReg by lia. rewrite decide_False by done.
    unfold s3. rewrite getReg_setReg by (cbn; lia). by rewrite decide_True. }
  assert (G41 : getReg s4 1 = x).
  { unfold s4. rewrite getReg_setReg by lia. by rewrite decide_True. }
  destruct (stepN_cons PL0Programs s4 _ _ _ _ C4
              (step_arith_exact PL0Programs s4 MUL 0 1 Halu1 ltac:(cbn; lia)
                 ltac:(cbn; lia) ltac:(done)))
    as [Q5 _]; [done|done|].
  eexists. split; [rewrite Q1, Q2, Q3, Q4, Q5; reflexivity|].
  split.
  { rewrite getReg_setReg
      by (unfold s4, s3, s2; cbn; rewrite !length_insert; lia).
    by rewrite decide_True, G40, G41. }
  split; [cbn; rewrite P1, length_app; cbn; lia|].
  split.
  { intros a Ha Hout. unfold readMem. cbn.
    rewrite list_lookup_insert_ne by lia. apply M1; lia. }
  eapply sameFrame_trans; [exact F1|].
  eapply sameFrame_trans; [by apply sameFrame_writeMem|].
  assert (Hs2 : exactMachine s2) by (by apply exactMachine_writeMem).
  eapply sameFrame_trans; [by apply sameFrame_setReg|].
  assert (Hs3 : exactMachine s3) by (by apply exactMachine_setReg).
  eapply sameFrame_trans; [by apply sameFrame_setReg|].
  apply sameFrame_setReg. by apply exactMachine_setReg.
Qed.

(** The same with the labels. *)

Lemma declares_app (c1 c2 : list instr) :
  declares (c1 ++ c2) = declares c1 ++ declares c2.
Proof. unfold declares. apply omap_app. Qed.

Lemma exprCode_mono (hi lo hi' lo' : Z) (ast : expr) (code : list instr) :
  exprCode PL0Programs vars scale hi lo ast code -> hi <= hi' -> lo' <= lo ->
  exprCode PL0Programs vars scale hi' lo' ast code.
Proof. intros [Hc Hd] Hhi Hlo. split; [by eapply computes_mono|done]. Qed.

Lemma exprCode_literal (hi lo v : Z) (ast : expr) :
  (forall cpuScale cell, evalExpr vars scale cpuScale cell ast = Some v) ->
  exprCode PL0Programs vars scale hi lo ast [LOAD 0 (Hash v)].
Proof. intros Hast. split; [by apply computes_literal|done]. Qed.

Lemma exprCode_variable (hi lo addr : Z) (name : string) :
  vars !! name = Some addr -> lo <= hi ->
  exprCode PL0Programs vars scale hi lo (EVar name)
    [LOAD 0 (Bracket (BracketImm addr))].
Proof. intros Hn Hle. split; [by apply computes_variable|done]. Qed.

Lemma exprCode_binop (op : ALUOp) (hi tl t : Z) (l r : expr)
    (lc rc : list instr) :
  exprCode PL0Programs vars scale hi tl l lc ->
  exprCode PL0Programs vars scale tl t r rc ->
  t <= tl -> tl <= hi ->
  exprCode PL0Programs vars scale hi (t - 1) (EBinop (opText op) l r)
    (binopCode op (match op with ADD | MUL => true | _ => false end) t lc rc).
Proof.
  intros [Hl Dl] [Hr Dr] Ht Htl. split; [by apply (computes_binop _ _ tl)|].
  unfold binopCode. destruct op; rewrite !declares_app, Dl, Dr; done.
Qed.

Lemma exprCode_intrinsic (hi lo : Z) (name : string) (op : MathOp)
    (arg : expr) (code : list instr) :
  exprCode PL0Programs vars scale hi lo arg code ->
  intrinsics (toLowerCase name) = Some op ->
  exprCode PL0Programs vars scale hi lo (EIntrinsic name arg)
    (code ++ [FMath op 0]).
Proof.
  intros [Hc Hd] Hop. split; [by apply computes_intrinsic|].
  by rewrite declares_app, Hd.
Qed.

Lemma exprCode_int (hi lo : Z) (arg : expr) (code : list instr) :
  exprCode PL0Programs vars scale hi lo arg code ->
  exprCode PL0Programs vars scale hi lo (EInt arg)
    (code ++ [LOAD 1 (Hash scale); Arith DIV 0 1]).
Proof.
  intros [Hc Hd]. split; [by apply computes_int|].
  by rewrite declares_app, Hd.
Qed.

Lemma exprCode_fx (hi t : Z) (arg : expr) (code : list instr) :
  exprCode PL0Programs vars scale hi t arg code -> t <= hi ->
  exprCode PL0Programs vars scale hi (t - 1) (EFx arg)
    (code ++ [STORE 0 (BracketImm t); LOAD 0 (Hash scale);
              LOAD 1 (Bracket (BracketImm t)); Arith MUL 0 1]).
Proof.
  intros [Hc Hd] Ht. split; [by apply computes_fx|].
  by rewrite declares_app, Hd.
Qed.
End ExpressionCode.

(** *** The parser's primitives *)

Section ParserSteps.
Import Pl0Compiler.

Lemma bind_Parsed {A B} (m : parser A) (k : A -> parser B) (p p' : PL0Parser)
    (b : B) :
  (m ≫= k) p = Parsed b p' ->
  exists a p1, m p = Parsed a p1 /\ k a p1 = Parsed b p'.
Proof.
  unfold mbind, parser_bind. destruct (m p) as [a p1| |]; [|done|done].
  intros Hk. by exists a, p1.
Qed.

Lemma mret_Parsed {A} (a b : A) (p p' : PL0Parser) :
  (mret a : parser A) p = Parsed b p' -> b = a /\ p' = p.
Proof. by intros [= -> ->]. Qed.

Lemma eat_Parsed (expected : string) (p p' : PL0Parser) (tok : token) :
  eat expected p = Parsed tok p' ->
  tok = currentToken p /\ p' = set_pos p (S (pos p)).
Proof. unfold eat. case_match; [|done]. by intros [= <- <-]. Qed.

Lemma newTemp_Parsed (p p' : PL0Parser) (t : Z) :
  newTemp p = Parsed t p' ->
  t = tempAddr p /\ p' = set_tempAddr p (tempAddr p - 1).
Proof. by intros [= <- <-]. Qed.

Lemma getVarAddr_Parsed (ident : string) (p p' : PL0Parser) (addr : Z) :
  getVarAddr ident p = Parsed addr p' ->
  varTable p !! ident = Some addr /\ p' = p.
Proof. unfold getVarAddr. case_match; [|done]. by intros [= <- <-]. Qed.
End ParserSteps.

(** *** Compiled expressions *)

Section ExpressionParser.
Context `{MathLib}.
Variable PL0Programs : gmap string (list instr).
Import Pl0Compiler.

Lemma exprGood_literal (p : PL0Parser) (v : Z) (ast : expr) :
  (forall cpuScale cell,
     evalExpr (varTable p) (fxScale p) cpuScale cell ast = Some v) ->
  exprGood PL0Programs p (set_pos p (S (pos p))) (tempAddr p) ast [LOAD 0 (Hash v)].
Proof.
  intros Hast. split; [done|]. split; [done|]. by apply exprCode_literal.
Qed.

Lemma parse_expression_sound (fuel : nat) :
  (forall p ast code p',
     parseExpression fuel p = Parsed (ast, code) p' ->
     exprGood PL0Programs p p' (tempAddr p) ast code)
  /\ (forall p l lc hi ast code p',
        tempAddr p <= hi ->
        exprCode PL0Programs (varTable p) (fxScale p) hi (tempAddr p) l lc ->
        expressionLoop fuel l lc p = Parsed (ast, code) p' ->
        exprGood PL0Programs p p' hi ast code)
  /\ (forall p ast code p',
        parseTerm fuel p = Parsed (ast, code) p' ->
        exprGood PL0Programs p p' (tempAddr p) ast code)
  /\ (forall p l lc hi ast code p',
        tempAddr p <= hi ->
        exprCode PL0Programs (varTable p) (fxScale p) hi (tempAddr p) l lc ->
        termLoop fuel l lc p = Parsed (ast, code) p' ->
        exprGood PL0Programs p p' hi ast code)
  /\ (forall p ast code p',
        parseFactor fuel p = Parsed (ast, code) p' ->
        exprGood PL0Programs p p' (tempAddr p) ast code).
Proof.
  induction fuel as [|fuel (IHe & IHel & IHt & IHtl & IHf)].
  { split; [done|]. split; [|split; [done|split; [|done]]].
    - intros p l lc hi ast code p' Hhi Hl. cbn [expressionLoop].
      destruct (_ || _); [done|]. intros [= <- <- <-]. by split.
    - intros p l lc hi ast code p' Hhi Hl. cbn [termLoop].
      destruct (_ || _); [done|]. intros [= <- <- <-]. by split. }
  assert (Hloop : forall p l lc hi r rc p2 ast code p'
                         (loop : expr -> list instr -> parser (expr * list instr)),
            tempAddr p <= hi ->
            exprCode PL0Programs (varTable p) (fxScale p) hi (tempAddr p) l lc ->
            exprGood PL0Programs (set_pos p (S (pos p))) p2 (tempAddr p) r rc ->
            (forall q l' lc' ast' code' q',
               tempAddr q <= hi ->
               exprCode PL0Programs (varTable q) (fxScale q) hi (tempAddr q)
                        l' lc' ->
               loop l' lc' q = Parsed (ast', code') q' ->
               exprGood PL0Programs q q' hi ast' code') ->
            forall op : ALUOp,
              loop (EBinop (opText op) l r)
                   (binopCode op (match op with ADD | MUL => true | _ => false end)
                              (tempAddr p2) lc rc)
                   (set_tempAddr p2 (tempAddr p2 - 1))
              = Parsed (ast, code) p' ->
              exprGood PL0Programs p p' hi ast code).
  { intros p l lc hi r rc p2 ast code p' loop Hhi Hl (St & Ht & Hr) IH op
           Hrun.
    injection St as Et Ev En El Es. cbn in Et, Ev, En, El, Es, Ht, Hr.
    destruct (IH (set_tempAddr p2 (tempAddr p2 - 1))
                (EBinop (opText op) l r)
                (binopCode op (match op with ADD | MUL => true | _ => false end)
                           (tempAddr p2) lc rc) ast code p')
      as (St' & Ht' & Hc'); [cbn; lia| |done|].
    - cbn. rewrite Ev, Es. by apply (exprCode_binop _ _ _ _ hi (tempAddr p)).
    - injection St' as Et' Ev' En' El' Es'. cbn in *.
      split; [unfold sameTables; congruence|]. split; [lia|].
      by rewrite <- Ev, <- Es. }
  split; [|split; [|split; [|split]]].
  - (* parseExpression *)
    intros p ast code p' Hp. cbn [parseExpression] in Hp.
    apply bind_Parsed in Hp as ([l lc] & p1 & Hl & Hp).
    destruct (IHt _ _ _ _ Hl) as (St & Ht & Hc).
    injection St as Et Ev En El Es.
    destruct (IHel p1 l lc (tempAddr p) ast code p') as (St' & Ht' & Hc');
      [done|by rewrite Ev, Es|done|].
    injection St' as Et' Ev' En' El' Es'.
    split; [unfold sameTables; congruence|]. split; [lia|].
    by rewrite <- Ev, <- Es.
  - (* expressionLoop *)
    intros p l lc hi ast code p' Hhi Hl. cbn [expressionLoop].
    destruct (_ || _) eqn:Hcur; [|intros [= <- <- <-]; by split].
    intros Hp. cbv zeta in Hp.
    apply bind_Parsed in Hp as (tok & p0 & Ee & Hp).
    apply eat_Parsed in Ee as [-> ->].
    apply bind_Parsed in Hp as ([r rc] & p1 & Er & Hp).
    apply bind_Parsed in Hp as (t & p3 & Et & Hp).
    apply newTemp_Parsed in Et as [-> ->].
    pose proof (IHt _ _ _ _ Er) as Hr.
    destruct (valueIs (currentToken p) "+").
    + by apply (Hloop p l lc hi r rc p1 ast code p' (expressionLoop fuel) Hhi Hl Hr
                      (fun q l' lc' => IHel q l' lc' hi) ADD).
    + by apply (Hloop p l lc hi r rc p1 ast code p' (expressionLoop fuel) Hhi Hl Hr
                      (fun q l' lc' => IHel q l' lc' hi) SUB).
  - (* parseTerm *)
    intros p ast code p' Hp. cbn [parseTerm] in Hp.
    apply bind_Parsed in Hp as ([l lc] & p1 & Hl & Hp).
    destruct (IHf _ _ _ _ Hl) as (St & Ht & Hc).
    injection St as Et Ev En El Es.
    destruct (IHtl p1 l lc (tempAddr p) ast code p') as (St' & Ht' & Hc');
      [done|by rewrite Ev, Es|done|].
    injection St' as Et' Ev' En' El' Es'.
    split; [unfold sameTables; congruence|]. split; [lia|].
    by rewrite <- Ev, <- Es.
  - (* termLoop *)
    intros p l lc hi ast code p' Hhi Hl. cbn [termLoop].
    destruct (_ || _) eqn:Hcur; [|intros [= <- <- <-]; by split].
    intros Hp. cbv zeta in Hp.
    apply bind_Parsed in Hp as (tok & p0 & Ee & Hp).
    apply eat_Parsed in Ee as [-> ->].
    apply bind_Parsed in Hp as ([r rc] & p1 & Er & Hp).
    apply bind_Parsed in Hp as (t & p3 & Et & Hp).
    apply newTemp_Parsed in Et as [-> ->].
    pose proof (IHf _ _ _ _ Er) as Hr.
    destruct (valueIs (currentToken p) "*").
    + by apply (Hloop p l lc hi r rc p1 ast code p' (termLoop fuel) Hhi Hl Hr
                      (fun q l' lc' => IHtl q l' lc' hi) MUL).
    + by apply (Hloop p l lc hi r rc p1 ast code p' (termLoop fuel) Hhi Hl Hr
                      (fun q l' lc' => IHtl q l' lc' hi) DIV).
  - (* parseFactor *)
    assert (Hparen : forall p ast code p',
              (_ ← eat "(";
               '(exprAST, exprCode) ← parseExpression fuel;
               _ ← eat ")";
               mret (exprAST, exprCode)) p = Parsed (ast, code) p' ->
              exprGood PL0Programs p p' (tempAddr p) ast code).
    { intros p ast code p' Hp.
      apply bind_Parsed in Hp as (tok & p0 & Ee & Hp).
      apply eat_Parsed in Ee as [_ ->].
      apply bind_Parsed in Hp as ([e c] & p1 & Ex & Hp).
      apply bind_Parsed in Hp as (tok' & p2 & Ee & Hp).
      apply eat_Parsed in Ee as [_ ->].
      apply mret_Parsed in Hp as [[= -> ->] ->].
      by destruct (IHe _ _ _ _ Ex) as (St & Ht & Hc). }
    intros p ast code p' Hp. cbn [parseFactor] in Hp.
    destruct (currentToken p) as [value|value|kw|name|sym|] eqn:Etk.
    + (* an integer literal *)
      apply bind_Parsed in Hp as (tok & p0 & Ee & Hp).
      apply eat_Parsed in Ee as [_ ->].
      apply mret_Parsed in Hp as [[= -> ->] ->]. by apply exprGood_literal.
    + (* a float literal *)
      apply bind_Parsed in Hp as (tok & p0 & Ee & Hp).
      apply eat_Parsed in Ee as [_ ->].
      apply mret_Parsed in Hp as [[= -> ->] ->]. by apply exprGood_literal.
    + destruct (valueIs _ _); [by apply Hparen|done].
    + (* an identifier *)
      cbv zeta in Hp.
      destruct (valueIs (default TEOF (tokens p !! S (pos p))) "(").
      * apply bind_Parsed in Hp as (tok & p0 & Ee & Hp).
        apply eat_Parsed in Ee as [_ ->].
        apply bind_Parsed in Hp as (tok' & p1 & Ee & Hp).
        apply eat_Parsed in Ee as [_ ->].
        apply bind_Parsed in Hp as ([e c] & p2 & Ex & Hp).
        apply bind_Parsed in Hp as (tok'' & p3 & Ee & Hp).
        apply eat_Parsed in Ee as [_ ->].
        destruct (IHe _ _ _ _ Ex) as (St & Ht & Hc).
        cbn [tempAddr varTable fxScale set_pos] in Ht, Hc.
        destruct (intrinsics (toLowerCase name)) as [op|] eqn:Eop.
        { apply mret_Parsed in Hp as [[= -> ->] ->].
          split; [done|]. split; [done|]. by apply exprCode_intrinsic. }
        destruct (_ || _).
        { apply bind_Parsed in Hp as (t & p4 & Et & Hp).
          apply newTemp_Parsed in Et as [-> ->].
          apply mret_Parsed in Hp as [[= -> ->] ->].
          split; [done|]. split; [cbn; lia|]. cbn. by apply exprCode_fx. }
        destruct (_ || _); [|done].
        apply mret_Parsed in Hp as [[= -> ->] ->].
        split; [done|]. split; [done|]. by apply exprCode_int.
      * apply bind_Parsed in Hp as (tok & p0 & Ee & Hp).
        apply eat_Parsed in Ee as [_ ->].
        unfold reading in Hp. cbn [varTable set_pos] in Hp.
        destruct (varTable p !! name) as [a|] eqn:Evar.
        { apply bind_Parsed in Hp as (addr & p1 & Ea & Hp).
          apply getVarAddr_Parsed in Ea as [Ea ->].
          apply mret_Parsed in Hp as [[= -> ->] ->].
          split; [done|]. split; [done|]. cbn. by apply exprCode_variable. }
        destruct (consts (toLowerCase name)) as [c|]; [|done].
        apply mret_Parsed in Hp as [[= -> ->] ->]. by apply exprGood_literal.
    + destruct (valueIs _ _); [by apply Hparen|done].
    + destruct (valueIs _ _); [by apply Hparen|done].
Qed.


End ExpressionParser.

(** *** Compiled statements *)

Section StatementCode.
Context `{MathLib}.
Variable PL0Programs : gmap string (list instr).
Import Pl0Compiler.

Lemma step_label (s : PL0CPU) (name : string) :
  instructions s !! pointer s = Some (Label name) ->
  step PL0Programs s = Ok (advance s, []).
Proof. intros Hfetch. by rewrite (step_fetch _ _ _ Hfetch). Qed.

Lemma step_jmp (s : PL0CPU) (label : string) (target : nat) :
  labelMap s !! label = Some target ->
  instructions s !! pointer s = Some (JMP label) ->
  step PL0Programs s = Ok (set_pointer s target, []).
Proof.
  intros Hl Hfetch. rewrite (step_fetch _ _ _ Hfetch). cbn [dispatch].
  by rewrite Hl.
Qed.

Lemma step_jz (s : PL0CPU) (r : nat) (label : string) (target : nat) :
  (r < numRegs s)%nat -> labelMap s !! label = Some target ->
  instructions s !! pointer s = Some (JZ r label) ->
  step PL0Programs s
  = Ok (set_pointer s (if getReg s r =? 0 then target else S (pointer s)), []).
Proof.
  intros Hr Hl Hfetch. rewrite (step_fetch _ _ _ Hfetch). cbn [dispatch].
  rewrite _parseReg_ok by done. cbn [mbind res_bind]. by rewrite Hl.
Qed.

Lemma step_push_ok (s : PL0CPU) (r : nat) :
  (r < numRegs s)%nat -> (length (dataStack s) < dataStackMax s)%nat ->
  instructions s !! pointer s = Some (PUSH r) ->
  step PL0Programs s
  = Ok (advance (set_dataStack s (array_push (dataStack s) (getReg s r))), []).
Proof.
  intros Hr Hroom Hfetch. rewrite (step_fetch _ _ _ Hfetch). cbn [dispatch].
  rewrite _parseReg_ok by done. cbn [mbind res_bind].
  by rewrite (proj2 (Nat.leb_gt _ _) Hroom).
Qed.

Lemma step_pop_ok (s : PL0CPU) (r : nat) (v : Z) (rest : list Z) :
  (r < numRegs s)%nat -> array_pop (dataStack s) = Some (v, rest) ->
  instructions s !! pointer s = Some (POP r) ->
  step PL0Programs s = Ok (advance (setReg (set_dataStack s rest) r v), []).
Proof.
  intros Hr Hpop Hfetch. rewrite (step_fetch _ _ _ Hfetch). cbn [dispatch].
  rewrite _parseReg_ok by done. cbn [mbind res_bind]. by rewrite Hpop.
Qed.

Lemma reg_address (s : PL0CPU) (r : nat) :
  0 < Z.of_nat (length (memory s)) ->
  _loadAddr s (ModeReg r) = getReg s r mod Z.of_nat (length (memory s)).
Proof. intros Hm. unfold _loadAddr. by apply js_rem_wrap. Qed.

Lemma step_peek_reg (s : PL0CPU) (rX r : nat) :
  (rX < numRegs s)%nat -> (r < numRegs s)%nat ->
  0 < Z.of_nat (length (memory s)) ->
  instructions s !! pointer s = Some (PEEK rX (BracketReg r)) ->
  let a := getReg s r mod Z.of_nat (length (memory s)) in
  step PL0Programs s = Ok (advance (setReg s rX (readMem s a)), [MemRead a]).
Proof.
  intros HrX Hr Hm Hfetch a. rewrite (step_fetch _ _ _ Hfetch). cbn [dispatch].
  rewrite _parseReg_ok by done. cbn [mbind res_bind _parseAddrBracket].
  rewrite _parseReg_ok by done. cbn [mbind res_bind].
  by rewrite reg_address.
Qed.

Lemma step_poke_reg (s : PL0CPU) (rX r : nat) :
  (rX < numRegs s)%nat -> (r < numRegs s)%nat ->
  0 < Z.of_nat (length (memory s)) ->
  instructions s !! pointer s = Some (POKE rX (BracketReg r)) ->
  let a := getReg s r mod Z.of_nat (length (memory s)) in
  step PL0Programs s
  = Ok (advance (writeMem s a (getReg s rX)), [MemWrite a]).
Proof.
  intros HrX Hr Hm Hfetch a. rewrite (step_fetch _ _ _ Hfetch). cbn [dispatch].
  rewrite _parseReg_ok by done. cbn [mbind res_bind _parseAddrBracket].
  rewrite _parseReg_ok by done. cbn [mbind res_bind].
  by rewrite reg_address.
Qed.

Lemma stepN_step (n : nat) (s s1 : PL0CPU) (evs : list event) :
  step PL0Programs s = Ok (s1, evs) ->
  stepN PL0Programs (S n) s = stepN PL0Programs n s1.
Proof. intros E. cbn [stepN]. by rewrite E. Qed.

Lemma stepN_config (n : nat) : forall s s',
  stepN PL0Programs n s = Ok s' -> dataStackMax s' = dataStackMax s.
Proof.
  induction n as [|n IH]; intros s s'; cbn [stepN]; [by intros [= <-]|].
  destruct (step PL0Programs s) as [[s1 evs]|e] eqn:E; [|done].
  cbn [mbind res_bind]. intros Hrun. rewrite (IH _ _ Hrun).
  destruct (step_config PL0Programs _ _ _ E) as [_ Hc].
  exact (f_equal (fun t => t.1.1.1.2) Hc).
Qed.

Lemma stepN_trans (n k : nat) (s s1 s2 : PL0CPU) :
  stepN PL0Programs n s = Ok s1 -> stepN PL0Programs k s1 = Ok s2 ->
  stepN PL0Programs (n + k) s = Ok s2.
Proof. intros H1 H2. by rewrite stepN_add, H1. Qed.

(** **** What stays the same *)

Lemma sameCode_refl (s : PL0CPU) : exactMachine s -> sameCode s s.
Proof. by intros Hs. Qed.

Lemma sameCode_trans (s1 s2 s3 : PL0CPU) :
  sameCode s1 s2 -> sameCode s2 s3 -> sameCode s1 s3.
Proof.
  intros (_ & Hm1 & Hf1) (Hs3 & Hm2 & Hf2).
  split; [done|]. split; congruence.
Qed.

Lemma sameCode_fields (s s' : PL0CPU) :
  sameCode s s' ->
  exactMachine s' /\ length (memory s') = length (memory s)
  /\ instructions s' = instructions s /\ labelMap s' = labelMap s
  /\ Pl0CpuSim.fxScale s' = Pl0CpuSim.fxScale s
  /\ dataStackMax s' = dataStackMax s.
Proof.
  intros (Hs & Hm & E). split; [done|]. split; [done|].
  split; [exact (f_equal (fun t => t.1.1.1.1.1) E)|].
  split; [exact (f_equal (fun t => t.1.1.1.1.2) E)|].
  split; [exact (f_equal (fun t => t.1.1.2) E)
         |exact (f_equal (fun t => t.2) E)].
Qed.

Lemma sameCode_setReg (s : PL0CPU) (r : nat) (v : Z) :
  exactMachine s -> sameCode s (advance (setReg s r v)).
Proof. intros Hs. split; [by apply exactMachine_setReg|done]. Qed.

Lemma sameCode_writeMem (s : PL0CPU) (a v : Z) :
  exactMachine s -> sameCode s (advance (writeMem s a v)).
Proof.
  intros Hs. split; [by apply exactMachine_writeMem|]. split; [|done].
  cbn. by rewrite length_insert.
Qed.

Lemma sameCode_pointer (s : PL0CPU) (k : nat) :
  exactMachine s -> sameCode s (set_pointer s k).
Proof. by intros Hs. Qed.

Lemma sameCode_dataStack (s : PL0CPU) (l : list Z) :
  exactMachine s -> sameCode s (set_dataStack s l).
Proof. by intros Hs. Qed.

Lemma sameFrame_sameCode (n : nat) (s s' : PL0CPU) :
  stepN PL0Programs n s = Ok s' -> sameFrame s s' -> sameCode s s'.
Proof.
  intros Hrun (Hs & Hm & E). split; [done|]. split; [done|].
  rewrite (stepN_config _ _ _ Hrun).
  by injection E as -> -> -> _ -> ->.
Qed.

Lemma codeAt_same (s s' : PL0CPU) (code : list instr) (k : nat) :
  instructions s' = instructions s -> codeAt s k code -> codeAt s' k code.
Proof. intros Hi Hc. unfold codeAt. by rewrite Hi. Qed.

Lemma labelsAt_same (s s' : PL0CPU) (code : list instr) (k : nat) :
  labelMap s' = labelMap s -> labelsAt s k code -> labelsAt s' k code.
Proof. intros Hl Hc. unfold labelsAt. by rewrite Hl. Qed.

Lemma labelsAt_app (s : PL0CPU) (k : nat) (c1 c2 : list instr) :
  labelsAt s k (c1 ++ c2) ->
  labelsAt s k c1 /\ labelsAt s (k + length c1) c2.
Proof.
  intros Hc. split; intros i name Hl.
  - apply Hc. by apply lookup_app_l_Some.
  - rewrite <- Nat.add_assoc. apply Hc. rewrite lookup_app_r by lia.
    by replace (length c1 + i - length c1)%nat with i by lia.
Qed.

(** **** The store held by the machine *)

Lemma models_frame (m hi lo : Z) (s s' : PL0CPU) (st : store) :
  models m hi lo s st ->
  dataStack s' = dataStack s ->
  (forall a, 0 <= a -> a <= lo \/ hi < a -> readMem s' a = readMem s a) ->
  models m hi lo s' st.
Proof.
  intros [Hst Hc] Hd Hf. split; [congruence|].
  intros a Ha Hout. rewrite Hf by (done || lia). by apply Hc.
Qed.

Lemma models_setReg (m hi lo : Z) (s : PL0CPU) (st : store) (r : nat) (v : Z) :
  models m hi lo s st -> models m hi lo (advance (setReg s r v)) st.
Proof. intros Hm. by eapply models_frame. Qed.

Lemma models_pointer (m hi lo : Z) (s : PL0CPU) (st : store) (k : nat) :
  models m hi lo s st -> models m hi lo (set_pointer s k) st.
Proof. intros Hm. by eapply models_frame. Qed.

Lemma models_writeMem (m hi lo : Z) (s : PL0CPU) (st : store) (a v : Z) :
  models m hi lo s st -> 0 <= a < Z.of_nat (length (memory s)) ->
  models m hi lo (advance (writeMem s a v)) (setCell st a v).
Proof.
  intros [Hst Hc] Ha. split; [done|]. intros a' Ha' Hout.
  rewrite readMem_writeMem by lia. cbn.
  destruct (decide (a = a')) as [->|Hne].
  - by rewrite decide_True.
  - rewrite decide_False by done. by apply Hc.
Qed.

(** An expression of a statement, evaluated on the store. *)
Lemma computes_models (vars : gmap string Z) (scale hi lo : Z) (e : expr)
    (c : list instr) (s : PL0CPU) (st : store) (v : Z) :
  computes PL0Programs vars scale hi lo e c ->
  exactMachine s ->
  hi < Z.of_nat (length (memory s)) -> -1 <= lo -> lo <= hi ->
  (forall name a, vars !! name = Some a -> 0 <= a <= lo) ->
  models (Z.of_nat (length (memory s))) hi lo s st ->
  codeAt s (pointer s) c ->
  evalExpr vars scale (Pl0CpuSim.fxScale s) (cells st) e = Some v ->
  exists s1,
    stepN PL0Programs (length c) s = Ok s1
    /\ getReg s1 0 = v
    /\ pointer s1 = (pointer s + length c)%nat
    /\ models (Z.of_nat (length (memory s))) hi lo s1 st
    /\ sameCode s s1.
Proof.
  intros Hc Hs Hhi Hlo Hle Hvars Hm Hcode Heval.
  destruct (Hc s v Hs Hhi Hlo Hvars Hcode) as (s1 & R & G & P & M & F).
  { rewrite <- Heval. apply (evalExpr_ext _ _ _ _ _ lo); [done|].
    intros a Ha. apply Hm; lia. }
  exists s1. split; [done|]. split; [done|]. split; [done|].
  split; [|by eapply sameFrame_sameCode].
  eapply models_frame; [exact Hm| |exact M].
  destruct F as (_ & _ & E). exact (f_equal (fun t => t.1.1.2) E).
Qed.

(** **** Labels after [buildLabelMap] *)

Lemma declares_lookup (code : list instr) (i : nat) (name : string) :
  code !! i = Some (Label name) -> name ∈ declares code.
Proof.
  intros Hi. unfold declares. apply list_elem_of_omap.
  exists (Label name). split; [|done]. by eapply list_elem_of_lookup_2.
Qed.

Lemma label_once (code : list instr) :
  NoDup (declares code) ->
  forall i j name,
    code !! i = Some (Label name) -> code !! j = Some (Label name) -> i = j.
Proof.
  induction code as [|line code IH]; intros Hnd i j name Hi Hj; [done|].
  assert (Hrest : NoDup (declares code)).
  { unfold declares in *. cbn [omap list_omap] in Hnd.
    destruct line; try done. by apply NoDup_cons in Hnd as [_ ?]. }
  destruct i as [|i], j as [|j]; [done| | |f_equal; by eapply IH].
  - cbn in Hi, Hj. injection Hi as ->. apply declares_lookup in Hj.
    unfold declares in *. cbn [omap list_omap] in Hnd.
    by apply NoDup_cons in Hnd as [? _].
  - cbn in Hi, Hj. injection Hj as ->. apply declares_lookup in Hi.
    unfold declares in *. cbn [omap list_omap] in Hnd.
    by apply NoDup_cons in Hnd as [? _].
Qed.

Lemma buildLabelMap_labelsAt (s : PL0CPU) :
  NoDup (declares (instructions s)) ->
  labelsAt (buildLabelMap s) 0 (instructions s).
Proof.
  intros Hnd i name Hi. cbn.
  destruct (labelsFrom_lookup (instructions s) 0 ∅ name) as [Hsome Hnone].
  destruct (labelsFrom 0 (instructions s) ∅ !! name) as [k|] eqn:E.
  - destruct (Hsome k eq_refl) as [(j & -> & Hj & _)|[Hempty _]]; [|done].
    f_equal. by eapply label_once.
  - destruct (Hnone eq_refl) as [_ Hno]. by destruct (Hno i).
Qed.

(** **** Statements without jumps *)

Section Statements.
Variables (procs : gmap string procedure) (vars : gmap string Z) (scale : Z).
Variable N : nat.

Lemma simulates_ext (hi lo : Z)
    (sem sem' : Q -> Z -> nat -> store -> option store) (code : list instr) :
  (forall q m k st, sem q m k st = sem' q m k st) ->
  simulates PL0Programs vars hi lo sem code ->
  simulates PL0Programs vars hi lo sem' code.
Proof.
  intros Heq Hsim s st st' Hs Hhi Hlo Hle Hvars Hm Hcode Hlab Hsem.
  apply (Hsim s st st'); try done. by rewrite Heq.
Qed.

Lemma simulates_seq (hi lo : Z)
    (sem1 sem2 : Q -> Z -> nat -> store -> option store)
    (c1 c2 : list instr) :
  simulates PL0Programs vars hi lo sem1 c1 ->
  simulates PL0Programs vars hi lo sem2 c2 ->
  simulates PL0Programs vars hi lo
    (fun q m k st => st1 ← sem1 q m k st; sem2 q m k st1) (c1 ++ c2).
Proof.
  intros H1 H2 s st st' Hs Hhi Hlo Hle Hvars Hm Hcode Hlab Hsem.
  destruct (sem1 _ _ _ st) as [st1|] eqn:E1; [|done].
  cbn [mbind option_bind] in Hsem.
  apply codeAt_app in Hcode as [Hc1 Hc2].
  apply labelsAt_app in Hlab as [Hl1 Hl2].
  destruct (H1 s st st1 Hs Hhi Hlo Hle Hvars Hm Hc1 Hl1 E1)
    as (n1 & s1 & R1 & P1 & M1 & F1).
  destruct (sameCode_fields _ _ F1) as (Hs1 & Hm1 & Hi1 & Hlm1 & Hsc1 & Hmax1).
  destruct (H2 s1 st1 st') as (n2 & s2 & R2 & P2 & M2 & F2);
    rewrite ?Hm1, ?Hsc1, ?Hmax1, ?P1; try done.
  { by apply (codeAt_same s). }
  { by apply (labelsAt_same s). }
  exists (n1 + n2)%nat, s2. split; [by eapply stepN_trans|].
  split; [rewrite P2, P1, length_app; lia|].
  split; [by rewrite Hm1 in M2|by eapply sameCode_trans].
Qed.

Lemma runs_noop (hi lo : Z) : runs PL0Programs procs vars scale hi lo N SNoop [].
Proof.
  intros [|fuel] Hfuel s st st' Hs Hhi Hlo Hle Hvars Hm Hcode Hlab; [done|].
  intros [= <-]. exists 0%nat, s. split; [done|]. split; [cbn; lia|].
  by split.
Qed.

Lemma runs_assign (hi lo addr : Z) (x : string) (e : expr) (c : list instr) :
  vars !! x = Some addr ->
  computes PL0Programs vars scale hi lo e c ->
  runs PL0Programs procs vars scale hi lo N (SAssign x e)
       (c ++ [STORE 0 (BracketImm addr)]).
Proof.
  intros Hx Hc [|fuel] Hfuel s st st' Hs Hhi Hlo Hle Hvars Hm Hcode Hlab; [done|].
  cbn [execStmt]. rewrite Hx. cbn [mbind option_bind].
  destruct (evalExpr _ _ _ _ e) as [v|] eqn:Ev; [|done]. intros [= <-].
  apply codeAt_app in Hcode as [Hc1 Hc2].
  destruct (computes_models _ _ _ _ _ _ s st v Hc Hs Hhi Hlo Hle Hvars Hm Hc1 Ev)
    as (s1 & R1 & G1 & P1 & M1 & F1).
  destruct (sameCode_fields _ _ F1) as (Hs1 & Hm1 & Hi1 & _).
  pose proof Hs1 as (_ & _ & Hregs1 & Hlen1).
  pose proof (Hvars _ _ Hx) as Haddr.
  assert (Ha1 : 0 <= addr < Z.of_nat (length (memory s1)))
    by (rewrite Hm1; lia).
  apply (codeAt_same s s1) in Hc2; [|done]. rewrite <- P1 in Hc2.
  apply codeAt_cons in Hc2 as [Hfetch _].
  exists (length c + 1)%nat, (advance (writeMem s1 addr (getReg s1 0))).
  split.
  { eapply stepN_trans; [exact R1|]. cbn [stepN].
    by rewrite (step_store_cell PL0Programs s1 0 addr ltac:(lia) Ha1 Hfetch). }
  split; [cbn; rewrite P1, length_app; cbn; lia|].
  split.
  - rewrite G1. rewrite <- Hm1. apply models_writeMem; [by rewrite Hm1|done].
  - eapply sameCode_trans; [exact F1|by apply sameCode_writeMem].
Qed.

Lemma runs_push (hi lo addr : Z) (x : string) :
  vars !! x = Some addr ->
  runs PL0Programs procs vars scale hi lo N (SPush x)
       [LOAD 0 (Bracket (BracketImm addr)); PUSH 0].
Proof.
  intros Hx [|fuel] Hfuel s st st' Hs Hhi Hlo Hle Hvars Hm Hcode Hlab; [done|].
  cbn [execStmt]. rewrite Hx. cbn [mbind option_bind].
  destruct (Nat.leb_spec (dataStackMax s) (length (stack st))) as [|Hroom];
    [done|]. intros [= <-].
  pose proof Hs as (_ & _ & Hregs & Hlen).
  pose proof (Hvars _ _ Hx) as Haddr.
  pose proof Hm as [Hst Hcells].
  set (s1 := advance (setReg s 0 (readMem s addr))).
  destruct (stepN_cons PL0Programs s s1 _ _ _ Hcode
              (step_load_cell PL0Programs s 0 addr ltac:(lia) ltac:(lia)))
    as [Q1 C1]; [done|done|].
  set (s2 := advance (set_dataStack s1 (array_push (dataStack s1) (getReg s1 0)))).
  assert (Hs1 : exactMachine s1) by (by apply exactMachine_setReg).
  pose proof Hs1 as (_ & _ & Hregs1 & Hlen1).
  destruct (stepN_cons PL0Programs s1 s2 _ _ _ C1
              (step_push_ok s1 0 ltac:(lia)
                 ltac:(cbn; rewrite Hst; lia)))
    as [Q2 _]; [done|done|].
  exists 2%nat, s2. split; [change 2%nat with (length [LOAD 0 (Bracket (BracketImm addr)); PUSH 0]); by rewrite Q1, Q2|].
  split; [cbn; lia|]. split; [|done].
  split.
  - cbn. unfold array_push. rewrite Hst. f_equal. f_equal.
    change (getReg s1 0) with (getReg (advance (setReg s 0 (readMem s addr))) 0).
    rewrite getReg_setReg by lia. rewrite decide_True by done.
    apply Hcells; lia.
  - intros a Ha Hout. by apply Hcells.
Qed.

Lemma runs_pop (hi lo addr : Z) (x : string) :
  vars !! x = Some addr ->
  runs PL0Programs procs vars scale hi lo N (SPop x)
       [POP 0; STORE 0 (BracketImm addr)].
Proof.
  intros Hx [|fuel] Hfuel s st st' Hs Hhi Hlo Hle Hvars Hm Hcode Hlab; [done|].
  cbn [execStmt]. rewrite Hx. cbn [mbind option_bind].
  destruct (array_pop (stack st)) as [[v rest]|] eqn:Epop; [|done].
  intros [= <-].
  pose proof Hs as (Halu & Hmath & Hregs & Hlen).
  pose proof (Hvars _ _ Hx) as Haddr.
  pose proof Hm as [Hst Hcells].
  set (s0 := set_dataStack s rest).
  set (s1 := advance (setReg s0 0 v)).
  destruct (stepN_cons PL0Programs s s1 _ _ _ Hcode
              (step_pop_ok s 0 v rest ltac:(lia) ltac:(by rewrite Hst)))
    as [Q1 C1]; [done|done|].
  assert (Hs0 : exactMachine s0) by done.
  assert (Hs1 : exactMachine s1) by (by apply exactMachine_setReg).
  set (s2 := advance (writeMem s1 addr (getReg s1 0))).
  destruct (stepN_cons PL0Programs s1 s2 _ _ _ C1
              (step_store_cell PL0Programs s1 0 addr ltac:(cbn; lia)
                 ltac:(cbn; lia)))
    as [Q2 _]; [done|done|].
  exists 2%nat, s2.
  split; [change 2%nat with (length [POP 0; STORE 0 (BracketImm addr)]);
          by rewrite Q1, Q2|].
  split; [cbn; lia|]. split.
  - assert (Hv : getReg s1 0 = v).
    { unfold s1. rewrite getReg_setReg by (cbn; lia). by rewrite decide_True. }
    unfold s2. rewrite Hv.
    apply (models_writeMem _ _ _ s1 (setStack st rest)); [|cbn; lia].
    split; [done|]. intros a Ha Hout. by apply Hcells.
  - eapply (sameCode_trans s s1); [|by apply sameCode_writeMem].
    split; [done|]. by split.
Qed.

Lemma mod_cell (s : PL0CPU) (x : Z) :
  0 < Z.of_nat (length (memory s)) ->
  0 <= x mod Z.of_nat (length (memory s)) < Z.of_nat (length (memory s)).
Proof. intros Hm. by apply Z.mod_pos_bound. Qed.

Lemma runs_peek (hi lo destAddr addrVarAddr : Z) (dest a : string) :
  vars !! dest = Some destAddr -> vars !! a = Some addrVarAddr ->
  runs PL0Programs procs vars scale hi lo N (SPeek dest a)
       [LOAD 0 (Bracket (BracketImm addrVarAddr)); PEEK 1 (BracketReg 0);
        STORE 1 (BracketImm destAddr)].
Proof.
  intros Hd Ha [|fuel] Hfuel s st st' Hs Hhi Hlo Hle Hvars Hm Hcode Hlab; [done|].
  cbn [execStmt]. rewrite Hd, Ha. cbn [mbind option_bind].
  set (m := Z.of_nat (length (memory s))) in *.
  set (target := cells st addrVarAddr mod m).
  destruct ((lo <? target) && (target <=? hi)) eqn:Escratch; [done|].
  intros [= <-].
  pose proof Hs as (Halu & Hmath & Hregs & Hlen).
  pose proof (Hvars _ _ Hd) as Hdest. pose proof (Hvars _ _ Ha) as Haddr.
  pose proof Hm as [Hst Hcells].
  assert (Htarget : 0 <= target < m) by (apply Z.mod_pos_bound; lia).
  assert (Hout : target <= lo \/ hi < target).
  { apply andb_false_iff in Escratch as [E|E]; [left|right]; lia. }
  set (s1 := advance (setReg s 0 (readMem s addrVarAddr))).
  destruct (stepN_cons PL0Programs s s1 _ _ _ Hcode
              (step_load_cell PL0Programs s 0 addrVarAddr ltac:(lia)
                 ltac:(fold m; lia)))
    as [Q1 C1]; [done|done|].
  assert (Hs1 : exactMachine s1) by (by apply exactMachine_setReg).
  pose proof Hs1 as (_ & _ & Hregs1 & Hlen1).
  assert (G1 : getReg s1 0 = cells st addrVarAddr).
  { unfold s1. rewrite getReg_setReg by lia. rewrite decide_True by done.
    apply Hcells; lia. }
  set (s2 := advance (setReg s1 1 (readMem s1 target))).
  destruct (stepN_cons PL0Programs s1 s2 _ _ [MemRead target] C1)
    as [Q2 C2].
  { intros Hfetch.
    rewrite (step_peek_reg s1 1 0 ltac:(lia) ltac:(lia)
               ltac:(cbn; fold m; lia) Hfetch).
    rewrite G1. done. }
  { done. } { done. }
  assert (Hs2 : exactMachine s2) by (by apply exactMachine_setReg).
  pose proof Hs2 as (_ & _ & Hregs2 & Hlen2).
  assert (G2 : getReg s2 1 = cells st target).
  { unfold s2. rewrite getReg_setReg by lia. rewrite decide_True by done.
    change (readMem s1 target) with (readMem s target). by apply Hcells. }
  set (s3 := advance (writeMem s2 destAddr (getReg s2 1))).
  destruct (stepN_cons PL0Programs s2 s3 _ _ _ C2
              (step_store_cell PL0Programs s2 1 destAddr ltac:(lia)
                 ltac:(cbn; fold m; lia)))
    as [Q3 _]; [done|done|].
  exists 3%nat, s3.
  split.
  { change 3%nat with (length [LOAD 0 (Bracket (BracketImm addrVarAddr));
                               PEEK 1 (BracketReg 0);
                               STORE 1 (BracketImm destAddr)]).
    by rewrite Q1, Q2, Q3. }
  split; [cbn; lia|]. split.
  - unfold s3. rewrite G2.
    apply (models_writeMem _ _ _ s2 st); [|cbn; fold m; lia].
    split; [done|]. intros a' Ha' Hout'. by apply Hcells.
  - eapply (sameCode_trans s s2); [|by apply sameCode_writeMem].
    eapply (sameCode_trans s s1); by apply sameCode_setReg.
Qed.

Lemma runs_poke (hi lo addrVarAddr valAddr : Z) (a val : string) :
  vars !! a = Some addrVarAddr -> vars !! val = Some valAddr ->
  runs PL0Programs procs vars scale hi lo N (SPoke a val)
       [LOAD 0 (Bracket (BracketImm addrVarAddr));
        LOAD 1 (Bracket (BracketImm valAddr)); POKE 1 (BracketReg 0)].
Proof.
  intros Ha Hv [|fuel] Hfuel s st st' Hs Hhi Hlo Hle Hvars Hm Hcode Hlab; [done|].
  cbn [execStmt]. rewrite Ha, Hv. cbn [mbind option_bind].
  set (m := Z.of_nat (length (memory s))) in *.
  set (target := cells st addrVarAddr mod m).
  intros [= <-].
  pose proof Hs as (Halu & Hmath & Hregs & Hlen).
  pose proof (Hvars _ _ Ha) as Haddr. pose proof (Hvars _ _ Hv) as Hval.
  pose proof Hm as [Hst Hcells].
  assert (Htarget : 0 <= target < m) by (apply Z.mod_pos_bound; lia).
  set (s1 := advance (setReg s 0 (readMem s addrVarAddr))).
  destruct (stepN_cons PL0Programs s s1 _ _ _ Hcode
              (step_load_cell PL0Programs s 0 addrVarAddr ltac:(lia)
                 ltac:(fold m; lia)))
    as [Q1 C1]; [done|done|].
  assert (Hs1 : exactMachine s1) by (by apply exactMachine_setReg).
  pose proof Hs1 as (_ & _ & Hregs1 & Hlen1).
  assert (G1 : getReg s1 0 = cells st addrVarAddr).
  { unfold s1. rewrite getReg_setReg by lia. rewrite decide_True by done.
    apply Hcells; lia. }
  set (s2 := advance (setReg s1 1 (readMem s1 valAddr))).
  destruct (stepN_cons PL0Programs s1 s2 _ _ _ C1
              (step_load_cell PL0Programs s1 1 valAddr ltac:(lia)
                 ltac:(cbn; fold m; lia)))
    as [Q2 C2]; [done|done|].
  assert (Hs2 : exactMachine s2) by (by apply exactMachine_setReg).
  pose proof Hs2 as (_ & _ & Hregs2 & Hlen2).
  assert (G2 : getReg s2 0 = cells st addrVarAddr
               /\ getReg s2 1 = cells st valAddr).
  { unfold s2. rewrite !getReg_setReg by lia.
    rewrite decide_False by done. rewrite decide_True by done.
    split; [done|]. change (readMem s1 valAddr) with (readMem s valAddr).
    apply Hcells; lia. }
  destruct G2 as [G20 G21].
  set (s3 := advance (writeMem s2 target (getReg s2 1))).
  destruct (stepN_cons PL0Programs s2 s3 _ _ [MemWrite target] C2)
    as [Q3 _].
  { intros Hfetch.
    rewrite (step_poke_reg s2 1 0 ltac:(lia) ltac:(lia)
               ltac:(cbn; fold m; lia) Hfetch).
    rewrite G20. done. }
  { done. } { done. }
  exists 3%nat, s3.
  split.
  { change 3%nat with (length [LOAD 0 (Bracket (BracketImm addrVarAddr));
                               LOAD 1 (Bracket (BracketImm valAddr));
                               POKE 1 (BracketReg 0)]).
    by rewrite Q1, Q2, Q3. }
  split; [cbn; lia|]. split.
  - unfold s3. rewrite G21.
    apply (models_writeMem _ _ _ s2 st); [|cbn; fold m; lia].
    split; [done|]. intros a' Ha' Hout'. by apply Hcells.
  - eapply (sameCode_trans s s2); [|by apply sameCode_writeMem].
    eapply (sameCode_trans s s1); by apply sameCode_setReg.
Qed.

(** **** Statements with jumps *)

Lemma labelsAt_cons (s : PL0CPU) (k : nat) (line : instr) (code : list instr) :
  labelsAt s k (line :: code) -> labelsAt s (S k) code.
Proof.
  intros Hl i name Hi. replace (S k + i)%nat with (k + S i)%nat by lia.
  by apply Hl.
Qed.

Lemma labelsAt_here (s : PL0CPU) (k : nat) (name : string)
    (code : list instr) :
  labelsAt s k (Label name :: code) -> labelMap s !! name = Some k.
Proof. intros Hl. rewrite <- (Nat.add_0_r k). by apply Hl. Qed.

Lemma runs_if (hi lo : Z) (c : expr) (t : stmt) (cc tc : list instr)
    (skipLabel : string) :
  computes PL0Programs vars scale hi lo c cc ->
  runs PL0Programs procs vars scale hi lo N t tc ->
  runs PL0Programs procs vars scale hi lo N (SIf c t)
       (cc ++ [JZ 0 skipLabel] ++ tc ++ [Label skipLabel]).
Proof.
  intros Hc Ht [|fuel] Hfuel s st st' Hs Hhi Hlo Hle Hvars Hm Hcode Hlab; [done|].
  cbn [execStmt].
  destruct (evalExpr _ _ _ _ c) as [v|] eqn:Ev; [|done].
  cbn [mbind option_bind]. intros Hsem.
  apply codeAt_app in Hcode as [Hc1 Hc2]. cbn [app] in Hc2.
  apply labelsAt_app in Hlab as [_ Hl2]. cbn [app] in Hl2.
  apply labelsAt_cons, labelsAt_app in Hl2 as [Hlt Hskip].
  apply labelsAt_here in Hskip.
  destruct (computes_models _ _ _ _ _ _ s st v Hc Hs Hhi Hlo Hle Hvars Hm Hc1 Ev)
    as (s1 & R1 & G1 & P1 & M1 & F1).
  destruct (sameCode_fields _ _ F1) as (Hs1 & Hm1 & Hi1 & Hlm1 & Hsc1 & Hmax1).
  pose proof Hs1 as (_ & _ & Hregs1 & Hlen1).
  apply (codeAt_same s s1) in Hc2; [|done]. rewrite <- P1 in Hc2.
  apply codeAt_cons in Hc2 as [Hjz Hc3].
  apply codeAt_app in Hc3 as [Hct Hc4]. apply codeAt_cons in Hc4 as [Hend _].
  rewrite <- Hlm1 in Hskip.
  pose proof (step_jz s1 0 skipLabel _ ltac:(lia) Hskip Hjz) as Ejz.
  rewrite G1 in Ejz.
  set (len := length (cc ++ [JZ 0 skipLabel] ++ tc ++ [Label skipLabel])).
  assert (Hlen : len = (length cc + 1 + length tc + 1)%nat)
    by (unfold len; rewrite !length_app; cbn [length]; lia).
  destruct (Z.eqb_spec v 0) as [->|Hv].
  - (* the condition is false: jump to the label *)
    injection Hsem as <-.
    set (s2 := set_pointer s1 (S (pointer s + length cc) + length tc)) in *.
    assert (Hlabel : step PL0Programs s2 = Ok (advance s2, [])).
    { apply (step_label s2 skipLabel). cbn. rewrite <- P1. exact Hend. }
    exists (length cc + 2)%nat, (advance s2).
    split.
    { eapply stepN_trans; [exact R1|]. rewrite (stepN_step _ _ _ _ Ejz).
      by rewrite (stepN_step _ _ _ _ Hlabel). }
    split; [cbn; rewrite Hlen; lia|].
    split; [by eapply models_frame; [exact M1| |]|].
    eapply sameCode_trans; [exact F1|]. by split.
  - (* the condition is true: the statement, then the label *)
    set (s2 := set_pointer s1 (S (pointer s1))) in *.
    assert (Hs2 : exactMachine s2) by done.
    assert (Hhi2 : hi < Z.of_nat (length (memory s2)))
      by (change (memory s2) with (memory s1); by rewrite Hm1).
    assert (M2 : models (Z.of_nat (length (memory s2))) hi lo s2 st).
    { change (memory s2) with (memory s1). rewrite Hm1.
      by eapply models_frame; [exact M1| |]. }
    assert (L2 : labelsAt s2 (pointer s2) tc).
    { apply (labelsAt_same s); [done|]. cbn. by rewrite P1. }
    assert (Hsem2 : execStmt procs (Pl0CpuSim.fxScale s2)
                      (Z.of_nat (length (memory s2))) (dataStackMax s2) hi lo
                      fuel vars scale t st = Some st').
    { change (execStmt procs (Pl0CpuSim.fxScale s1)
                (Z.of_nat (length (memory s1))) (dataStackMax s1) hi lo
                fuel vars scale t st = Some st').
      by rewrite Hsc1, Hm1, Hmax1. }
    destruct (Ht fuel ltac:(lia) s2 st st' Hs2 Hhi2 Hlo Hle Hvars M2 Hct L2
                Hsem2)
      as (n & s3 & R3 & P3 & M3 & F3).
    destruct (sameCode_fields _ _ F3) as (Hs3 & Hm3 & Hi3 & _).
    assert (Hlabel : step PL0Programs s3 = Ok (advance s3, [])).
    { apply (step_label s3 skipLabel). rewrite Hi3, P3. exact Hend. }
    exists (length cc + (1 + (n + 1)))%nat, (advance s3).
    split.
    { eapply stepN_trans; [exact R1|]. rewrite (stepN_step _ _ _ _ Ejz).
      eapply stepN_trans; [exact R3|]. by rewrite (stepN_step _ _ _ _ Hlabel). }
    split; [cbn; rewrite P3, Hlen; cbn; lia|].
    split.
    + change (memory s2) with (memory s1) in M3. rewrite Hm1 in M3.
      by eapply models_frame; [exact M3| |].
    + eapply sameCode_trans; [exact F1|].
      eapply (sameCode_trans s1 s3); [|by split].
      eapply (sameCode_trans s1 s2); [by split|exact F3].
Qed.

(** The same from a later state [s] of a run that started in [s0]. *)
Lemma simulates_from (hi lo : Z)
    (sem : Q -> Z -> nat -> store -> option store) (code : list instr)
    (s0 s : PL0CPU) (st st' : store) :
  simulates PL0Programs vars hi lo sem code ->
  sameCode s0 s ->
  hi < Z.of_nat (length (memory s0)) -> -1 <= lo -> lo <= hi ->
  (forall name a, vars !! name = Some a -> 0 <= a <= lo) ->
  models (Z.of_nat (length (memory s0))) hi lo s st ->
  codeAt s0 (pointer s) code -> labelsAt s0 (pointer s) code ->
  sem (Pl0CpuSim.fxScale s0) (Z.of_nat (length (memory s0))) (dataStackMax s0)
      st = Some st' ->
  exists n s',
    stepN PL0Programs n s = Ok s'
    /\ pointer s' = (pointer s + length code)%nat
    /\ models (Z.of_nat (length (memory s0))) hi lo s' st'
    /\ sameCode s0 s'.
Proof.
  intros Hsim F Hhi Hlo Hle Hvars Hm Hcode Hlab Hsem.
  destruct (sameCode_fields _ _ F) as (Hs & Hm1 & Hi1 & Hlm1 & Hsc1 & Hmax1).
  destruct (Hsim s st st') as (n & s' & R & P & M & F');
    rewrite ?Hm1, ?Hsc1, ?Hmax1; try done.
  { by apply (codeAt_same s0). }
  { by apply (labelsAt_same s0). }
  exists n, s'. split; [done|]. split; [done|].
  split; [by rewrite Hm1 in M|by eapply sameCode_trans].
Qed.

Lemma computes_from (hi lo : Z) (e : expr) (c : list instr)
    (s0 s : PL0CPU) (st : store) (v : Z) :
  computes PL0Programs vars scale hi lo e c ->
  sameCode s0 s ->
  hi < Z.of_nat (length (memory s0)) -> -1 <= lo -> lo <= hi ->
  (forall name a, vars !! name = Some a -> 0 <= a <= lo) ->
  models (Z.of_nat (length (memory s0))) hi lo s st ->
  codeAt s0 (pointer s) c ->
  evalExpr vars scale (Pl0CpuSim.fxScale s0) (cells st) e = Some v ->
  exists s1,
    stepN PL0Programs (length c) s = Ok s1
    /\ getReg s1 0 = v
    /\ pointer s1 = (pointer s + length c)%nat
    /\ models (Z.of_nat (length (memory s0))) hi lo s1 st
    /\ sameCode s0 s1.
Proof.
  intros Hc F Hhi Hlo Hle Hvars Hm Hcode Heval.
  destruct (sameCode_fields _ _ F) as (Hs & Hm1 & Hi1 & Hlm1 & Hsc1 & Hmax1).
  destruct (computes_models vars scale hi lo e c s st v)
    as (s1 & R & G & P & M & F'); rewrite ?Hm1, ?Hsc1; try done.
  { by apply (codeAt_same s0). }
  exists s1. split; [done|]. split; [done|]. split; [done|].
  split; [by rewrite Hm1 in M|by eapply sameCode_trans].
Qed.

Lemma jump_from (s0 s : PL0CPU) (k : nat) (st : store) (m hi lo : Z) :
  sameCode s0 s -> models m hi lo s st ->
  sameCode s0 (set_pointer s k) /\ models m hi lo (set_pointer s k) st.
Proof.
  intros F M. split; [|by apply models_pointer].
  eapply sameCode_trans; [exact F|]. apply sameCode_pointer. by destruct F.
Qed.

Lemma runs_while (hi lo : Z) (c : expr) (b : stmt) (cc bc : list instr)
    (startLabel exitLabel : string) :
  computes PL0Programs vars scale hi lo c cc ->
  runs PL0Programs procs vars scale hi lo N b bc ->
  runs PL0Programs procs vars scale hi lo N (SWhile c b)
       ([Label startLabel] ++ cc ++ [JZ 0 exitLabel] ++ bc
        ++ [JMP startLabel; Label exitLabel]).
Proof.
  intros Hc Hb fuel.
  induction fuel as [|fuel IH];
    intros Hfuel s st st' Hs Hhi Hlo Hle Hvars Hm Hcode Hlab; [done|].
  cbn [execStmt].
  destruct (evalExpr _ _ _ _ c) as [v|] eqn:Ev; [|done].
  cbn [mbind option_bind]. intros Hsem.
  pose proof Hcode as Hcode0. pose proof Hlab as Hlab0.
  set (code := [Label startLabel] ++ cc ++ [JZ 0 exitLabel] ++ bc
               ++ [JMP startLabel; Label exitLabel]) in Hcode0, Hlab0 |- *.
  assert (Hlen : length code = (length cc + length bc + 4)%nat)
    by (unfold code; rewrite !length_app; cbn [length]; lia).
  cbn [app] in Hcode, Hlab.
  pose proof (labelsAt_here _ _ _ _ Hlab) as Hstart.
  apply labelsAt_cons, labelsAt_app in Hlab as [_ Hl2]. cbn [app] in Hl2.
  apply labelsAt_cons, labelsAt_app in Hl2 as [Hlb Hl3].
  apply labelsAt_cons, labelsAt_here in Hl3 as Hexit.
  apply codeAt_cons in Hcode as [Hf0 Hc1].
  apply codeAt_app in Hc1 as [Hcc Hc2]. cbn [app] in Hc2.
  apply codeAt_cons in Hc2 as [Hjz Hc3].
  apply codeAt_app in Hc3 as [Hcb Hc4].
  apply codeAt_cons in Hc4 as [Hjmp Hc5]. apply codeAt_cons in Hc5 as [Hend _].
  (* the label of the loop *)
  pose proof (step_label s startLabel Hf0) as E0.
  destruct (jump_from s s (S (pointer s)) st _ hi lo (sameCode_refl s Hs) Hm)
    as [F0 M0].
  (* the condition *)
  destruct (computes_from hi lo c cc s (advance s) st v Hc F0 Hhi Hlo Hle Hvars
              M0 Hcc Ev) as (s1 & R1 & G1 & P1 & M1 & F1).
  cbn [pointer advance set_pointer] in P1.
  destruct (sameCode_fields _ _ F1) as (Hs1 & Hm1 & Hi1 & Hlm1 & Hsc1 & Hmax1).
  pose proof Hs1 as (_ & _ & Hregs1 & Hlen1).
  rewrite <- Hlm1 in Hexit. rewrite <- Hi1, <- P1 in Hjz.
  pose proof (step_jz s1 0 exitLabel _ ltac:(lia) Hexit Hjz) as Ejz.
  rewrite G1 in Ejz.
  destruct (Z.eqb_spec v 0) as [->|Hv].
  - (* leave the loop *)
    injection Hsem as <-.
    match type of Ejz with _ = Ok (?x, _) => set (s2 := x) in * end.
    destruct (jump_from s s1 (pointer s2) st _ hi lo F1 M1) as [F2 M2].
    change (set_pointer s1 (pointer s2)) with s2 in F2, M2.
    destruct (sameCode_fields _ _ F2) as (Hs2 & Hm2 & Hi2 & _).
    assert (Hlabel : step PL0Programs s2 = Ok (advance s2, [])).
    { apply (step_label s2 exitLabel). by rewrite Hi2. }
    destruct (jump_from s s2 (S (pointer s2)) st _ hi lo F2 M2) as [F3 M3].
    exists (1 + (length cc + 2))%nat, (advance s2).
    split.
    { rewrite (stepN_step _ _ _ _ E0).
      eapply stepN_trans; [exact R1|]. rewrite (stepN_step _ _ _ _ Ejz).
      by rewrite (stepN_step _ _ _ _ Hlabel). }
    split; [unfold s2; cbn [pointer advance set_pointer]; rewrite Hlen; lia|].
    by split.
  - (* one more iteration *)
    destruct (execStmt _ _ _ _ _ _ fuel _ _ b st) as [st1|] eqn:Eb; [|done].
    cbn [mbind option_bind] in Hsem.
    match type of Ejz with _ = Ok (?x, _) => set (s2 := x) in * end.
    destruct (jump_from s s1 (pointer s2) st _ hi lo F1 M1) as [F2 M2].
    change (set_pointer s1 (pointer s2)) with s2 in F2, M2.
    destruct (simulates_from hi lo _ bc s s2 st st1 (Hb fuel ltac:(lia)) F2 Hhi
                Hlo Hle
                Hvars M2) as (n & s3 & R3 & P3 & M3 & F3).
    { cbn. by rewrite P1. }
    { cbn. by rewrite P1. }
    { exact Eb. }
    cbn [pointer s2 set_pointer] in P3. rewrite P1 in P3.
    destruct (sameCode_fields _ _ F3) as (Hs3 & Hm3 & Hi3 & Hlm3 & _).
    rewrite <- Hlm3 in Hstart. rewrite <- Hi3, <- P3 in Hjmp.
    pose proof (step_jmp s3 startLabel _ Hstart Hjmp) as Ejmp.
    destruct (jump_from s s3 (pointer s) st1 _ hi lo F3 M3) as [F4 M4].
    destruct (simulates_from hi lo _ code s (set_pointer s3 (pointer s)) st1 st'
                (IH ltac:(lia)) F4 Hhi Hlo Hle Hvars M4 Hcode0 Hlab0 Hsem)
      as (n' & s5 & R5 & P5 & M5 & F5).
    exists (1 + (length cc + (1 + (n + (1 + n')))))%nat, s5.
    split.
    { rewrite (stepN_step _ _ _ _ E0).
      eapply stepN_trans; [exact R1|]. rewrite (stepN_step _ _ _ _ Ejz).
      eapply stepN_trans; [exact R3|]. by rewrite (stepN_step _ _ _ _ Ejmp). }
    split; [exact P5|]. by split.
Qed.

(** **** Sequences *)

Lemma execAll_snoc (exec : stmt -> store -> option store) (l : list stmt)
    (s : stmt) (st : store) :
  execAll exec (l ++ [s]) st = st1 ← execAll exec l st; exec s st1.
Proof. unfold execAll. by rewrite foldl_app. Qed.

Lemma runsAll_nil (hi lo : Z) : runsAll PL0Programs procs vars scale hi lo N [] [].
Proof.
  intros fuel Hfuel s st st' Hs Hhi Hlo Hle Hvars Hm Hcode Hlab [= <-].
  exists 0%nat, s. split; [done|]. split; [cbn; lia|]. by split.
Qed.

Lemma runsAll_snoc (hi lo : Z) (l : list stmt) (s : stmt)
    (code sc : list instr) :
  runsAll PL0Programs procs vars scale hi lo N l code ->
  runs PL0Programs procs vars scale hi lo N s sc ->
  runsAll PL0Programs procs vars scale hi lo N (l ++ [s]) (code ++ sc).
Proof.
  intros Hl Hs fuel Hfuel.
  eapply simulates_ext;
    [|exact (simulates_seq hi lo _ _ _ _ (Hl fuel Hfuel) (Hs fuel Hfuel))].
  intros q m k st. cbn beta. by rewrite execAll_snoc.
Qed.

Lemma runs_compound (hi lo : Z) (l : list stmt) (code : list instr) :
  runsAll PL0Programs procs vars scale hi lo N l code ->
  runs PL0Programs procs vars scale hi lo N (SCompound l) code.
Proof.
  intros Hl [|fuel] Hfuel; [by intros s st st' ? ? ? ? ? ? ? ?|].
  exact (Hl fuel ltac:(lia)).
Qed.

(** **** Calls *)

Lemma runs_call (hi lo : Z) (name : string) :
  linked PL0Programs procs hi lo N ->
  runs PL0Programs procs vars scale hi lo (S N) (SCall name) [PL0CALL name].
Proof.
  intros Hlinked [|fuel] Hfuel s st st' Hs Hhi Hlo Hle Hvars Hm Hcode Hlab;
    [done|].
  cbn [execStmt].
  destruct (procs !! stripComma name) as [proc|] eqn:Ep; [|done].
  cbn [mbind option_bind]. intros Hsem.
  destruct (Hlinked _ _ Ep) as (code & Hreg & Hnd & Hpv & Hruns).
  apply codeAt_cons in Hcode as [Hfetch _].
  set (frame := Frame (instructions s) (labelMap s) (S (pointer s))).
  set (s0 := set_instructions
               (set_callStack s (array_push (callStack s) frame))
               (code ++ [RET])).
  set (s1 := set_pointer (buildLabelMap s0) 0).
  assert (E1 : step PL0Programs s = Ok (s1, [])).
  { rewrite (step_fetch _ _ _ Hfetch). cbn [dispatch]. by rewrite Hreg. }
  assert (Hs1 : exactMachine s1) by done.
  assert (Hm1 : models (Z.of_nat (length (memory s1))) hi lo s1 st) by done.
  assert (Hc1 : codeAt s1 (pointer s1) code).
  { intros i line Hi. cbn. by apply lookup_app_l_Some. }
  assert (Hl1 : labelsAt s1 (pointer s1) code).
  { apply (labelsAt_same (buildLabelMap s0)); [done|].
    refine (proj1 (labelsAt_app _ _ code [RET] _)).
    apply (buildLabelMap_labelsAt s0). cbn. rewrite declares_app. cbn.
    by rewrite app_nil_r. }
  destruct (Hruns fuel ltac:(lia) s1 st st' Hs1 Hhi Hlo Hle Hpv Hm1 Hc1 Hl1 Hsem)
    as (n & s2 & R2 & P2 & M2 & F2).
  destruct (sameCode_fields _ _ F2) as (Hs2 & Hm2 & Hi2 & Hlm2 & Hsc2 & Hmax2).
  destruct F2 as (_ & _ & F2).
  pose proof (f_equal (fun t => t.1.1.1.2) F2) as Hcs2.
  pose proof (f_equal (fun t => t.1.2) F2) as Hrun2.
  cbn in Hcs2, Hrun2, Hi2, P2, Hm2, Hsc2, Hmax2.
  set (s3 := set_pointer
               (set_labelMap
                  (set_instructions (set_callStack s2 (callStack s))
                                    (instructions s))
                  (labelMap s))
               (S (pointer s))).
  assert (E3 : step PL0Programs s2 = Ok (s3, [])).
  { assert (Hret : instructions s2 !! pointer s2 = Some RET)
      by (rewrite Hi2, P2; by apply list_lookup_middle).
    rewrite (step_fetch _ _ _ Hret). cbn [dispatch].
    by rewrite Hcs2, array_pop_push. }
  exists (1 + (n + 1))%nat, s3. split.
  { rewrite (stepN_step _ _ _ _ E1). eapply stepN_trans; [exact R2|].
    by rewrite (stepN_step _ _ _ _ E3). }
  split; [cbn; lia|]. split.
  - by eapply models_frame; [exact M2| |].
  - split; [done|]. split; [done|]. cbn. by rewrite Hsc2, Hrun2, Hmax2.
Qed.
End Statements.
End StatementCode.

(** *** The statement parser *)

Section StatementParser.
Context `{MathLib}.
Variable PL0Programs : gmap string (list instr).
Import Pl0Compiler.

(** **** Progress of the parser *)

Lemma later_refl (p : PL0Parser) : later p p.
Proof. by repeat split. Qed.

Lemma later_trans (p1 p2 p3 : PL0Parser) :
  later p1 p2 -> later p2 p3 -> later p1 p3.
Proof.
  intros (E1 & T1 & L1) (E2 & T2 & L2). unfold later, sameVars in *.
  split; [congruence|]. split; lia.
Qed.

Lemma later_fields (p p' : PL0Parser) :
  later p p' ->
  varTable p' = varTable p /\ fxScale p' = fxScale p
  /\ nextVarAddr p' = nextVarAddr p
  /\ tempAddr p' <= tempAddr p /\ (labelCounter p <= labelCounter p')%nat.
Proof.
  intros (E & T & L).
  split; [exact (f_equal (fun t => t.1.1.2) E)|].
  split; [exact (f_equal (fun t => t.2) E)|].
  split; [exact (f_equal (fun t => t.1.2) E)|]. by split.
Qed.

Lemma later_pos (p : PL0Parser) (k : nat) : later p (set_pos p k).
Proof. by repeat split. Qed.

Lemma later_expression (p p' : PL0Parser) :
  sameTables p p' -> tempAddr p' <= tempAddr p ->
  later p p' /\ labelCounter p' = labelCounter p.
Proof.
  intros E T. unfold later, sameVars.
  injection E as E1 E2 E3 E4 E5. rewrite E1, E2, E3, E4, E5.
  by repeat split.
Qed.

(** **** Labels *)

Lemma labelName_inj (k k' : nat) : labelName k = labelName k' -> k = k'.
Proof.
  unfold labelName. intros E. apply String.app_inj in E.
  by apply pretty_nat_inj in E.
Qed.

Lemma labelsWithin_plain (lc lc' : nat) (code : list instr) :
  declares code = [] -> labelsWithin lc lc' code.
Proof.
  intros Hd. exists []. split; [done|]. split; [constructor|].
  intros k Hk. by apply elem_of_nil in Hk.
Qed.

Lemma labelsWithin_label (k : nat) :
  labelsWithin k (S k) [Label (labelName k)].
Proof.
  exists [k]. split; [done|]. split; [apply NoDup_singleton|].
  intros k' Hk. apply list_elem_of_singleton in Hk. lia.
Qed.

Lemma labelsWithin_app (lc lc' a b a' b' : nat) (c1 c2 : list instr) :
  labelsWithin a b c1 -> labelsWithin a' b' c2 ->
  (b <= a')%nat \/ (b' <= a)%nat ->
  (lc <= a)%nat -> (lc <= a')%nat -> (b <= lc')%nat -> (b' <= lc')%nat ->
  labelsWithin lc lc' (c1 ++ c2).
Proof.
  intros (ks1 & D1 & N1 & R1) (ks2 & D2 & N2 & R2) Hdisj Ha Ha' Hb Hb'.
  exists (ks1 ++ ks2). split; [by rewrite declares_app, D1, D2, fmap_app|].
  split.
  - apply NoDup_app. split; [done|]. split; [|done].
    intros k Hk1 Hk2. apply R1 in Hk1. apply R2 in Hk2. lia.
  - intros k Hk. apply elem_of_app in Hk as [Hk|Hk];
      [apply R1 in Hk|apply R2 in Hk]; lia.
Qed.

Lemma labelsWithin_mono (lc lc' a b : nat) (code : list instr) :
  labelsWithin a b code -> (lc <= a)%nat -> (b <= lc')%nat ->
  labelsWithin lc lc' code.
Proof.
  intros (ks & D & N & R) Ha Hb. exists ks. split; [done|]. split; [done|].
  intros k Hk. apply R in Hk. lia.
Qed.

(** **** Statements of one form *)

Lemma plain_good (p p' : PL0Parser) (ast : stmt) (code : list instr) :
  later p p' -> declares code = [] ->
  (forall procs hi lo N, lo <= hi -> linked PL0Programs procs hi lo N ->
     runs PL0Programs procs (varTable p) (fxScale p) hi lo (S N) ast code) ->
  stmtGood PL0Programs p p' ast code.
Proof.
  intros Hl Hd Hr. split; [done|]. split; [by apply labelsWithin_plain|].
  intros procs hi lo N Hhi Hlo Hlk. apply Hr; [|done].
  destruct (later_fields _ _ Hl) as (_ & _ & _ & Ht & _). lia.
Qed.

Lemma parseCallStatement_good (p p' : PL0Parser) (ast : stmt)
    (code : list instr) :
  parseCallStatement p = Parsed (ast, code) p' ->
  stmtGood PL0Programs p p' ast code.
Proof.
  unfold parseCallStatement. intros Hp.
  apply bind_Parsed in Hp as (? & p1 & Ee & Hp). apply eat_Parsed in Ee as [_ ->].
  apply bind_Parsed in Hp as (idToken & ? & [= <- <-] & Hp).
  apply bind_Parsed in Hp as (? & p2 & Ee & Hp). apply eat_Parsed in Ee as [_ ->].
  apply bind_Parsed in Hp as (? & p3 & Ee & Hp). apply eat_Parsed in Ee as [_ ->].
  apply mret_Parsed in Hp as [[= -> ->] ->].
  apply plain_good; [by repeat split|done|].
  intros procs hi lo N _ Hlk. by apply runs_call.
Qed.

Lemma parseAssignment_good (fuel : nat) (p p' : PL0Parser) (ast : stmt)
    (code : list instr) :
  parseAssignment fuel p = Parsed (ast, code) p' ->
  stmtGood PL0Programs p p' ast code.
Proof.
  unfold parseAssignment. intros Hp.
  apply bind_Parsed in Hp as (idToken & ? & [= <- <-] & Hp).
  apply bind_Parsed in Hp as (? & p1 & Ee & Hp). apply eat_Parsed in Ee as [_ ->].
  apply bind_Parsed in Hp as (? & p2 & Ee & Hp). apply eat_Parsed in Ee as [_ ->].
  apply bind_Parsed in Hp as ([e c] & p3 & Ex & Hp).
  apply bind_Parsed in Hp as (? & p4 & Ee & Hp). apply eat_Parsed in Ee as [_ ->].
  apply bind_Parsed in Hp as (addr & p5 & Ea & Hp).
  apply getVarAddr_Parsed in Ea as [Ea ->].
  apply mret_Parsed in Hp as [[= -> ->] ->].
  destruct (proj1 (parse_expression_sound PL0Programs fuel) _ _ _ _ Ex)
    as (St & Ht & Hc & Hd).
  destruct (later_expression _ _ St Ht) as [Hl Hlc].
  destruct (later_fields _ _ Hl) as (Ev & Es & _).
  cbn [tempAddr varTable fxScale labelCounter set_pos] in *.
  split; [|split].
  - eapply later_trans; [|apply later_pos].
    eapply later_trans; [|exact Hl]. by repeat split.
  - apply labelsWithin_plain. by rewrite declares_app, Hd.
  - intros procs hi lo N Hhi Hlo Hlk. apply runs_assign; [by rewrite <- Ev|].
    by eapply computes_mono.
Qed.

Lemma parsePushStatement_good (p p' : PL0Parser) (ast : stmt)
    (code : list instr) :
  parsePushStatement p = Parsed (ast, code) p' ->
  stmtGood PL0Programs p p' ast code.
Proof.
  unfold parsePushStatement. intros Hp.
  apply bind_Parsed in Hp as (? & p1 & Ee & Hp). apply eat_Parsed in Ee as [_ ->].
  apply bind_Parsed in Hp as (idToken & ? & [= <- <-] & Hp).
  apply bind_Parsed in Hp as (? & p2 & Ee & Hp). apply eat_Parsed in Ee as [_ ->].
  apply bind_Parsed in Hp as (? & p3 & Ee & Hp). apply eat_Parsed in Ee as [_ ->].
  apply bind_Parsed in Hp as (addr & p4 & Ea & Hp).
  apply getVarAddr_Parsed in Ea as [Ea ->].
  apply mret_Parsed in Hp as [[= -> ->] ->].
  apply plain_good; [by repeat split|done|].
  intros procs hi lo N _ _. by apply runs_push.
Qed.

Lemma parsePopStatement_good (p p' : PL0Parser) (ast : stmt)
    (code : list instr) :
  parsePopStatement p = Parsed (ast, code) p' ->
  stmtGood PL0Programs p p' ast code.
Proof.
  unfold parsePopStatement. intros Hp.
  apply bind_Parsed in Hp as (? & p1 & Ee & Hp). apply eat_Parsed in Ee as [_ ->].
  apply bind_Parsed in Hp as (idToken & ? & [= <- <-] & Hp).
  apply bind_Parsed in Hp as (? & p2 & Ee & Hp). apply eat_Parsed in Ee as [_ ->].
  apply bind_Parsed in Hp as (? & p3 & Ee & Hp). apply eat_Parsed in Ee as [_ ->].
  apply bind_Parsed in Hp as (addr & p4 & Ea & Hp).
  apply getVarAddr_Parsed in Ea as [Ea ->].
  apply mret_Parsed in Hp as [[= -> ->] ->].
  apply plain_good; [by repeat split|done|].
  intros procs hi lo N _ _. by apply runs_pop.
Qed.

Lemma parsePeekStatement_good (p p' : PL0Parser) (ast : stmt)
    (code : list instr) :
  parsePeekStatement p = Parsed (ast, code) p' ->
  stmtGood PL0Programs p p' ast code.
Proof.
  unfold parsePeekStatement. intros Hp.
  apply bind_Parsed in Hp as (? & p1 & Ee & Hp). apply eat_Parsed in Ee as [_ ->].
  apply bind_Parsed in Hp as (? & p2 & Ee & Hp). apply eat_Parsed in Ee as [_ ->].
  apply bind_Parsed in Hp as (destToken & ? & [= <- <-] & Hp).
  apply bind_Parsed in Hp as (? & p3 & Ee & Hp). apply eat_Parsed in Ee as [_ ->].
  apply bind_Parsed in Hp as (? & p4 & Ee & Hp). apply eat_Parsed in Ee as [_ ->].
  apply bind_Parsed in Hp as (addrToken & ? & [= <- <-] & Hp).
  apply bind_Parsed in Hp as (? & p5 & Ee & Hp). apply eat_Parsed in Ee as [_ ->].
  apply bind_Parsed in Hp as (? & p6 & Ee & Hp). apply eat_Parsed in Ee as [_ ->].
  apply bind_Parsed in Hp as (? & p7 & Ee & Hp). apply eat_Parsed in Ee as [_ ->].
  apply bind_Parsed in Hp as (destAddr & p8 & Ed & Hp).
  apply getVarAddr_Parsed in Ed as [Ed ->].
  apply bind_Parsed in Hp as (addrVarAddr & p9 & Ea & Hp).
  apply getVarAddr_Parsed in Ea as [Ea ->].
  apply mret_Parsed in Hp as [[= -> ->] ->].
  apply plain_good; [by repeat split|done|].
  intros procs hi lo N _ _. by apply runs_peek.
Qed.

Lemma parsePokeStatement_good (p p' : PL0Parser) (ast : stmt)
    (code : list instr) :
  parsePokeStatement p = Parsed (ast, code) p' ->
  stmtGood PL0Programs p p' ast code.
Proof.
  unfold parsePokeStatement. intros Hp.
  apply bind_Parsed in Hp as (? & p1 & Ee & Hp). apply eat_Parsed in Ee as [_ ->].
  apply bind_Parsed in Hp as (? & p2 & Ee & Hp). apply eat_Parsed in Ee as [_ ->].
  apply bind_Parsed in Hp as (addrToken & ? & [= <- <-] & Hp).
  apply bind_Parsed in Hp as (? & p3 & Ee & Hp). apply eat_Parsed in Ee as [_ ->].
  apply bind_Parsed in Hp as (? & p4 & Ee & Hp). apply eat_Parsed in Ee as [_ ->].
  apply bind_Parsed in Hp as (valToken & ? & [= <- <-] & Hp).
  apply bind_Parsed in Hp as (? & p5 & Ee & Hp). apply eat_Parsed in Ee as [_ ->].
  apply bind_Parsed in Hp as (? & p6 & Ee & Hp). apply eat_Parsed in Ee as [_ ->].
  apply bind_Parsed in Hp as (? & p7 & Ee & Hp). apply eat_Parsed in Ee as [_ ->].
  apply bind_Parsed in Hp as (addrVarAddr & p8 & Ea & Hp).
  apply getVarAddr_Parsed in Ea as [Ea ->].
  apply bind_Parsed in Hp as (valAddr & p9 & Ev & Hp).
  apply getVarAddr_Parsed in Ev as [Ev ->].
  apply mret_Parsed in Hp as [[= -> ->] ->].
  apply plain_good; [by repeat split|done|].
  intros procs hi lo N _ _. by apply runs_poke.
Qed.

(** **** All statements *)

Lemma newLabel_Parsed (p p' : PL0Parser) (label : string) :
  newLabel p = Parsed label p' ->
  label = labelName (labelCounter p)
  /\ p' = set_labelCounter p (S (labelCounter p)).
Proof. by intros [= <- <-]. Qed.

Lemma parse_statement_sound (fuel : nat) :
  (forall p ast code p',
     parseStatement fuel p = Parsed (ast, code) p' ->
     stmtGood PL0Programs p p' ast code)
  /\ (forall p ast code p',
        parseIfStatement fuel p = Parsed (ast, code) p' ->
        stmtGood PL0Programs p p' ast code)
  /\ (forall p ast code p',
        parseWhileStatement fuel p = Parsed (ast, code) p' ->
        stmtGood PL0Programs p p' ast code)
  /\ (forall p ast code p',
        parseCompoundStatement fuel p = Parsed (ast, code) p' ->
        stmtGood PL0Programs p p' ast code)
  /\ (forall p0 p stmts codeAll l code p',
        seqGood PL0Programs p0 p stmts codeAll ->
        compoundLoop fuel stmts codeAll p = Parsed (l, code) p' ->
        seqGood PL0Programs p0 p' l code).
Proof.
  induction fuel as [|fuel (IHs & IHi & IHw & IHc & IHl)].
  { split; [done|]. split; [done|]. split; [done|]. split; [done|].
    intros p0 p stmts codeAll l code p' Hg. cbn [compoundLoop].
    destruct (negb _); [done|]. by intros [= <- <- <-]. }
  split; [|split; [|split; [|split]]].
  - (* parseStatement *)
    intros p ast code p'. cbn [parseStatement].
    case_match; [apply parseCallStatement_good|].
    case_match; [apply IHi|]. case_match; [apply IHw|].
    case_match; [apply IHc|].
    case_match; [apply parsePushStatement_good|].
    case_match; [apply parsePopStatement_good|].
    case_match; [apply parsePeekStatement_good|].
    case_match; [apply parsePokeStatement_good|].
    case_match; [apply parseAssignment_good|].
    intros [= <- <- <-]. apply plain_good; [apply later_refl|done|].
    intros procs hi lo N _ _. apply runs_noop.
  - (* parseIfStatement *)
    intros p ast code p'. cbn [parseIfStatement]. intros Hp.
    apply bind_Parsed in Hp as (? & p1 & Ee & Hp).
    apply eat_Parsed in Ee as [_ ->].
    apply bind_Parsed in Hp as ([c cc] & p2 & Ex & Hp).
    apply bind_Parsed in Hp as (? & p3 & Ee & Hp).
    apply eat_Parsed in Ee as [_ ->].
    apply bind_Parsed in Hp as ([t tc] & p4 & Et & Hp).
    apply bind_Parsed in Hp as (skipLabel & p5 & En & Hp).
    apply newLabel_Parsed in En as [-> ->].
    apply mret_Parsed in Hp as [[= -> ->] ->].
    destruct (proj1 (parse_expression_sound PL0Programs fuel) _ _ _ _ Ex)
      as (St & Ht & Hc & Hd).
    destruct (later_expression _ _ St Ht) as [Hl2 Hlc2].
    destruct (IHs _ _ _ _ Et) as (Hl4 & Hw4 & Hr4).
    assert (Hl3 : later p (set_pos p2 (S (pos p2)))).
    { eapply later_trans; [apply (later_pos p (S (pos p)))|].
      eapply later_trans; [exact Hl2|apply later_pos]. }
    destruct (later_fields _ _ Hl3) as (Ev3 & Es3 & _ & Ht3 & Hlc3).
    destruct (later_fields _ _ Hl4) as (Ev4 & Es4 & _ & Ht4 & Hlc4).
    cbn [tempAddr varTable fxScale labelCounter set_pos set_labelCounter] in *.
    split; [|split].
    + eapply later_trans; [exact Hl3|].
      eapply later_trans; [exact Hl4|]. repeat split; cbn; lia.
    + change (labelsWithin (labelCounter p) (S (labelCounter p4))
                (cc ++ ([JZ 0 (labelName (labelCounter p4))]
                        ++ (tc ++ [Label (labelName (labelCounter p4))])))).
      apply (labelsWithin_app _ _ (labelCounter p) (labelCounter p)
               (labelCounter p) (S (labelCounter p4))); try lia.
      { by apply labelsWithin_plain. }
      apply (labelsWithin_app _ _ (labelCounter p) (labelCounter p)
               (labelCounter p) (S (labelCounter p4))); try lia.
      { by apply labelsWithin_plain. }
      apply (labelsWithin_app _ _ (labelCounter p2) (labelCounter p4)
               (labelCounter p4) (S (labelCounter p4))); try lia.
      { done. }
      apply labelsWithin_label.
    + intros procs hi lo N Hhi Hlo Hlk.
      cbn [tempAddr set_labelCounter set_pos] in Hhi, Hlo. apply runs_if.
      * eapply computes_mono; [exact Hc|lia|lia].
      * rewrite <- Ev3, <- Es3. apply Hr4; [lia|lia|done].
  - (* parseWhileStatement *)
    intros p ast code p'. cbn [parseWhileStatement]. intros Hp.
    apply bind_Parsed in Hp as (? & p1 & Ee & Hp).
    apply eat_Parsed in Ee as [_ ->].
    apply bind_Parsed in Hp as (startLabel & p2 & En & Hp).
    apply newLabel_Parsed in En as [-> ->].
    apply bind_Parsed in Hp as (exitLabel & p3 & En & Hp).
    apply newLabel_Parsed in En as [-> ->].
    apply bind_Parsed in Hp as ([c cc] & p4 & Ex & Hp).
    apply bind_Parsed in Hp as (? & p5 & Ee & Hp).
    apply eat_Parsed in Ee as [_ ->].
    apply bind_Parsed in Hp as ([b bc] & p6 & Eb & Hp).
    apply mret_Parsed in Hp as [[= -> ->] ->].
    destruct (proj1 (parse_expression_sound PL0Programs fuel) _ _ _ _ Ex)
      as (St & Ht & Hc & Hd).
    destruct (later_expression _ _ St Ht) as [Hl4 Hlc4].
    destruct (IHs _ _ _ _ Eb) as (Hl6 & Hw6 & Hr6).
    assert (Hl5 : later p (set_pos p4 (S (pos p4)))).
    { eapply later_trans; [|apply later_pos].
      eapply later_trans; [|exact Hl4]. repeat split; cbn; lia. }
    destruct (later_fields _ _ Hl5) as (Ev5 & Es5 & _ & Ht5 & Hlc5).
    destruct (later_fields _ _ Hl6) as (Ev6 & Es6 & _ & Ht6 & Hlc6).
    cbn [tempAddr varTable fxScale labelCounter set_pos set_labelCounter] in *.
    split; [|split].
    + by eapply later_trans.
    + change (labelsWithin (labelCounter p) (labelCounter p6)
                ([Label (labelName (labelCounter p))]
                 ++ (cc ++ ([JZ 0 (labelName (S (labelCounter p)))]
                            ++ (bc ++ ([JMP (labelName (labelCounter p))]
                                       ++ [Label (labelName
                                                    (S (labelCounter p)))])))))).
      apply (labelsWithin_app _ _ (labelCounter p) (S (labelCounter p))
               (S (labelCounter p)) (labelCounter p6)); try lia.
      { apply labelsWithin_label. }
      apply (labelsWithin_app _ _ (S (labelCounter p)) (S (labelCounter p))
               (S (labelCounter p)) (labelCounter p6)); try lia.
      { by apply labelsWithin_plain. }
      apply (labelsWithin_app _ _ (S (labelCounter p)) (S (labelCounter p))
               (S (labelCounter p)) (labelCounter p6)); try lia.
      { by apply labelsWithin_plain. }
      apply (labelsWithin_app _ _ (S (S (labelCounter p))) (labelCounter p6)
               (S (labelCounter p)) (S (S (labelCounter p)))); try lia.
      { by rewrite <- Hlc4. }
      apply (labelsWithin_app _ _ (S (labelCounter p)) (S (labelCounter p))
               (S (labelCounter p)) (S (S (labelCounter p)))); try lia.
      { by apply labelsWithin_plain. }
      apply (labelsWithin_label (S (labelCounter p))).
    + intros procs hi lo N Hhi Hlo Hlk.
      cbn [tempAddr set_labelCounter set_pos] in Hhi, Hlo. apply runs_while.
      * eapply computes_mono; [exact Hc|lia|lia].
      * rewrite <- Ev5, <- Es5. apply Hr6; [lia|lia|done].
  - (* parseCompoundStatement *)
    intros p ast code p'. cbn [parseCompoundStatement]. intros Hp.
    apply bind_Parsed in Hp as (? & p1 & Ee & Hp).
    apply eat_Parsed in Ee as [_ ->].
    apply bind_Parsed in Hp as ([l c] & p2 & El & Hp).
    apply bind_Parsed in Hp as (? & p3 & Ee & Hp).
    apply eat_Parsed in Ee as [_ ->].
    apply mret_Parsed in Hp as [[= -> ->] ->].
    destruct (IHl p (set_pos p (S (pos p))) [] [] l c p2) as (Hl2 & Hw2 & Hr2);
      [|done|].
    { split; [apply later_pos|]. split; [by apply labelsWithin_plain|].
      intros procs hi lo N _ _ _. apply runsAll_nil. }
    split; [|split].
    + eapply later_trans; [exact Hl2|apply later_pos].
    + done.
    + intros procs hi lo N Hhi Hlo Hlk.
      cbn [tempAddr set_labelCounter set_pos] in Hhi, Hlo. apply runs_compound. by apply Hr2.
  - (* compoundLoop *)
    intros p0 p stmts codeAll l code p' Hg. cbn [compoundLoop].
    destruct (negb _); [|by intros [= <- <- <-]]. intros Hp.
    apply bind_Parsed in Hp as ([sa sc] & p1 & Es & Hp).
    destruct (IHs _ _ _ _ Es) as (Hl1 & Hw1 & Hr1).
    destruct Hg as (Hl0 & Hw0 & Hr0).
    destruct (later_fields _ _ Hl0) as (Ev0 & Es0 & _ & Ht0 & Hlc0).
    destruct (later_fields _ _ Hl1) as (Ev1 & Es1 & _ & Ht1 & Hlc1).
    assert (Hg1 : seqGood PL0Programs p0 p1 (stmts ++ [sa]) (codeAll ++ sc)).
    { split; [by eapply later_trans|]. split.
      - by apply (labelsWithin_app _ _ (labelCounter p0) (labelCounter p)
                    (labelCounter p) (labelCounter p1)); try lia.
      - intros procs hi lo N Hhi Hlo Hlk.
      cbn [tempAddr set_labelCounter set_pos] in Hhi, Hlo. apply runsAll_snoc; [apply Hr0; [lia|lia|done]|].
        rewrite <- Ev0, <- Es0. apply Hr1; [lia|lia|done]. }
    unfold reading in Hp. case_match.
    + apply bind_Parsed in Hp as (? & p2 & Ee & Hp).
      apply eat_Parsed in Ee as [_ ->].
      refine (IHl p0 _ _ _ _ _ _ _ Hp).
      destruct Hg1 as (Hl2 & Hw2 & Hr2). split; [|by split].
      eapply later_trans; [exact Hl2|apply later_pos].
    + by apply (IHl p0 _ _ _ _ _ _ Hg1 Hp).
Qed.
End StatementParser.

(** *** Compiled programs *)

Section CompiledProgram.
Context `{MathLib}.
Variable PL0Programs : gmap string (list instr).
Import Pl0Compiler.

(** **** From steps to [execute] *)

(** No instruction sets [running]. *)
Lemma step_running (s s' : PL0CPU) (evs : list event) :
  step PL0Programs s = Ok (s', evs) -> running s' = true -> running s = true.
Proof.
  unfold step. destruct (instructions s !! pointer s) as [line|]; [|done].
  cbn [defined mbind res_bind].
  destruct line; cbn [dispatch];
    unfold _parseAddrBracket, _parseReg, arith, trackDetailed, trackCompute;
    repeat res_cases;
    intros Heq; simplify_eq; cbn; done.
Qed.

Lemma stepN_running (n : nat) : forall s s',
  stepN PL0Programs n s = Ok s' -> running s' = true -> running s = true.
Proof.
  induction n as [|n IH]; intros s s'; cbn [stepN]; [by intros [= <-]|].
  destruct (step PL0Programs s) as [[s1 evs]|e] eqn:E; [|done].
  cbn [mbind res_bind]. intros Hrun Hr.
  eapply step_running; [exact E|]. by eapply IH.
Qed.

Lemma loop_stepN (n : nat) : forall fuel maxSteps k s s' tr,
  stepN PL0Programs n s = Ok s' -> running s' = true ->
  (k + n <= maxSteps + 1)%nat -> (n <= fuel)%nat ->
  exists tr',
    loop fuel PL0Programs maxSteps k s tr
    = loop (fuel - n) PL0Programs maxSteps (k + n) s' tr'.
Proof.
  induction n as [|n IH]; intros fuel maxSteps k s s' tr; cbn [stepN].
  { intros [= <-] _ _ _. exists tr. by rewrite Nat.sub_0_r, Nat.add_0_r. }
  destruct (step PL0Programs s) as [[s1 evs]|e] eqn:E; [|done].
  cbn [mbind res_bind]. intros Hrun Hr Hk Hfuel.
  pose proof (stepN_running _ _ _ Hrun Hr) as Hr1.
  pose proof (step_running _ _ _ E Hr1) as Hr0.
  assert (Hptr : (pointer s < length (instructions s))%nat).
  { unfold step in E.
    destruct (instructions s !! pointer s) as [line|] eqn:El; [|done].
    by eapply lookup_lt_Some. }
  destruct fuel as [|fuel]; [lia|]. cbn [loop].
  rewrite Hr0, (proj2 (Nat.ltb_lt _ _) Hptr). cbn [andb].
  rewrite (proj2 (Nat.ltb_ge _ _)) by lia. rewrite E.
  destruct (IH fuel maxSteps (S k) s1 s' (tr ++ evs) Hrun Hr) as [tr' Etr];
    [lia|lia|].
  exists tr'. rewrite Etr. by replace (S k + n)%nat with (k + S n)%nat by lia.
Qed.

(** **** Labels of compiled code *)

Lemma labelsWithin_NoDup (lc lc' : nat) (code : list instr) :
  labelsWithin lc lc' code -> NoDup (declares code).
Proof.
  intros (ks & -> & Hnd & _). apply NoDup_fmap_2; [|done].
  intros k k'. apply labelName_inj.
Qed.

(** **** Declarations *)

Lemma declareVar_Parsed (ident : string) (p p' : PL0Parser) (addr : Z) :
  declareVar ident p = Parsed addr p' ->
  varTable p !! ident = None /\ addr = nextVarAddr p
  /\ p' = set_vars p (<[ident := addr]> (varTable p)) (nextVarAddr p + 1).
Proof.
  unfold declareVar. destruct (varTable p !! ident); [done|].
  by intros [= <- <-].
Qed.

Lemma varDeclLoop_good (base : Z) (fuel : nat) : forall decls p decls' p',
  varDeclLoop fuel decls p = Parsed decls' p' ->
  varsBelow base p ->
  varsBelow base p' /\ sameCounters p p'.
Proof.
  induction fuel as [|fuel IH]; intros decls p decls' p'; [done|].
  cbn [varDeclLoop]. intros Hp [Hbase Hvars].
  apply bind_Parsed in Hp as (idToken & ? & [= <- <-] & Hp).
  apply bind_Parsed in Hp as (? & p1 & Ee & Hp). apply eat_Parsed in Ee as [_ ->].
  apply bind_Parsed in Hp as (addr & p2 & Ed & Hp).
  apply declareVar_Parsed in Ed as (Hnew & -> & ->).
  cbn [varTable nextVarAddr set_pos] in *.
  set (p2 := set_vars _ _ _) in *.
  assert (Hb2 : varsBelow base p2).
  { split; [cbn; lia|]. intros name a. cbn.
    destruct (decide (name = identOf (currentToken p))) as [->|Hne].
    - rewrite lookup_insert_eq. intros [= <-]. lia.
    - rewrite lookup_insert_ne by done. intros Ha.
      specialize (Hvars _ _ Ha). lia. }
  unfold reading in Hp. case_match.
  - apply bind_Parsed in Hp as (? & p3 & Ee & Hp).
    apply eat_Parsed in Ee as [_ ->].
    destruct (IH _ _ _ _ Hp) as [Hb Hc]; [done|]. split; [done|].
    unfold sameCounters in *. by rewrite Hc.
  - apply mret_Parsed in Hp as [_ ->]. by split.
Qed.

Lemma parseProgram_good (base : Z) (fuel : nat) (p0 p : PL0Parser)
    (ast : program) (code : list instr) :
  parseProgram fuel p0 = Parsed (ast, code) p ->
  varsBelow base p0 ->
  exists p1,
    varsBelow base p1 /\ sameCounters p0 p1
    /\ stmtGood PL0Programs p1 p (statement (body ast)) code.
Proof.
  unfold parseProgram. intros Hp Hb.
  apply bind_Parsed in Hp as (? & p1 & Ee & Hp). apply eat_Parsed in Ee as [_ ->].
  apply bind_Parsed in Hp as (nameToken & ? & [= <- <-] & Hp).
  apply bind_Parsed in Hp as (? & p2 & Ee & Hp). apply eat_Parsed in Ee as [_ ->].
  apply bind_Parsed in Hp as (? & p3 & Ee & Hp). apply eat_Parsed in Ee as [_ ->].
  apply bind_Parsed in Hp as ([blockAST blockCode] & p4 & Eb & Hp).
  apply bind_Parsed in Hp as (? & p5 & Ee & Hp). apply eat_Parsed in Ee as [_ ->].
  apply mret_Parsed in Hp as [[= -> ->] ->].
  unfold parseBlock in Eb.
  apply bind_Parsed in Eb as ([decls codeVars] & q1 & Ev & Eb).
  apply bind_Parsed in Eb as ([stmtAST stmtCode] & q2 & Es & Eb).
  apply mret_Parsed in Eb as [[= -> ->] ->].
  destruct (proj1 (parse_statement_sound PL0Programs fuel) _ _ _ _ Es)
    as (Hl & Hw & Hr).
  set (p3 := set_pos (set_pos (set_pos p0 _) _) _) in *.
  assert (Hb3 : varsBelow base p3) by done.
  assert (Hdecl : varsBelow base q1 /\ sameCounters p0 q1 /\ codeVars = []).
  { unfold reading in Ev. case_match.
    - unfold parseVarDecl in Ev.
      apply bind_Parsed in Ev as (? & r1 & Ee & Ev).
      apply eat_Parsed in Ee as [_ ->].
      apply bind_Parsed in Ev as (ds & r2 & Ed & Ev).
      apply bind_Parsed in Ev as (? & r3 & Ee & Ev).
      apply eat_Parsed in Ee as [_ ->].
      apply mret_Parsed in Ev as [[= -> ->] ->].
      destruct (varDeclLoop_good base _ _ _ _ _ Ed) as [Hb' Hc']; [done|].
      by split.
    - apply mret_Parsed in Ev as [[= -> ->] ->]. by split. }
  destruct Hdecl as (Hb1 & Hc1 & ->).
  exists q1. split; [done|]. split; [done|].
  cbn [app body statement].
  split; [|by split]. eapply later_trans; [exact Hl|apply later_pos].
Qed.

Lemma startParser_below (tokens : list token) (baseAddr scale : Z) :
  varsBelow baseAddr (startParser tokens baseAddr scale)
  /\ tempAddr (startParser tokens baseAddr scale) = 254
  /\ fxScale (startParser tokens baseAddr scale) = scale.
Proof.
  unfold startParser, varsBelow.
  destruct (Z.eqb_spec baseAddr 0) as [->|Hne]; cbn.
  - by repeat split.
  - split; [|by split]. split; [lia|]. intros name a Hl.
    by rewrite lookup_empty in Hl.
Qed.
End CompiledProgram.

Section ProgramRun.
Context `{MathLib}.
Import Pl0Compiler.

Lemma loop_stopped (PL0Programs : gmap string (list instr))
    (fuel maxSteps k : nat) (s : PL0CPU) (tr : list event) :
  running s = false ->
  loop fuel PL0Programs maxSteps k s tr
  = Some {| final := s; events := tr; steps := k; thrown := None |}.
Proof. intros Hr. destruct fuel; cbn [loop]; by rewrite Hr. Qed.

(** A run of [n] steps that leaves the machine running in front of an
    instruction that stops it is a run of [execute]. *)
Lemma execute_stepN (PL0Programs : gmap string (list instr))
    (s s' s'' : PL0CPU) (n maxSteps : nat) :
  let s0 := set_running (set_pointer (buildLabelMap s) 0) true in
  stepN PL0Programs n s0 = Ok s' -> running s' = true ->
  step PL0Programs s' = Ok (s'', []) -> running s'' = false ->
  (n <= maxSteps)%nat ->
  exists tr,
    execute PL0Programs s maxSteps
    = Some {| final := s''; events := tr; steps := S n; thrown := None |}.
Proof.
  intros s0 R Hrun Estop Hstop Hmax.
  destruct (loop_stepN PL0Programs n (maxSteps + 2) maxSteps 0 s0 s' [] R Hrun)
    as [tr' Eloop]; [lia|lia|].
  exists (tr' ++ []). unfold execute. fold s0. rewrite Eloop.
  destruct (maxSteps + 2 - n)%nat as [|f] eqn:Ef; [lia|].
  cbn [loop Nat.add]. rewrite Hrun.
  assert (Hptr : (pointer s' < length (instructions s'))%nat).
  { unfold step in Estop.
    destruct (instructions s' !! pointer s') as [line|] eqn:El; [|done].
    by eapply lookup_lt_Some. }
  rewrite (proj2 (Nat.ltb_lt _ _) Hptr). cbn [andb].
  rewrite (proj2 (Nat.ltb_ge _ _)) by lia. rewrite Estop.
  by apply loop_stopped.
Qed.

(** The programs of a registry carry out their statements, calls
    included. *)
Lemma compiled_linked (PL0Programs : gmap string (list instr))
    (procs : gmap string procedure) (lo : Z) :
  compiledAs PL0Programs procs lo ->
  forall N, linked PL0Programs procs 254 lo N.
Proof.
  intros Hcomp N. induction N as [|N IH]; intros name proc Hproc;
    destruct (Hcomp _ _ Hproc)
      as (fuel & tokens & baseAddr & ast & blockCode & p & Hparse & Hreg
          & Hvars & Hbody & Hbase & Hnext & Hlo);
    destruct (startParser_below tokens baseAddr (procScale proc))
      as (Hb0 & Ht0 & Hs0);
    destruct (parseProgram_good PL0Programs baseAddr _ _ _ _ _ Hparse Hb0)
      as (p1 & [Hnext1 Hvars1] & Hc1 & Hl & Hw & Hr);
    injection Hc1 as Et1 _ Es1; rewrite Ht0 in Et1; rewrite Hs0 in Es1;
    destruct (later_fields _ _ Hl) as (Ev & Esc & En & Ht & _);
    exists blockCode; (split; [done|]);
    (split; [by eapply labelsWithin_NoDup|]);
    (split; [intros x a Ha; rewrite Hvars, Ev in Ha;
             specialize (Hvars1 _ _ Ha); lia|]).
  - intros fuel' Hfuel. lia.
  - rewrite Hvars, Hbody, Ev, <- Es1. apply Hr; [lia|lia|exact IH].
Qed.


End ProgramRun.

(** *** What a program takes from the parser *)

(** Destructs the successful steps of a parser method. *)
Ltac parsed_steps :=
  repeat match goal with
    | H : Pl0Compiler.eat _ _ = Pl0Compiler.Parsed _ _ |- _ =>
        apply eat_Parsed in H as [_ ->]
    | H : Pl0Compiler.newTemp _ = Pl0Compiler.Parsed _ _ |- _ =>
        apply newTemp_Parsed in H as [-> ->]
    | H : Pl0Compiler.newLabel _ = Pl0Compiler.Parsed _ _ |- _ =>
        apply newLabel_Parsed in H as [-> ->]
    | H : Pl0Compiler.getVarAddr _ _ = Pl0Compiler.Parsed _ _ |- _ =>
        apply getVarAddr_Parsed in H as [? ->]
    | H : Pl0Compiler.peekToken _ = Pl0Compiler.Parsed _ _ |- _ =>
        injection H as <- <-
    | H : mret _ _ = Pl0Compiler.Parsed _ _ |- _ =>
        apply mret_Parsed in H as [? ->]
    | H : mbind _ _ _ = Pl0Compiler.Parsed _ _ |- _ =>
        apply bind_Parsed in H as (? & ? & ? & H)
    | H : (let '(_, _) := ?a in _) _ = Pl0Compiler.Parsed _ _ |- _ =>
        destruct a
    end.

Section ParserAccounting.
Import Pl0Compiler.

Lemma parse_expression_temps (fuel : nat) :
  (forall p ast code p',
     parseExpression fuel p = Parsed (ast, code) p' ->
     tempAddr p' = tempAddr p - tempsOf ast
     /\ labelCounter p' = labelCounter p)
  /\ (forall p l lc ast code p',
        expressionLoop fuel l lc p = Parsed (ast, code) p' ->
        tempAddr p' + tempsOf ast = tempAddr p + tempsOf l
        /\ labelCounter p' = labelCounter p)
  /\ (forall p ast code p',
        parseTerm fuel p = Parsed (ast, code) p' ->
        tempAddr p' = tempAddr p - tempsOf ast
        /\ labelCounter p' = labelCounter p)
  /\ (forall p l lc ast code p',
        termLoop fuel l lc p = Parsed (ast, code) p' ->
        tempAddr p' + tempsOf ast = tempAddr p + tempsOf l
        /\ labelCounter p' = labelCounter p)
  /\ (forall p ast code p',
        parseFactor fuel p = Parsed (ast, code) p' ->
        tempAddr p' = tempAddr p - tempsOf ast
        /\ labelCounter p' = labelCounter p).
Proof.
  induction fuel as [|fuel (IHe & IHel & IHt & IHtl & IHf)].
  { split; [done|]. split; [|split; [done|split; [|done]]].
    - intros p l lc ast code p'. cbn [expressionLoop].
      destruct (_ || _); [done|]. intros [= <- <- <-]. by split.
    - intros p l lc ast code p'. cbn [termLoop].
      destruct (_ || _); [done|]. intros [= <- <- <-]. by split. }
  split; [|split; [|split; [|split]]].
  - intros p ast code p' Hp. cbn [parseExpression] in Hp. parsed_steps.
    match goal with H : parseTerm _ _ = _ |- _ => apply IHt in H as [? ?] end.
    apply IHel in Hp as [? ?]. split; [lia|congruence].
  - intros p l lc ast code p'. cbn [expressionLoop].
    destruct (_ || _); [|intros [= <- <- <-]; by split]. intros Hp.
    parsed_steps.
    match goal with H : parseTerm _ _ = _ |- _ => apply IHt in H as [? ?] end.
    apply IHel in Hp as [? ?].
    cbn [tempsOf tempAddr labelCounter set_tempAddr set_pos] in *.
    split; [lia|congruence].
  - intros p ast code p' Hp. cbn [parseTerm] in Hp. parsed_steps.
    match goal with
    | H : parseFactor _ _ = _ |- _ => apply IHf in H as [? ?]
    end.
    apply IHtl in Hp as [? ?]. split; [lia|congruence].
  - intros p l lc ast code p'. cbn [termLoop].
    destruct (_ || _); [|intros [= <- <- <-]; by split]. intros Hp.
    parsed_steps.
    match goal with
    | H : parseFactor _ _ = _ |- _ => apply IHf in H as [? ?]
    end.
    apply IHtl in Hp as [? ?].
    cbn [tempsOf tempAddr labelCounter set_tempAddr set_pos] in *.
    split; [lia|congruence].
  - intros p ast code p'. cbn [parseFactor].
    destruct (currentToken p) eqn:Etok; try (case_match; [|done]);
      intros Hp; unfold reading in *.
    all: repeat (parsed_steps; try case_match; try done).
    all: repeat match goal with
           | H : parseExpression _ _ = _ |- _ => apply IHe in H as [? ?]
           | H : (_, _) = (_, _) |- _ => injection H as -> ->
           end.
    all: cbn [tempsOf tempAddr labelCounter set_tempAddr set_pos] in *.
    all: split; [lia|congruence].
Qed.

Lemma tempsOfStmt_compound (l : list stmt) :
  tempsOfStmt (SCompound l) = tempsAll l.
Proof.
  unfold tempsAll. induction l as [|s l IH]; [done|].
  cbn [tempsOfStmt foldr] in *. by rewrite IH.
Qed.

Lemma labelsOfStmt_compound (l : list stmt) :
  labelsOfStmt (SCompound l) = labelsAll l.
Proof.
  unfold labelsAll. induction l as [|s l IH]; [done|].
  cbn [labelsOfStmt foldr] in *. by rewrite IH.
Qed.

Lemma tempsAll_snoc (l : list stmt) (s : stmt) :
  tempsAll (l ++ [s]) = tempsAll l + tempsOfStmt s.
Proof.
  unfold tempsAll. induction l as [|x l IH]; cbn [app foldr]; [lia|].
  rewrite IH. lia.
Qed.

Lemma labelsAll_snoc (l : list stmt) (s : stmt) :
  labelsAll (l ++ [s]) = (labelsAll l + labelsOfStmt s)%nat.
Proof.
  unfold labelsAll. induction l as [|x l IH]; cbn [app foldr]; [lia|].
  rewrite IH. lia.
Qed.

Lemma parse_statement_counts (fuel : nat) :
  (forall p ast code p',
     parseStatement fuel p = Parsed (ast, code) p' ->
     tempAddr p' = tempAddr p - tempsOfStmt ast
     /\ labelCounter p' = (labelCounter p + labelsOfStmt ast)%nat)
  /\ (forall p ast code p',
        parseIfStatement fuel p = Parsed (ast, code) p' ->
        tempAddr p' = tempAddr p - tempsOfStmt ast
        /\ labelCounter p' = (labelCounter p + labelsOfStmt ast)%nat)
  /\ (forall p ast code p',
        parseWhileStatement fuel p = Parsed (ast, code) p' ->
        tempAddr p' = tempAddr p - tempsOfStmt ast
        /\ labelCounter p' = (labelCounter p + labelsOfStmt ast)%nat)
  /\ (forall p ast code p',
        parseCompoundStatement fuel p = Parsed (ast, code) p' ->
        tempAddr p' = tempAddr p - tempsOfStmt ast
        /\ labelCounter p' = (labelCounter p + labelsOfStmt ast)%nat)
  /\ (forall p stmts codeAll l code p',
        compoundLoop fuel stmts codeAll p = Parsed (l, code) p' ->
        tempAddr p' + tempsAll l = tempAddr p + tempsAll stmts
        /\ (labelCounter p' + labelsAll stmts
            = labelCounter p + labelsAll l)%nat).
Proof.
  induction fuel as [|fuel (IHs & IHi & IHw & IHc & IHl)].
  { split; [done|]. split; [done|]. split; [done|]. split; [done|].
    intros p stmts codeAll l code p'. cbn [compoundLoop].
    destruct (negb _); [done|]. intros [= <- <- <-]. lia. }
  pose proof (proj1 (parse_expression_temps fuel)) as IHe.
  split; [|split; [|split; [|split]]].
  - intros p ast code p'. cbn [parseStatement].
    unfold parseCallStatement, parsePushStatement, parsePopStatement,
      parsePeekStatement, parsePokeStatement, parseAssignment.
    repeat (case_match; [try solve [eauto]; intros Hp; parsed_steps|]).
    all: try (intros [= <- <- <-]).
    all: repeat match goal with
           | H : parseExpression _ _ = _ |- _ => apply IHe in H as [? ?]
           | H : (_, _) = (_, _) |- _ => injection H as -> ->
           end.
    all: cbn [tempsOfStmt labelsOfStmt tempAddr labelCounter set_pos] in *.
    all: lia.
  - intros p ast code p' Hp. cbn [parseIfStatement] in Hp. parsed_steps.
    repeat match goal with
      | H : parseExpression _ _ = _ |- _ => apply IHe in H as [? ?]
      | H : parseStatement _ _ = _ |- _ => apply IHs in H as [? ?]
      | H : (_, _) = (_, _) |- _ => injection H as -> ->
      end.
    cbn [tempsOfStmt labelsOfStmt tempAddr labelCounter set_pos
         set_labelCounter] in *.
    lia.
  - intros p ast code p' Hp. cbn [parseWhileStatement] in Hp. parsed_steps.
    repeat match goal with
      | H : parseExpression _ _ = _ |- _ => apply IHe in H as [? ?]
      | H : parseStatement _ _ = _ |- _ => apply IHs in H as [? ?]
      | H : (_, _) = (_, _) |- _ => injection H as -> ->
      end.
    cbn [tempsOfStmt labelsOfStmt tempAddr labelCounter set_pos
         set_labelCounter] in *.
    lia.
  - intros p ast code p' Hp. cbn [parseCompoundStatement] in Hp. parsed_steps.
    repeat match goal with
      | H : compoundLoop _ _ _ _ = _ |- _ => apply IHl in H as [? ?]
      | H : (_, _) = (_, _) |- _ => injection H as -> ->
      end.
    rewrite tempsOfStmt_compound, labelsOfStmt_compound.
    cbn [tempsAll labelsAll foldr tempAddr labelCounter set_pos] in *. lia.
  - intros p stmts codeAll l code p'. cbn [compoundLoop].
    destruct (negb _); [|intros [= <- <- <-]; lia]. intros Hp.
    parsed_steps. unfold reading in Hp.
    match goal with
    | H : parseStatement _ _ = _ |- _ => apply IHs in H as [? ?]
    end.
    case_match; parsed_steps; apply IHl in Hp as [? ?];
      rewrite tempsAll_snoc, labelsAll_snoc in *;
      cbn [tempAddr labelCounter set_pos] in *; lia.
Qed.

(** **** Declarations *)

Lemma varDeclLoop_addresses (fuel : nat) : forall decls p decls' p',
  varDeclLoop fuel decls p = Parsed decls' p' ->
  exists new,
    decls' = decls ++ new
    /\ sameCounters p p'
    /\ nextVarAddr p' = nextVarAddr p + Z.of_nat (length new)
    /\ (forall i d, new !! i = Some d ->
                    vd_addr d = nextVarAddr p + Z.of_nat i)
    /\ NoDup (vd_ident <$> new)
    /\ (forall d, d ∈ new -> varTable p !! vd_ident d = None)
    /\ (forall x a, varTable p' !! x = Some a <->
                    varTable p !! x = Some a
                    \/ {| vd_ident := x; vd_addr := a |} ∈ new).
Proof.
  induction fuel as [|fuel IH]; intros decls p decls' p'; [done|].
  cbn [varDeclLoop]. intros Hp. parsed_steps.
  match goal with
  | H : declareVar _ _ = _ |- _ =>
      apply declareVar_Parsed in H as (Hfresh & -> & ->)
  end.
  cbn [varTable nextVarAddr set_pos] in *.
  set (x0 := identOf (currentToken p)) in *.
  set (d0 := {| vd_ident := x0; vd_addr := nextVarAddr p |}) in *.
  unfold reading in Hp. case_match.
  - parsed_steps.
    destruct (IH _ _ _ _ Hp)
      as (new & -> & Hc & Hnext & Haddr & Hnd & Hnone & Htable).
    cbn [varTable nextVarAddr set_pos set_vars] in *.
    exists (d0 :: new). split; [by rewrite <- app_assoc|].
    split; [exact Hc|].
    split; [cbn [length]; lia|].
    split.
    { intros [|i] d Hd; [injection Hd as <-; cbn; lia|].
      rewrite (Haddr i d Hd). lia. }
    split.
    { cbn [fmap list_fmap]. apply NoDup_cons. split; [|done].
      intros Hin. apply list_elem_of_fmap in Hin as (d & Hd & Hin).
      specialize (Hnone d Hin). rewrite <- Hd in Hnone.
      by rewrite lookup_insert_eq in Hnone. }
    split.
    { intros d Hd. apply elem_of_cons in Hd as [->|Hd]; [done|].
      specialize (Hnone d Hd).
      by apply lookup_insert_None in Hnone as [? _]. }
    intros y b. rewrite Htable. rewrite lookup_insert_Some, elem_of_cons.
    split.
    + intros [[[<- <-]|[_ Hx]]|Hin]; [right; by left|by left|right; by right].
    + intros [Hx|[[= -> ->]|Hin]]; [|left; by left|by right].
      left. right. split; [|done]. intros <-. congruence.
  - parsed_steps.
    match goal with H : _ = decls ++ _ |- _ => rewrite H end.
    exists [d0]. split; [done|]. split; [done|]. split; [cbn; lia|].
    split; [intros [|i] d Hd; [|done]; injection Hd as <-; cbn; lia|].
    split; [apply NoDup_singleton|].
    split; [by intros d ->%list_elem_of_singleton|].
    intros y b. cbn. rewrite list_elem_of_singleton.
    rewrite lookup_insert_Some. split.
    + intros [[<- <-]|[_ Hx]]; [by right|by left].
    + intros [Hx|[= -> ->]]; [|by left]. right. split; [|done].
      intros <-. congruence.
Qed.

(** The declarations of a block, from the parser [q] at the block on. *)
Lemma parseBlock_declarations (fuel : nat) (q p : PL0Parser) (b : block)
    (code : list instr) :
  parseBlock fuel q = Parsed (b, code) p ->
  exists q1,
    parseStatement fuel q1 = Parsed (statement b, code) p
    /\ sameCounters q q1
    /\ nextVarAddr q1 = nextVarAddr q + Z.of_nat (length (varDecls b))
    /\ (forall i d, varDecls b !! i = Some d ->
                    vd_addr d = nextVarAddr q + Z.of_nat i)
    /\ NoDup (vd_ident <$> varDecls b)
    /\ (forall d, d ∈ varDecls b -> varTable q !! vd_ident d = None)
    /\ (forall x a, varTable q1 !! x = Some a <->
                    varTable q !! x = Some a
                    \/ {| vd_ident := x; vd_addr := a |} ∈ varDecls b).
Proof.
  unfold parseBlock, reading. intros Hp. parsed_steps.
  match goal with H : (_, _) = (_, _) |- _ => injection H as -> -> end.
  cbn [statement varDecls].
  match goal with
  | H : (if ?c then _ else _) _ = _ |- _ => destruct c; rename H into Hd
  end.
  - unfold parseVarDecl in Hd. parsed_steps.
    match goal with H : (_, _) = (_, _) |- _ => injection H as -> -> end.
    match goal with
    | H : varDeclLoop _ _ _ = _ |- _ =>
        apply varDeclLoop_addresses in H
          as (new & -> & Hc & Hnext & Haddr & Hnd & Hnone & Htable)
    end.
    cbn [app varTable nextVarAddr set_pos] in *.
    eexists. split; [eassumption|]. split; [exact Hc|]. split; [exact Hnext|].
    split; [exact Haddr|]. split; [exact Hnd|]. split; [exact Hnone|].
    exact Htable.
  - apply mret_Parsed in Hd as [[= -> ->] ->].
    eexists. split; [eassumption|]. split; [done|].
    split; [cbn; lia|]. split; [done|]. split; [constructor|].
    split; [by intros d Hd%elem_of_nil|].
    intros y a0. split; [by left|]. by intros [?|Hd%elem_of_nil].
Qed.

Lemma parseStatement_later (fuel : nat) (p p' : PL0Parser) (ast : stmt)
    (code : list instr) :
  parseStatement fuel p = Parsed (ast, code) p' -> later p p'.
Proof.
  intros Hs.
  exact (proj1 (proj1 (parse_statement_sound (H := rationalMath) ∅ fuel)
                  _ _ _ _ Hs)).
Qed.

(** X27. What a program takes from the parser, which never gives a
    temporary or a label back.  After [parseProgram] the next temporary is
    254 less one for each binary operator and each [fx] of the program,
    the next label is 100 plus one for each [if] and two for each
    [while], and the variables have consecutive cells from [baseAddr] on,
    in the order of their declaration; no name is declared twice, and the
    variable table holds exactly the declared names with their cells.  So
    the variables stay clear of the temporaries exactly when declarations
    and temporaries together fit between [baseAddr] and cell 254. *)
Theorem program_resources (fuel : nat) (tokens : list token)
    (baseAddr scale : Z) (ast : program) (code : list instr) (p : PL0Parser) :
  parseProgram fuel (startParser tokens baseAddr scale) = Parsed (ast, code) p ->
  let temps := tempsOfStmt (statement (body ast)) in
  let decls := varDecls (body ast) in
  tempAddr p = 254 - temps
  /\ labelCounter p = (100 + labelsOfStmt (statement (body ast)))%nat
  /\ nextVarAddr p = baseAddr + Z.of_nat (length decls)
  /\ (forall i d, decls !! i = Some d -> vd_addr d = baseAddr + Z.of_nat i)
  /\ NoDup (vd_ident <$> decls)
  /\ (forall x a, varTable p !! x = Some a
                  <-> {| vd_ident := x; vd_addr := a |} ∈ decls)
  /\ (nextVarAddr p <= tempAddr p + 1
      <-> baseAddr + Z.of_nat (length decls) + temps <= 255).
Proof.
  intros Hp temps decls. unfold parseProgram in Hp. parsed_steps.
  match goal with H : (_, _) = (_, _) |- _ => injection H as -> -> end.
  match goal with
  | H : parseBlock _ _ = _ |- _ =>
      apply parseBlock_declarations in H
        as (q1 & Hs & Hc & Hnext & Haddr & Hnd & _ & Htable)
  end.
  destruct (later_fields _ _ (parseStatement_later _ _ _ _ _ Hs))
    as (Ev & _ & En & _).
  apply (proj1 (parse_statement_counts fuel)) in Hs as [Ht Hl].
  injection Hc as Et El _.
  assert (Hstart : tempAddr (startParser tokens baseAddr scale) = 254
                   /\ labelCounter (startParser tokens baseAddr scale) = 100%nat
                   /\ nextVarAddr (startParser tokens baseAddr scale) = baseAddr
                   /\ varTable (startParser tokens baseAddr scale) = ∅).
  { unfold startParser. destruct (Z.eqb_spec baseAddr 0) as [->|?]; by cbn. }
  destruct Hstart as (Ht0 & Hl0 & Hn0 & Hv0).
  cbn [body statement varDecls tempAddr labelCounter nextVarAddr varTable
       set_pos] in *.
  unfold temps, decls. cbn [body statement varDecls].
  rewrite Hn0 in Haddr.
  rewrite Ht, Hl, En, Hnext, Et, El, Ht0, Hl0, Hn0.
  split; [done|]. split; [done|]. split; [done|]. split; [done|].
  split; [done|]. split; [|lia].
  intros y a. rewrite Ev, Htable, Hv0, lookup_empty. split.
  - by intros [?|?].
  - by right.
Qed.
End ParserAccounting.

(** *** Where the parser returns and where it does not *)

Section ParserTermination.
Import Pl0Compiler.

(** X28. A compound statement that is not closed never returns.  At a
    token that is no identifier, starts no statement and is neither [end]
    nor [;] (the end of the input, a number, a closing parenthesis),
    [parseStatement] returns an empty statement without moving, and the
    loop of [parseCompoundStatement] goes on for ever, appending empty
    statements: whatever the fuel, the loop, the compound statement and
    the statement that begins with [begin] do not return. *)
Theorem unclosed_begin_never_returns (fuel : nat) (p : PL0Parser) :
  stuck (currentToken p) = true ->
  (forall stmts codeAll, compoundLoop fuel stmts codeAll p = OutOfFuel)
  /\ (forall p0,
        currentToken p0 = TKeyword "begin" -> p = set_pos p0 (S (pos p0)) ->
        parseCompoundStatement fuel p0 = OutOfFuel
        /\ parseStatement fuel p0 = OutOfFuel).
Proof.
  intros Hstuck. unfold stuck in Hstuck.
  apply andb_prop in Hstuck as [Hid Hwords]. cbn [forallb] in Hwords.
  repeat match type of Hwords with
         | (_ && _)%bool = true =>
             let Hw := fresh "Hw" in apply andb_prop in Hwords as [Hw Hwords]
         end.
  repeat match goal with
         | Hw : negb _ = true |- _ => apply negb_true_iff in Hw
         end.
  assert (Hloop : forall fuel stmts codeAll,
            compoundLoop fuel stmts codeAll p = OutOfFuel).
  { clear fuel. intros fuel. induction fuel as [|fuel IH]; intros stmts codeAll;
      cbn [compoundLoop]; rewrite Hw; cbn [negb]; [done|].
    unfold mbind, parser_bind.
    destruct fuel as [|fuel']; [done|].
    cbn [parseStatement]. rewrite Hw1, Hw2, Hw3, Hw4, Hw5, Hw6, Hw7, Hw8, Hid.
    unfold reading. rewrite Hw0. apply IH. }
  split; [apply Hloop|].
  intros p0 Hbegin ->.
  assert (Hc : forall fuel, parseCompoundStatement fuel p0 = OutOfFuel).
  { intros [|fuel']; [done|]. cbn [parseCompoundStatement].
    unfold mbind, parser_bind, eat. rewrite Hbegin. cbn [valueIs String.eqb].
    cbn. by rewrite Hloop. }
  split; [apply Hc|].
  destruct fuel as [|fuel']; [done|]. cbn [parseStatement].
  rewrite Hbegin. cbn. apply Hc.
Qed.

(** **** Expressions *)

Lemma eat_inside (expected : string) (p p' : PL0Parser) (tok : token) :
  eat expected p = Parsed tok p' ->
  String.eqb EmptyString expected || String.eqb "EOF" expected = false ->
  tokens p' = tokens p /\ (remaining p' < remaining p)%nat.
Proof.
  unfold eat, currentToken, remaining. intros Hp Hexp.
  destruct (tokens p !! pos p) as [tk|] eqn:E.
  - apply lookup_lt_Some in E. case_match; [|done].
    injection Hp as _ <-. cbn. split; [done|lia].
  - cbv beta zeta iota delta [default from_option id valueIs tokenType] in Hp.
    by rewrite Hexp in Hp.
Qed.

Lemma bind_returns {A B} (m : parser A) (k : A -> parser B) (p : PL0Parser) :
  m p <> OutOfFuel ->
  (forall a p1, m p = Parsed a p1 -> k a p1 <> OutOfFuel) ->
  (m ≫= k) p <> OutOfFuel.
Proof.
  unfold mbind, parser_bind. intros Hm Hk.
  destruct (m p) as [a p1|e|]; [by apply Hk|done|done].
Qed.

Lemma eat_returns (expected : string) (p : PL0Parser) :
  eat expected p <> OutOfFuel.
Proof. unfold eat. by case_match. Qed.

Lemma parse_expression_advances (fuel : nat) :
  (forall p ast code p',
     parseExpression fuel p = Parsed (ast, code) p' ->
     tokens p' = tokens p /\ (remaining p' < remaining p)%nat)
  /\ (forall p l lc ast code p',
        expressionLoop fuel l lc p = Parsed (ast, code) p' ->
        tokens p' = tokens p /\ (remaining p' <= remaining p)%nat)
  /\ (forall p ast code p',
        parseTerm fuel p = Parsed (ast, code) p' ->
        tokens p' = tokens p /\ (remaining p' < remaining p)%nat)
  /\ (forall p l lc ast code p',
        termLoop fuel l lc p = Parsed (ast, code) p' ->
        tokens p' = tokens p /\ (remaining p' <= remaining p)%nat)
  /\ (forall p ast code p',
        parseFactor fuel p = Parsed (ast, code) p' ->
        tokens p' = tokens p /\ (remaining p' < remaining p)%nat).
Proof.
  assert (Heat : forall expected p tok p',
            eat expected p = Parsed tok p' ->
            expected ∈ ["+"; "-"; "*"; "/"; "number"; "float"; "ident"; "(";
                        ")"] ->
            tokens p' = tokens p /\ (remaining p' < remaining p)%nat).
  { intros expected p tok p' Hp Hin. apply (eat_inside _ _ _ _ Hp).
    repeat (apply elem_of_cons in Hin as [->|Hin]; [done|]).
    by apply elem_of_nil in Hin. }
  assert (Hop : forall (c : bool) (a b : string) p tok p',
            eat (if c then a else b) p = Parsed tok p' ->
            a ∈ ["+"; "*"] -> b ∈ ["-"; "/"] ->
            tokens p' = tokens p /\ (remaining p' < remaining p)%nat).
  { intros c a b p tok p' Hp Ha Hb. apply (Heat _ _ _ _ Hp).
    repeat (apply elem_of_cons in Ha as [->|Ha]);
      repeat (apply elem_of_cons in Hb as [->|Hb]);
      try (by apply elem_of_nil in Ha); try (by apply elem_of_nil in Hb);
      destruct c; repeat constructor. }
  induction fuel as [|fuel (IHe & IHel & IHt & IHtl & IHf)].
  { split; [done|]. split; [|split; [done|split; [|done]]].
    - intros p l lc ast code p'. cbn [expressionLoop].
      destruct (_ || _); [done|]. by intros [= <- <- <-].
    - intros p l lc ast code p'. cbn [termLoop].
      destruct (_ || _); [done|]. by intros [= <- <- <-]. }
  split; [|split; [|split; [|split]]].
  - intros p ast code p' Hp. cbn [parseExpression] in Hp.
    apply bind_Parsed in Hp as ([l lc] & p1 & Ht & Hp).
    apply IHt in Ht as [? ?]. apply IHel in Hp as [? ?].
    split; [congruence|lia].
  - intros p l lc ast code p'. cbn [expressionLoop].
    destruct (_ || _); [|by intros [= <- <- <-]]. intros Hp.
    apply bind_Parsed in Hp as (tok & p1 & He & Hp).
    apply Hop in He as [? ?]; [|repeat constructor..].
    apply bind_Parsed in Hp as ([r rc] & p2 & Ht & Hp).
    apply IHt in Ht as [? ?].
    apply bind_Parsed in Hp as (t & p3 & Hn & Hp).
    apply newTemp_Parsed in Hn as [-> ->].
    apply IHel in Hp as [Htok Hrem].
    unfold remaining in *. cbn [tokens pos set_tempAddr] in *.
    split; [congruence|lia].
  - intros p ast code p' Hp. cbn [parseTerm] in Hp.
    apply bind_Parsed in Hp as ([l lc] & p1 & Ht & Hp).
    apply IHf in Ht as [? ?]. apply IHtl in Hp as [? ?].
    split; [congruence|lia].
  - intros p l lc ast code p'. cbn [termLoop].
    destruct (_ || _); [|by intros [= <- <- <-]]. intros Hp.
    apply bind_Parsed in Hp as (tok & p1 & He & Hp).
    apply Hop in He as [? ?]; [|repeat constructor..].
    apply bind_Parsed in Hp as ([r rc] & p2 & Ht & Hp).
    apply IHf in Ht as [? ?].
    apply bind_Parsed in Hp as (t & p3 & Hn & Hp).
    apply newTemp_Parsed in Hn as [-> ->].
    apply IHtl in Hp as [Htok Hrem].
    unfold remaining in *. cbn [tokens pos set_tempAddr] in *.
    split; [congruence|lia].
  - intros p ast code p'. cbn [parseFactor].
    assert (Hparen :
      (eat "(" ≫= fun _ =>
         parseExpression fuel ≫= fun '(exprAST, exprCode) =>
           eat ")" ≫= fun _ => mret (exprAST, exprCode)) p
      = Parsed (ast, code) p' ->
      tokens p' = tokens p /\ (remaining p' < remaining p)%nat).
    { intros Hp. apply bind_Parsed in Hp as (tok & p1 & He & Hp).
      apply Heat in He as [? ?]; [|solve [repeat constructor]].
      apply bind_Parsed in Hp as ([e c] & p2 & Hx & Hp).
      apply IHe in Hx as [? ?].
      apply bind_Parsed in Hp as (tok' & p3 & He & Hp).
      apply Heat in He as [? ?]; [|solve [repeat constructor]].
      apply mret_Parsed in Hp as [_ ->]. split; [congruence|lia]. }
    destruct (currentToken p) eqn:Etok;
      try (case_match; [exact Hparen|done]); clear Hparen.
    + intros Hp. apply bind_Parsed in Hp as (tok & p1 & He & Hp).
      apply Heat in He as [? ?]; [|solve [repeat constructor]].
      by apply mret_Parsed in Hp as [_ ->].
    + intros Hp. apply bind_Parsed in Hp as (tok & p1 & He & Hp).
      apply Heat in He as [? ?]; [|solve [repeat constructor]].
      by apply mret_Parsed in Hp as [_ ->].
    + case_match; intros Hp.
      * apply bind_Parsed in Hp as (tok & p1 & He & Hp).
        apply Heat in He as [? ?]; [|solve [repeat constructor]].
        apply bind_Parsed in Hp as (tok' & p2 & He & Hp).
        apply Heat in He as [? ?]; [|solve [repeat constructor]].
        apply bind_Parsed in Hp as ([e c] & p3 & Hx & Hp).
        apply IHe in Hx as [? ?].
        apply bind_Parsed in Hp as (tok'' & p4 & He & Hp).
        apply Heat in He as [? ?]; [|solve [repeat constructor]].
        assert (tokens p' = tokens p4 /\ remaining p' = remaining p4) as [? ?].
        { repeat case_match; try done.
          - by apply mret_Parsed in Hp as [_ ->].
          - apply bind_Parsed in Hp as (t & p5 & Hn & Hp).
            apply newTemp_Parsed in Hn as [-> ->].
            by apply mret_Parsed in Hp as [_ ->].
          - by apply mret_Parsed in Hp as [_ ->]. }
        split; [congruence|lia].
      * apply bind_Parsed in Hp as (tok & p1 & He & Hp).
        apply Heat in He as [? ?]; [|solve [repeat constructor]].
        unfold reading in Hp.
        assert (tokens p' = tokens p1 /\ remaining p' = remaining p1) as [? ?].
        { repeat case_match; try done.
          - apply bind_Parsed in Hp as (t & p5 & Hn & Hp).
            apply getVarAddr_Parsed in Hn as [_ ->].
            by apply mret_Parsed in Hp as [_ ->].
          - by apply mret_Parsed in Hp as [_ ->]. }
        split; [congruence|lia].
Qed.

Lemma currentToken_end (p : PL0Parser) :
  remaining p = 0%nat -> currentToken p = TEOF.
Proof.
  unfold remaining, currentToken. intros Hr.
  by rewrite (lookup_ge_None_2 (tokens p) (pos p)) by lia.
Qed.

Lemma parse_expression_returns (fuel : nat) :
  (forall p, (3 * remaining p + 3 <= fuel)%nat ->
             parseExpression fuel p <> OutOfFuel)
  /\ (forall p l lc, (3 * remaining p <= fuel)%nat ->
                     expressionLoop fuel l lc p <> OutOfFuel)
  /\ (forall p, (3 * remaining p + 2 <= fuel)%nat ->
                parseTerm fuel p <> OutOfFuel)
  /\ (forall p l lc, (3 * remaining p <= fuel)%nat ->
                     termLoop fuel l lc p <> OutOfFuel)
  /\ (forall p, (3 * remaining p + 1 <= fuel)%nat ->
                parseFactor fuel p <> OutOfFuel).
Proof.
  assert (Hop : forall (c : bool) (a b : string) p tok p',
            eat (if c then a else b) p = Parsed tok p' ->
            a ∈ ["+"; "*"] -> b ∈ ["-"; "/"] ->
            (remaining p' < remaining p)%nat).
  { intros c a b p tok p' Hp Ha Hb. apply (eat_inside _ _ _ _ Hp).
    repeat (apply elem_of_cons in Ha as [->|Ha]);
      repeat (apply elem_of_cons in Hb as [->|Hb]);
      try (by apply elem_of_nil in Ha); try (by apply elem_of_nil in Hb);
      by destruct c. }
  induction fuel as [|fuel (IHe & IHel & IHt & IHtl & IHf)].
  { split; [intros; lia|]. split; [|split; [intros; lia|split; [|intros; lia]]].
    - intros p l lc Hr. cbn [expressionLoop].
      rewrite currentToken_end by lia. done.
    - intros p l lc Hr. cbn [termLoop].
      rewrite currentToken_end by lia. done. }
  destruct (parse_expression_advances fuel) as (Ae & _ & At & _ & Af).
  split; [|split; [|split; [|split]]].
  - intros p Hr. cbn [parseExpression]. apply bind_returns; [apply IHt; lia|].
    intros [l lc] p1 Ht. apply At in Ht as [_ ?]. apply IHel. lia.
  - intros p l lc Hr. cbn [expressionLoop]. case_match; [|done].
    apply bind_returns; [apply eat_returns|]. intros tok p1 He.
    apply Hop in He; [|repeat constructor..].
    apply bind_returns; [apply IHt; lia|]. intros [r rc] p2 Ht.
    apply At in Ht as [_ ?].
    apply bind_returns; [done|]. intros t p3 Hn.
    apply newTemp_Parsed in Hn as [-> ->]. apply IHel.
    unfold remaining in *. cbn [tokens pos set_tempAddr]. lia.
  - intros p Hr. cbn [parseTerm]. apply bind_returns; [apply IHf; lia|].
    intros [l lc] p1 Ht. apply Af in Ht as [_ ?]. apply IHtl. lia.
  - intros p l lc Hr. cbn [termLoop]. case_match; [|done].
    apply bind_returns; [apply eat_returns|]. intros tok p1 He.
    apply Hop in He; [|repeat constructor..].
    apply bind_returns; [apply IHf; lia|]. intros [r rc] p2 Ht.
    apply Af in Ht as [_ ?].
    apply bind_returns; [done|]. intros t p3 Hn.
    apply newTemp_Parsed in Hn as [-> ->]. apply IHtl.
    unfold remaining in *. cbn [tokens pos set_tempAddr]. lia.
  - intros p Hr. cbn [parseFactor].
    assert (Hparen :
      (eat "(" ≫= fun _ =>
         parseExpression fuel ≫= fun '(exprAST, exprCode) =>
           eat ")" ≫= fun _ => mret (exprAST, exprCode)) p <> OutOfFuel).
    { apply bind_returns; [apply eat_returns|]. intros tok p1 He.
      apply eat_inside in He as [_ ?]; [|done].
      apply bind_returns; [apply IHe; lia|]. intros [e c] p2 _.
      apply bind_returns; [apply eat_returns|]. done. }
    destruct (currentToken p) eqn:Etok;
      try (case_match; [exact Hparen|done]); clear Hparen.
    + apply bind_returns; [apply eat_returns|]. done.
    + apply bind_returns; [apply eat_returns|]. done.
    + case_match.
      * apply bind_returns; [apply eat_returns|]. intros tok p1 He.
        apply eat_inside in He as [_ ?]; [|done].
        apply bind_returns; [apply eat_returns|]. intros tok' p2 He.
        apply eat_inside in He as [_ ?]; [|done].
        apply bind_returns; [apply IHe; lia|]. intros [e c] p3 _.
        apply bind_returns; [apply eat_returns|]. intros tok'' p4 _.
        repeat case_match; try done.
      * apply bind_returns; [apply eat_returns|]. intros tok p1 _.
        unfold reading. repeat case_match; try done.
        apply bind_returns; [|done]. unfold getVarAddr. by case_match.
Qed.

(** More fuel does not change a result. *)
Lemma bind_stable {A B} (m m' : parser A) (k k' : A -> parser B)
    (p : PL0Parser) :
  (m p <> OutOfFuel -> m' p = m p) ->
  (forall a p1, m p = Parsed a p1 -> k a p1 <> OutOfFuel ->
                k' a p1 = k a p1) ->
  (m ≫= k) p <> OutOfFuel ->
  (m' ≫= k') p = (m ≫= k) p.
Proof.
  unfold mbind, parser_bind. intros Hm Hk.
  destruct (m p) as [a p1|e|] eqn:E; [| |done].
  - intros Hr. rewrite Hm by done. by apply Hk.
  - intros _. by rewrite Hm.
Qed.

Lemma parse_expression_stable (fuel : nat) :
  (forall p, parseExpression fuel p <> OutOfFuel ->
             parseExpression (S fuel) p = parseExpression fuel p)
  /\ (forall p l lc, expressionLoop fuel l lc p <> OutOfFuel ->
                     expressionLoop (S fuel) l lc p = expressionLoop fuel l lc p)
  /\ (forall p, parseTerm fuel p <> OutOfFuel ->
                parseTerm (S fuel) p = parseTerm fuel p)
  /\ (forall p l lc, termLoop fuel l lc p <> OutOfFuel ->
                     termLoop (S fuel) l lc p = termLoop fuel l lc p)
  /\ (forall p, parseFactor fuel p <> OutOfFuel ->
                parseFactor (S fuel) p = parseFactor fuel p).
Proof.
  induction fuel as [|fuel (IHe & IHel & IHt & IHtl & IHf)].
  { split; [done|]. split; [|split; [done|split; [|done]]].
    - intros p l lc. cbn [expressionLoop]. by case_match.
    - intros p l lc. cbn [termLoop]. by case_match. }
  split; [|split; [|split; [|split]]].
  - intros p. cbn [parseExpression]. apply bind_stable; [apply IHt|].
    intros [l lc] p1 _. apply IHel.
  - intros p l lc. cbn [expressionLoop]. case_match; [|done].
    apply bind_stable; [done|]. intros tok p1 _.
    apply bind_stable; [apply IHt|]. intros [r rc] p2 _.
    apply bind_stable; [done|]. intros t p3 _. apply IHel.
  - intros p. cbn [parseTerm]. apply bind_stable; [apply IHf|].
    intros [l lc] p1 _. apply IHtl.
  - intros p l lc. cbn [termLoop]. case_match; [|done].
    apply bind_stable; [done|]. intros tok p1 _.
    apply bind_stable; [apply IHf|]. intros [r rc] p2 _.
    apply bind_stable; [done|]. intros t p3 _. apply IHtl.
  - intros p. cbn [parseFactor].
    destruct (currentToken p) eqn:Etok; try done.
    all: repeat case_match; try done.
    all: repeat (apply bind_stable; [first [done|apply IHe]|];
                 intros ? ? _; try case_match; try done).
    all: try (destruct a; done).
Qed.

(** X29. The expression parser always returns.  With three units of
    fuel for each token that is left, and three more, [parseExpression]
    returns an expression or throws; and more fuel changes nothing: the
    recursion of [parseExpression], [parseTerm] and [parseFactor] and
    their loops end on every token array, because every call and every
    iteration reads at least one token first. *)
Theorem expression_parser_returns (p : PL0Parser) (fuel fuel' : nat) :
  (3 * remaining p + 3 <= fuel)%nat -> (fuel <= fuel')%nat ->
  parseExpression fuel p <> OutOfFuel
  /\ parseExpression fuel' p = parseExpression fuel p.
Proof.
  intros Hfuel Hle.
  pose proof (proj1 (parse_expression_returns fuel) p Hfuel) as Hret.
  split; [done|].
  induction Hle as [|fuel' Hle IH]; [done|].
  rewrite <- IH. apply (proj1 (parse_expression_stable fuel')).
  by rewrite IH.
Qed.
End ParserTermination.

(** ** The further statements at concrete inputs *)




Lemma push_pop_lifo_witness :
  exists s',
    stepN (H := rationalMath) ∅ 4 pushPop = Ok s'
    /\ regs s' = [5; 6; 6; 5]
    /\ dataStack s' = [].
Proof.
  destruct (push_pop_lifo (H := rationalMath) ∅ [0; 1]%nat [2; 3]%nat pushPop)
    as (s' & Hrun & Hregs & Hstack & _).
  - reflexivity.
  - intros [|[|[|[|i]]]] line Hl; by inversion Hl.
  - repeat constructor; cbn; lia.
  - cbn; lia.
  - exists s'. split; [exact Hrun|]. split; [rewrite Hregs|rewrite Hstack];
      vm_compute; reflexivity.
Defined.

Lemma run_keeps_machine_shape_witness :
  exists r,
    execute (H := rationalMath) ∅ pushPop 100 = Some r
    /\ length (regs (final r)) = 4%nat
    /\ (length (dataStack (final r)) <= 256)%nat.
Proof.
  destruct (run_keeps_machine_shape (H := rationalMath) ∅ pushPop 100)
    as (r & Hrun & Hregs & Hstack & _).
  - reflexivity.
  - cbn; lia.
  - exists r. split; [exact Hrun|]. split; [exact Hregs|exact Hstack].
Defined.

Lemma stats_count_provider_calls_witness :
  exists r,
    execute (H := rationalMath) ∅ addWithProvider 10 = Some r
    /\ ops (neuralStats (final r)) !! ADD = Some (callsOf ADD (events r)).
Proof.
  destruct (stats_count_provider_calls (H := rationalMath) ∅ addWithProvider 10)
    as (r & Hrun & Hcount).
  - reflexivity.
  - reflexivity.
  - reflexivity.
  - exists r. split; [exact Hrun|].
    destruct (Hcount ADD) as (f & [Hops _] & _). exact Hops.
Defined.


Lemma analytic_linear_alu_exact_witness :
  exists d,
    NeuralAlu.computeDetailed (H := rationalMath) aluDefault MUL 3 5 = Ok d
    /\ NeuralAlu.pred d = 15 /\ NeuralAlu.result d = 15.
Proof.
  destruct (analytic_linear_alu_exact (H := rationalMath) 65536 1 2 true "floor"
              MUL 3 5)
    as (d & Hd & Hpred & _ & Hres & _).
  - reflexivity.
  - discriminate.
  - vm_compute; discriminate.
  - exists d. split; [exact Hd|]. split; [exact Hpred|exact Hres].
Defined.






Lemma sqrtProvider_constructed : constructed sqrtProvider.
Proof. apply constructed_new; [lia|lia|reflexivity]. Qed.


Lemma statefulProvider_constructed : constructed statefulProvider.
Proof. apply constructed_new; [lia|lia|reflexivity]. Qed.

Lemma reset_forgets_history_witness :
  exists p',
    NeuralMathNarx.reset statefulProvider = Ok p'
    /\ NeuralMathNarx.stats p' = NeuralMathNarx.stats statefulProvider.
Proof.
  destruct (reset_forgets_history (H := rationalMath) statefulProvider
              statefulProvider statefulProvider_constructed
              statefulProvider_constructed eq_refl)
    as (p' & _ & Hreset & _ & _ & Hstats & _).
  exists p'. split; [exact Hreset|exact Hstats].
Defined.

Lemma encodeInstruction_injective_witness :
  length (NeuralCpuGa.encodeInstruction addiInstr) = 34%nat.
Proof.
  refine (proj1 (encodeInstruction_injective addiInstr addiInstr _ _));
    unfold inTable; cbn; lia.
Defined.


Section CompilerWitnesses.
Import Pl0Compiler.

Lemma sample_vars (name : string) (a : Z) :
  ({[ "a" := 0; "b" := 1 ]} : gmap string Z) !! name = Some a -> 0 <= a <= 252.
Proof.
  intros Hl. apply lookup_insert_Some in Hl as [[_ <-]|[_ Hl]]; [lia|].
  apply lookup_singleton_Some in Hl as [_ <-]. lia.
Qed.

Lemma loaded_codeAt (code : list instr) : codeAt (loaded code) 0 code.
Proof. intros i line Hl. exact Hl. Qed.


End CompilerWitnesses.

Section ProgramWitnesses.
Import Pl0Compiler.


Lemma twoPrograms_compiled : compiledAs twoPrograms twoProcedures 253.
Proof.
  intros name proc Hl. unfold twoProcedures in Hl.
  apply lookup_insert_Some in Hl as [[<- <-]|[_ Hl]];
    [|apply lookup_insert_Some in Hl as [[<- <-]|[_ Hl]];
      [|by rewrite lookup_empty in Hl]].
  - exists 50%nat, mainTokens, 10. eexists _, _, _.
    split; [vm_compute; reflexivity|].
    split; [vm_compute; reflexivity|].
    split; [vm_compute; reflexivity|].
    split; [reflexivity|]. cbn. lia.
  - exists 50%nat, twiceTokens, 0. eexists _, _, _.
    split; [vm_compute; reflexivity|].
    split; [vm_compute; reflexivity|].
    split; [vm_compute; reflexivity|].
    split; [reflexivity|]. cbn. lia.
Qed.


Lemma program_resources_witness :
  tempAddr factParser = 252 /\ labelCounter factParser = 102%nat
  /\ varTable factParser !! "f" = Some 1.
Proof.
  destruct (program_resources 50 factTokens 0 65536 factAst factLines
              factParser) as (Ht & Hl & _ & _ & _ & Hv & _).
  - vm_compute; reflexivity.
  - split; [exact Ht|]. split; [exact Hl|]. apply Hv.
    apply elem_of_cons. right. apply elem_of_cons. by left.
Defined.

Lemma unclosed_begin_never_returns_witness :
  parseStatement 1000 unclosedParser = OutOfFuel.
Proof.
  refine (proj2 (proj2 (unclosed_begin_never_returns 1000
                          (set_pos unclosedParser 1) _)
                   unclosedParser _ _)); reflexivity.
Defined.

Lemma expression_parser_returns_witness :
  parseExpression 100 exprParser = parseExpression 24 exprParser.
Proof.
  refine (proj2 (expression_parser_returns exprParser 24 100 _ _)).
  - vm_compute. lia.
  - lia.
Defined.
End ProgramWitnesses.
